(** * jschannel: the channel protocol of [handleBinder.js]

    A shallow embedding of the [Channel] module (the postMessage RPC
    layer): the process-wide registry [s_boundChans], the correlation
    table [s_transIds], the transaction counter [s_curTranId], and, per
    channel, [regTbl], [outTbl], [inTbl], [ready] and [pendingQueue],
    together with [s_addBoundChan], [s_onMessage], [build], [onMessage],
    [createTransaction], [setTransactionTimeout], [postMessage], [call]
    (with its [pruneFunctions] walk), [notify], [bind] and [unbind].

    Conventions of the model.
    - JavaScript values are [value]; objects live in a [heap] and are
      referred to by location, so aliasing and cycles are expressible.
      An object is its class and the association list of its own
      enumerable properties, in enumeration order.  Members inherited
      from [Object.prototype] are not modelled.
    - Numbers are integers ([Z]); the transaction counter starts at most
      at one million, far below the range where doubles stop being exact.
    - Code runs in the monad [M]: a state transformer over the process
      state [Proc] whose result is a normal return or a thrown value.
      A third outcome, [OutOfFuel], exists only for the recursive walk
      and is shown never to be produced by [call].
    - Client code is an input.  A client callback is a [ufun]: it either
      returns or throws.  A bound handler is a [handler] script: the
      transaction operations it performs, then a return or a throw.
    - An inbound message is the record [msg] of the fields the protocol
      reads; its payload values are already placed in the heap (the
      allocation done by [JSON.parse]).
    - [JSON.stringify] and [toString] belong to the platform and are
      taken as the interface [Platform]; the wire carries the message
      object, and [postMessage] fails where its serialisation would.
      Diagnostic output ([debug]) and the two observer hooks are left
      out, as are the reserved handlers of the readiness handshake:
      [ready] is an arbitrary state flag. *)

From Stdlib Require Import ZArith Ascii String List Lia.
From stdpp Require Import base tactics option list functions gmap strings pretty.

Open Scope string_scope.
Open Scope list_scope.
Open Scope Z_scope.

(** ** Strings: [split] and [join] *)

Module Str.

(** [s.split(sep)] for a non-empty separator: scan from the left, cut at
    every occurrence, resume after it.  [skip] counts the characters of
    an occurrence still to be passed over. *)
Fixpoint split_from (sep : string) (skip : nat) (cur : string) (s : string)
  : list string :=
  match s with
  | EmptyString => [cur]
  | String a s' =>
      match skip with
      | S n => split_from sep n cur s'
      | O =>
          if String.prefix sep s
          then cur :: split_from sep (String.length sep - 1) "" s'
          else split_from sep 0 (cur +:+ String a "") s'
      end
  end.

Definition split (sep s : string) : list string := split_from sep 0 "" s.

(** [[a, b].join(sep)] *)
Definition join2 (sep a b : string) : string := a +:+ sep +:+ b.

(** [s] has an occurrence of [sep]. *)
Definition contains (sep s : string) : Prop :=
  ∃ a b, s = a +:+ sep +:+ b.

End Str.

(** ** Values, objects and the heap *)

Definition loc := nat.
Definition chanref := nat.
Definition win := nat.

(** A client function: its identity and, when it does not return
    normally, the string it throws. *)
Record ufun := UFun { uf_name : string; uf_throws : option string }.

(** Function values.  [FRemote c id cbs name] is the closure created by
    [onMessage] for the callback path [name] of the inbound request [id]
    on channel [c]; [cbs] is the request's [callbacks] list, captured by
    the transaction object. *)
Inductive func :=
  | FUser (u : ufun)
  | FRemote (c : chanref) (id : Z) (cbs : list string) (name : string).

Inductive value :=
  | VUndef
  | VNull
  | VBool (b : bool)
  | VNum (n : Z)
  | VStr (s : string)
  | VFun (f : func)
  | VRef (l : loc).

Inductive oclass :=
  | CObject
  | CArray (len : nat)
  | CError (ctor : string) (message : value).

Record object := Obj { o_class : oclass; o_props : list (string * value) }.

Abbreviation heap := (gmap loc object).

#[global] Instance ufun_eq_dec : EqDecision ufun.
Proof. solve_decision. Defined.
#[global] Instance func_eq_dec : EqDecision func.
Proof. solve_decision. Defined.
#[global] Instance value_eq_dec : EqDecision value.
Proof. solve_decision. Defined.

Inductive jstype :=
  | TUndefined | TObject | TBoolean | TNumber | TString | TFunction.

#[global] Instance jstype_eq_dec : EqDecision jstype.
Proof. solve_decision. Defined.

Definition typeof (v : value) : jstype :=
  match v with
  | VUndef => TUndefined
  | VNull => TObject
  | VBool _ => TBoolean
  | VNum _ => TNumber
  | VStr _ => TString
  | VFun _ => TFunction
  | VRef _ => TObject
  end.

(** Truthiness, as tested by [if (v)] and [!v]. *)
Definition truthy (v : value) : bool :=
  match v with
  | VUndef | VNull => false
  | VBool b => b
  | VNum n => negb (n =? 0)
  | VStr s => negb (String.eqb s "")
  | VFun _ | VRef _ => true
  end.

(** Own enumerable properties. *)
Fixpoint assoc (k : string) (ps : list (string * value)) : option value :=
  match ps with
  | [] => None
  | (k', v) :: r => if String.eqb k k' then Some v else assoc k r
  end.

Definition remove_key (k : string) (ps : list (string * value))
  : list (string * value) :=
  filter (λ p, p.1 ≠ k) ps.

Fixpoint put_key (k : string) (v : value) (ps : list (string * value))
  : list (string * value) :=
  match ps with
  | [] => [(k, v)]
  | (k', v') :: r =>
      if String.eqb k k' then (k, v) :: r else (k', v') :: put_key k v r
  end.

(** [for (k in obj)] restricted by [hasOwnProperty]: the key snapshot. *)
Definition own_keys (h : heap) (l : loc) : list string :=
  match h !! l with
  | Some o => (o_props o).*1
  | None => []
  end.

(** [obj.hasOwnProperty(k)] together with [obj[k]]. *)
Definition own_prop (h : heap) (l : loc) (k : string) : option value :=
  o ← h !! l; assoc k (o_props o).

(** [delete obj[k]] *)
Definition delete_prop (l : loc) (k : string) (h : heap) : heap :=
  alter (λ o, Obj (o_class o) (remove_key k (o_props o))) l h.

(** [obj[k] = v] on an existing object *)
Definition store_prop (l : loc) (k : string) (v : value) (h : heap) : heap :=
  alter (λ o, Obj (o_class o) (put_key k v (o_props o))) l h.

Definition fresh_loc (h : heap) : loc := fresh (dom h).

(** ** The callback-extraction walk of [call]

    [pruneFunctions] closes over three locals of [call]: the table
    [callbacks], the list [callbackNames] and the list [seen]; it also
    mutates the objects it visits.  [walk] is that state. *)

Record walk := Walk {
  w_heap : heap;
  w_seen : list value;
  w_callbacks : gmap string value;
  w_callbackNames : list string;
}.

Inductive walk_res :=
  | WDone (s : walk)
  | WThrow (e : value) (s : walk)
  | WOutOfFuel.

Definition recursive_params_error : value :=
  VStr "params cannot be a recursive data structure".

(** [path + (path.length ? '/' : '') + k] *)
Definition sub_path (path k : string) : string :=
  path +:+ (if String.eqb path "" then "" else "/") +:+ k.

(** The body of the [for (var k in obj)] loop, over the key snapshot
    [ks]; [rec] is the recursive call. *)
Fixpoint prune_props (rec : string → value → walk → walk_res)
    (l : loc) (path : string) (ks : list string) (s : walk) : walk_res :=
  match ks with
  | [] => WDone s
  | k :: ks' =>
      match own_prop (w_heap s) l k with
      | None => prune_props rec l path ks' s
      | Some v =>
          let np := sub_path path k in
          match typeof v with
          | TFunction =>
              prune_props rec l path ks'
                (Walk (delete_prop l k (w_heap s)) (w_seen s)
                      (<[np := v]> (w_callbacks s))
                      (w_callbackNames s ++ [np]))
          | TObject =>
              match rec np v s with
              | WDone s' => prune_props rec l path ks' s'
              | r => r
              end
          | _ => prune_props rec l path ks' s
          end
      end
  end.

Fixpoint pruneFunctions (fuel : nat) (path : string) (obj : value) (s : walk)
  : walk_res :=
  match fuel with
  | O => WOutOfFuel
  | S n =>
      if bool_decide (obj ∈ w_seen s) then WThrow recursive_params_error s
      else
        let s1 :=
          if truthy obj
          then Walk (w_heap s) (w_seen s ++ [obj]) (w_callbacks s)
                    (w_callbackNames s)
          else s in
        match obj with
        | VRef l =>
            prune_props (pruneFunctions n) l path (own_keys (w_heap s1) l) s1
        | _ => WDone s1
        end
  end.

Definition walk_init (h : heap) : walk := Walk h [] ∅ [].

(** Fuel that always suffices: one level of recursion per object of the
    heap, plus the entry. *)
Definition walk_fuel (h : heap) : nat := S (S (size h)).

(** ** Messages, handlers and the process state *)

(** A message object.  Absent fields of the envelope are [None]; absent
    payload fields are [VUndef], which [JSON.stringify] leaves out. *)
Record msg := Msg {
  m_id : option Z;
  m_method : option string;
  m_params : value;
  m_callbacks : option (list string);
  m_callback : option string;
  m_error : value;
  m_message : value;
  m_result : value;
}.

(** The five object literals the channel posts. *)
Definition Request (id : Z) (method : string) (params : value)
    (callbackNames : list string) : msg :=
  Msg (Some id) (Some method) params
      (match callbackNames with [] => None | _ => Some callbackNames end)
      None VUndef VUndef VUndef.
Definition CallbackInvocation (id : Z) (cb : string) (params : value) : msg :=
  Msg (Some id) None params None (Some cb) VUndef VUndef VUndef.
Definition ErrorResponse (id : Z) (error message : value) : msg :=
  Msg (Some id) None VUndef None None error message VUndef.
Definition Response (id : Z) (result : value) : msg :=
  Msg (Some id) None VUndef None None VUndef VUndef result.
Definition Notification (method : string) (params : value) : msg :=
  Msg None (Some method) params None None VUndef VUndef VUndef.

Definition truthy_id (i : option Z) : bool :=
  match i with Some n => negb (n =? 0) | None => false end.
Definition truthy_str (s : option string) : bool :=
  match s with Some s => negb (String.eqb s "") | None => false end.

(** A bound handler, as the dispatcher sees it: the operations it
    performs on the transaction object and on its parameters, in order,
    and how it ends.  An operation that throws ends the handler with
    that exception. *)
Inductive hop :=
  | HInvoke (cbName : string) (v : value)      (* trans.invoke(cbName, v) *)
  | HApply (path : list string) (v : value)    (* params.p1...pn(v) *)
  | HError (error message : value)             (* trans.error(error, message) *)
  | HComplete (v : value)                      (* trans.complete(v) *)
  | HDelayReturn (delay : value).              (* trans.delayReturn(delay) *)

Inductive hfin :=
  | HReturn (v : value)
  | HThrow (e : value)          (* throw e, for a primitive or an existing object *)
  | HThrowNew (o : object).     (* throw of a freshly created object *)

Record handler := Handler { h_ops : list hop; h_fin : hfin }.

Record out_entry := OutEntry {
  oe_callbacks : gmap string value;
  oe_error : value;
  oe_success : value;
}.

Inductive publish_action := PBind | PUnbind.

(** The closure environment of one [Channel.build]. *)
Record chan := Chan {
  cfg_window : win;
  cfg_origin : string;
  cfg_scope : string;
  cfg_publish : bool;
  regTbl : gmap string handler;
  outTbl : gmap Z out_entry;
  inTbl : gset Z;
  ready : bool;
  pendingQueue : list msg;
  publishQueue : list (publish_action * string);
}.

Definition chan_unbuilt : chan :=
  Chan 0%nat "" "" false ∅ ∅ ∅ false [] [].

Record bound := Bound { b_win : win; b_handler : chanref }.

(** A timer armed by [setTransactionTimeout]. *)
Record timer := Timer {
  tm_chan : chanref;
  tm_transId : Z;
  tm_timeout : value;
  tm_method : string;
}.

(** Where a function value is called from. *)
Inductive call_site :=
  | SiteSuccess (id : Z)                 (* outTbl[id].success(...) *)
  | SiteError (id : Z)                   (* outTbl[id].error(...) *)
  | SiteCallback (id : Z) (cb : string)  (* outTbl[id].callbacks[cb](...) *)
  | SiteHandler.                         (* inside a bound handler *)

Record invocation := Invocation {
  i_site : call_site;
  i_fun : func;
  i_args : list value;
}.

(** [cfg.window.postMessage(JSON.stringify(msg), cfg.origin)] *)
Record posted := Posted { p_window : win; p_origin : string; p_msg : msg }.

Record Proc := MkProc {
  window : win;
  s_curTranId : Z;
  s_boundChans : gmap string (gmap string (list bound));
  s_transIds : gmap Z chanref;
  chans : chanref → chan;
  nchans : nat;
  the_heap : heap;
  timers : list timer;
  wire : list posted;
  log : list invocation;
}.

Definition set_curTranId (f : Z → Z) (st : Proc) : Proc :=
  MkProc (window st) (f (s_curTranId st)) (s_boundChans st) (s_transIds st)
         (chans st) (nchans st) (the_heap st) (timers st) (wire st) (log st).
Definition set_boundChans
    (f : gmap string (gmap string (list bound))
         → gmap string (gmap string (list bound))) (st : Proc) : Proc :=
  MkProc (window st) (s_curTranId st) (f (s_boundChans st)) (s_transIds st)
         (chans st) (nchans st) (the_heap st) (timers st) (wire st) (log st).
Definition set_transIds (f : gmap Z chanref → gmap Z chanref) (st : Proc)
  : Proc :=
  MkProc (window st) (s_curTranId st) (s_boundChans st) (f (s_transIds st))
         (chans st) (nchans st) (the_heap st) (timers st) (wire st) (log st).
Definition set_chan (c : chanref) (f : chan → chan) (st : Proc) : Proc :=
  MkProc (window st) (s_curTranId st) (s_boundChans st) (s_transIds st)
         (<[c := f (chans st c)]> (chans st)) (nchans st) (the_heap st)
         (timers st) (wire st) (log st).
Definition set_nchans (f : nat → nat) (st : Proc) : Proc :=
  MkProc (window st) (s_curTranId st) (s_boundChans st) (s_transIds st)
         (chans st) (f (nchans st)) (the_heap st) (timers st) (wire st)
         (log st).
Definition set_heap (f : heap → heap) (st : Proc) : Proc :=
  MkProc (window st) (s_curTranId st) (s_boundChans st) (s_transIds st)
         (chans st) (nchans st) (f (the_heap st)) (timers st) (wire st)
         (log st).
Definition set_timers (f : list timer → list timer) (st : Proc) : Proc :=
  MkProc (window st) (s_curTranId st) (s_boundChans st) (s_transIds st)
         (chans st) (nchans st) (the_heap st) (f (timers st)) (wire st)
         (log st).
Definition set_wire (f : list posted → list posted) (st : Proc) : Proc :=
  MkProc (window st) (s_curTranId st) (s_boundChans st) (s_transIds st)
         (chans st) (nchans st) (the_heap st) (timers st) (f (wire st))
         (log st).
Definition set_log (f : list invocation → list invocation) (st : Proc)
  : Proc :=
  MkProc (window st) (s_curTranId st) (s_boundChans st) (s_transIds st)
         (chans st) (nchans st) (the_heap st) (timers st) (wire st)
         (f (log st)).

Definition set_regTbl (f : gmap string handler → gmap string handler)
    (ch : chan) : chan :=
  Chan (cfg_window ch) (cfg_origin ch) (cfg_scope ch) (cfg_publish ch)
       (f (regTbl ch)) (outTbl ch) (inTbl ch) (ready ch) (pendingQueue ch)
       (publishQueue ch).
Definition set_outTbl (f : gmap Z out_entry → gmap Z out_entry) (ch : chan)
  : chan :=
  Chan (cfg_window ch) (cfg_origin ch) (cfg_scope ch) (cfg_publish ch)
       (regTbl ch) (f (outTbl ch)) (inTbl ch) (ready ch) (pendingQueue ch)
       (publishQueue ch).
Definition set_inTbl (f : gset Z → gset Z) (ch : chan) : chan :=
  Chan (cfg_window ch) (cfg_origin ch) (cfg_scope ch) (cfg_publish ch)
       (regTbl ch) (outTbl ch) (f (inTbl ch)) (ready ch) (pendingQueue ch)
       (publishQueue ch).
Definition set_pendingQueue (f : list msg → list msg) (ch : chan) : chan :=
  Chan (cfg_window ch) (cfg_origin ch) (cfg_scope ch) (cfg_publish ch)
       (regTbl ch) (outTbl ch) (inTbl ch) (ready ch) (f (pendingQueue ch))
       (publishQueue ch).
Definition set_publishQueue
    (f : list (publish_action * string) → list (publish_action * string))
    (ch : chan) : chan :=
  Chan (cfg_window ch) (cfg_origin ch) (cfg_scope ch) (cfg_publish ch)
       (regTbl ch) (outTbl ch) (inTbl ch) (ready ch) (pendingQueue ch)
       (f (publishQueue ch)).

(** ** The monad of channel code *)

Inductive res (A : Type) :=
  | Ok (a : A) (st : Proc)
  | Exc (e : value) (st : Proc)
  | OutOfFuel.
Arguments Ok {A} a st.
Arguments Exc {A} e st.
Arguments OutOfFuel {A}.

Definition M (A : Type) : Type := Proc → res A.

Definition ret {A} (a : A) : M A := λ st, Ok a st.
Definition throw {A} (e : value) : M A := λ st, Exc e st.
Definition and_then {A B} (m : M A) (k : A → M B) : M B :=
  λ st, match m st with
        | Ok a st' => k a st'
        | Exc e st' => Exc e st'
        | OutOfFuel => OutOfFuel
        end.
(** [try { m } catch (e) { k e }] *)
Definition try_catch {A} (m : M A) (k : value → M A) : M A :=
  λ st, match m st with
        | Exc e st' => k e st'
        | r => r
        end.
Definition get : M Proc := λ st, Ok st st.
Definition modify (f : Proc → Proc) : M unit := λ st, Ok tt (f st).

Notation "'let!' x ':=' m 'in' k" := (and_then m (λ x, k))
  (at level 10, x pattern, m at level 100, k at level 200, only parsing).
Notation "m '>>' k" := (and_then m (λ _, k))
  (at level 100, k at level 200, right associativity, only parsing).

(** The state a computation leaves behind. *)
Definition state_after {A} (st0 : Proc) (r : res A) : Proc :=
  match r with
  | Ok _ st => st
  | Exc _ st => st
  | OutOfFuel => st0
  end.

(** ** Paths through the graph of a value *)

(** Following the property names [p] from [v]. *)
Fixpoint resolve (h : heap) (v : value) (p : list string) : option value :=
  match p with
  | [] => Some v
  | k :: r =>
      match v with
      | VRef l => x ← own_prop h l k; resolve h x r
      | _ => None
      end
  end.

(** One object of the graph of [v] is reached along two different
    paths. *)
Definition shared_object (h : heap) (v : value) : Prop :=
  ∃ p1 p2 l, p1 ≠ p2 ∧ resolve h v p1 = Some (VRef l)
             ∧ resolve h v p2 = Some (VRef l).

(** The graph of [v] has a cycle. *)
Definition cyclic (h : heap) (v : value) : Prop :=
  ∃ q p l, p ≠ [] ∧ resolve h v q = Some (VRef l)
           ∧ resolve h (VRef l) p = Some (VRef l).

(** ** The platform

    Serialisation and rendering of values, and the two capability checks
    made by [build].  In this universe of values [JSON.stringify] has
    one reason to throw: a cycle. *)
Inductive stringified :=
  | SText (s : string)     (* a JSON text *)
  | SUndefined             (* JSON.stringify returned undefined *)
  | SThrows.               (* JSON.stringify threw *)

Class Platform := {
  JSON_stringify : heap → value → stringified;
  js_toString : heap → value → string;
  has_postMessage : bool;
  has_JSON : bool;
  stringify_throws_cyclic :
    ∀ h v, JSON_stringify h v = SThrows → cyclic h v;
}.

(** ** Origins accepted by [build]

    [cfg.origin.match(/^https?:\/\/(?:[-a-zA-Z0-9_\.])+(?::\d+)?/)]
    followed by [toLowerCase()] of the matched prefix. *)

Definition in_range (lo hi : nat) (a : ascii) : bool :=
  ((lo <=? nat_of_ascii a) && (nat_of_ascii a <=? hi))%nat.

Definition is_digit (a : ascii) : bool := in_range 48 57 a.

Definition is_host_char (a : ascii) : bool :=
  in_range 45 46 a            (* '-' and '.' *)
  || in_range 97 122 a        (* a-z *)
  || in_range 65 90 a         (* A-Z *)
  || is_digit a
  || in_range 95 95 a.        (* '_' *)

Fixpoint take_while (p : ascii → bool) (s : string) : string * string :=
  match s with
  | EmptyString => ("", "")
  | String a r =>
      if p a then let '(t, d) := take_while p r in (String a t, d)
      else ("", s)
  end.

Fixpoint strip_prefix (p s : string) : option string :=
  match p, s with
  | EmptyString, _ => Some s
  | String a p', String b s' =>
      if Ascii.eqb a b then strip_prefix p' s' else None
  | String _ _, EmptyString => None
  end.

Definition lower_char (a : ascii) : ascii :=
  if in_range 65 90 a then ascii_of_nat (nat_of_ascii a + 32) else a.

Fixpoint toLowerCase (s : string) : string :=
  match s with
  | EmptyString => ""
  | String a r => String (lower_char a) (toLowerCase r)
  end.

Definition match_origin (s : string) : option string :=
  let scheme :=
    match strip_prefix "https://" s with
    | Some r => Some ("https://", r)
    | None =>
        match strip_prefix "http://" s with
        | Some r => Some ("http://", r)
        | None => None
        end
    end in
  match scheme with
  | None => None
  | Some (sch, r) =>
      let '(host, r') := take_while is_host_char r in
      if String.eqb host "" then None
      else
        let port :=
          match r' with
          | String ":" r'' =>
              let '(digits, _) := take_while is_digit r'' in
              if String.eqb digits "" then "" else ":" +:+ digits
          | _ => ""
          end in
        Some (toLowerCase (sch +:+ host +:+ port))
  end.

(** The [validOrigin] block of [build]: the origin the channel keeps. *)
Definition valid_origin (o : value) : option string :=
  match o with
  | VStr s => if String.eqb s "*" then Some "*" else match_origin s
  | _ => None
  end.

(** [Math.floor(Math.random()*1000001)], for [Math.random()] returning
    the double [k / 2^53] with [0 <= k < 2^53]; the rounding of the
    product is not modelled. *)
Definition initial_tran_id (k : Z) : Z := (k * 1000001) / 2 ^ 53.

(** ** The channel code *)

Section Channel.
Context `{Platform}.

(** A fresh object on the heap. *)
Definition alloc (o : object) : M value := λ st,
  let l := fresh_loc (the_heap st) in
  Ok (VRef l) (set_heap (insert l o) st).

(** A [TypeError] raised by the engine; its text is the engine's own. *)
Definition type_error {A} (text : string) : M A :=
  let! e := alloc (Obj (CError "TypeError" (VStr text)) []) in throw e.

(** [v[k]] *)
Definition get_prop (v : value) (k : string) : M value :=
  match v with
  | VUndef | VNull => type_error "cannot read a property of null or undefined"
  | VRef l =>
      let! st := get in
      match the_heap st !! l with
      | Some o =>
          match o_class o with
          | CError _ message =>
              if String.eqb k "message" then ret message
              else ret (default VUndef (assoc k (o_props o)))
          | CArray len =>
              if String.eqb k "length" then ret (VNum (Z.of_nat len))
              else ret (default VUndef (assoc k (o_props o)))
          | CObject => ret (default VUndef (assoc k (o_props o)))
          end
      | None => ret VUndef
      end
  | _ => ret VUndef
  end.

(** [v[k] = x], in strict mode *)
Definition set_prop (v : value) (k : string) (x : value) : M unit :=
  match v with
  | VRef l => modify (set_heap (store_prop l k x))
  | VFun _ => ret tt
  | _ => type_error "cannot set a property of a primitive value"
  end.

(** The string a value contributes to a concatenation. *)
Definition to_display (h : heap) (v : value) : string :=
  match v with
  | VStr s => s
  | VNum n => pretty n
  | VBool true => "true"
  | VBool false => "false"
  | VUndef => "undefined"
  | VNull => "null"
  | _ => js_toString h v
  end.

(** [s_isArray] *)
Definition s_isArray (h : heap) (v : value) : bool :=
  match v with
  | VRef l =>
      match h !! l with
      | Some (Obj (CArray _) _) => true
      | _ => false
      end
  | _ => false
  end.

(** *** The registry *)

(** [hasWin] of [s_addBoundChan] *)
Fixpoint hasWin (w : win) (arr : list bound) : bool :=
  match arr with
  | [] => false
  | b :: r => if bool_decide (b_win b = w) then true else hasWin w r
  end.

(** The [for (var k in s_boundChans)] loop of the wildcard case. *)
Fixpoint scan_origins (w : win) (scope : string)
    (buckets : list (string * gmap string (list bound))) : bool :=
  match buckets with
  | [] => false
  | (k, scopes) :: r =>
      if String.eqb k "*" then scan_origins w scope r
      else
        match scopes !! scope with
        | Some arr => if hasWin w arr then true else scan_origins w scope r
        | None => scan_origins w scope r
        end
  end.

Definition bucket (reg : gmap string (gmap string (list bound)))
    (origin scope : string) : option (list bound) :=
  scopes ← reg !! origin; scopes !! scope.

Definition overlap_error (origin scope : string) : value :=
  VStr ("A channel is already bound to the same window which overlaps with origin '"
        +:+ origin +:+ "' and has scope '" +:+ scope +:+ "'").

Definition s_addBoundChan (w : win) (origin scope : string)
    (handler : chanref) : M unit := λ st,
  let reg := s_boundChans st in
  let exists_ :=
    if String.eqb origin "*" then scan_origins w scope (map_to_list reg)
    else
      let star :=
        match bucket reg "*" scope with
        | Some arr => hasWin w arr
        | None => false
        end in
      if star then true
      else
        match bucket reg origin scope with
        | Some arr => hasWin w arr
        | None => false
        end in
  if exists_ then Exc (overlap_error origin scope) st
  else
    let scopes : gmap string (list bound) := default ∅ (reg !! origin) in
    let arr : list bound := default [] (scopes !! scope) in
    Ok tt (set_boundChans
             (insert origin (<[scope := (arr ++ [Bound w handler])%list]> scopes))
             st).

(** *** Posting *)

Definition scopeMethod (ch : chan) (m : string) : string :=
  Str.join2 "::" (cfg_scope ch) m.

(** [JSON.stringify(msg)] throws: one of the payload fields cannot be
    serialised. *)
Definition stringify_throws (h : heap) (v : value) : bool :=
  match JSON_stringify h v with
  | SThrows => true
  | _ => false
  end.

Definition unserializable (h : heap) (m : msg) : bool :=
  stringify_throws h (m_params m) || stringify_throws h (m_error m)
  || stringify_throws h (m_message m) || stringify_throws h (m_result m).

(** [postMessage]: the message is serialised on both paths (for the
    diagnostic line when it is queued, for the wire when it is sent)
    before anything else happens. *)
Definition postMessage (c : chanref) (m : msg) (force : bool) : M unit :=
  let! st := get in
  if unserializable (the_heap st) m
  then type_error "cannot serialise the message"
  else
    let ch := chans st c in
    if negb force && negb (ready ch)
    then modify (set_chan c (set_pendingQueue (λ q, q ++ [m])))
    else modify (set_wire
                   (λ w, w ++ [Posted (cfg_window ch) (cfg_origin ch) m])).

(** *** [createTransaction] *)

Definition trans_invoke (c : chanref) (id : Z) (callbacks : list string)
    (cbName : string) (v : value) : M unit :=
  let! st := get in
  if negb (bool_decide (id ∈ inTbl (chans st c)))
  then throw (VStr ("attempting to invoke a callback of a nonexistent transaction: "
                    +:+ pretty id))
  else if negb (bool_decide (cbName ∈ callbacks))
  then throw (VStr ("request supports no such callback '" +:+ cbName +:+ "'"))
  else postMessage c (CallbackInvocation id cbName v) false.

Definition trans_error (c : chanref) (id : Z) (error message : value)
  : M unit :=
  let! st := get in
  if negb (bool_decide (id ∈ inTbl (chans st c)))
  then throw (VStr ("error called for nonexistent message: " +:+ pretty id))
  else
    modify (set_chan c (set_inTbl (λ t, t ∖ {[id]}))) >>
    postMessage c (ErrorResponse id error message) false.

Definition trans_complete (c : chanref) (id : Z) (v : value) : M unit :=
  let! st := get in
  if negb (bool_decide (id ∈ inTbl (chans st c)))
  then throw (VStr ("complete called for nonexistent message: " +:+ pretty id))
  else
    modify (set_chan c (set_inTbl (λ t, t ∖ {[id]}))) >>
    postMessage c (Response id v) false.

(** The two closure variables of a transaction object. *)
Record trans_flags := TransFlags {
  shouldDelayReturn : bool;
  completed : bool;
}.

(** Calling a function value: a client function is recorded in [log]
    and returns or throws; a synthesized callback runs [trans.invoke]. *)
Definition invoke_value (site : call_site) (f : value) (args : list value)
  : M value :=
  match f with
  | VFun (FUser u) =>
      modify (set_log (λ l, l ++ [Invocation site (FUser u) args])) >>
      match uf_throws u with
      | Some e => throw (VStr e)
      | None => ret VUndef
      end
  | VFun (FRemote c id cbs name) =>
      modify (set_log (λ l, l ++ [Invocation site (FRemote c id cbs name) args])) >>
      trans_invoke c id cbs name (default VUndef (head args)) >>
      ret VUndef
  | _ => type_error "value is not a function"
  end.

(** *** Running a bound handler *)

(** What the handler receives as [trans]: a transaction object for a
    request, the bare [{origin: origin}] for a notification. *)
Inductive trans_ctx :=
  | TRequest (c : chanref) (id : Z) (callbacks : list string)
  | TNotification.

Fixpoint get_path (v : value) (path : list string) : M value :=
  match path with
  | [] => ret v
  | k :: r => let! x := get_prop v k in get_path x r
  end.

Definition run_op (tc : trans_ctx) (params : value) (op : hop)
    (fl : trans_flags) : M trans_flags :=
  match op, tc with
  | HApply path v, _ =>
      let! f := get_path params path in
      invoke_value SiteHandler f [v] >> ret fl
  | HInvoke cbName v, TRequest c id cbs =>
      trans_invoke c id cbs cbName v >> ret fl
  | HError e m, TRequest c id cbs =>
      trans_error c id e m >> ret (TransFlags (shouldDelayReturn fl) true)
  | HComplete v, TRequest c id cbs =>
      trans_complete c id v >> ret (TransFlags (shouldDelayReturn fl) true)
  | HDelayReturn d, TRequest c id cbs =>
      match d with
      | VBool b => ret (TransFlags b (completed fl))
      | _ => ret fl
      end
  | _, TNotification => type_error "trans has no such method"
  end.

Fixpoint run_ops (tc : trans_ctx) (params : value) (ops : list hop)
    (fl : trans_flags) : M trans_flags :=
  match ops with
  | [] => ret fl
  | op :: r => let! fl' := run_op tc params op fl in run_ops tc params r fl'
  end.

Definition finish (f : hfin) : M value :=
  match f with
  | HReturn v => ret v
  | HThrow e => throw e
  | HThrowNew o => let! e := alloc o in throw e
  end.

(** [regTbl[method](trans, m.params)] *)
Definition run_handler (tc : trans_ctx) (params : value) (h : handler)
    (fl : trans_flags) : M (value * trans_flags) :=
  let! fl' := run_ops tc params (h_ops h) fl in
  let! r := finish (h_fin h) in
  ret (r, fl').

(** *** Callback synthesis on an inbound request *)

(** The loop over [pathItems[0 .. length-2]]. *)
Fixpoint descend (obj : value) (items : list string) : M value :=
  match items with
  | [] => ret obj
  | cp :: r =>
      let! x := get_prop obj cp in
      (if bool_decide (typeof x = TObject) then ret tt
       else let! o := alloc (Obj CObject []) in set_prop obj cp o) >>
      let! obj' := get_prop obj cp in
      descend obj' r
  end.

Definition synth_one (c : chanref) (id : Z) (callbacks : list string)
    (params : value) (path : string) : M unit :=
  let pathItems := Str.split "/" path in
  let! obj := descend params (removelast pathItems) in
  set_prop obj (List.last pathItems "") (VFun (FRemote c id callbacks path)).

Fixpoint synth_all (c : chanref) (id : Z) (callbacks : list string)
    (params : value) (paths : list string) : M unit :=
  match paths with
  | [] => ret tt
  | p :: r =>
      synth_one c id callbacks params p >> synth_all c id callbacks params r
  end.

(** *** Normalisation of a thrown value (the [catch] block) *)

Definition render (e : value) : M value :=
  match e with
  | VUndef | VNull => type_error "cannot call toString of null or undefined"
  | _ => let! st := get in ret (VStr (js_toString (the_heap st) e))
  end.

Definition try_harder (e : value) : M value :=
  try_catch
    (let! st := get in
     match JSON_stringify (the_heap st) e with
     | SText s => ret (VStr s)
     | SUndefined => render e
     | SThrows => throw VUndef
     end)
    (λ _, render e).

Definition is_error_instance (h : heap) (e : value) : option (string * value) :=
  match e with
  | VRef l =>
      match h !! l with
      | Some (Obj (CError ctor message) _) => Some (ctor, message)
      | _ => None
      end
  | _ => None
  end.

Definition normalize_exception (e : value) : M (value * value) :=
  let! st := get in
  let h := the_heap st in
  let! (error, message, e) :=
    match typeof e with
    | TString => ret (VStr "runtime_error", e, e)
    | TObject =>
        match is_error_instance h e with
        | Some (ctor, message) => ret (VStr ctor, message, e)
        | None =>
            let! len := (if truthy e && s_isArray h e
                         then get_prop e "length" else ret VUndef) in
            if bool_decide (len = VNum 2) then
              let! e0 := get_prop e "0" in
              let! e1 := get_prop e "1" in
              ret (e0, e1, e)
            else
              let! err := get_prop e "error" in
              if bool_decide (typeof err = TString) then
                let! msg := get_prop e "message" in
                if negb (truthy msg) then ret (err, VStr "", e)
                else if bool_decide (typeof msg = TString) then ret (err, msg, e)
                else ret (err, VNull, msg)
              else ret (VStr "runtime_error", VNull, e)
        end
    | _ => ret (VStr "runtime_error", VNull, e)
    end in
  if bool_decide (message = VNull) then
    let! message := try_harder e in ret (error, message)
  else ret (error, message).

(** *** [onMessage]: the per-channel dispatcher *)

Definition evict (c : chanref) (id : Z) : M unit :=
  modify (set_chan c (set_outTbl (delete id))) >>
  modify (set_transIds (delete id)).

(** The [try] block of the request branch: callback synthesis, the
    handler, and the automatic completion. *)
Definition request_try (c : chanref) (id : Z) (callbacks : list string)
    (m : msg) (h : handler) : M unit :=
  synth_all c id callbacks (m_params m) (default [] (m_callbacks m)) >>
  let! (resp, fl) :=
    run_handler (TRequest c id callbacks) (m_params m) h
                (TransFlags false false) in
  if negb (shouldDelayReturn fl) && negb (completed fl)
  then trans_complete c id resp
  else ret tt.

(** Its [catch] block. *)
Definition request_catch (c : chanref) (id : Z) (e : value) : M unit :=
  let! (error, message) := normalize_exception e in
  trans_error c id error message.

(** [m.id && method]: a request. *)
Definition on_request (c : chanref) (id : Z) (meth : string) (m : msg)
  : M unit :=
  modify (set_chan c (set_inTbl (λ t, {[id]} ∪ t))) >>
  let callbacks := default [] (m_callbacks m) in
  let! st := get in
  match regTbl (chans st c) !! meth with
  | Some h => try_catch (request_try c id callbacks m h) (request_catch c id)
  | None =>
      trans_error c id (VStr "method_not_found")
        (VStr ("No method '" +:+ meth +:+ "' was (yet) bound by the provider"))
  end.

(** [m.id && m.callback]: a callback invocation. *)
Definition on_callback (c : chanref) (id : Z) (cb : string) (m : msg)
  : M unit :=
  let! st := get in
  match outTbl (chans st c) !! id with
  | Some e =>
      match oe_callbacks e !! cb with
      | Some f =>
          if truthy f
          then invoke_value (SiteCallback id cb) f [m_params m] >> ret tt
          else ret tt
      | None => ret tt
      end
  | None => ret tt
  end.

(** [m.id]: a response or an error response. *)
Definition on_response (c : chanref) (id : Z) (m : msg) : M unit :=
  let! st := get in
  match outTbl (chans st c) !! id with
  | None => ret tt
  | Some e =>
      (if truthy (m_error m) then
         if truthy (oe_error e)
         then invoke_value (SiteError id) (oe_error e)
                           [m_error m; m_message m] >> ret tt
         else ret tt
       else
         if bool_decide (m_result m = VUndef)
         then invoke_value (SiteSuccess id) (oe_success e) [] >> ret tt
         else invoke_value (SiteSuccess id) (oe_success e) [m_result m]
              >> ret tt) >>
      evict c id
  end.

(** [method]: a notification. *)
Definition on_notification (c : chanref) (meth : string) (m : msg) : M unit :=
  let! st := get in
  match regTbl (chans st c) !! meth with
  | Some h =>
      run_handler TNotification (m_params m) h (TransFlags false false)
      >> ret tt
  | None => ret tt
  end.

Definition onMessage (c : chanref) (origin : string) (method : option string)
    (m : msg) : M unit :=
  let id := default 0 (m_id m) in
  let meth := default "" method in
  if truthy_id (m_id m) && truthy_str method then on_request c id meth m
  else if truthy_id (m_id m) && truthy_str (m_callback m)
  then on_callback c id (default "" (m_callback m)) m
  else if truthy_id (m_id m) then on_response c id m
  else if truthy_str method then on_notification c meth m
  else ret tt.

(** *** Timeouts *)

Definition setTransactionTimeout (c : chanref) (transId : Z)
    (timeout : value) (method : string) : M unit :=
  modify (set_timers (λ ts, ts ++ [Timer c transId timeout method])).

(** The function handed to [window.setTimeout], when it runs. *)
Definition timeout_expired (t : timer) : M unit :=
  let c := tm_chan t in
  let transId := tm_transId t in
  let! st := get in
  match outTbl (chans st c) !! transId with
  | Some e =>
      let message :=
        "timeout (" +:+ to_display (the_heap st) (tm_timeout t)
        +:+ "ms) exceeded on method '" +:+ tm_method t +:+ "'" in
      (if truthy (oe_error e)
       then invoke_value (SiteError transId) (oe_error e)
                         [VStr "timeout_error"; VStr message] >> ret tt
       else ret tt) >>
      evict c transId
  | None => ret tt
  end.

(** *** [call], [notify], [bind], [unbind] *)

Record call_args := CallArgs {
  a_method : value;
  a_params : value;
  a_success : value;
  a_error : value;
  a_timeout : value;
}.

(** [pruneFunctions("", m.params)] inside [call]; the locals
    [callbacks] and [callbackNames] are returned. *)
Definition prune_params (params : value)
  : M (gmap string value * list string) := λ st,
  match pruneFunctions (walk_fuel (the_heap st)) "" params
                       (walk_init (the_heap st)) with
  | WDone w =>
      Ok (w_callbacks w, w_callbackNames w) (set_heap (λ _, w_heap w) st)
  | WThrow e w => Exc e (set_heap (λ _, w_heap w) st)
  | WOutOfFuel => OutOfFuel
  end.

Definition call (c : chanref) (m : option call_args) : M unit :=
  match m with
  | None => throw (VStr "missing arguments to call function")
  | Some m =>
      match a_method m with
      | VStr method =>
          if String.eqb method ""
          then throw (VStr "'method' argument to call must be string")
          else if negb (bool_decide (typeof (a_success m) = TFunction))
          then throw (VStr "'success' callback missing from call")
          else
            let! (callbacks, callbackNames) := prune_params (a_params m) in
            let! st := get in
            let id := s_curTranId st in
            let wire_method := scopeMethod (chans st c) method in
            let message := Request id wire_method (a_params m) callbackNames in
            (if truthy (a_timeout m)
             then setTransactionTimeout c id (a_timeout m) wire_method
             else ret tt) >>
            modify (set_chan c (set_outTbl
              (insert id (OutEntry callbacks (a_error m) (a_success m))))) >>
            modify (set_transIds (insert id c)) >>
            modify (set_curTranId (λ n, n + 1)) >>
            postMessage c message false
      | _ => throw (VStr "'method' argument to call must be string")
      end
  end.

Record notify_args := NotifyArgs { n_method : value; n_params : value }.

Definition notify (c : chanref) (m : option notify_args) : M unit :=
  match m with
  | None => throw (VStr "missing arguments to notify function")
  | Some m =>
      match n_method m with
      | VStr method =>
          if String.eqb method ""
          then throw (VStr "'method' argument to notify must be string")
          else
            let! st := get in
            postMessage c
              (Notification (scopeMethod (chans st c) method) (n_params m))
              false
      | _ => throw (VStr "'method' argument to notify must be string")
      end
  end.

(** [cb] is [None] when the second argument is missing or not a
    function. *)
Definition bind (c : chanref) (method : value) (cb : option handler)
    (doNotPublish : bool) : M unit :=
  match method with
  | VStr meth =>
      if String.eqb meth ""
      then throw (VStr "'method' argument to bind must be string")
      else
        match cb with
        | None => throw (VStr "callback missing from bind params")
        | Some h =>
            let! st := get in
            let ch := chans st c in
            match regTbl ch !! meth with
            | Some _ =>
                throw (VStr ("method '" +:+ meth +:+ "' is already bound!"))
            | None =>
                modify (set_chan c (set_regTbl (insert meth h))) >>
                if cfg_publish ch && negb doNotPublish then
                  if ready ch
                  then notify c (Some (NotifyArgs (VStr "__bind") method))
                  else modify (set_chan c
                         (set_publishQueue (λ q, q ++ [(PBind, meth)])))
                else ret tt
            end
        end
  | _ => throw (VStr "'method' argument to bind must be string")
  end.

Definition unbind (c : chanref) (method : string) (doNotPublish : bool)
  : M bool :=
  let! st := get in
  let ch := chans st c in
  match regTbl ch !! method with
  | Some _ =>
      modify (set_chan c (set_regTbl (delete method))) >>
      (if cfg_publish ch && negb doNotPublish then
         if ready ch
         then notify c (Some (NotifyArgs (VStr "__unbind") (VStr method)))
         else modify (set_chan c
                (set_publishQueue (λ q, q ++ [(PUnbind, method)])))
       else ret tt) >>
      ret true
  | None => ret false
  end.

(** *** [Channel.build]: validation and registration

    The part of [build] up to the channel object: the capability and
    argument checks, the origin and scope rules, the registration in
    [s_boundChans] and the fresh closure environment. *)

Record remote_window := RemoteWindow { rw_id : win; rw_postMessage : bool }.

Record build_cfg := BuildCfg {
  bc_window : option remote_window;
  bc_origin : value;
  bc_scope : value;
  bc_publish : bool;
}.

Definition default_scope : string := "__default".

(** The scope block of [build]. *)
Definition check_scope (scope : value) : M string :=
  match scope with
  | VUndef => ret default_scope
  | VStr s =>
      if (1 <? length (Str.split "::" s))%nat
      then throw (VStr "scope may not contain double colons: '::'")
      else ret s
  | _ => throw (VStr "scope, when specified, must be a string")
  end.

Definition build (cfg : option build_cfg) : M chanref :=
  if negb has_postMessage
  then throw (VStr "jschannel cannot run this browser, no postMessage")
  else if negb has_JSON
  then throw (VStr "jschannel cannot run this browser, no JSON parsing/serialization")
  else
    match cfg with
    | None => throw (VStr "Channel build invoked without a proper object argument")
    | Some cfg =>
        match bc_window cfg with
        | Some (RemoteWindow w true) =>
            let! st := get in
            if bool_decide (window st = w)
            then throw (VStr "target window is same as present window -- not allowed")
            else
              match valid_origin (bc_origin cfg) with
              | None => throw (VStr "Channel.build() called with an invalid origin")
              | Some origin =>
                  let! scope := check_scope (bc_scope cfg) in
                  let c := nchans st in
                  s_addBoundChan w origin scope c >>
                  modify (set_chan c (λ _,
                    Chan w origin scope (bc_publish cfg) ∅ ∅ ∅ false [] [])) >>
                  modify (set_nchans S) >>
                  ret c
              end
        | _ => throw (VStr "Channel.build() called without a valid window argument")
        end
    end.

(** *** [s_onMessage]: the process-wide listener *)

Record message_event := MessageEvent {
  e_data : option msg;      (* [None]: not the JSON text of an object *)
  e_source : win;
  e_origin : string;
}.

(** The delivery loop over one bucket: the first entry of the sending
    window gets the message. *)
Fixpoint deliver (w : win) (arr : list bound) (o meth : string) (m : msg)
  : M bool :=
  match arr with
  | [] => ret false
  | b :: r =>
      if bool_decide (b_win b = w)
      then onMessage (b_handler b) o (Some meth) m >> ret true
      else deliver w r o meth m
  end.

(** The key under which an absent scope is looked up. *)
Definition scope_key (s : option string) : string := default "undefined" s.

Definition s_onMessage (e : message_event) : M unit :=
  match e_data e with
  | None => ret tt
  | Some m =>
      let w := e_source e in
      let o := e_origin e in
      let '(s, meth) :=
        match m_method m with
        | Some mm =>
            match Str.split "::" mm with
            | [a; b] => (Some a, Some b)
            | _ => (None, Some mm)
            end
        | None => (None, None)
        end in
      match meth with
      | Some meth =>
          let! st := get in
          let! delivered :=
            match bucket (s_boundChans st) o (scope_key s) with
            | Some arr => deliver w arr o meth m
            | None => ret false
            end in
          if delivered then ret tt
          else
            let! st := get in
            match bucket (s_boundChans st) "*" (scope_key s) with
            | Some arr => deliver w arr o meth m >> ret tt
            | None => ret tt
            end
      | None =>
          match m_id m with
          | Some i =>
              let! st := get in
              match s_transIds st !! i with
              | Some c => onMessage c o None m
              | None => ret tt
              end
          | None => ret tt
          end
      end
  end.

(** ** The process as an event machine

    Everything that can happen to the process: client code calling into
    a channel, a message arriving at the listener, a timer running.  An
    exception that escapes an event is uncaught; the state it leaves
    behind stands. *)

Inductive event :=
  | EBuild (cfg : option build_cfg)
  | ECall (c : chanref) (m : option call_args)
  | ENotify (c : chanref) (m : option notify_args)
  | EBind (c : chanref) (method : value) (cb : option handler)
  | EUnbind (c : chanref) (method : string)
  | EMessage (e : message_event)
  | ETimer (n : nat)
  | EStore (l : loc) (o : object).

Definition run_event (ev : event) : M unit :=
  match ev with
  | EBuild cfg => build cfg >> ret tt
  | ECall c m => call c m
  | ENotify c m => notify c m
  | EBind c method cb => bind c method cb false
  | EUnbind c method => unbind c method false >> ret tt
  | EMessage e => s_onMessage e
  | ETimer n =>
      let! st := get in
      match timers st !! n with
      | Some t => modify (set_timers (delete n)) >> timeout_expired t
      | None => ret tt
      end
  | EStore l o => modify (set_heap (insert l o))
  end.

Definition step (st : Proc) (ev : event) : Proc :=
  state_after st (run_event ev st).

Definition run (evs : list event) (st : Proc) : Proc :=
  foldl step st evs.

(** A process that has just loaded the script. *)
Definition initial_proc (w : win) (k : Z) (h : heap) : Proc :=
  MkProc w (initial_tran_id k) ∅ ∅ (λ _, chan_unbuilt) 0 h [] [] [].

End Channel.

(** ** Vocabulary of the statements *)

Definition no_function_props (h : heap) (l : loc) : Prop :=
  ∀ k f, own_prop h l k ≠ Some (VFun f).

(** No object of the graph of [v] holds a function. *)
Definition function_free (h : heap) (v : value) : Prop :=
  ∀ p l, resolve h v p = Some (VRef l) → no_function_props h l.

(** [h'] is [h] with some function-valued properties deleted. *)
Record heap_pruned (h h' : heap) : Prop := {
  hp_back : ∀ l k v, own_prop h' l k = Some v → own_prop h l k = Some v;
  hp_keep : ∀ l k v, own_prop h l k = Some v → typeof v ≠ TFunction →
                     own_prop h' l k = Some v;
  hp_dom : dom h' = dom h;
}.

(** Objects of the heap the walk has not entered yet. *)
Definition unseen (h : heap) (seen : list value) : nat :=
  size (filter (λ l, VRef l ∉ seen) (dom h)).

(** What a completed walk of [v] from [s] to [s'] establishes; [new] is
    what it appended to [seen]. *)
Record walk_spec (v : value) (s s' : walk) (new : list value) : Prop := {
  ws_seen : w_seen s' = w_seen s ++ new;
  ws_fresh : ∀ x, x ∈ new → x ∉ w_seen s;
  ws_heap : heap_pruned (w_heap s) (w_heap s');
  ws_reach : ∀ p w, resolve (w_heap s) v p = Some (VRef w) → VRef w ∈ new;
  ws_inj : ∀ p1 p2 w, resolve (w_heap s) v p1 = Some (VRef w) →
                      resolve (w_heap s) v p2 = Some (VRef w) → p1 = p2;
  ws_clean : ∀ w, VRef w ∈ new → no_function_props (w_heap s') w;
  ws_frame : ∀ u, VRef u ∉ new → w_heap s' !! u = w_heap s !! u;
  ws_names : ∃ more, w_callbackNames s' = w_callbackNames s ++ more;
}.

(** The same for the loop over the keys [ks] of the object [l]. *)
Record loop_spec (l : loc) (path : string) (ks : list string)
    (s s' : walk) (new : list value) : Prop := {
  ls_seen : w_seen s' = w_seen s ++ new;
  ls_fresh : ∀ x, x ∈ new → x ∉ w_seen s;
  ls_heap : heap_pruned (w_heap s) (w_heap s');
  ls_reach : ∀ k c p w, k ∈ ks → own_prop (w_heap s) l k = Some c →
                        resolve (w_heap s) c p = Some (VRef w) → VRef w ∈ new;
  ls_inj : ∀ k1 c1 p1 k2 c2 p2 w,
      k1 ∈ ks → own_prop (w_heap s) l k1 = Some c1 →
      resolve (w_heap s) c1 p1 = Some (VRef w) →
      k2 ∈ ks → own_prop (w_heap s) l k2 = Some c2 →
      resolve (w_heap s) c2 p2 = Some (VRef w) →
      k1 = k2 ∧ p1 = p2;
  ls_clean : ∀ w, VRef w ∈ new → no_function_props (w_heap s') w;
  ls_frame : ∀ u, u ≠ l → VRef u ∉ new → w_heap s' !! u = w_heap s !! u;
  ls_self : ∀ k f, k ∈ ks → own_prop (w_heap s') l k ≠ Some (VFun f);
  ls_rest : ∀ k, k ∉ ks → own_prop (w_heap s') l k = own_prop (w_heap s) l k;
  ls_names : ∃ more, w_callbackNames s' = w_callbackNames s ++ more;
  ls_extracted : ∀ k f, k ∈ ks → own_prop (w_heap s) l k = Some (VFun f) →
                        sub_path path k ∈ w_callbackNames s';
}.

(** ** Sample data for the examples *)

(** A platform whose renderings are fixed strings. *)
Definition sample_stringify (h : heap) (v : value) : stringified :=
  match v with
  | VUndef | VFun _ => SUndefined
  | VNull => SText "null"
  | _ => SText "{}"
  end.

Lemma sample_stringify_returns h v :
  sample_stringify h v = SThrows → cyclic h v.
Proof. by destruct v. Qed.

Definition sample_platform : Platform :=
  {| JSON_stringify := sample_stringify;
     js_toString := λ _ _, "[object Object]";
     has_postMessage := true;
     has_JSON := true;
     stringify_throws_cyclic := sample_stringify_returns |}.

(** A platform that notices the shortest cycle, an object that is its
    own [self]. *)
Definition strict_stringify (h : heap) (v : value) : stringified :=
  match v with
  | VRef l =>
      if bool_decide (own_prop h l "self" = Some (VRef l))
      then SThrows else SText "{}"
  | VUndef | VFun _ => SUndefined
  | _ => SText "null"
  end.

Lemma strict_stringify_cyclic h v :
  strict_stringify h v = SThrows → cyclic h v.
Proof.
  destruct v; try done. simpl. case_bool_decide as Hself; [|done].
  intros _. exists [], ["self"], l. split; [done|]. split; [done|].
  simpl. by rewrite Hself.
Qed.

Definition strict_platform : Platform :=
  {| JSON_stringify := strict_stringify;
     js_toString := λ _ _, "[object Object]";
     has_postMessage := true;
     has_JSON := true;
     stringify_throws_cyclic := strict_stringify_cyclic |}.

Definition ok_fn : value := VFun (FUser (UFun "success" None)).
Definition err_fn : value := VFun (FUser (UFun "error" None)).
Definition progress_fn : value := VFun (FUser (UFun "progress" None)).

(** [{a: o, b: o}] with [o = {}]: acyclic, but [o] occurs twice. *)
Definition diamond_heap : heap :=
  <[1%nat := Obj CObject [("a", VRef 2%nat); ("b", VRef 2%nat)]]>
    (<[2%nat := Obj CObject []]> ∅).

(** [o = {self: o}] *)
Definition loop_heap : heap :=
  <[1%nat := Obj CObject [("self", VRef 1%nat)]]> ∅.

(** [{onProgress: f, n: 1}] *)
Definition progress_heap : heap :=
  <[1%nat := Obj CObject [("onProgress", progress_fn); ("n", VNum 1)]]> ∅.

(** A process with one channel, number 0, towards window 7. *)
Definition sample_chan (is_ready : bool) : chan :=
  Chan 7%nat "https://a.example" default_scope false ∅ ∅ ∅ is_ready [] [].

Definition sample_proc (h : heap) (is_ready : bool) : Proc :=
  MkProc 0%nat 500001 ∅ ∅ (<[0%nat := sample_chan is_ready]> (λ _, chan_unbuilt))
         1 h [] [] [].

Definition sample_call (params : value) : call_args :=
  CallArgs (VStr "ping") params ok_fn err_fn VUndef.

(** The handshake, seen from outside: the channel becomes ready. *)
Definition set_ready (b : bool) (ch : chan) : chan :=
  Chan (cfg_window ch) (cfg_origin ch) (cfg_scope ch) (cfg_publish ch)
       (regTbl ch) (outTbl ch) (inTbl ch) b (pendingQueue ch)
       (publishQueue ch).

(** [JSON.stringify] returns on [v]. *)
Definition serializable `{Platform} (h : heap) (v : value) : Prop :=
  JSON_stringify h v ≠ SThrows.

(** Between [st] and [st'] channel [c] handed [m] to [postMessage]:
    it went out to the remote window if the channel was ready, and to
    the pending queue otherwise. *)
Definition emitted (c : chanref) (st st' : Proc) (m : msg) : Prop :=
  if ready (chans st c)
  then wire st' = wire st ++ [Posted (cfg_window (chans st c))
                                     (cfg_origin (chans st c)) m]
       ∧ pendingQueue (chans st' c) = pendingQueue (chans st c)
  else pendingQueue (chans st' c) = pendingQueue (chans st c) ++ [m]
       ∧ wire st' = wire st.

(** A configuration that names no scope. *)
Definition unscoped_cfg : build_cfg :=
  BuildCfg (Some (RemoteWindow 7%nat true)) (VStr "https://a.example") VUndef
           false.

(** ** Proof steps used throughout *)

(** Reading a channel after updates of the channel map. *)
Ltac chan_lookup :=
  repeat first
    [ rewrite fn_lookup_insert
    | rewrite fn_lookup_insert_ne by congruence ];
  simpl.

(** A field of every channel, or of every other channel, is unchanged. *)
Ltac chan_frame :=
  intros;
  first
    [ done
    | match goal with
      | |- context [ <[?c := _]> _ ?c' ] =>
          destruct (decide (c = c')) as [?|?]; [subst|]
      end;
      chan_lookup; done ].

(** ** Counting registry entries *)

Definition entries_in (arr : list bound) (w : win) : nat :=
  length (filter (λ b, b_win b = w) arr).

(** Entries of window [w] under [(origin, scope)]. *)
Definition entries_at (reg : gmap string (gmap string (list bound)))
    (origin scope : string) (w : win) : nat :=
  entries_in (default [] (bucket reg origin scope)) w.

(** Entries of window [w] under [scope], over all origins. *)
Definition entries_for (reg : gmap string (gmap string (list bound)))
    (scope : string) (w : win) : nat :=
  sum_list ((λ p, entries_in (default [] (p.2 !! scope)) w)
              <$> map_to_list reg).

(** The registry discipline: per window and scope, a concrete origin has
    at most one entry, and a wildcard entry excludes every concrete
    one. *)
Definition registry_ok (reg : gmap string (gmap string (list bound))) : Prop :=
  ∀ w scope origin,
    origin ≠ "*" →
    (entries_at reg origin scope w ≤ 1)%nat
    ∧ ((0 < entries_at reg "*" scope w)%nat →
       entries_at reg origin scope w = 0%nat).

(** The condition under which [s_addBoundChan] accepts a channel. *)
Definition registrable (reg : gmap string (gmap string (list bound)))
    (w : win) (origin scope : string) : Prop :=
  if decide (origin = "*")
  then ∀ o, o ≠ "*" → entries_at reg o scope w = 0%nat
  else entries_at reg "*" scope w = 0%nat
       ∧ entries_at reg origin scope w = 0%nat.

Definition empty_proc : Proc :=
  MkProc 0%nat 1 ∅ ∅ (λ _, chan_unbuilt) 0 ∅ [] [] [].

(** ** Outstanding calls and their resolution *)

(** An invocation of the success or error callback of transaction [id]. *)
Definition is_resolution (id : Z) (i : invocation) : bool :=
  match i_site i with
  | SiteSuccess j | SiteError j => bool_decide (j = id)
  | _ => false
  end.

(** How many times a success or error callback of [id] was invoked. *)
Definition resolutions (id : Z) (lg : list invocation) : nat :=
  length (filter (λ i, is_resolution id i) lg).

(** A callback value that, when called, returns: a client function that
    returns, or no function at all (calling it fails before anything
    runs). *)
Definition calm (v : value) : Prop :=
  match v with
  | VFun (FUser u) => uf_throws u = None
  | VFun (FRemote _ _ _ _) => False
  | _ => True
  end.

Definition calm_event (ev : event) : Prop :=
  match ev with
  | ECall _ (Some a) => calm (a_success a) ∧ calm (a_error a)
  | _ => True
  end.

(** The counter stands still and no outbound entry appears. *)
Record shrinks (st st' : Proc) : Prop := {
  sh_id : s_curTranId st' = s_curTranId st;
  sh_out : ∀ c id e, outTbl (chans st' c) !! id = Some e →
                     outTbl (chans st c) !! id = Some e;
}.

(** Moreover no success or error callback runs. *)
Record quiet (st st' : Proc) : Prop := {
  q_shrinks : shrinks st st';
  q_log : ∀ id, resolutions id (log st') = resolutions id (log st);
}.

Definition quiet_m {A} (m : M A) : Prop :=
  ∀ st, quiet st (state_after st (m st)).

(** Outstanding ids are below the counter and belong to one channel. *)
Record ids_fresh (st : Proc) : Prop := {
  if_below : ∀ c id, is_Some (outTbl (chans st c) !! id) →
                     id < s_curTranId st;
  if_unique : ∀ c c' id, is_Some (outTbl (chans st c) !! id) →
                         is_Some (outTbl (chans st c') !! id) → c = c';
}.

(** Every transaction has been resolved at most once, and a resolved one
    is outstanding nowhere. *)
Record resolved_once (st : Proc) : Prop := {
  ro_fresh : ids_fresh st;
  ro_done : ∀ id, (0 < resolutions id (log st))%nat →
                  id < s_curTranId st
                  ∧ ∀ c, outTbl (chans st c) !! id = None;
  ro_once : ∀ id, (resolutions id (log st) ≤ 1)%nat;
  ro_calm : ∀ c id e, outTbl (chans st c) !! id = Some e →
                      calm (oe_success e) ∧ calm (oe_error e);
}.

(** [m] maintains the state property [P], whether it returns or throws. *)
Definition keeps (P : Proc → Prop) {A} (m : M A) : Prop :=
  ∀ st, P st → P (state_after st (m st)).

(** [P] cannot be broken without touching the counter, adding an
    outbound entry or running a success or error callback. *)
Definition quiet_closed (P : Proc → Prop) : Prop :=
  ∀ st st', quiet st st' → P st → P st'.

(** The state after transaction [id] of channel [c] has left both
    tables. *)
Definition evicted (c : chanref) (id : Z) (st : Proc) : Proc :=
  set_transIds (delete id) (set_chan c (set_outTbl (delete id)) st).

(** The state after a callback has been called and has returned. *)
Definition invoked (site : call_site) (f : func) (args : list value)
    (st : Proc) : Proc :=
  set_log (λ l, l ++ [Invocation site f args]) st.

(** The text of the timeout error. *)
Definition timeout_message `{Platform} (st : Proc) (t : timer) : string :=
  "timeout (" +:+ to_display (the_heap st) (tm_timeout t)
  +:+ "ms) exceeded on method '" +:+ tm_method t +:+ "'".

(** Transaction [id] has been allocated, is outstanding nowhere, and its
    callbacks have run [n] times in all. *)
Definition settled (id : Z) (n : nat) (st : Proc) : Prop :=
  id < s_curTranId st
  ∧ (∀ c, outTbl (chans st c) !! id = None)
  ∧ resolutions id (log st) = n.

(** A call with a timeout and an error callback, and one with neither. *)
Definition timed_call : call_args :=
  CallArgs (VStr "ping") VUndef ok_fn err_fn (VNum 50).

Definition bare_call : call_args :=
  CallArgs (VStr "ping") VUndef ok_fn VUndef VUndef.

(** What the peer may answer to transaction 500001. *)
Definition late_response : message_event :=
  MessageEvent (Some (Response 500001 (VStr "done"))) 7%nat "https://a.example".

Definition error_response : message_event :=
  MessageEvent (Some (ErrorResponse 500001 (VStr "failed") (VStr "no")))
               7%nat "https://a.example".

(** A process is started, a channel built, a call with a timeout made;
    the peer answers; then the timer runs. *)
Definition answered_then_expired : list event :=
  [EBuild (Some unscoped_cfg);
   ECall 0%nat (Some timed_call);
   EMessage (MessageEvent (Some (Response 500000 (VStr "done"))) 7%nat
                          "https://a.example");
   ETimer 0%nat].

(** A process with one channel on which ["ping"] is bound to [h]. *)
Definition serving (h : handler) : list event :=
  [EBuild (Some unscoped_cfg); EBind 0%nat (VStr "ping") (Some h)].

Definition ping_request : message_event :=
  MessageEvent (Some (Request 7 "__default::ping" VUndef [])) 7%nat
               "https://a.example".

Definition ping_notification : message_event :=
  MessageEvent (Some (Notification "__default::ping" VUndef)) 7%nat
               "https://a.example".

(** A handler that reports progress once and returns. *)
Definition progress_handler : handler :=
  Handler [HApply ["onProgress"] (VNum 50)] (HReturn (VStr "ok")).

(** The request that [call] produces for [{onProgress: f, n: 1}], as the
    peer receives it: the parsed parameters are placed at location 1. *)
Definition progress_request : list event :=
  [EStore 1%nat (Obj CObject [("n", VNum 1)]);
   EMessage (MessageEvent
               (Some (Request 7 "__default::ping" (VRef 1%nat) ["onProgress"]))
               7%nat "https://a.example")].

(** A call whose success callback throws. *)
Definition failing_success_call : call_args :=
  CallArgs (VStr "ping") VUndef (VFun (FUser (UFun "success" (Some "oops"))))
           err_fn (VNum 50).

(** ** Vocabulary for strings *)

(** Every character of [s] satisfies [p]. *)
Fixpoint all_chars (p : ascii → bool) (s : string) : bool :=
  match s with
  | EmptyString => true
  | String a r => p a && all_chars p r
  end.

(** [s] ends with the text [c]. *)
Definition ends_with (c s : string) : Prop := ∃ a, s = a +:+ c.

(** [s] ends with [c], as a test. *)
Fixpoint ends_with_b (c s : string) : bool :=
  String.eqb c s ||
  match s with
  | EmptyString => false
  | String _ r => ends_with_b c r
  end.

(** [s] has an occurrence of [sep], as a test. *)
Fixpoint occurs (sep s : string) : bool :=
  String.prefix sep s ||
  match s with
  | EmptyString => false
  | String _ r => occurs sep r
  end.

(** ** Relations that the channel code respects

    [respects R m]: from any state, [m] leaves a state related to it by
    [R], whether it returns or throws. *)
Definition respects (R : Proc → Proc → Prop) {A} (m : M A) : Prop :=
  ∀ st, R st (state_after st (m st)).

(** [R] is a preorder that is not affected by changes of the heap and
    by what is appended to the log. *)
Class HeapLog (R : Proc → Proc → Prop) := {
  hl_refl : ∀ st, R st st;
  hl_trans : ∀ st1 st2 st3, R st1 st2 → R st2 st3 → R st1 st3;
  hl_heap : ∀ f st, R st (set_heap f st);
  hl_log : ∀ x st, R st (set_log (λ l, l ++ x) st);
}.

(** Nor by what else message handling touches besides the transaction
    tables: the wire, and per channel the pending queue, [inTbl],
    [regTbl] and the publish queue. *)
Class Passive (R : Proc → Proc → Prop) := {
  pas_heaplog :: HeapLog R;
  pas_wire : ∀ x st, R st (set_wire (λ w, w ++ x) st);
  pas_pending : ∀ c x st,
    R st (set_chan c (set_pendingQueue (λ q, q ++ x)) st);
  pas_inTbl : ∀ c f st, R st (set_chan c (set_inTbl f) st);
  pas_regTbl : ∀ c f st, R st (set_chan c (set_regTbl f) st);
  pas_publish : ∀ c x st,
    R st (set_chan c (set_publishQueue (λ q, q ++ x)) st);
}.

(** Nor by the transaction tables, the timers and the counter: only
    [build] can affect [R]. *)
Class Stable (R : Proc → Proc → Prop) := {
  stb_passive :: Passive R;
  stb_outTbl : ∀ c f st, R st (set_chan c (set_outTbl f) st);
  stb_transIds : ∀ f st, R st (set_transIds f st);
  stb_timers : ∀ f st, R st (set_timers f st);
  stb_counter : ∀ f st, R st (set_curTranId f st);
}.

(** The registry, the number of channels and the configuration of every
    channel are the same. *)
Record same_wiring (st st' : Proc) : Prop := {
  sw_registry : s_boundChans st' = s_boundChans st;
  sw_nchans : nchans st' = nchans st;
  sw_window : ∀ c, cfg_window (chans st' c) = cfg_window (chans st c);
  sw_origin : ∀ c, cfg_origin (chans st' c) = cfg_origin (chans st c);
  sw_scope : ∀ c, cfg_scope (chans st' c) = cfg_scope (chans st c);
  sw_publish : ∀ c, cfg_publish (chans st' c) = cfg_publish (chans st c);
}.

(** Every registry entry belongs to a built channel, and is filed under
    that channel's window, origin and scope. *)
Definition registry_sound (st : Proc) : Prop :=
  ∀ origin scope arr b,
    bucket (s_boundChans st) origin scope = Some arr → b ∈ arr →
    (b_handler b < nchans st)%nat
    ∧ cfg_window (chans st (b_handler b)) = b_win b
    ∧ cfg_origin (chans st (b_handler b)) = origin
    ∧ cfg_scope (chans st (b_handler b)) = scope.

(** How [s_onMessage] reads a method name: the scope, if the name has
    exactly two parts, and the method. *)
Definition parse_method (mm : string) : option string * string :=
  match Str.split "::" mm with
  | [a; b] => (Some a, b)
  | _ => (None, mm)
  end.

(** ** Replies to a request *)

(** [m] answers request [id]: a Response or an ErrorResponse. *)
Definition is_reply (id : Z) (m : msg) : bool :=
  bool_decide (m_id m = Some id ∧ m_method m = None ∧ m_callback m = None).

(** The replies to [id] that have gone out or that channel [c] has
    queued. *)
Definition replies (c : chanref) (id : Z) (st : Proc) : nat :=
  (length (filter (λ p, is_reply id (p_msg p) = true) (wire st))
   + length (filter (λ m, is_reply id m = true) (pendingQueue (chans st c))))%nat.

(** Request [id] of channel [c] is neither opened, closed nor answered
    between [st] and [st']. *)
Record no_reply (c : chanref) (id : Z) (st st' : Proc) : Prop := {
  nr_inTbl : id ∈ inTbl (chans st' c) ↔ id ∈ inTbl (chans st c);
  nr_replies : replies c id st' = replies c id st;
}.

(** Where request [id] of channel [c] stands, [n] replies to that id
    having been counted when it arrived: still open; answered; or closed
    without an answer. *)
Inductive tx_state := TxOpen | TxDone | TxLost.

Definition tx_in (c : chanref) (id : Z) (n : nat) (s : tx_state)
    (st : Proc) : Prop :=
  match s with
  | TxOpen => id ∈ inTbl (chans st c) ∧ replies c id st = n
  | TxDone => id ∉ inTbl (chans st c) ∧ replies c id st = S n
  | TxLost => id ∉ inTbl (chans st c) ∧ replies c id st = n
  end.

(** While the handler runs: the request is open and the transaction
    object has not been completed, or it has been answered and the
    transaction object has been. *)
Definition tx_live (c : chanref) (id : Z) (n : nat) (fl : trans_flags)
    (st : Proc) : Prop :=
  (tx_in c id n TxOpen st ∧ completed fl = false)
  ∨ (tx_in c id n TxDone st ∧ completed fl = true).

Definition tx_any (c : chanref) (id : Z) (n : nat) (st : Proc) : Prop :=
  ∃ s, tx_in c id n s st.

(** What a computation's result satisfies: [P] if it returns, [Q] if it
    throws. *)
Definition outcome {A} (r : res A) (P : A → Proc → Prop) (Q : Proc → Prop)
  : Prop :=
  match r with
  | Ok a st => P a st
  | Exc _ st => Q st
  | OutOfFuel => True
  end.

(** The method names that [build] binds to the handlers of the
    readiness handshake. *)
Definition reserved_methods : list string :=
  ["__ready"; "__bind"; "__unbind"].

(** The names that every object inherits from [Object.prototype].  The
    tables of the source are plain objects, and a lookup of one of these
    names finds the inherited member where the table has no property of
    its own; the tables of the model hold own properties only.  What is
    stated of a name that a table does not hold is therefore stated for
    names outside this list. *)
Definition inherited_names : list string :=
  ["constructor"; "hasOwnProperty"; "isPrototypeOf"; "propertyIsEnumerable";
   "toLocaleString"; "toString"; "valueOf"; "__proto__";
   "__defineGetter__"; "__defineSetter__"; "__lookupGetter__";
   "__lookupSetter__"].

(** The state the walk is in after [r]. *)
Definition walk_after (s0 : walk) (r : walk_res) : walk :=
  match r with
  | WDone s | WThrow _ s => s
  | WOutOfFuel => s0
  end.

(** [{cb: f, a: o, b: o}] with [o = {}]: a callback next to an object
    that occurs twice. *)
Definition callback_diamond_heap : heap :=
  <[1%nat := Obj CObject [("cb", progress_fn); ("a", VRef 2%nat);
                          ("b", VRef 2%nat)]]>
    (<[2%nat := Obj CObject []]> ∅).

(** A callback invocation for the transaction of the sample call, sent
    from a window and an origin that no channel was built for. *)
Definition stray_progress : message_event :=
  MessageEvent (Some (CallbackInvocation 500001 "onProgress" (VNum 50)))
               99%nat "https://elsewhere.example".

(** ** The channel object in full

    What [Channel.build] does after the registration, and what the
    object it returns can do besides [call], [notify], [bind] and
    [unbind]: the reserved handlers [onReady], [onBind] and [onUnbind]
    that [build] binds itself, the [remote] stubs made by
    [createStubs], the deferred ready message, and [destroy] with
    [s_removeBoundChan].

    Further conventions.
    - The source keeps the reserved handlers in [regTbl] with the
      client's; here they are kept beside it, in [natives], and a name
      is looked up in both.  The functions that look a name up are
      given again for the pair of tables and carry a prime: [bind'],
      [unbind'], [onMessage'], [s_onMessage'] and [build'].
    - The closure variables that [chan] does not have are in
      [chan_ext].  After [destroy] has set [cfg.origin] to [null] the
      flag [origin_null] says so; [cfg_origin] keeps the string, and
      is not read for a posting again, because a destroyed channel is
      never ready.
    - The configuration is read when [build] runs; [cfg.reconnect],
      [cfg.onReady] and [cfg.remote] are not changed by the client
      later.
    - The entries of the publish queue are placed in the heap when a
      ready message is made.
    - The function handed to [setTimeout] stays in [ready_due] until
      it runs.
    - Relational comparison with a string or an object, and the
      [length] of a client function, belong to the engine and are
      taken as the interface [Engine].  Function values have no other
      properties, as in [get_prop] and [set_prop]. *)

Inductive native := NReady | NBind | NUnbind.

Record chan_ext := ChanExt {
  chanId : string;
  origin_null : bool;
  cfg_reconnect : bool;
  cfg_onReady : option ufun;
  natives : gmap string native;
  remote : gset string;
}.

Definition ext_unbuilt : chan_ext := ChanExt "" false false None ∅ ∅.

Definition set_chanId (f : string → string) (x : chan_ext) : chan_ext :=
  ChanExt (f (chanId x)) (origin_null x) (cfg_reconnect x) (cfg_onReady x)
          (natives x) (remote x).
Definition set_natives (f : gmap string native → gmap string native)
    (x : chan_ext) : chan_ext :=
  ChanExt (chanId x) (origin_null x) (cfg_reconnect x) (cfg_onReady x)
          (f (natives x)) (remote x).
Definition set_remote (f : gset string → gset string) (x : chan_ext)
  : chan_ext :=
  ChanExt (chanId x) (origin_null x) (cfg_reconnect x) (cfg_onReady x)
          (natives x) (f (remote x)).

(** The process with the channel objects. *)
Record Page := MkPage {
  proc : Proc;
  ext : chanref → chan_ext;
  ready_due : list chanref;            (* [setTimeout] callbacks not yet run *)
  observed : list (chanref * ufun);    (* the calls [cfg.onReady(obj)] made *)
}.

Definition set_proc (f : Proc → Proc) (pg : Page) : Page :=
  MkPage (f (proc pg)) (ext pg) (ready_due pg) (observed pg).
Definition set_ext (c : chanref) (f : chan_ext → chan_ext) (pg : Page)
  : Page :=
  MkPage (proc pg) (<[c := f (ext pg c)]> (ext pg)) (ready_due pg)
         (observed pg).
Definition set_ready_due (f : list chanref → list chanref) (pg : Page)
  : Page :=
  MkPage (proc pg) (ext pg) (f (ready_due pg)) (observed pg).
Definition set_observed
    (f : list (chanref * ufun) → list (chanref * ufun)) (pg : Page) : Page :=
  MkPage (proc pg) (ext pg) (ready_due pg) (f (observed pg)).

(** *** The monad over [Page] *)

Inductive pres (A : Type) :=
  | POk (a : A) (pg : Page)
  | PExc (e : value) (pg : Page)
  | POutOfFuel.
Arguments POk {A} a pg.
Arguments PExc {A} e pg.
Arguments POutOfFuel {A}.

Definition MP (A : Type) : Type := Page → pres A.

Definition retP {A} (a : A) : MP A := λ pg, POk a pg.
Definition throwP {A} (e : value) : MP A := λ pg, PExc e pg.
Definition bindP {A B} (m : MP A) (k : A → MP B) : MP B :=
  λ pg, match m pg with
        | POk a pg' => k a pg'
        | PExc e pg' => PExc e pg'
        | POutOfFuel => POutOfFuel
        end.
Definition try_catchP {A} (m : MP A) (k : value → MP A) : MP A :=
  λ pg, match m pg with
        | PExc e pg' => k e pg'
        | r => r
        end.
Definition getP : MP Page := λ pg, POk pg pg.
Definition modifyP (f : Page → Page) : MP unit := λ pg, POk tt (f pg).

(** Channel code that only touches [Proc]. *)
Definition lift {A} (m : M A) : MP A :=
  λ pg, match m (proc pg) with
        | Ok a st => POk a (set_proc (λ _, st) pg)
        | Exc e st => PExc e (set_proc (λ _, st) pg)
        | OutOfFuel => POutOfFuel
        end.

Notation "'letP' x ':=' m 'in' k" := (bindP m (λ x, k))
  (at level 10, x pattern, m at level 100, k at level 200, only parsing).
Notation "m '>>>' k" := (bindP m (λ _, k))
  (at level 100, k at level 200, right associativity, only parsing).

Definition page_after {A} (pg0 : Page) (r : pres A) : Page :=
  match r with
  | POk _ pg => pg
  | PExc _ pg => pg
  | POutOfFuel => pg0
  end.

(** *** The engine *)

Class Engine := {
  (** [i < v] for a string or an object [v] *)
  js_less : nat → heap → value → bool;
  (** [f.length] of a client function *)
  js_arity : ufun → nat;
}.

(** *** [s_removeBoundChan] *)

(** The loop [for (i ...) if (arr[i].win === win) arr.splice(i, 1)]:
    after a removal the index moves on, over the element that has
    taken the place of the removed one. *)
Fixpoint remove_win (w : win) (arr : list bound) : list bound :=
  match arr with
  | [] => []
  | b :: r =>
      if bool_decide (b_win b = w)
      then match r with
           | [] => []
           | b' :: r' => b' :: remove_win w r'
           end
      else b :: remove_win w r
  end.

(** The texts [js_toString] on the reserved handlers are engine
    matters; the stubs are named by [to_display]. *)
Definition reserved_natives : gmap string native :=
  <["__ready" := NReady]> (<["__bind" := NBind]> (<["__unbind" := NUnbind]> ∅)).

Definition publish_action_name (a : publish_action) : string :=
  match a with PBind => "bind" | PUnbind => "unbind" end.

(** [{ action: ..., method: ... }] *)
Definition publish_entry (e : publish_action * string) : object :=
  Obj CObject [("action", VStr (publish_action_name e.1));
               ("method", VStr e.2)].

(** The properties of an array with the elements [vs], from index [i]. *)
Fixpoint index_props (i : nat) (vs : list value) : list (string * value) :=
  match vs with
  | [] => []
  | v :: r => (pretty i, v) :: index_props (S i) r
  end.

(** [alpha.charAt(i)] *)
Definition charAt (s : string) (i : nat) : string :=
  match String.get i s with
  | Some a => String a ""
  | None => ""
  end.

Definition alpha : string :=
  "abcdefghijklmnopqrstuvwxyzABCDEFGHIJKLMNOPQRSTUVWXYZ0123456789".

(** The five characters of a new [chanId]; [picks i] is
    [Math.floor(Math.random() * alpha.length)] of round [i]. *)
Definition make_chanId (picks : nat → nat) : string :=
  charAt alpha (picks 0%nat) +:+ charAt alpha (picks 1%nat)
  +:+ charAt alpha (picks 2%nat) +:+ charAt alpha (picks 3%nat)
  +:+ charAt alpha (picks 4%nat).

(** The configuration object in full. *)
Record obj_cfg := ObjCfg {
  oc_base : build_cfg;
  oc_reconnect : bool;
  oc_onReady : option ufun;
  oc_remote : value;
  oc_picks : nat → nat;
}.

(** What [destroy] leaves of the closure variables of a channel. *)
Definition wiped (ch : chan) : chan :=
  Chan (cfg_window ch) (cfg_origin ch) (cfg_scope ch) (cfg_publish ch)
       ∅ ∅ ∅ false [] (publishQueue ch).

Definition ended (x : chan_ext) : chan_ext :=
  ChanExt "" true (cfg_reconnect x) (cfg_onReady x) ∅ (remote x).

Section Object.
Context `{Platform} `{Engine}.

Definition s_removeBoundChan (w : win) (origin : option string)
    (scope : string) : M unit :=
  let! st := get in
  let o := default "null" origin in
  match s_boundChans st !! o with
  | None => type_error "cannot read a property of undefined"
  | Some scopes =>
      match scopes !! scope with
      | None => type_error "cannot read a property of undefined"
      | Some arr =>
          let arr' := remove_win w arr in
          modify (set_boundChans
                    (insert o (match arr' with
                               | [] => delete scope scopes
                               | _ => <[scope := arr']> scopes
                               end)))
      end
  end.

(** *** Ready messages *)

Fixpoint alloc_all (os : list object) : M (list value) :=
  match os with
  | [] => ret []
  | o :: r =>
      let! v := alloc o in
      let! vs := alloc_all r in
      ret (v :: vs)
  end.

(** [{ type: type, publish: publishQueue }] *)
Definition publish_message (type : string)
    (q : list (publish_action * string)) : M value :=
  let! items := alloc_all (publish_entry <$> q) in
  let! arr := alloc (Obj (CArray (length items)) (index_props 0 items)) in
  alloc (Obj CObject [("type", VStr type); ("publish", arr)]).

(** The function handed to [setTimeout] by [build]. *)
Definition ready_post (c : chanref) : MP unit :=
  letP pg := getP in
  if (0 <? String.length (chanId (ext pg c)))%nat
  then
    let ch := chans (proc pg) c in
    letP p := lift (publish_message "publish-request" (publishQueue ch)) in
    lift (postMessage c (Notification (scopeMethod ch "__ready") p) true)
  else retP tt.

(** *** Stubs *)

(** [x.toString()] *)
Definition toString (v : value) : M string :=
  match v with
  | VUndef | VNull => type_error "cannot call toString of null or undefined"
  | _ => let! st := get in ret (to_display (the_heap st) v)
  end.

(** [[].concat(stubList)] *)
Definition concat_list (h : heap) (v : value) : list value :=
  match v with
  | VRef l =>
      match h !! l with
      | Some (Obj (CArray len) ps) =>
          (λ i, default VUndef (assoc (pretty i) ps)) <$> seq 0 len
      | _ => [v]
      end
  | _ => [v]
  end.

Fixpoint createStubs (c : chanref) (stubList : list value) : MP unit :=
  match stubList with
  | [] => retP tt
  | v :: r =>
      letP method := lift (toString v) in
      modifyP (set_ext c (set_remote (λ t, {[method]} ∪ t))) >>>
      createStubs c r
  end.

Definition onBind (c : chanref) (method : value) : MP unit :=
  createStubs c [method].

(** [delete obj.remote[k]] *)
Definition delete_stub (c : chanref) (k : value) : MP unit :=
  letP pg := getP in
  modifyP (set_ext c (set_remote
    (λ t, t ∖ {[to_display (the_heap (proc pg)) k]}))).

Definition onUnbind (c : chanref) (method : value) : MP unit :=
  delete_stub c method.

(** [obj.remote[name](params, success, error)] *)
Definition stub (c : chanref) (name : string) (params success error : value)
  : MP unit :=
  letP pg := getP in
  if bool_decide (name ∈ remote (ext pg c))
  then
    if truthy success
    then lift (call c (Some (CallArgs (VStr name) params success error VUndef)))
    else lift (notify c (Some (NotifyArgs (VStr name) params)))
  else lift (type_error "obj.remote[name] is not a function").

(** *** [unbind] and [bind] over both tables *)

Definition unbind' (c : chanref) (method : string) (doNotPublish : bool)
  : MP bool :=
  letP pg := getP in
  match natives (ext pg c) !! method with
  | Some _ =>
      modifyP (set_ext c (set_natives (delete method))) >>>
      let ch := chans (proc pg) c in
      (if cfg_publish ch && negb doNotPublish then
         if ready ch
         then lift (notify c (Some (NotifyArgs (VStr "__unbind") (VStr method))))
         else lift (modify (set_chan c
                (set_publishQueue (λ q, q ++ [(PUnbind, method)]))))
       else retP tt) >>>
      retP true
  | None => lift (unbind c method doNotPublish)
  end.

Definition bind' (c : chanref) (method : value) (cb : option handler)
    (doNotPublish : bool) : MP unit :=
  letP pg := getP in
  match method, cb with
  | VStr meth, Some _ =>
      if negb (String.eqb meth "")
         && bool_decide (is_Some (natives (ext pg c) !! meth))
      then throwP (VStr ("method '" +:+ meth +:+ "' is already bound!"))
      else lift (bind c method cb doNotPublish)
  | _, _ => lift (bind c method cb doNotPublish)
  end.

(** *** [onReady] *)

(** [v.length] and [v[i]], where [v] may be a string *)
Definition get_length (v : value) : M value :=
  match v with
  | VStr s => ret (VNum (Z.of_nat (String.length s)))
  | VFun (FUser u) => ret (VNum (Z.of_nat (js_arity u)))
  | VFun (FRemote _ _ _ _) => ret (VNum 1)
  | _ => get_prop v "length"
  end.

Definition get_item (v : value) (i : nat) : M value :=
  match v with
  | VStr s =>
      ret (match String.get i s with
           | Some a => VStr (String a "")
           | None => VUndef
           end)
  | _ => get_prop v (pretty i)
  end.

(** [i < v] *)
Definition less_than (i : nat) (h : heap) (v : value) : bool :=
  match v with
  | VNum n => Z.of_nat i <? n
  | VBool b => Z.of_nat i <? (if b then 1 else 0)
  | VStr _ | VRef _ => js_less i h v
  | VUndef | VNull | VFun _ => false
  end.

(** The loop over [params.publish], from index [i]. *)
Fixpoint publish_loop (fuel : nat) (c : chanref) (params : value) (i : nat)
  : MP unit :=
  letP publish := lift (get_prop params "publish") in
  letP len := lift (get_length publish) in
  letP pg := getP in
  if less_than i (the_heap (proc pg)) len then
    match fuel with
    | O => λ _, POutOfFuel
    | S n =>
        letP item := lift (get_item publish i) in
        letP action := lift (get_prop item "action") in
        letP method := lift (get_prop item "method") in
        (if bool_decide (action = VStr "bind")
         then createStubs c [method]
         else delete_stub c method) >>>
        publish_loop n c params (S i)
    end
  else retP tt.

(** [while (pendingQueue.length) postMessage(pendingQueue.splice(0, 1)[0])] *)
Fixpoint flush (fuel : nat) (c : chanref) : M unit :=
  let! st := get in
  match pendingQueue (chans st c) with
  | [] => ret tt
  | m :: r =>
      match fuel with
      | O => λ _, OutOfFuel
      | S n =>
          modify (set_chan c (set_pendingQueue (λ _, r))) >>
          postMessage c m false >>
          flush n c
      end
  end.

(** [cfg.onReady(obj)] *)
Definition observe (c : chanref) (u : ufun) : MP unit :=
  modifyP (set_observed (λ l, l ++ [(c, u)])) >>>
  match uf_throws u with
  | Some e => throwP (VStr e)
  | None => retP tt
  end.

(** Enough rounds for the loop over an object with the properties
    [ps]: every round but the last reads another index. *)
Definition loop_fuel (h : heap) (params : value) : nat :=
  match params with
  | VRef l =>
      match own_prop h l "publish" with
      | Some (VRef p) =>
          match h !! p with
          | Some o => S (length (o_props o))
          | None => 1%nat
          end
      | Some (VStr s) => S (String.length s)
      | _ => 1%nat
      end
  | _ => 1%nat
  end.

Definition onReady (c : chanref) (params : value) : MP unit :=
  letP pg := getP in
  let x := ext pg c in
  if ready (chans (proc pg) c) && negb (cfg_reconnect x)
  then throwP (VStr "received ready message while in ready state.")
  else
    lift (modify (set_chan c (set_ready true))) >>>
    (if (String.length (chanId x) <? 6)%nat
     then
       letP type := lift (get_prop params "type") in
       modifyP (set_ext c (set_chanId (λ s,
         s +:+ if bool_decide (type = VStr "publish-request")
               then "-R" else "-L")))
     else retP tt) >>>
    letP type := lift (get_prop params "type") in
    (if bool_decide (type = VStr "publish-request")
     then
       letP p := lift (publish_message "publish-reply"
                         (publishQueue (chans (proc pg) c))) in
       lift (notify c (Some (NotifyArgs (VStr "__ready") p)))
     else retP tt) >>>
    letP pg1 := getP in
    publish_loop (loop_fuel (the_heap (proc pg1)) params) c params 0 >>>
    (if negb (cfg_reconnect x)
     then unbind' c "__ready" true >>> retP tt
     else retP tt) >>>
    letP pg2 := getP in
    lift (flush (length (pendingQueue (chans (proc pg2) c))) c) >>>
    lift (modify (set_chan c (set_publishQueue (λ _, [])))) >>>
    match cfg_onReady x with
    | Some u => observe c u
    | None => retP tt
    end.

Definition run_native (c : chanref) (n : native) (params : value)
  : MP unit :=
  match n with
  | NReady => onReady c params
  | NBind => onBind c params
  | NUnbind => onUnbind c params
  end.

(** *** [onMessage] and [s_onMessage] over both tables *)

Definition onMessage' (c : chanref) (origin : string)
    (method : option string) (m : msg) : MP unit :=
  letP pg := getP in
  let meth := default "" method in
  match (if truthy_str method then natives (ext pg c) !! meth else None) with
  | Some n =>
      if truthy_id (m_id m) then
        let id := default 0 (m_id m) in
        let callbacks := default [] (m_callbacks m) in
        lift (modify (set_chan c (set_inTbl (λ t, {[id]} ∪ t)))) >>>
        try_catchP
          (lift (synth_all c id callbacks (m_params m) callbacks) >>>
           run_native c n (m_params m) >>>
           lift (trans_complete c id VUndef))
          (λ e, lift (request_catch c id e))
      else run_native c n (m_params m)
  | None => lift (onMessage c origin method m)
  end.

Fixpoint deliver' (w : win) (arr : list bound) (o meth : string) (m : msg)
  : MP bool :=
  match arr with
  | [] => retP false
  | b :: r =>
      if bool_decide (b_win b = w)
      then onMessage' (b_handler b) o (Some meth) m >>> retP true
      else deliver' w r o meth m
  end.

Definition s_onMessage' (e : message_event) : MP unit :=
  match e_data e with
  | None => retP tt
  | Some m =>
      let w := e_source e in
      let o := e_origin e in
      let '(s, meth) :=
        match m_method m with
        | Some mm =>
            match Str.split "::" mm with
            | [a; b] => (Some a, Some b)
            | _ => (None, Some mm)
            end
        | None => (None, None)
        end in
      match meth with
      | Some meth =>
          letP pg := getP in
          letP delivered :=
            match bucket (s_boundChans (proc pg)) o (scope_key s) with
            | Some arr => deliver' w arr o meth m
            | None => retP false
            end in
          if delivered then retP tt
          else
            letP pg := getP in
            match bucket (s_boundChans (proc pg)) "*" (scope_key s) with
            | Some arr => deliver' w arr o meth m >>> retP tt
            | None => retP tt
            end
      | None =>
          match m_id m with
          | Some i =>
              letP pg := getP in
              match s_transIds (proc pg) !! i with
              | Some c => onMessage' c o None m
              | None => retP tt
              end
          | None => retP tt
          end
      end
  end.

(** *** [Channel.build] in full, and [destroy] *)

(** What [build] does after the registration, for the channel [c] it
    has made. *)
Definition make_object (c : chanref) (cfg : obj_cfg) : MP chanref :=
  modifyP (set_ext c (λ _,
    ChanExt (make_chanId (oc_picks cfg)) false (oc_reconnect cfg)
            (oc_onReady cfg) reserved_natives ∅)) >>>
  (if truthy (oc_remote cfg)
   then
     letP pg := getP in
     createStubs c (concat_list (the_heap (proc pg)) (oc_remote cfg))
   else retP tt) >>>
  modifyP (set_ready_due (λ q, q ++ [c])) >>>
  retP c.

Definition build' (cfg : option obj_cfg) : MP chanref :=
  match cfg with
  | None => lift (build None)
  | Some cfg =>
      letP c := lift (build (Some (oc_base cfg))) in
      make_object c cfg
  end.

Definition destroy (c : chanref) : MP unit :=
  letP pg := getP in
  let ch := chans (proc pg) c in
  lift (s_removeBoundChan (cfg_window ch)
          (if origin_null (ext pg c) then None else Some (cfg_origin ch))
          (cfg_scope ch)) >>>
  lift (modify (set_chan c wiped)) >>>
  modifyP (set_ext c ended).

(** *** The page as an event machine *)

Inductive action :=
  | ABuild (cfg : option obj_cfg)
  | ACall (c : chanref) (m : option call_args)
  | ANotify (c : chanref) (m : option notify_args)
  | ABind (c : chanref) (method : value) (cb : option handler)
  | AUnbind (c : chanref) (method : string)
  | AStub (c : chanref) (name : string) (params success error : value)
  | ADestroy (c : chanref)
  | AMessage (e : message_event)
  | ATimer (n : nat)
  | AReadyPost (n : nat)
  | AStore (l : loc) (o : object).

Definition run_action (a : action) : MP unit :=
  match a with
  | ABuild cfg => build' cfg >>> retP tt
  | ACall c m => lift (call c m)
  | ANotify c m => lift (notify c m)
  | ABind c method cb => bind' c method cb false
  | AUnbind c method => unbind' c method false >>> retP tt
  | AStub c name params success error => stub c name params success error
  | ADestroy c => destroy c
  | AMessage e => s_onMessage' e
  | ATimer n => lift (run_event (ETimer n))
  | AReadyPost n =>
      letP pg := getP in
      match ready_due pg !! n with
      | Some c => modifyP (set_ready_due (delete n)) >>> ready_post c
      | None => retP tt
      end
  | AStore l o => lift (run_event (EStore l o))
  end.

Definition stepP (pg : Page) (a : action) : Page :=
  page_after pg (run_action a pg).

Definition runP (acts : list action) (pg : Page) : Page :=
  foldl stepP pg acts.

End Object.

(** A page that has just loaded the script. *)
Definition initial_page (w : win) (k : Z) (h : heap) : Page :=
  MkPage (initial_proc w k h) (λ _, ext_unbuilt) [] [].

(** ** Vocabulary for the channel object *)

(** [v.toString()] does not throw. *)
Definition has_toString (v : value) : Prop := v ≠ VUndef ∧ v ≠ VNull.

(** The names under which [createStubs] files the stubs for [l]. *)
Definition stub_names `{Platform} (h : heap) (l : list value)
  : gset string :=
  list_to_set (to_display h <$> l).

(** The calls of [call] that an action makes. *)
Definition action_calls (a : action) : list (chanref * option call_args) :=
  match a with
  | ACall c m => [(c, m)]
  | AStub c name params success error =>
      [(c, Some (CallArgs (VStr name) params success error VUndef))]
  | _ => []
  end.

(** The callbacks handed over by the action return when called. *)
Definition calm_action (a : action) : Prop :=
  ∀ c m, (c, m) ∈ action_calls a → calm_event (ECall c m).

(** No channel has become ready or has ceased to be, and none has been
    built. *)
Definition same_ready (st st' : Proc) : Prop :=
  nchans st' = nchans st ∧ ∀ c, ready (chans st' c) = ready (chans st c).

(** Channel [c] has been built and destroyed. *)
Record destroyed (c : chanref) (pg : Page) : Prop := {
  ds_built : (c < nchans (proc pg))%nat;
  ds_origin : origin_null (ext pg c) = true;
  ds_natives : natives (ext pg c) = ∅;
  ds_chanId : chanId (ext pg c) = "";
  ds_ready : ready (chans (proc pg) c) = false;
}.

(** Its two parts: of the process, and of the channel objects. *)
Definition down_proc (c : chanref) (st : Proc) : Prop :=
  (c < nchans st)%nat ∧ ready (chans st c) = false.

Definition down_ext (c : chanref) (e : chanref → chan_ext) : Prop :=
  origin_null (e c) = true ∧ natives (e c) = ∅ ∧ chanId (e c) = "".

(** The registry has no origin ["null"]. *)
Definition no_null_origin (st : Proc) : Prop :=
  s_boundChans st !! "null" = None.

(** [m] maintains the property [Q] of the page, whether it returns or
    throws. *)
Definition keepsP (Q : Page → Prop) {A} (m : MP A) : Prop :=
  ∀ pg, Q pg → Q (page_after pg (m pg)).

(** The pieces of channel code that the object code is made of all
    maintain [P]. *)
Class Kept `{Platform} (P : Proc → Prop) : Prop := {
  kept_type_error : ∀ A text, keeps P (@type_error A text);
  kept_get_prop : ∀ v k, keeps P (get_prop v k);
  kept_alloc : ∀ o, keeps P (alloc o);
  kept_postMessage : ∀ c m force, keeps P (postMessage c m force);
  kept_notify : ∀ c m, keeps P (notify c m);
  kept_publishQueue :
    ∀ c f, keeps P (modify (set_chan c (set_publishQueue f)));
  kept_pendingQueue :
    ∀ c f, keeps P (modify (set_chan c (set_pendingQueue f)));
  kept_inTbl : ∀ c f, keeps P (modify (set_chan c (set_inTbl f)));
  kept_unbind : ∀ c m d, keeps P (unbind c m d);
  kept_bind : ∀ c m cb d, keeps P (bind c m cb d);
  kept_synth_all :
    ∀ c id cbs params paths, keeps P (synth_all c id cbs params paths);
  kept_trans_complete : ∀ c id v, keeps P (trans_complete c id v);
  kept_request_catch : ∀ c id e, keeps P (request_catch c id e);
  kept_onMessage : ∀ c o meth m, keeps P (onMessage c o meth m);
}.

(** A property of the page in two parts: [E] of the channel objects and
    [P] of the process. *)
Definition both (P : Proc → Prop) (E : (chanref → chan_ext) → Prop)
  : Page → Prop :=
  λ pg, E (ext pg) ∧ P (proc pg).

(** The property is not affected by what the reserved handlers of
    channel [c] do to the channel: they set [ready] and change the
    channel's [chan_ext]. *)
Record tolerant (P : Proc → Prop) (E : (chanref → chan_ext) → Prop)
    (c : chanref) : Prop := {
  tol_ready : ∀ b, keeps P (modify (set_chan c (set_ready b)));
  tol_ext : ∀ f e, E e → E (<[c := f (e c)]> e);
}.

(** Or it says that the channel has no reserved handlers. *)
Definition guarded (P : Proc → Prop) (E : (chanref → chan_ext) → Prop)
    (c : chanref) : Prop :=
  tolerant P E c ∨ ∀ e, E e → natives (e c) = ∅.

(** ** Sample data for the channel object *)

(** An engine for which no string or object is above a number. *)
Definition sample_engine : Engine :=
  {| js_less := λ _ _ _, false; js_arity := λ _, 0%nat |}.

(** [Math.random()] at one half: the first transaction id is 500000. *)
Definition half_seed : Z := 2 ^ 52.

(** The peer's answer to transaction 500000. *)
Definition answer_500000 : message_event :=
  MessageEvent (Some (Response 500000 (VStr "done"))) 7%nat
               "https://a.example".

(** [remote: [null]] *)
Definition null_remote_heap : heap :=
  <[1%nat := Obj (CArray 1) [("0", VNull)]]> ∅.

Definition null_remote_cfg : obj_cfg :=
  ObjCfg unscoped_cfg false None (VRef 1%nat) (λ _, 0%nat).

(** The configuration [unscoped_cfg] with nothing else set. *)
Definition plain_cfg : obj_cfg :=
  ObjCfg unscoped_cfg false None VUndef (λ _, 0%nat).

(** * Properties *)

(** ** Association lists and the heap *)

Lemma assoc_remove_key k k' ps :
  assoc k' (remove_key k ps) = if decide (k' = k) then None else assoc k' ps.
Proof.
  unfold remove_key. induction ps as [|[k0 v0] ps IH].
  - simpl. by case_decide.
  - rewrite filter_cons. cbn [fst]. destruct (decide (k0 ≠ k)) as [Hk0|Hk0].
    + cbn [assoc]. rewrite IH. destruct (String.eqb_spec k' k0) as [->|Hne].
      * by rewrite decide_False.
      * done.
    + apply dec_stable in Hk0. subst k0. rewrite IH. cbn [assoc].
      case_decide as Hk; [done|].
      destruct (String.eqb_spec k' k); [done|done].
Qed.

Lemma assoc_Some_key k v ps : assoc k ps = Some v → k ∈ ps.*1.
Proof.
  induction ps as [|[k0 v0] ps IH]; simpl; [done|].
  destruct (String.eqb_spec k k0) as [->|Hne].
  - intros _. apply list_elem_of_here.
  - intros Hs. apply list_elem_of_further, IH, Hs.
Qed.

Lemma own_prop_Some_key h l k v : own_prop h l k = Some v → k ∈ own_keys h l.
Proof.
  unfold own_prop, own_keys. destruct (h !! l) as [o|]; simpl; [|done].
  apply assoc_Some_key.
Qed.

Lemma own_prop_not_key h l k : k ∉ own_keys h l → own_prop h l k = None.
Proof.
  intros Hk. destruct (own_prop h l k) as [v|] eqn:E; [|done].
  by apply own_prop_Some_key in E.
Qed.

Lemma own_prop_delete_prop h l k l' k' :
  own_prop (delete_prop l k h) l' k'
  = if decide (l' = l ∧ k' = k) then None else own_prop h l' k'.
Proof.
  unfold own_prop, delete_prop. destruct (decide (l' = l)) as [->|Hl].
  - rewrite lookup_alter_eq. destruct (h !! l) as [o|]; simpl.
    + rewrite assoc_remove_key. repeat case_decide; naive_solver.
    + by case_decide.
  - rewrite lookup_alter_ne by done. rewrite decide_False; naive_solver.
Qed.

Lemma dom_delete_prop l k (h : heap) : dom (delete_prop l k h) = dom h.
Proof. unfold delete_prop. apply dom_alter_L. Qed.

Lemma lookup_delete_prop_ne l k (h : heap) u :
  u ≠ l → delete_prop l k h !! u = h !! u.
Proof. intros. unfold delete_prop. by rewrite lookup_alter_ne. Qed.

(** ** Deleting function-valued properties *)

Lemma heap_pruned_refl h : heap_pruned h h.
Proof. by split. Qed.

Lemma heap_pruned_trans h1 h2 h3 :
  heap_pruned h1 h2 → heap_pruned h2 h3 → heap_pruned h1 h3.
Proof.
  intros [B1 K1 D1] [B2 K2 D2]. split.
  - eauto.
  - eauto.
  - congruence.
Qed.

Lemma heap_pruned_delete h l k f :
  own_prop h l k = Some (VFun f) → heap_pruned h (delete_prop l k h).
Proof.
  intros Hf. split.
  - intros l' k' v. rewrite own_prop_delete_prop. by case_decide.
  - intros l' k' v Hv Hty. rewrite own_prop_delete_prop.
    case_decide as Hc; [|done]. destruct Hc as [-> ->].
    rewrite Hf in Hv. by simplify_eq.
  - apply dom_delete_prop.
Qed.

(** A path that ends in an object only passes through objects, so it
    survives the deletion of functions, and none is created. *)
Lemma resolve_ref_head h v p w :
  resolve h v p = Some (VRef w) → typeof v ≠ TFunction.
Proof. destruct p, v; simpl; intros; simplify_eq; done. Qed.

Lemma resolve_pruned h h' v p w :
  heap_pruned h h' →
  resolve h v p = Some (VRef w) ↔ resolve h' v p = Some (VRef w).
Proof.
  intros Hp. revert v. induction p as [|k r IH]; intros v; [done|].
  simpl. destruct v; try done.
  split.
  - destruct (own_prop h l k) as [x|] eqn:Ex; simpl; [|done].
    intros Hr. rewrite (hp_keep _ _ Hp _ _ _ Ex (resolve_ref_head _ _ _ _ Hr)).
    simpl. by apply IH.
  - destruct (own_prop h' l k) as [x|] eqn:Ex; simpl; [|done].
    intros Hr. rewrite (hp_back _ _ Hp _ _ _ Ex). simpl. by apply IH.
Qed.

Lemma no_function_props_pruned h h' l :
  heap_pruned h h' → no_function_props h l → no_function_props h' l.
Proof.
  intros Hp Hn k f Hk. apply (Hn k f). by apply (hp_back _ _ Hp).
Qed.

Lemma resolve_app h v p q :
  resolve h v (p ++ q) = x ← resolve h v p; resolve h x q.
Proof.
  revert v. induction p as [|k r IH]; intros v; simpl; [done|].
  destruct v; try done. destruct (own_prop h l k); simpl; [apply IH|done].
Qed.

(** A cycle is a particular case of sharing. *)
Lemma cyclic_shared h v : cyclic h v → shared_object h v.
Proof.
  intros (q & p & l & Hp & Hq & Hc). exists q, (q ++ p), l.
  split; [|split; [done|]].
  - intros Heq. apply Hp. apply (f_equal length) in Heq.
    rewrite length_app in Heq. destruct p; [done|simpl in Heq; lia].
  - by rewrite resolve_app, Hq.
Qed.

(** ** The walk: what a completed run establishes *)

Lemma resolve_ref_object h v p w :
  resolve h v p = Some (VRef w) → typeof v = TObject.
Proof. destruct p, v; simpl; intros; simplify_eq; done. Qed.

Lemma loop_spec_nil l path s : loop_spec l path [] s s [].
Proof.
  split.
  - by rewrite app_nil_r.
  - set_solver.
  - apply heap_pruned_refl.
  - set_solver.
  - set_solver.
  - set_solver.
  - done.
  - set_solver.
  - done.
  - exists []. by rewrite app_nil_r.
  - set_solver.
Qed.

(** A key whose value is neither a function nor an object is passed
    over. *)
Lemma loop_spec_skip l path k ks s s' new :
  (∀ v, own_prop (w_heap s) l k = Some v →
        typeof v ≠ TObject ∧ typeof v ≠ TFunction) →
  loop_spec l path ks s s' new →
  loop_spec l path (k :: ks) s s' new.
Proof.
  intros Hk [Hseen Hfresh Hheap Hreach Hinj Hclean Hframe Hself Hrest Hnames Hex].
  assert (Hno : ∀ c p w, own_prop (w_heap s) l k = Some c →
                         resolve (w_heap s) c p = Some (VRef w) → False).
  { intros c p w Hc Hr. apply Hk in Hc as [Hc _].
    by apply resolve_ref_object in Hr. }
  split; try done.
  - intros k0 c p w [->|Hin]%elem_of_cons Hc Hr; [by destruct (Hno c p w)|eauto].
  - intros k1 c1 p1 k2 c2 p2 w [->|H1]%elem_of_cons Hc1 Hr1
      [->|H2]%elem_of_cons Hc2 Hr2;
      try (by destruct (Hno c1 p1 w)); try (by destruct (Hno c2 p2 w)); eauto.
  - intros k0 f [->|Hin]%elem_of_cons; [|eauto].
    intros Hf. apply (hp_back _ _ Hheap) in Hf. by apply Hk in Hf as [_ Hf].
  - intros k0 Hk0. apply Hrest. set_solver.
  - intros k0 f [->|Hin]%elem_of_cons Hf; [|eauto].
    by apply Hk in Hf as [_ Hf].
Qed.

(** A key whose value is a function: the function is extracted. *)
Lemma loop_spec_extract l path k ks s s' new f :
  own_prop (w_heap s) l k = Some (VFun f) →
  loop_spec l path ks
    (Walk (delete_prop l k (w_heap s)) (w_seen s)
          (<[sub_path path k := VFun f]> (w_callbacks s))
          (w_callbackNames s ++ [sub_path path k])) s' new →
  loop_spec l path (k :: ks) s s' new.
Proof.
  intros Hf [Hseen Hfresh Hheap Hreach Hinj Hclean Hframe Hself Hrest Hnames Hex].
  simpl in *.
  pose proof (heap_pruned_delete _ _ _ _ Hf) as Hdel.
  assert (Hmove : ∀ k0 c p w, k0 ∈ k :: ks →
            own_prop (w_heap s) l k0 = Some c →
            resolve (w_heap s) c p = Some (VRef w) →
            k0 ∈ ks ∧ own_prop (delete_prop l k (w_heap s)) l k0 = Some c
            ∧ resolve (delete_prop l k (w_heap s)) c p = Some (VRef w)).
  { intros k0 c p w Hin Hc Hr.
    pose proof (resolve_ref_object _ _ _ _ Hr) as Hty.
    assert (k0 ≠ k) as Hne.
    { intros ->. rewrite Hf in Hc. by simplify_eq. }
    split; [set_solver|]. split.
    - apply (hp_keep _ _ Hdel); [done|]. by rewrite Hty.
    - by apply (resolve_pruned _ _ _ _ _ Hdel). }
  split; simpl; try done.
  - by apply (heap_pruned_trans _ _ _ Hdel).
  - intros k0 c p w Hin Hc Hr.
    destruct (Hmove _ _ _ _ Hin Hc Hr) as (? & ? & ?). eauto.
  - intros k1 c1 p1 k2 c2 p2 w H1 Hc1 Hr1 H2 Hc2 Hr2.
    destruct (Hmove _ _ _ _ H1 Hc1 Hr1) as (? & ? & ?).
    destruct (Hmove _ _ _ _ H2 Hc2 Hr2) as (? & ? & ?). eauto.
  - intros u Hu Hnew. rewrite Hframe by done. by apply lookup_delete_prop_ne.
  - intros k0 f0 Hin Hf0. destruct (decide (k0 = k)) as [->|Hne].
    + apply (hp_back _ _ Hheap) in Hf0. rewrite own_prop_delete_prop in Hf0.
      by rewrite decide_True in Hf0.
    + apply (Hself k0 f0); [set_solver|done].
  - intros k0 Hk0. rewrite Hrest by set_solver.
    rewrite own_prop_delete_prop. rewrite decide_False; [done|set_solver].
  - destruct Hnames as [more Hmore]. exists ([sub_path path k] ++ more).
    by rewrite Hmore, app_assoc.
  - intros k0 f0 Hin Hf0. destruct (decide (k0 = k)) as [->|Hne].
    + destruct Hnames as [more ->]. set_solver.
    + apply (Hex k0 f0); [set_solver|].
      rewrite own_prop_delete_prop. rewrite decide_False; [done|naive_solver].
Qed.

(** A key whose value is an object: the object is walked first. *)
Lemma loop_spec_child l path k ks s sm s' v new1 new2 :
  own_prop (w_heap s) l k = Some v →
  typeof v = TObject →
  VRef l ∈ w_seen s →
  walk_spec v s sm new1 →
  loop_spec l path ks sm s' new2 →
  loop_spec l path (k :: ks) s s' (new1 ++ new2).
Proof.
  intros Hv Hty Hl [Wseen Wfresh Wheap Wreach Winj Wclean Wframe Wnames]
    [Hseen Hfresh Hheap Hreach Hinj Hclean Hframe Hself Hrest Hnames Hex].
  assert (Hl1 : VRef l ∉ new1) by (intros Hin; by apply Wfresh in Hin).
  assert (Hlm : w_heap sm !! l = w_heap s !! l) by by apply Wframe.
  assert (Hsame : ∀ k0, own_prop (w_heap sm) l k0 = own_prop (w_heap s) l k0).
  { intros k0. unfold own_prop. by rewrite Hlm. }
  assert (Htail : ∀ k0 c p w, k0 ∈ ks →
            own_prop (w_heap s) l k0 = Some c →
            resolve (w_heap s) c p = Some (VRef w) → VRef w ∈ new2).
  { intros k0 c p w Hin Hc Hr. apply (Hreach k0 c p w Hin).
    - by rewrite Hsame.
    - by apply (resolve_pruned _ _ _ _ _ Wheap). }
  assert (Hdisj : ∀ x, x ∈ new1 → x ∈ new2 → False).
  { intros x H1 H2. apply Hfresh in H2. apply H2. rewrite Wseen. set_solver. }
  split.
  - by rewrite Hseen, Wseen, app_assoc.
  - intros x [H1|H2]%elem_of_app; [by apply Wfresh|].
    apply Hfresh in H2. rewrite Wseen in H2. set_solver.
  - by apply (heap_pruned_trans _ _ _ Wheap).
  - intros k0 c p w [->|Hin]%elem_of_cons Hc Hr.
    + rewrite Hv in Hc. simplify_eq. apply elem_of_app. left. eauto.
    + apply elem_of_app. right. eauto.
  - intros k1 c1 p1 k2 c2 p2 w [->|H1]%elem_of_cons Hc1 Hr1
      [->|H2]%elem_of_cons Hc2 Hr2.
    + rewrite Hv in Hc1, Hc2. simplify_eq. split; [done|]. eauto.
    + rewrite Hv in Hc1. simplify_eq. destruct (Hdisj (VRef w)); eauto.
    + rewrite Hv in Hc2. simplify_eq. destruct (Hdisj (VRef w)); eauto.
    + apply (Hinj k1 c1 p1 k2 c2 p2 w); try done.
      * by rewrite Hsame.
      * by apply (resolve_pruned _ _ _ _ _ Wheap).
      * by rewrite Hsame.
      * by apply (resolve_pruned _ _ _ _ _ Wheap).
  - intros w [H1|H2]%elem_of_app; [|by apply Hclean].
    apply (no_function_props_pruned _ _ _ Hheap). by apply Wclean.
  - intros u Hu Hnew. rewrite Hframe by set_solver. apply Wframe. set_solver.
  - intros k0 f [->|Hin]%elem_of_cons; [|eauto].
    intros Hf. apply (hp_back _ _ Hheap) in Hf. rewrite Hsame, Hv in Hf.
    by simplify_eq.
  - intros k0 Hk0. rewrite Hrest by set_solver. apply Hsame.
  - destruct Wnames as [m1 H1], Hnames as [m2 H2]. exists (m1 ++ m2).
    by rewrite H2, H1, app_assoc.
  - intros k0 f [->|Hin]%elem_of_cons Hf.
    + rewrite Hv in Hf. by simplify_eq.
    + apply (Hex k0 f Hin). by rewrite Hsame.
Qed.

Lemma prune_props_spec rec l path ks s s' :
  (∀ path v s s', rec path v s = WDone s' → ∃ new, walk_spec v s s' new) →
  VRef l ∈ w_seen s →
  prune_props rec l path ks s = WDone s' →
  ∃ new, loop_spec l path ks s s' new.
Proof.
  intros Hrec. revert s. induction ks as [|k ks IH]; intros s Hl Hrun.
  - simpl in Hrun. simplify_eq. exists []. apply loop_spec_nil.
  - simpl in Hrun. destruct (own_prop (w_heap s) l k) as [v|] eqn:Ek.
    + destruct (typeof v) eqn:Ety.
      * destruct (IH _ Hl Hrun) as [new Hnew]. exists new.
        apply loop_spec_skip; [|done]. intros v' Hv'. simplify_eq.
        by rewrite Ety.
      * destruct (rec (sub_path path k) v s) as [sm| |] eqn:Erec; try done.
        destruct (Hrec _ _ _ _ Erec) as [new1 H1].
        assert (VRef l ∈ w_seen sm) as Hlm.
        { rewrite (ws_seen _ _ _ _ H1). set_solver. }
        destruct (IH _ Hlm Hrun) as [new2 H2]. exists (new1 ++ new2).
        by eapply loop_spec_child.
      * destruct (IH _ Hl Hrun) as [new Hnew]. exists new.
        apply loop_spec_skip; [|done]. intros v' Hv'. simplify_eq.
        by rewrite Ety.
      * destruct (IH _ Hl Hrun) as [new Hnew]. exists new.
        apply loop_spec_skip; [|done]. intros v' Hv'. simplify_eq.
        by rewrite Ety.
      * destruct (IH _ Hl Hrun) as [new Hnew]. exists new.
        apply loop_spec_skip; [|done]. intros v' Hv'. simplify_eq.
        by rewrite Ety.
      * destruct v; try done.
        apply IH in Hrun as [new Hnew]; [|done]. exists new.
        by eapply loop_spec_extract.
    + destruct (IH _ Hl Hrun) as [new Hnew]. exists new.
      apply loop_spec_skip; [|done]. intros v' Hv'. by simplify_eq.
Qed.

(** Walking a value that is not an object changes nothing but [seen]. *)
Lemma resolve_primitive h v p w :
  (∀ l, v ≠ VRef l) → resolve h v p = Some (VRef w) → False.
Proof.
  intros Hv. destruct p as [|k r]; simpl.
  - intros ?; simplify_eq. by eapply Hv.
  - destruct v; try done. by destruct (Hv l).
Qed.

Lemma walk_spec_same v s : (∀ l, v ≠ VRef l) → walk_spec v s s [].
Proof.
  intros Hv. split.
  - by rewrite app_nil_r.
  - set_solver.
  - apply heap_pruned_refl.
  - intros p w Hr. by destruct (resolve_primitive _ _ _ _ Hv Hr).
  - intros p1 p2 w Hr. by destruct (resolve_primitive _ _ _ _ Hv Hr).
  - set_solver.
  - done.
  - exists []. by rewrite app_nil_r.
Qed.

Lemma walk_spec_push v s :
  (∀ l, v ≠ VRef l) → v ∉ w_seen s →
  walk_spec v s (Walk (w_heap s) (w_seen s ++ [v]) (w_callbacks s)
                      (w_callbackNames s)) [v].
Proof.
  intros Hv Hnew. split; simpl.
  - done.
  - set_solver.
  - apply heap_pruned_refl.
  - intros p w Hr. by destruct (resolve_primitive _ _ _ _ Hv Hr).
  - intros p1 p2 w Hr. by destruct (resolve_primitive _ _ _ _ Hv Hr).
  - intros w Hw. apply list_elem_of_singleton in Hw. by destruct (Hv w).
  - done.
  - exists []. by rewrite app_nil_r.
Qed.

Lemma pruneFunctions_spec fuel path v s s' :
  pruneFunctions fuel path v s = WDone s' → ∃ new, walk_spec v s s' new.
Proof.
  revert path v s s'. induction fuel as [|n IH]; intros path v s s'; [done|].
  simpl. case_bool_decide as Hseen; [done|].
  destruct v as [| | b | z | str | f | l].
  1-6: destruct (truthy _) eqn:Etr; intros Hd; simplify_eq;
       (by eexists; apply walk_spec_same) || (by eexists; apply walk_spec_push).
  - simpl. intros Hrun.
    apply prune_props_spec in Hrun as [new Hloop]; [|apply IH|simpl; set_solver].
    destruct Hloop as
      [Hs Hfresh Hheap Hreach Hinj Hclean Hframe Hself Hrest Hnames Hex].
    simpl in *. exists (VRef l :: new).
    assert (Hl : VRef l ∉ new).
    { intros Hin. apply Hfresh in Hin. set_solver. }
    split; simpl.
    + by rewrite Hs, <- app_assoc.
    + intros x [->|Hin]%elem_of_cons; [done|].
      apply Hfresh in Hin. set_solver.
    + done.
    + intros [|k r] w; simpl.
      * intros [= <-]. set_solver.
      * destruct (own_prop (w_heap s) l k) as [c|] eqn:Ec; simpl; [|done].
        intros Hr. apply elem_of_cons. right.
        eapply Hreach; [|done|done]. by eapply own_prop_Some_key.
    + intros [|k1 r1] [|k2 r2] w; simpl.
      * done.
      * intros [= <-].
        destruct (own_prop (w_heap s) l k2) as [c|] eqn:Ec; simpl; [|done].
        intros Hr. destruct Hl. eapply Hreach; [|done|done].
        by eapply own_prop_Some_key.
      * destruct (own_prop (w_heap s) l k1) as [c|] eqn:Ec; simpl; [|done].
        intros Hr [= <-]. destruct Hl. eapply Hreach; [|done|done].
        by eapply own_prop_Some_key.
      * destruct (own_prop (w_heap s) l k1) as [c1|] eqn:Ec1; simpl; [|done].
        destruct (own_prop (w_heap s) l k2) as [c2|] eqn:Ec2; simpl; [|done].
        intros Hr1 Hr2.
        destruct (Hinj k1 c1 r1 k2 c2 r2 w) as [-> ->]; try done;
          by eapply own_prop_Some_key.
    + intros w [Hw|Hin]%elem_of_cons; [|by apply Hclean].
      simplify_eq. intros k f Hf.
      destruct (decide (k ∈ own_keys (w_heap s) l)) as [Hk|Hk].
      * by apply (Hself k f).
      * rewrite Hrest in Hf by done. by rewrite own_prop_not_key in Hf.
    + intros u Hu. apply Hframe; set_solver.
    + done.
Qed.

(** ** The walk: it only throws the recursion error, and it terminates *)

Lemma prune_props_throws rec l path ks s e s' :
  (∀ path v s e s', rec path v s = WThrow e s' → e = recursive_params_error) →
  prune_props rec l path ks s = WThrow e s' → e = recursive_params_error.
Proof.
  intros Hrec. revert s. induction ks as [|k ks IH]; intros s; simpl; [done|].
  destruct (own_prop (w_heap s) l k) as [v|]; [|apply IH].
  destruct (typeof v); try apply IH.
  destruct (rec (sub_path path k) v s) as [sm| |] eqn:Erec; [apply IH| |done].
  intros [= <- <-]. by eapply Hrec.
Qed.

Lemma pruneFunctions_throws fuel path v s e s' :
  pruneFunctions fuel path v s = WThrow e s' → e = recursive_params_error.
Proof.
  revert path v s e s'. induction fuel as [|n IH]; intros path v s e s'; [done|].
  simpl. case_bool_decide; [by intros [= <- <-]|].
  destruct v; try done. by apply prune_props_throws.
Qed.

Lemma unseen_mono (h h' : heap) seen seen' :
  dom h' = dom h → seen ⊆ seen' → (unseen h' seen' ≤ unseen h seen)%nat.
Proof.
  intros Hd Hs. unfold unseen. rewrite Hd. apply subseteq_size.
  intros l. rewrite !elem_of_filter. set_solver.
Qed.

Lemma unseen_push (h : heap) seen l :
  is_Some (h !! l) → VRef l ∉ seen →
  (unseen h (seen ++ [VRef l]) < unseen h seen)%nat.
Proof.
  intros Hl Hs. unfold unseen. apply subset_size. apply elem_of_dom in Hl.
  split.
  - intros x. rewrite !elem_of_filter. set_solver.
  - intros Hsub. specialize (Hsub l). rewrite !elem_of_filter in Hsub.
    destruct Hsub as [Hbad _]; [done|]. set_solver.
Qed.

Lemma prune_props_fuel rec (n : nat) l path ks s :
  (∀ path v s, (unseen (w_heap s) (w_seen s) < n)%nat →
               rec path v s ≠ WOutOfFuel) →
  (∀ path v s s', rec path v s = WDone s' → ∃ new, walk_spec v s s' new) →
  (unseen (w_heap s) (w_seen s) < n)%nat →
  prune_props rec l path ks s ≠ WOutOfFuel.
Proof.
  intros Hfuel Hrec. revert s. induction ks as [|k ks IH]; intros s Hs; simpl;
    [done|].
  destruct (own_prop (w_heap s) l k) as [v|]; [|by apply IH].
  destruct (typeof v); try by apply IH.
  - destruct (rec (sub_path path k) v s) as [sm| |] eqn:Erec.
    + apply IH. destruct (Hrec _ _ _ _ Erec) as [new Hw].
      eapply Nat.le_lt_trans; [|exact Hs]. apply unseen_mono.
      * apply (hp_dom _ _ (ws_heap _ _ _ _ Hw)).
      * rewrite (ws_seen _ _ _ _ Hw). set_solver.
    + done.
    + by destruct (Hfuel (sub_path path k) v s Hs).
  - apply IH. simpl. eapply Nat.le_lt_trans; [|exact Hs].
    apply unseen_mono; [apply dom_delete_prop|done].
Qed.

Lemma pruneFunctions_fuel fuel path v s :
  (unseen (w_heap s) (w_seen s) < fuel)%nat →
  pruneFunctions fuel path v s ≠ WOutOfFuel.
Proof.
  revert path v s. induction fuel as [|n IH]; intros path v s Hs; [lia|].
  simpl. case_bool_decide as Hseen; [done|].
  destruct v; try done. simpl.
  destruct (w_heap s !! l) as [o|] eqn:El.
  - apply (prune_props_fuel _ n); [apply IH|apply pruneFunctions_spec|]. simpl.
    pose proof (unseen_push (w_heap s) (w_seen s) l) as Hp.
    rewrite El in Hp. specialize (Hp (mk_is_Some _ _ eq_refl) Hseen). lia.
  - unfold own_keys. simpl. by rewrite El.
Qed.

Lemma unseen_init (h : heap) : unseen h [] = size h.
Proof.
  unfold unseen. rewrite <- size_dom. f_equal. apply set_eq. intros l.
  rewrite elem_of_filter. set_solver.
Qed.

(** The walk started by [call] always finishes. *)
Lemma walk_total h v :
  pruneFunctions (walk_fuel h) "" v (walk_init h) ≠ WOutOfFuel.
Proof.
  apply pruneFunctions_fuel. simpl. rewrite unseen_init. unfold walk_fuel. lia.
Qed.

(** Sharing makes the walk throw. *)
Lemma walk_shared_throws h v :
  shared_object h v →
  ∃ s', pruneFunctions (walk_fuel h) "" v (walk_init h)
        = WThrow recursive_params_error s'.
Proof.
  intros (p1 & p2 & l & Hne & H1 & H2).
  destruct (pruneFunctions (walk_fuel h) "" v (walk_init h)) as [s'|e s'|] eqn:E.
  - destruct (pruneFunctions_spec _ _ _ _ _ E) as [new Hw].
    destruct Hne. by apply (ws_inj _ _ _ _ Hw p1 p2 l).
  - apply pruneFunctions_throws in E as ->. by exists s'.
  - by destruct (walk_total h v).
Qed.

(** ** [call] and the walk *)

Lemma call_valid_unfold `{Platform} c a method st :
  a_method a = VStr method → method ≠ "" →
  typeof (a_success a) = TFunction →
  call c (Some a) st =
  (let! (callbacks, callbackNames) := prune_params (a_params a) in
   let! st := get in
   let id := s_curTranId st in
   let wire_method := scopeMethod (chans st c) method in
   let message := Request id wire_method (a_params a) callbackNames in
   (if truthy (a_timeout a)
    then setTransactionTimeout c id (a_timeout a) wire_method
    else ret tt) >>
   modify (set_chan c (set_outTbl
     (insert id (OutEntry callbacks (a_error a) (a_success a))))) >>
   modify (set_transIds (insert id c)) >>
   modify (set_curTranId (λ n, n + 1)) >>
   postMessage c message false) st.
Proof.
  intros Hm Hne Hs. unfold call. rewrite Hm.
  destruct (String.eqb_spec method ""); [done|].
  by rewrite Hs, bool_decide_eq_true_2.
Qed.

Lemma call_shared_throws `{Platform} c a method st :
  a_method a = VStr method → method ≠ "" →
  typeof (a_success a) = TFunction →
  shared_object (the_heap st) (a_params a) →
  ∃ st', call c (Some a) st = Exc recursive_params_error st'.
Proof.
  intros Hm Hne Hs Hsh. rewrite (call_valid_unfold _ _ method) by done.
  destruct (walk_shared_throws _ _ Hsh) as [s' Hw].
  unfold and_then at 1. unfold prune_params. rewrite Hw. by eexists.
Qed.

Lemma call_never_out_of_fuel `{Platform} c m st : call c m st ≠ OutOfFuel.
Proof.
  destruct m as [a|]; [|done]. unfold call.
  destruct (a_method a); try done.
  destruct (s =? "")%string; [done|].
  case_bool_decide; [|done]. simpl.
  unfold and_then at 1. unfold prune_params.
  pose proof (walk_total (the_heap st) (a_params a)) as Ht.
  destruct (pruneFunctions _ _ _ _) as [w|e w|]; [|done|done].
  unfold and_then, get, setTransactionTimeout, modify, postMessage, ret,
    type_error, alloc, and_then, get, modify, throw.
  by repeat (case_match; simpl).
Qed.




Lemma diamond_heap_edges l k x :
  own_prop diamond_heap l k = Some x → l = 1%nat ∧ x = VRef 2%nat.
Proof.
  unfold own_prop, diamond_heap. destruct (decide (l = 1%nat)) as [->|H1].
  - rewrite lookup_insert_eq. simpl.
    destruct (k =? "a")%string; [by intros [= <-]|].
    destruct (k =? "b")%string; [by intros [= <-]|done].
  - rewrite lookup_insert_ne by done. destruct (decide (l = 2%nat)) as [->|H2].
    + by rewrite lookup_insert_eq.
    + by rewrite lookup_insert_ne, lookup_empty.
Qed.

Lemma diamond_heap_acyclic : ¬ cyclic diamond_heap (VRef 1%nat).
Proof.
  intros (q & p & l & Hp & _ & Hl). destruct p as [|k p]; [done|].
  simpl in Hl. destruct (own_prop diamond_heap l k) as [x|] eqn:Ex; [|done].
  apply diamond_heap_edges in Ex as [-> ->]. simpl in Hl.
  destruct p as [|k' p]; [done|]. simpl in Hl.
  destruct (own_prop diamond_heap 2%nat k') as [y|] eqn:Ey; [|done].
  by apply diamond_heap_edges in Ey as [? _].
Qed.


(** ** Scopes and wire method names *)

Lemma prefix_append sep b : String.prefix sep (sep +:+ b) = true.
Proof.
  induction sep as [|a sep IH]; simpl; [by destruct b|].
  destruct (ascii_dec a a); [apply IH|done].
Qed.

Lemma split_from_nonempty sep skip cur s :
  (0 < length (Str.split_from sep skip cur s))%nat.
Proof.
  revert skip cur. induction s as [|a s IH]; intros skip cur;
    cbn [Str.split_from]; [simpl; lia|].
  destruct skip; [|apply IH].
  destruct (String.prefix sep (String a s)); [simpl; lia|apply IH].
Qed.

Lemma split_from_contains sep cur a b :
  sep ≠ "" → (1 < length (Str.split_from sep 0 cur (a +:+ sep +:+ b)))%nat.
Proof.
  intros Hsep. revert cur. induction a as [|x a IH]; intros cur.
  - destruct sep as [|c sep]; [done|].
    change ("" +:+ String c sep +:+ b) with (String c (sep +:+ b)).
    cbn [Str.split_from].
    assert (String.prefix (String c sep) (String c (sep +:+ b)) = true) as ->
      by apply (prefix_append (String c sep) b).
    cbn [length]. apply -> Nat.succ_lt_mono. apply split_from_nonempty.
  - change (String x a +:+ sep +:+ b) with (String x (a +:+ sep +:+ b)).
    cbn [Str.split_from].
    destruct (String.prefix sep (String x (a +:+ sep +:+ b))).
    + cbn [length]. apply -> Nat.succ_lt_mono. apply split_from_nonempty.
    + apply IH.
Qed.

(** A string that [split] leaves whole has no occurrence of the
    separator. *)
Lemma split_whole_no_sep sep s :
  sep ≠ "" → (length (Str.split sep s) ≤ 1)%nat → ¬ Str.contains sep s.
Proof.
  intros Hsep Hlen (a & b & ->). unfold Str.split in Hlen.
  pose proof (split_from_contains sep "" a b Hsep). lia.
Qed.

Lemma check_scope_ok scope s st st' :
  check_scope scope st = Ok s st' →
  st' = st ∧ ¬ Str.contains "::" s
  ∧ (scope = VUndef → s = default_scope)
  ∧ (∀ x, scope = VStr x → s = x).
Proof.
  unfold check_scope. destruct scope; try done.
  - intros [= <- <-]. split; [done|]. split; [|done].
    apply split_whole_no_sep; [done|]. vm_compute. lia.
  - destruct (1 <? length (Str.split "::" s0))%nat eqn:El; [done|].
    intros [= <- <-]. split; [done|]. split; [|split; [done|by intros x [= ->]]].
    apply split_whole_no_sep; [done|]. apply Nat.ltb_ge in El. lia.
Qed.

Lemma build_scope `{Platform} cfg st c st' :
  build (Some cfg) st = Ok c st' →
  ¬ Str.contains "::" (cfg_scope (chans st' c))
  ∧ (bc_scope cfg = VUndef → cfg_scope (chans st' c) = default_scope)
  ∧ (∀ x, bc_scope cfg = VStr x → cfg_scope (chans st' c) = x).
Proof.
  unfold build. destruct has_postMessage; [|done]. destruct has_JSON; [|done].
  simpl. destruct (bc_window cfg) as [[w [|]]|]; try done.
  unfold and_then at 1. simpl. case_bool_decide; [done|].
  destruct (valid_origin (bc_origin cfg)) as [origin|]; [|done].
  unfold and_then at 1.
  destruct (check_scope (bc_scope cfg) st) as [s st1|e st1|] eqn:Es; try done.
  apply check_scope_ok in Es as (-> & Hno & Hdef & Hstr).
  unfold and_then at 1.
  destruct (s_addBoundChan w origin s (nchans st) st) as [[] st2|e st2|] eqn:Ea;
    try done.
  unfold and_then, modify, ret. intros [= <- <-]. simpl.
  unfold s_addBoundChan in Ea. case_match; [done|]. simplify_eq. simpl.
  rewrite fn_lookup_insert. simpl. done.
Qed.

(** *** Serialising the message *)

Lemma cyclic_is_ref h v : cyclic h v → ∃ l, v = VRef l.
Proof.
  intros (q & p & l & _ & Hq & _).
  destruct q, v; simpl in Hq; simplify_eq; eauto.
Qed.

Lemma cyclic_pruned h h' v : heap_pruned h h' → cyclic h' v → cyclic h v.
Proof.
  intros Hp (q & p & l & Hne & Hq & Hl). exists q, p, l.
  split; [done|]. split; by apply (resolve_pruned h h').
Qed.

Lemma serializable_acyclic `{Platform} h v : ¬ cyclic h v → serializable h v.
Proof. intros Hn Hs. by apply Hn, stringify_throws_cyclic. Qed.

Lemma serializable_primitive `{Platform} h v :
  (∀ l, v ≠ VRef l) → serializable h v.
Proof.
  intros Hv. apply serializable_acyclic. intros [l ->]%cyclic_is_ref.
  by apply (Hv l).
Qed.

Lemma stringify_throws_false `{Platform} h v :
  stringify_throws h v = false ↔ serializable h v.
Proof.
  unfold stringify_throws, serializable.
  destruct (JSON_stringify h v); naive_solver.
Qed.

Lemma stringify_undef `{Platform} h : stringify_throws h VUndef = false.
Proof. by apply stringify_throws_false, serializable_primitive. Qed.

Lemma unserializable_false `{Platform} h m :
  unserializable h m = false ↔
  serializable h (m_params m) ∧ serializable h (m_error m)
  ∧ serializable h (m_message m) ∧ serializable h (m_result m).
Proof.
  unfold unserializable. rewrite !orb_false_iff, !stringify_throws_false.
  naive_solver.
Qed.

(** A completed walk leaves a graph that serialises. *)
Lemma walked_serializable `{Platform} fuel path v s s' :
  pruneFunctions fuel path v s = WDone s' → serializable (w_heap s') v.
Proof.
  intros Hd. destruct (pruneFunctions_spec _ _ _ _ _ Hd) as [new Hw].
  apply serializable_acyclic. intros Hc.
  apply (cyclic_pruned _ _ _ (ws_heap _ _ _ _ Hw)) in Hc.
  destruct (cyclic_shared _ _ Hc) as (p1 & p2 & l & Hne & H1 & H2).
  by apply Hne, (ws_inj _ _ _ _ Hw p1 p2 l).
Qed.

Lemma type_error_throws {A} text st :
  ∃ e st', @type_error A text st = Exc e st'.
Proof. unfold type_error, and_then, alloc, throw. by eexists _, _. Qed.

Lemma postMessage_unserializable `{Platform} c m force st :
  unserializable (the_heap st) m = true →
  ∃ e st', postMessage c m force st = Exc e st'.
Proof.
  intros Hu. unfold postMessage, and_then at 1. unfold get. rewrite Hu.
  apply type_error_throws.
Qed.

Lemma postMessage_emitted `{Platform} c m st :
  unserializable (the_heap st) m = false →
  ∃ st', postMessage c m false st = Ok tt st' ∧ emitted c st st' m
         ∧ s_curTranId st' = s_curTranId st ∧ the_heap st' = the_heap st
         ∧ (∀ c', outTbl (chans st' c') = outTbl (chans st c'))
         ∧ (∀ c', inTbl (chans st' c') = inTbl (chans st c'))
         ∧ s_transIds st' = s_transIds st ∧ log st' = log st
         ∧ timers st' = timers st.
Proof.
  intros Hu. unfold postMessage, emitted, and_then at 1. unfold get.
  rewrite Hu. simpl.
  destruct (ready (chans st c)) eqn:Er; simpl; eexists; (split; [done|]);
    simpl.
  - repeat split; done.
  - rewrite fn_lookup_insert. simpl. repeat split; chan_frame.
Qed.

Lemma unserializable_notification `{Platform} h method params :
  unserializable h (Notification method params) = stringify_throws h params.
Proof.
  unfold unserializable. simpl. by rewrite stringify_undef, !orb_false_r.
Qed.

Lemma notify_emits `{Platform} c method params st :
  method ≠ "" → serializable (the_heap st) params →
  ∃ st', notify c (Some (NotifyArgs (VStr method) params)) st = Ok tt st'
         ∧ emitted c st st'
             (Notification (cfg_scope (chans st c) +:+ "::" +:+ method) params).
Proof.
  intros Hne Hser. unfold notify. simpl.
  destruct (String.eqb_spec method ""); [done|].
  unfold and_then, get.
  destruct (postMessage_emitted c
    (Notification (scopeMethod (chans st c) method) params) st)
    as (st' & -> & He & _).
  { by rewrite unserializable_notification, stringify_throws_false. }
  by exists st'.
Qed.

(** What a [call] that passes its checks does. *)
Lemma unserializable_request `{Platform} h id method params names :
  unserializable h (Request id method params names)
  = stringify_throws h params.
Proof.
  unfold unserializable. simpl. by rewrite stringify_undef, !orb_false_r.
Qed.

#[local] Arguments unserializable : simpl never.

Lemma call_ok `{Platform} c a method st w :
  a_method a = VStr method → method ≠ "" →
  typeof (a_success a) = TFunction →
  pruneFunctions (walk_fuel (the_heap st)) "" (a_params a)
                 (walk_init (the_heap st)) = WDone w →
  ∃ st', call c (Some a) st = Ok tt st'
    ∧ emitted c st st'
        (Request (s_curTranId st)
                 (cfg_scope (chans st c) +:+ "::" +:+ method)
                 (a_params a) (w_callbackNames w))
    ∧ s_curTranId st' = s_curTranId st + 1
    ∧ the_heap st' = w_heap w
    ∧ outTbl (chans st' c)
      = <[s_curTranId st := OutEntry (w_callbacks w) (a_error a) (a_success a)]>
          (outTbl (chans st c))
    ∧ (∀ c', c' ≠ c → outTbl (chans st' c') = outTbl (chans st c'))
    ∧ s_transIds st' = <[s_curTranId st := c]> (s_transIds st)
    ∧ log st' = log st
    ∧ timers st'
      = timers st ++
        (if truthy (a_timeout a)
         then [Timer c (s_curTranId st) (a_timeout a)
                     (cfg_scope (chans st c) +:+ "::" +:+ method)]
         else [])
    ∧ (∀ c', inTbl (chans st' c') = inTbl (chans st c'))
    ∧ (∀ c', regTbl (chans st' c') = regTbl (chans st c')).
Proof.
  intros Hm Hne Hs Hw. rewrite (call_valid_unfold _ _ method) by done.
  unfold and_then at 1. unfold prune_params. rewrite Hw.
  assert (Hu : ∀ id wm, unserializable (w_heap w)
            (Request id wm (a_params a) (w_callbackNames w)) = false).
  { intros. rewrite unserializable_request.
    by apply stringify_throws_false, (walked_serializable _ _ _ _ _ Hw). }
  unfold postMessage, and_then, get, setTransactionTimeout, modify, ret,
    emitted, scopeMethod, Str.join2.
  destruct (truthy (a_timeout a)); simpl; rewrite Hu; simpl;
    rewrite !fn_lookup_insert; simpl;
    destruct (ready (chans st c)) eqn:Er; simpl;
    eexists; (split; [done|]); simpl; rewrite ?fn_lookup_insert; simpl;
    rewrite ?app_nil_r;
    repeat split; chan_frame.
Qed.


(** A [call] that returns has passed its checks and completed the walk. *)
Lemma call_ok_inv `{Platform} c m st st' :
  call c m st = Ok tt st' →
  ∃ a method w,
    m = Some a ∧ a_method a = VStr method ∧ method ≠ ""
    ∧ typeof (a_success a) = TFunction
    ∧ pruneFunctions (walk_fuel (the_heap st)) "" (a_params a)
                     (walk_init (the_heap st)) = WDone w.
Proof.
  destruct m as [a|]; [|done]. unfold call.
  destruct (a_method a) eqn:Em; try done.
  destruct (String.eqb_spec s ""); [done|].
  case_bool_decide as Hs; [|done]. simpl.
  unfold and_then at 1. unfold prune_params.
  destruct (pruneFunctions _ _ _ _) as [w|e w|] eqn:Ew; [|done|done].
  intros _. by exists a, s, w.
Qed.

Lemma notify_ok_inv `{Platform} c m st st' :
  notify c m st = Ok tt st' →
  ∃ method params,
    m = Some (NotifyArgs (VStr method) params) ∧ method ≠ ""
    ∧ emitted c st st'
        (Notification (cfg_scope (chans st c) +:+ "::" +:+ method) params).
Proof.
  destruct m as [[method params]|]; [|done].
  destruct method as [| | | |method| |]; try done.
  destruct (decide (method = "")) as [->|Hne]; [done|].
  destruct (stringify_throws (the_heap st) params) eqn:Es.
  - unfold notify. simpl. destruct (String.eqb_spec method ""); [done|].
    unfold and_then, get.
    destruct (postMessage_unserializable c
      (Notification (scopeMethod (chans st c) method) params) false st)
      as (e & st2 & ->); [|done].
    by rewrite unserializable_notification.
  - apply stringify_throws_false in Es.
    destruct (notify_emits c method params st Hne Es) as (st2 & Hn & He).
    rewrite Hn. intros [= <-]. by exists method, params.
Qed.

(** C8 (as amended).  [build] accepts no scope that contains ["::"], and
    keeps the literal ["__default"] when none is configured; the method
    name of every Request and Notification handed to [postMessage] is
    [scope + "::" + method] for that kept scope, the default included. *)
Theorem scope_and_wire_method_names `{Platform} :
  (∀ cfg st c st',
     build (Some cfg) st = Ok c st' →
     ¬ Str.contains "::" (cfg_scope (chans st' c))
     ∧ (bc_scope cfg = VUndef → cfg_scope (chans st' c) = "__default")
     ∧ (∀ x, bc_scope cfg = VStr x → cfg_scope (chans st' c) = x))
  ∧ (∀ c m st st',
       call c m st = Ok tt st' →
       ∃ a method names,
         m = Some a ∧ a_method a = VStr method
         ∧ emitted c st st'
             (Request (s_curTranId st)
                      (cfg_scope (chans st c) +:+ "::" +:+ method)
                      (a_params a) names))
  ∧ (∀ c m st st',
       notify c m st = Ok tt st' →
       ∃ method params,
         m = Some (NotifyArgs (VStr method) params)
         ∧ emitted c st st'
             (Notification (cfg_scope (chans st c) +:+ "::" +:+ method)
                           params)).
Proof.
  split; [|split].
  - intros cfg st c st'. apply build_scope.
  - intros c m st st' Hc.
    destruct (call_ok_inv _ _ _ _ Hc) as (a & method & w & -> & Hm & Hne & Hs & Hw).
    destruct (call_ok c a method st w Hm Hne Hs Hw) as (st2 & Hc2 & He & _).
    rewrite Hc in Hc2. simplify_eq. by exists a, method, (w_callbackNames w).
  - intros c m st st' Hn.
    destruct (notify_ok_inv _ _ _ _ Hn) as (method & params & -> & _ & He).
    by exists method, params.
Qed.

Lemma scope_and_wire_method_names_witness :
  ∃ c st1 st2,
    @build sample_platform (Some unscoped_cfg) (initial_proc 0%nat 0 ∅)
    = Ok c st1
    ∧ cfg_scope (chans st1 c) = "__default"
    ∧ @notify sample_platform c (Some (NotifyArgs (VStr "ping") VUndef)) st1
      = Ok tt st2
    ∧ emitted c st1 st2 (Notification "__default::ping" VUndef).
Proof.
  destruct (@build sample_platform (Some unscoped_cfg) (initial_proc 0%nat 0 ∅))
    as [c st1|e st1|] eqn:Eb; [|by vm_compute in Eb..].
  destruct (proj1 (@scope_and_wire_method_names sample_platform)
              unscoped_cfg _ c st1 Eb) as (_ & Hd & _).
  specialize (Hd eq_refl).
  destruct (@notify_emits sample_platform c "ping" VUndef st1)
    as (st2 & Hn & _); [done|done|].
  exists c, st1, st2. split; [done|]. split; [done|]. split; [done|].
  destruct (proj2 (proj2 (@scope_and_wire_method_names sample_platform))
              c _ st1 st2 Hn) as (method & params & [= <- <-] & He).
  by rewrite Hd in He.
Defined.

(** C8, the claim as stated fails: with no scope configured the posted
    method name is ["__default::ping"], not the bare ["ping"]. *)
Lemma unscoped_notify_is_prefixed :
  ∃ c st1 st2,
    @build sample_platform (Some unscoped_cfg) (initial_proc 0%nat 0 ∅)
    = Ok c st1
    ∧ @notify sample_platform c (Some (NotifyArgs (VStr "ping") VUndef))
              (set_chan c (set_ready true) st1) = Ok tt st2
    ∧ wire st2 = [Posted 7%nat "https://a.example"
                         (Notification "__default::ping" VUndef)]
    ∧ m_method (Notification "__default::ping" VUndef) ≠ Some "ping".
Proof.
  eexists _, _, _. split; [vm_compute; reflexivity|].
  split; [vm_compute; reflexivity|]. split; [vm_compute; reflexivity|done].
Qed.

(** ** The registry *)

Lemma hasWin_entries w arr :
  hasWin w arr = false ↔ entries_in arr w = 0%nat.
Proof.
  unfold entries_in. induction arr as [|b arr IH]; simpl; [done|].
  rewrite filter_cons. case_bool_decide as Hb.
  - rewrite decide_True by done. simpl. split; [done|lia].
  - by rewrite decide_False.
Qed.

Lemma hasWin_true w arr :
  hasWin w arr = true ↔ (0 < entries_in arr w)%nat.
Proof.
  destruct (hasWin w arr) eqn:E.
  - split; [intros _|done].
    destruct (entries_in arr w) eqn:En; [|lia].
    apply hasWin_entries in En. congruence.
  - apply hasWin_entries in E. rewrite E. split; [done|lia].
Qed.

Lemma scan_origins_false w scope buckets :
  scan_origins w scope buckets = false ↔
  ∀ k scopes, (k, scopes) ∈ buckets → k ≠ "*" →
              entries_in (default [] (scopes !! scope)) w = 0%nat.
Proof.
  induction buckets as [|[k scopes] r IH]; simpl.
  - split; [|done]. intros _ k scopes Hin. by apply not_elem_of_nil in Hin.
  - destruct (String.eqb_spec k "*") as [->|Hk].
    + rewrite IH. split.
      * intros Hr k scopes' [[= -> ->]|Hin]%elem_of_cons; [done|eauto].
      * intros Hr k scopes' Hin. apply Hr. by apply list_elem_of_further.
    + destruct (scopes !! scope) as [arr|] eqn:Es; simpl.
      * destruct (hasWin w arr) eqn:Eh.
        -- split; [done|]. intros Hr.
           specialize (Hr k scopes (list_elem_of_here _ _) Hk).
           rewrite Es in Hr. simpl in Hr. apply hasWin_entries in Hr. congruence.
        -- rewrite IH. apply hasWin_entries in Eh. split.
           ++ intros Hr k' scopes' [[= -> ->]|Hin]%elem_of_cons; [|eauto].
              intros _. by rewrite Es.
           ++ intros Hr k' scopes' Hin. apply Hr. by apply list_elem_of_further.
      * rewrite IH. split.
        -- intros Hr k' scopes' [[= -> ->]|Hin]%elem_of_cons; [|eauto].
           intros _. by rewrite Es.
        -- intros Hr k' scopes' Hin. apply Hr. by apply list_elem_of_further.
Qed.

Lemma scan_registry_false (reg : gmap string (gmap string (list bound)))
    w scope :
  scan_origins w scope (map_to_list reg) = false ↔
  ∀ origin, origin ≠ "*" → entries_at reg origin scope w = 0%nat.
Proof.
  rewrite scan_origins_false. unfold entries_at, bucket. split.
  - intros Hs origin Ho. destruct (reg !! origin) as [scopes|] eqn:Er; [|done].
    simpl. apply (Hs origin scopes); [|done]. by apply elem_of_map_to_list.
  - intros He k scopes Hin%elem_of_map_to_list Hk.
    specialize (He k Hk). by rewrite Hin in He.
Qed.

(** When [s_addBoundChan] succeeds, and what it then adds. *)
Lemma s_addBoundChan_ok w origin scope handler st :
  registrable (s_boundChans st) w origin scope →
  ∃ st', s_addBoundChan w origin scope handler st = Ok tt st'
    ∧ ∀ o s w',
        entries_at (s_boundChans st') o s w'
        = (entries_at (s_boundChans st) o s w'
           + if bool_decide (o = origin ∧ s = scope ∧ w' = w) then 1 else 0)%nat.
Proof.
  intros Hfree. unfold s_addBoundChan, registrable in *.
  set (reg := s_boundChans st) in *.
  assert (Hex : (if (origin =? "*")%string
                 then scan_origins w scope (map_to_list reg)
                 else
                   if match bucket reg "*" scope with
                      | Some arr => hasWin w arr
                      | None => false
                      end
                   then true
                   else match bucket reg origin scope with
                        | Some arr => hasWin w arr
                        | None => false
                        end) = false).
  { destruct (String.eqb_spec origin "*") as [->|Ho].
    - rewrite decide_True in Hfree by done. by apply scan_registry_false.
    - rewrite decide_False in Hfree by done. destruct Hfree as [Hs Hc].
      unfold entries_at in Hs, Hc.
      destruct (bucket reg "*" scope) as [a1|]; simpl in Hs.
      + apply hasWin_entries in Hs. rewrite Hs.
        destruct (bucket reg origin scope) as [a2|]; simpl in Hc; [|done].
        by apply hasWin_entries.
      + destruct (bucket reg origin scope) as [a2|]; simpl in Hc; [|done].
        by apply hasWin_entries. }
  rewrite Hex. eexists. split; [done|]. simpl. intros o s w'.
  unfold entries_at, bucket.
  destruct (decide (o = origin)) as [->|Ho].
  - rewrite lookup_insert_eq. simpl.
    destruct (decide (s = scope)) as [->|Hs].
    + rewrite lookup_insert_eq. simpl. unfold entries_in.
      rewrite filter_app, length_app, filter_cons, filter_nil. simpl.
      destruct (reg !! origin) as [scopes|] eqn:Er; simpl.
      * destruct (decide (w = w')) as [->|Hw].
        -- by rewrite bool_decide_eq_true_2.
        -- rewrite bool_decide_eq_false_2 by naive_solver. done.
      * rewrite lookup_empty. simpl. destruct (decide (w = w')) as [->|Hw].
        -- by rewrite bool_decide_eq_true_2.
        -- rewrite bool_decide_eq_false_2 by naive_solver. done.
    + rewrite lookup_insert_ne by done.
      rewrite bool_decide_eq_false_2 by naive_solver.
      destruct (reg !! origin) as [scopes|] eqn:Er; simpl; [lia|].
      by rewrite lookup_empty.
  - rewrite lookup_insert_ne by done.
    rewrite bool_decide_eq_false_2 by naive_solver. by rewrite Nat.add_0_r.
Qed.

Lemma entries_in_nil w : entries_in [] w = 0%nat.
Proof. done. Qed.

(** When [s_addBoundChan] fails. *)
Lemma s_addBoundChan_conflict w origin scope handler st :
  (if decide (origin = "*")
   then ∃ o, o ≠ "*" ∧ (0 < entries_at (s_boundChans st) o scope w)%nat
   else (0 < entries_at (s_boundChans st) "*" scope w)%nat
        ∨ (0 < entries_at (s_boundChans st) origin scope w)%nat) →
  s_addBoundChan w origin scope handler st = Exc (overlap_error origin scope) st.
Proof.
  intros Hc. unfold s_addBoundChan.
  destruct (String.eqb_spec origin "*") as [->|Ho].
  - rewrite decide_True in Hc by done. destruct Hc as (o & Ho & Hpos).
    destruct (scan_origins w scope (map_to_list (s_boundChans st))) eqn:E;
      [done|].
    rewrite scan_registry_false in E. specialize (E o Ho). lia.
  - rewrite decide_False in Hc by done. unfold entries_at in Hc.
    destruct (bucket (s_boundChans st) "*" scope) as [a1|];
      destruct (bucket (s_boundChans st) origin scope) as [a2|];
      cbn [default from_option id] in Hc; rewrite ?entries_in_nil in Hc.
    + destruct (hasWin w a1) eqn:E1; [done|]. apply hasWin_entries in E1.
      destruct Hc as [Hc|Hc]; [lia|]. apply hasWin_true in Hc. by rewrite Hc.
    + destruct (hasWin w a1) eqn:E1; [done|]. apply hasWin_entries in E1. lia.
    + destruct Hc as [Hc|Hc]; [lia|]. apply hasWin_true in Hc. by rewrite Hc.
    + lia.
Qed.

Lemma s_addBoundChan_ok_inv w origin scope handler st st' :
  s_addBoundChan w origin scope handler st = Ok tt st' →
  registrable (s_boundChans st) w origin scope.
Proof.
  unfold s_addBoundChan, registrable.
  destruct (String.eqb_spec origin "*") as [->|Ho].
  - rewrite decide_True by done.
    destruct (scan_origins _ _ _) eqn:E; [done|]. intros _.
    by apply scan_registry_false.
  - rewrite decide_False by done. unfold entries_at.
    destruct (bucket (s_boundChans st) "*" scope) as [a1|];
      destruct (bucket (s_boundChans st) origin scope) as [a2|];
      cbn [default from_option id]; rewrite ?entries_in_nil.
    + destruct (hasWin w a1) eqn:E1; [done|].
      destruct (hasWin w a2) eqn:E2; [done|]. intros _.
      by split; apply hasWin_entries.
    + destruct (hasWin w a1) eqn:E1; [done|]. intros _.
      by split; [apply hasWin_entries|].
    + destruct (hasWin w a2) eqn:E2; [done|]. intros _.
      by split; [|apply hasWin_entries].
    + done.
Qed.

Lemma registry_ok_empty : registry_ok ∅.
Proof.
  intros w scope origin Ho. unfold entries_at, bucket. rewrite !lookup_empty.
  cbn [mbind option_bind default from_option id]. rewrite entries_in_nil.
  split; [lia|done].
Qed.

Lemma registry_ok_add w origin scope handler st st' :
  registry_ok (s_boundChans st) →
  s_addBoundChan w origin scope handler st = Ok tt st' →
  registry_ok (s_boundChans st').
Proof.
  intros Hok Hadd.
  pose proof (s_addBoundChan_ok_inv _ _ _ _ _ _ Hadd) as Hfree.
  destruct (s_addBoundChan_ok w origin scope handler st Hfree)
    as (st2 & Hadd2 & Hcount).
  rewrite Hadd in Hadd2. simplify_eq.
  intros w' s o Ho. rewrite !Hcount. destruct (Hok w' s o Ho) as [H1 H2].
  unfold registrable in Hfree.
  destruct (decide (origin = "*")) as [->|Horigin].
  - rewrite (bool_decide_eq_false_2 (o = "*" ∧ _)) by naive_solver.
    rewrite Nat.add_0_r. split; [done|].
    case_bool_decide as Hb; [|rewrite Nat.add_0_r; done].
    destruct Hb as (_ & -> & ->). intros _. by apply Hfree.
  - rewrite (bool_decide_eq_false_2 ("*" = origin ∧ _)) by naive_solver.
    rewrite Nat.add_0_r. destruct Hfree as [Hstar Hself].
    case_bool_decide as Hb.
    + destruct Hb as (-> & -> & ->). rewrite Hself, Hstar. split; [done|lia].
    + rewrite Nat.add_0_r. done.
Qed.




(** ** Computations that resolve no call *)

Lemma shrinks_refl st : shrinks st st.
Proof. by split. Qed.

Lemma shrinks_trans st1 st2 st3 :
  shrinks st1 st2 → shrinks st2 st3 → shrinks st1 st3.
Proof. intros [I1 O1] [I2 O2]. split; [congruence|eauto]. Qed.

Lemma quiet_refl st : quiet st st.
Proof. split; [apply shrinks_refl|done]. Qed.

Lemma quiet_trans st1 st2 st3 : quiet st1 st2 → quiet st2 st3 → quiet st1 st3.
Proof.
  intros [S1 L1] [S2 L2]. split; [by eapply shrinks_trans|].
  intros id. by rewrite L2, L1.
Qed.

Lemma quiet_of_fields st st' :
  s_curTranId st' = s_curTranId st →
  (∀ c, outTbl (chans st' c) = outTbl (chans st c)) →
  (∀ id, resolutions id (log st') = resolutions id (log st)) →
  quiet st st'.
Proof.
  intros Hid Hout Hlog. split; [split|]; [done| |done].
  intros c id e. by rewrite Hout.
Qed.

Lemma quiet_ret {A} (a : A) : quiet_m (ret a).
Proof. intros st. apply quiet_refl. Qed.

Lemma quiet_throw {A} e : quiet_m (@throw A e).
Proof. intros st. apply quiet_refl. Qed.

Lemma quiet_get : quiet_m get.
Proof. intros st. apply quiet_refl. Qed.

Lemma quiet_modify f : (∀ st, quiet st (f st)) → quiet_m (modify f).
Proof. intros Hf st. apply Hf. Qed.

Lemma quiet_bind {A B} (m : M A) (k : A → M B) :
  quiet_m m → (∀ a, quiet_m (k a)) → quiet_m (and_then m k).
Proof.
  intros Hm Hk st. unfold and_then. specialize (Hm st).
  destruct (m st) as [a st1|e st1|]; simpl in *; [|done|done].
  specialize (Hk a st1). destruct (k a st1); simpl in *.
  - by eapply quiet_trans.
  - by eapply quiet_trans.
  - apply quiet_refl.
Qed.

Lemma quiet_try_catch {A} (m : M A) (k : value → M A) :
  quiet_m m → (∀ e, quiet_m (k e)) → quiet_m (try_catch m k).
Proof.
  intros Hm Hk st. unfold try_catch. specialize (Hm st).
  destruct (m st) as [a st1|e st1|]; simpl in *; [done| |done].
  specialize (Hk e st1). destruct (k e st1); simpl in *.
  - by eapply quiet_trans.
  - by eapply quiet_trans.
  - apply quiet_refl.
Qed.

Lemma resolutions_app id lg1 lg2 :
  resolutions id (lg1 ++ lg2) = (resolutions id lg1 + resolutions id lg2)%nat.
Proof. unfold resolutions. by rewrite filter_app, length_app. Qed.

Lemma resolutions_one id i :
  resolutions id [i] = if is_resolution id i then 1%nat else 0%nat.
Proof.
  unfold resolutions. rewrite filter_cons, filter_nil.
  destruct (is_resolution id i); by simpl.
Qed.

(** Setting one of the fields that the relation does not look at. *)
Ltac quiet_fields :=
  intros; apply quiet_of_fields; simpl; [done|chan_frame|done].

Create HintDb quiet.

Ltac quiet_go :=
  repeat first
    [ apply quiet_ret
    | apply quiet_throw
    | apply quiet_get
    | solve [eauto with quiet]
    | apply quiet_bind; [|intros ?]
    | apply quiet_try_catch; [|intros ?]
    | apply quiet_modify; quiet_fields
    | match goal with
      | |- quiet_m (match ?x with _ => _ end) => destruct x
      | |- quiet_m (if ?b then _ else _) => destruct b
      | |- quiet_m (let '(_, _) := ?x in _) => destruct x
      end ].

Lemma quiet_alloc o : quiet_m (alloc o).
Proof. intros st. unfold alloc. simpl. quiet_fields. Qed.
#[local] Hint Resolve quiet_alloc : quiet.

Lemma quiet_type_error {A} text : quiet_m (@type_error A text).
Proof. unfold type_error. quiet_go. Qed.
#[local] Hint Resolve quiet_type_error : quiet.

Lemma quiet_get_prop v k : quiet_m (get_prop v k).
Proof. unfold get_prop. quiet_go. Qed.
#[local] Hint Resolve quiet_get_prop : quiet.

Lemma quiet_set_prop v k x : quiet_m (set_prop v k x).
Proof. unfold set_prop. quiet_go. Qed.
#[local] Hint Resolve quiet_set_prop : quiet.

Lemma quiet_s_addBoundChan w origin scope handler :
  quiet_m (s_addBoundChan w origin scope handler).
Proof.
  intros st. unfold s_addBoundChan.
  destruct (if (origin =? "*")%string then _ else _); simpl;
    [apply quiet_refl|quiet_fields].
Qed.
#[local] Hint Resolve quiet_s_addBoundChan : quiet.

Lemma quiet_postMessage `{Platform} c m force : quiet_m (postMessage c m force).
Proof.
  unfold postMessage. apply quiet_bind; [apply quiet_get|intros st].
  destruct (unserializable _ _); [apply quiet_type_error|].
  cbv zeta. destruct (negb force && negb (ready (chans st c)));
    apply quiet_modify; quiet_fields.
Qed.
#[local] Hint Resolve quiet_postMessage : quiet.

Lemma quiet_trans_invoke `{Platform} c id cbs name v :
  quiet_m (trans_invoke c id cbs name v).
Proof. unfold trans_invoke. quiet_go. Qed.
#[local] Hint Resolve quiet_trans_invoke : quiet.

Lemma quiet_trans_error `{Platform} c id e m : quiet_m (trans_error c id e m).
Proof. unfold trans_error. quiet_go. Qed.
#[local] Hint Resolve quiet_trans_error : quiet.

Lemma quiet_trans_complete `{Platform} c id v : quiet_m (trans_complete c id v).
Proof. unfold trans_complete. quiet_go. Qed.
#[local] Hint Resolve quiet_trans_complete : quiet.

Lemma quiet_log_other st i :
  (∀ id, is_resolution id i = false) →
  quiet st (set_log (λ l, l ++ [i]) st).
Proof.
  intros Hi. apply quiet_of_fields; simpl; [done|done|].
  intros id. by rewrite resolutions_app, resolutions_one, Hi, Nat.add_0_r.
Qed.

Lemma quiet_invoke_value `{Platform} site f args :
  (∀ id, site ≠ SiteSuccess id ∧ site ≠ SiteError id) →
  quiet_m (invoke_value site f args).
Proof.
  intros Hsite.
  assert (Hres : ∀ g id, is_resolution id (Invocation site g args) = false).
  { intros g id. unfold is_resolution. simpl.
    destruct site; try done; by destruct (Hsite id0). }
  unfold invoke_value. destruct f as [| | | | |[u|c id cbs name]|]; quiet_go.
  - apply quiet_modify. intros st. by apply quiet_log_other.
  - apply quiet_modify. intros st. by apply quiet_log_other.
Qed.

Lemma quiet_get_path v path : quiet_m (get_path v path).
Proof. revert v. induction path; intros v; simpl; quiet_go. Qed.
#[local] Hint Resolve quiet_get_path : quiet.

Lemma quiet_run_op `{Platform} tc params op fl :
  quiet_m (run_op tc params op fl).
Proof.
  unfold run_op. destruct op, tc; quiet_go; by apply quiet_invoke_value.
Qed.
#[local] Hint Resolve quiet_run_op : quiet.

Lemma quiet_run_ops `{Platform} tc params ops fl :
  quiet_m (run_ops tc params ops fl).
Proof. revert fl. induction ops; intros fl; simpl; quiet_go. Qed.
#[local] Hint Resolve quiet_run_ops : quiet.

Lemma quiet_finish f : quiet_m (finish f).
Proof. unfold finish. quiet_go. Qed.
#[local] Hint Resolve quiet_finish : quiet.

Lemma quiet_run_handler `{Platform} tc params h fl :
  quiet_m (run_handler tc params h fl).
Proof. unfold run_handler. quiet_go. Qed.
#[local] Hint Resolve quiet_run_handler : quiet.

Lemma quiet_descend obj items : quiet_m (descend obj items).
Proof. revert obj. induction items; intros obj; simpl; quiet_go. Qed.
#[local] Hint Resolve quiet_descend : quiet.

Lemma quiet_synth_one c id cbs params path :
  quiet_m (synth_one c id cbs params path).
Proof. unfold synth_one. quiet_go. Qed.
#[local] Hint Resolve quiet_synth_one : quiet.

Lemma quiet_synth_all c id cbs params paths :
  quiet_m (synth_all c id cbs params paths).
Proof. induction paths; simpl; quiet_go. Qed.
#[local] Hint Resolve quiet_synth_all : quiet.

Lemma quiet_render `{Platform} e : quiet_m (render e).
Proof. unfold render. quiet_go. Qed.
#[local] Hint Resolve quiet_render : quiet.

Lemma quiet_try_harder `{Platform} e : quiet_m (try_harder e).
Proof. unfold try_harder. quiet_go. Qed.
#[local] Hint Resolve quiet_try_harder : quiet.

Lemma quiet_normalize_exception `{Platform} e : quiet_m (normalize_exception e).
Proof.
  unfold normalize_exception. apply quiet_bind; [apply quiet_get|]. intros st.
  apply quiet_bind.
  - destruct (typeof e); quiet_go.
  - intros [[error message] e']. quiet_go.
Qed.
#[local] Hint Resolve quiet_normalize_exception : quiet.

Lemma quiet_request_try `{Platform} c id cbs m h :
  quiet_m (request_try c id cbs m h).
Proof.
  unfold request_try. apply quiet_bind; [quiet_go|]. intros _.
  apply quiet_bind; [quiet_go|]. intros [resp fl]. quiet_go.
Qed.
#[local] Hint Resolve quiet_request_try : quiet.

Lemma quiet_request_catch `{Platform} c id e : quiet_m (request_catch c id e).
Proof.
  unfold request_catch. apply quiet_bind; [quiet_go|]. intros [error message].
  quiet_go.
Qed.
#[local] Hint Resolve quiet_request_catch : quiet.

Lemma quiet_on_request `{Platform} c id meth m :
  quiet_m (on_request c id meth m).
Proof. unfold on_request. quiet_go. Qed.

Lemma quiet_on_callback `{Platform} c id cb m : quiet_m (on_callback c id cb m).
Proof.
  unfold on_callback. quiet_go. apply quiet_invoke_value.
  intros id'. by split.
Qed.

Lemma quiet_on_notification `{Platform} c meth m :
  quiet_m (on_notification c meth m).
Proof. unfold on_notification. quiet_go. Qed.

Lemma quiet_setTransactionTimeout c id timeout method :
  quiet_m (setTransactionTimeout c id timeout method).
Proof. unfold setTransactionTimeout. quiet_go. Qed.

Lemma quiet_notify `{Platform} c m : quiet_m (notify c m).
Proof. unfold notify. quiet_go. Qed.
#[local] Hint Resolve quiet_notify : quiet.

Lemma quiet_bind_method `{Platform} c method cb doNotPublish :
  quiet_m (bind c method cb doNotPublish).
Proof. unfold bind. quiet_go. Qed.

Lemma quiet_unbind `{Platform} c method doNotPublish :
  quiet_m (unbind c method doNotPublish).
Proof. unfold unbind. quiet_go. Qed.

Lemma quiet_check_scope scope : quiet_m (check_scope scope).
Proof. unfold check_scope. quiet_go. Qed.
#[local] Hint Resolve quiet_check_scope : quiet.

Lemma quiet_build `{Platform} cfg : quiet_m (build cfg).
Proof.
  unfold build. quiet_go.
  - apply quiet_modify. intros st. split; [split|]; simpl; [done| |done].
    intros c id e. destruct (decide (c = nchans a)) as [->|Hc].
    + by rewrite fn_lookup_insert.
    + by rewrite fn_lookup_insert_ne.
Qed.

Lemma quiet_prune_params params : quiet_m (prune_params params).
Proof.
  intros st. unfold prune_params.
  destruct (pruneFunctions _ _ _ _); simpl; [quiet_fields|quiet_fields|].
  apply quiet_refl.
Qed.

Lemma quiet_evict c id : quiet_m (evict c id).
Proof.
  unfold evict. quiet_go.
  apply quiet_modify. intros st. split; [split|]; simpl; [done| |done].
  intros c' id' e. destruct (decide (c = c')) as [->|Hc].
  - rewrite fn_lookup_insert. simpl. rewrite lookup_delete_Some. naive_solver.
  - by rewrite fn_lookup_insert_ne.
Qed.
#[local] Hint Resolve quiet_evict : quiet.

(** ** State properties along the dispatch chain *)

Lemma keeps_bind P {A B} (m : M A) (k : A → M B) :
  keeps P m → (∀ a, keeps P (k a)) → keeps P (and_then m k).
Proof.
  intros Hm Hk st HP. unfold and_then. specialize (Hm st HP).
  destruct (m st) as [a st1|e st1|]; simpl in *; [|done|done].
  specialize (Hk a st1 Hm). by destruct (k a st1).
Qed.

Lemma keeps_quiet P {A} (m : M A) : quiet_closed P → quiet_m m → keeps P m.
Proof. intros HP Hm st Hst. by eapply HP. Qed.

Lemma keeps_onMessage `{Platform} P c origin method m :
  quiet_closed P →
  (∀ c id m, keeps P (on_response c id m)) →
  keeps P (onMessage c origin method m).
Proof.
  intros HP Hresp. unfold onMessage.
  destruct (truthy_id (m_id m) && truthy_str method);
    [apply keeps_quiet; [done|apply quiet_on_request]|].
  destruct (truthy_id (m_id m) && truthy_str (m_callback m));
    [apply keeps_quiet; [done|apply quiet_on_callback]|].
  destruct (truthy_id (m_id m)); [apply Hresp|].
  destruct (truthy_str method);
    [apply keeps_quiet; [done|apply quiet_on_notification]|].
  apply keeps_quiet; [done|apply quiet_ret].
Qed.

Lemma keeps_deliver `{Platform} P w arr o meth m :
  quiet_closed P →
  (∀ c id m, keeps P (on_response c id m)) →
  keeps P (deliver w arr o meth m).
Proof.
  intros HP Hresp. induction arr as [|b arr IH]; simpl.
  - apply keeps_quiet; [done|apply quiet_ret].
  - case_bool_decide; [|done]. apply keeps_bind; [by apply keeps_onMessage|].
    intros _. apply keeps_quiet; [done|apply quiet_ret].
Qed.

Lemma keeps_s_onMessage `{Platform} P e :
  quiet_closed P →
  (∀ c id m, keeps P (on_response c id m)) →
  keeps P (s_onMessage e).
Proof.
  intros HP Hresp.
  assert (Hret : ∀ A (a : A), keeps P (ret a)).
  { intros A a. apply keeps_quiet; [done|apply quiet_ret]. }
  assert (Hget : keeps P get).
  { apply keeps_quiet; [done|apply quiet_get]. }
  unfold s_onMessage. destruct (e_data e) as [m|]; [|apply Hret].
  destruct (match m_method m with Some _ => _ | None => _ end) as [s [meth|]].
  - apply keeps_bind; [done|]. intros st. apply keeps_bind.
    + destruct (bucket _ _ _); [by apply keeps_deliver|apply Hret].
    + intros [|]; [apply Hret|]. apply keeps_bind; [done|]. intros st'.
      destruct (bucket _ _ _); [|apply Hret].
      apply keeps_bind; [by apply keeps_deliver|]. intros _. apply Hret.
  - destruct (m_id m) as [i|]; [|apply Hret].
    apply keeps_bind; [done|]. intros st.
    destruct (s_transIds st !! i); [by apply keeps_onMessage|apply Hret].
Qed.

Lemma keeps_run_event `{Platform} P ev :
  quiet_closed P →
  (∀ c id m, keeps P (on_response c id m)) →
  (∀ t, keeps P (timeout_expired t)) →
  (∀ c m, ev = ECall c m → keeps P (call c m)) →
  keeps P (run_event ev).
Proof.
  intros HP Hresp Htime Hcall.
  assert (Hq : ∀ A (m : M A), quiet_m m → keeps P m).
  { intros A m. by apply keeps_quiet. }
  destruct ev; simpl.
  - apply Hq. apply quiet_bind; [apply quiet_build|]. intros _. apply quiet_ret.
  - by apply Hcall.
  - apply Hq, quiet_notify.
  - apply Hq, quiet_bind_method.
  - apply Hq. apply quiet_bind; [apply quiet_unbind|]. intros _. apply quiet_ret.
  - by apply keeps_s_onMessage.
  - apply keeps_bind; [apply Hq, quiet_get|]. intros st.
    destruct (timers st !! n); [|apply Hq, quiet_ret].
    apply keeps_bind; [|intros _; apply Htime].
    apply Hq. apply quiet_modify. quiet_fields.
  - apply Hq. apply quiet_modify. quiet_fields.
Qed.

Lemma keeps_run `{Platform} P evs st :
  (∀ ev, ev ∈ evs → keeps P (run_event ev)) →
  P st → P (run evs st).
Proof.
  revert st. induction evs as [|ev evs IH]; intros st Hev HP; simpl; [done|].
  apply IH.
  - intros ev' Hin. apply Hev. by apply list_elem_of_further.
  - apply (Hev ev); [apply list_elem_of_here|done].
Qed.

(** ** Transaction ids *)

Lemma call_not_ok_quiet `{Platform} c m st :
  (∀ st', call c m st ≠ Ok tt st') → quiet st (state_after st (call c m st)).
Proof.
  intros Hno. destruct m as [a|]; [|apply quiet_refl]. revert Hno. unfold call.
  destruct (a_method a) as [| | | |method| |] eqn:Em; try (intros; apply quiet_refl).
  destruct (String.eqb_spec method "") as [->|Hne]; [intros; apply quiet_refl|].
  case_bool_decide as Hs; simpl; [|intros; apply quiet_refl].
  destruct (pruneFunctions (walk_fuel (the_heap st)) "" (a_params a)
              (walk_init (the_heap st))) as [w|e w|] eqn:Ew.
  - destruct (call_ok c a method st w Em Hne Hs Ew) as (st' & Hc & _).
    unfold call in Hc. rewrite Em in Hc.
    destruct (String.eqb_spec method ""); [done|].
    rewrite bool_decide_eq_true_2 in Hc by done. simpl in Hc.
    intros Hno. by destruct (Hno st').
  - intros _. unfold and_then at 1. unfold prune_params. rewrite Ew. simpl.
    quiet_fields.
  - intros _. unfold and_then at 1. unfold prune_params. rewrite Ew. simpl.
    apply quiet_refl.
Qed.

Lemma ids_fresh_shrinks st st' : shrinks st st' → ids_fresh st → ids_fresh st'.
Proof.
  intros [Hid Hout] [Hb Hu]. split.
  - intros c id [e He]. rewrite Hid. apply (Hb c). eauto.
  - intros c c' id [e He] [e' He']. apply (Hu c c' id); eauto.
Qed.

Lemma ids_fresh_quiet_closed : quiet_closed ids_fresh.
Proof. intros st st' [Hs _]. by apply ids_fresh_shrinks. Qed.

Lemma shrinks_set_log f st : shrinks st (set_log f st).
Proof. by split. Qed.

Lemma shrinks_after_step st st1 {A} (m : M A) :
  shrinks st st1 → quiet_m m → shrinks st (state_after st (m st1)).
Proof.
  intros Hs Hq. specialize (Hq st1). destruct Hq as [Hq _].
  destruct (m st1); simpl in *; [| |apply shrinks_refl]; by eapply shrinks_trans.
Qed.

Lemma shrinks_invoke_value `{Platform} site f args st :
  shrinks st (state_after st (invoke_value site f args st)).
Proof.
  unfold invoke_value. destruct f as [| | | | |[u|c id cbs name]|];
    try apply (q_shrinks _ _ (quiet_type_error _ st)).
  - unfold and_then, modify. simpl. destruct (uf_throws u); apply shrinks_set_log.
  - unfold and_then at 1. unfold modify. cbn beta iota.
    apply shrinks_after_step; [apply shrinks_set_log|quiet_go].
Qed.

(** The response branch and the timer only remove entries. *)
Lemma keeps_resolution P (pre : M value) c id :
  (∀ st st', shrinks st st' → P st → P st') →
  (∀ st, shrinks st (state_after st (pre st))) →
  keeps P ((pre >> ret tt) >> evict c id).
Proof.
  intros HP Hpre st Hst. unfold and_then, ret. specialize (Hpre st).
  destruct (pre st) as [v st1|e st1|]; simpl in *.
  - eapply HP; [|exact Hst]. eapply shrinks_trans; [exact Hpre|].
    pose proof (quiet_evict c id st1) as [Hq _]. exact Hq.
  - by eapply HP.
  - done.
Qed.

Lemma keeps_on_response_shrinks `{Platform} P c id m :
  (∀ st st', shrinks st st' → P st → P st') →
  keeps P (on_response c id m).
Proof.
  intros HP.
  assert (Hq : ∀ A (x : M A), quiet_m x → keeps P x).
  { intros A x Hx st Hst. eapply HP; [|done]. apply Hx. }
  unfold on_response. apply keeps_bind; [apply Hq, quiet_get|]. intros st.
  destruct (outTbl (chans st c) !! id) as [e|]; [|apply Hq, quiet_ret].
  destruct (truthy (m_error m)).
  - destruct (truthy (oe_error e)).
    + apply keeps_resolution; [done|apply shrinks_invoke_value].
    + apply Hq. quiet_go.
  - case_bool_decide;
      (apply keeps_resolution; [done|apply shrinks_invoke_value]).
Qed.

Lemma keeps_timeout_expired_shrinks `{Platform} P t :
  (∀ st st', shrinks st st' → P st → P st') →
  keeps P (timeout_expired t).
Proof.
  intros HP.
  assert (Hq : ∀ A (x : M A), quiet_m x → keeps P x).
  { intros A x Hx st Hst. eapply HP; [|done]. apply Hx. }
  unfold timeout_expired. apply keeps_bind; [apply Hq, quiet_get|]. intros st.
  destruct (outTbl (chans st (tm_chan t)) !! tm_transId t) as [e|];
    [|apply Hq, quiet_ret].
  destruct (truthy (oe_error e)).
  - apply keeps_resolution; [done|apply shrinks_invoke_value].
  - apply Hq. quiet_go.
Qed.

Lemma ids_fresh_call `{Platform} c m : keeps ids_fresh (call c m).
Proof.
  intros st Hst. destruct (call c m st) as [[] st'|e st'|] eqn:Ec; simpl; [| |done].
  - destruct (call_ok_inv _ _ _ _ Ec) as (a & method & w & -> & Hm & Hne & Hs & Hw).
    destruct (call_ok c a method st w Hm Hne Hs Hw)
      as (st2 & Hc2 & _ & Hid & _ & Hout & Hother & _).
    rewrite Ec in Hc2. simplify_eq. destruct Hst as [Hb Hu].
    assert (Hold : ∀ c' id, is_Some (outTbl (chans st2 c') !! id) →
              (id = s_curTranId st ∧ c' = c)
              ∨ (id ≠ s_curTranId st ∧ is_Some (outTbl (chans st c') !! id))).
    { intros c' id Hin. destruct (decide (c' = c)) as [->|Hc].
      - rewrite Hout in Hin. destruct (decide (id = s_curTranId st)) as [->|Hi].
        + by left.
        + right. by rewrite lookup_insert_ne in Hin.
      - rewrite Hother in Hin by done. right. split; [|done].
        intros ->. apply Hb in Hin. lia. }
    split.
    + intros c' id Hin. rewrite Hid.
      destruct (Hold _ _ Hin) as [[-> _]|[_ Hin']]; [lia|].
      apply Hb in Hin'. lia.
    + intros c1 c2 id H1 H2.
      destruct (Hold _ _ H1) as [[-> ->]|[Hn1 H1']];
        destruct (Hold _ _ H2) as [[? ->]|[Hn2 H2']]; try done.
      by eapply Hu.
  - pose proof (call_not_ok_quiet c m st) as Hq. rewrite Ec in Hq.
    eapply ids_fresh_quiet_closed; [|done]. apply Hq. by intros st2.
Qed.

(** Along every run of the process, outstanding transaction ids stay
    below the counter and no two channels hold the same one. *)
Lemma ids_fresh_run `{Platform} evs st :
  ids_fresh st → ids_fresh (run evs st).
Proof.
  apply keeps_run. intros ev _. apply keeps_run_event.
  - apply ids_fresh_quiet_closed.
  - intros c id m. apply keeps_on_response_shrinks.
    intros ???; by apply ids_fresh_shrinks.
  - intros t. apply keeps_timeout_expired_shrinks.
    intros ???; by apply ids_fresh_shrinks.
  - intros c m _. apply ids_fresh_call.
Qed.

Lemma ids_fresh_initial w k h : ids_fresh (initial_proc w k h).
Proof.
  split; simpl.
  - intros c id [e He]. by rewrite lookup_empty in He.
  - intros c c' id [e He]. by rewrite lookup_empty in He.
Qed.

(** ** Resolution at most once *)

Lemma resolved_once_quiet_closed : quiet_closed resolved_once.
Proof.
  intros st st' [[Hid Hout] Hlog] [Hf Hd Ho Hc]. split.
  - eapply ids_fresh_shrinks; [|done]. by split.
  - intros id. rewrite Hlog, Hid. intros Hpos. destruct (Hd id Hpos) as [Hlt Hnone].
    split; [done|]. intros c. destruct (outTbl (chans st' c) !! id) eqn:E; [|done].
    apply Hout in E. by rewrite Hnone in E.
  - intros id. by rewrite Hlog.
  - intros c id e He. apply (Hc c id). by apply Hout.
Qed.

Lemma is_resolution_site id id' f args site :
  site = SiteSuccess id ∨ site = SiteError id →
  is_resolution id' (Invocation site f args) = bool_decide (id = id').
Proof. by intros [-> | ->]. Qed.

(** A pending transaction is resolved: its callback runs and its entry
    goes. *)
Lemma resolved_once_resolve st c id e i :
  resolved_once st →
  outTbl (chans st c) !! id = Some e →
  (∀ id', is_resolution id' i = bool_decide (id = id')) →
  resolved_once
    (set_transIds (delete id)
       (set_chan c (set_outTbl (delete id)) (set_log (λ l, l ++ [i]) st))).
Proof.
  intros [[Hb Hu] Hd Ho Hc] He Hi.
  assert (Hzero : resolutions id (log st) = 0%nat).
  { destruct (resolutions id (log st)) eqn:E; [done|].
    destruct (Hd id) as [_ Hnone]; [lia|]. by rewrite Hnone in He. }
  assert (Hlog : ∀ id', resolutions id' (log st ++ [i])
                        = (resolutions id' (log st)
                           + if bool_decide (id = id') then 1 else 0)%nat).
  { intros id'. by rewrite resolutions_app, resolutions_one, Hi. }
  assert (Hout : ∀ c' id' e',
            outTbl (<[c := set_outTbl (delete id) (chans st c)]> (chans st) c')
              !! id' = Some e' →
            outTbl (chans st c') !! id' = Some e' ∧ (id' = id → c' ≠ c)).
  { intros c' id' e'. destruct (decide (c = c')) as [->|Hne].
    - rewrite fn_lookup_insert. simpl. rewrite lookup_delete_Some. naive_solver.
    - rewrite fn_lookup_insert_ne by done. naive_solver. }
  split; simpl.
  - split; simpl.
    + intros c' id' [e' He']. apply Hout in He' as [He' _]. apply (Hb c'). eauto.
    + intros c1 c2 id' [e1 H1] [e2 H2]. apply Hout in H1 as [H1 _].
      apply Hout in H2 as [H2 _]. apply (Hu c1 c2 id'); eauto.
  - intros id'. rewrite Hlog. case_bool_decide as Hid.
    + subst id'. intros _. split; [apply (Hb c); eauto|].
      intros c'. destruct (outTbl (_ c') !! id) as [e'|] eqn:E; [|done].
      apply Hout in E as [E Hne]. destruct (Hne eq_refl).
      apply (Hu c' c id); eauto.
    + rewrite Nat.add_0_r. intros Hpos. destruct (Hd id' Hpos) as [Hlt Hnone].
      split; [done|]. intros c'.
      destruct (outTbl (_ c') !! id') as [e'|] eqn:E; [|done].
      apply Hout in E as [E _]. by rewrite Hnone in E.
  - intros id'. rewrite Hlog. case_bool_decide as Hid.
    + subst id'. rewrite Hzero. lia.
    + rewrite Nat.add_0_r. apply Ho.
  - intros c' id' e' He'. apply Hout in He' as [He' _]. by apply (Hc c' id').
Qed.

Lemma resolved_once_settle `{Platform} site f args c id e st :
  resolved_once st →
  outTbl (chans st c) !! id = Some e →
  calm f →
  site = SiteSuccess id ∨ site = SiteError id →
  resolved_once
    (state_after st (((invoke_value site f args >> ret tt) >> evict c id) st)).
Proof.
  intros Hst He Hcalm Hsite.
  assert (Hother : ∀ A (x : M A), quiet_m x →
            resolved_once (state_after st (x st))).
  { intros A x Hx. eapply resolved_once_quiet_closed; [apply Hx|done]. }
  destruct f as [| | | | |[u|c' id' cbs name]|]; try done;
    try solve [apply Hother; unfold invoke_value; quiet_go].
  simpl in Hcalm. unfold invoke_value, and_then, modify, evict, ret.
  rewrite Hcalm. simpl. eapply resolved_once_resolve; [done|done|].
  intros id'. by apply is_resolution_site.
Qed.

Lemma resolved_once_on_response `{Platform} c id m :
  keeps resolved_once (on_response c id m).
Proof.
  intros st Hst. unfold on_response. unfold and_then at 1. unfold get.
  destruct (outTbl (chans st c) !! id) as [e|] eqn:He; [|done].
  destruct (ro_calm _ Hst c id e He) as [Hcs Hce].
  destruct (truthy (m_error m)).
  - destruct (truthy (oe_error e)).
    + eapply resolved_once_settle; eauto.
    + eapply resolved_once_quiet_closed; [|done].
      assert (quiet_m (ret tt >> evict c id)) as Hq by quiet_go. apply Hq.
  - case_bool_decide; eapply resolved_once_settle; eauto.
Qed.

Lemma resolved_once_timeout_expired `{Platform} t :
  keeps resolved_once (timeout_expired t).
Proof.
  intros st Hst. unfold timeout_expired. unfold and_then at 1. unfold get.
  destruct (outTbl (chans st (tm_chan t)) !! tm_transId t) as [e|] eqn:He;
    [|done].
  destruct (ro_calm _ Hst _ _ e He) as [Hcs Hce].
  destruct (truthy (oe_error e)).
  - eapply resolved_once_settle; eauto.
  - eapply resolved_once_quiet_closed; [|done].
    assert (quiet_m (ret tt >> evict (tm_chan t) (tm_transId t))) as Hq
      by quiet_go.
    apply Hq.
Qed.

Lemma resolved_once_call `{Platform} c m :
  calm_event (ECall c m) → keeps resolved_once (call c m).
Proof.
  intros Hcalm st Hst.
  pose proof (ids_fresh_call c m st (ro_fresh _ Hst)) as Hfresh.
  destruct (call c m st) as [[] st'|e st'|] eqn:Ec; simpl in *; [| |done].
  - destruct (call_ok_inv _ _ _ _ Ec) as (a & method & w & -> & Hm & Hne & Hs & Hw).
    destruct (call_ok c a method st w Hm Hne Hs Hw)
      as (st2 & Hc2 & _ & Hid & _ & Hout & Hother & _ & Hlog & _).
    rewrite Ec in Hc2. simplify_eq. destruct Hst as [[Hb Hu] Hd Ho Hc].
    split; [done| | |].
    + intros id. rewrite Hlog, Hid. intros Hpos.
      destruct (Hd id Hpos) as [Hlt Hnone]. split; [lia|]. intros c'.
      destruct (decide (c' = c)) as [->|Hne'].
      * rewrite Hout, lookup_insert_ne by lia. apply Hnone.
      * rewrite Hother by done. apply Hnone.
    + intros id. rewrite Hlog. apply Ho.
    + intros c' id e'. destruct (decide (c' = c)) as [->|Hne'].
      * rewrite Hout. destruct (decide (id = s_curTranId st)) as [->|Hi].
        -- rewrite lookup_insert_eq. intros [= <-]. simpl. apply Hcalm.
        -- rewrite lookup_insert_ne by done. apply Hc.
      * rewrite Hother by done. apply Hc.
  - pose proof (call_not_ok_quiet c m st) as Hq. rewrite Ec in Hq.
    eapply resolved_once_quiet_closed; [|done]. apply Hq. by intros st2.
Qed.

Lemma resolved_once_initial w k h : resolved_once (initial_proc w k h).
Proof.
  split; simpl.
  - apply ids_fresh_initial.
  - intros id Hpos. unfold resolutions in Hpos. simpl in Hpos. lia.
  - intros id. unfold resolutions. simpl. lia.
  - intros c id e He. by rewrite lookup_empty in He.
Qed.

(** Along every run in which the callbacks handed to [call] return, no
    transaction has its success or error callback invoked twice, nor
    both of them. *)
Lemma resolved_once_run `{Platform} evs st :
  Forall calm_event evs → resolved_once st → resolved_once (run evs st).
Proof.
  intros Hcalm. apply keeps_run. intros ev Hin. apply keeps_run_event.
  - apply resolved_once_quiet_closed.
  - apply resolved_once_on_response.
  - apply resolved_once_timeout_expired.
  - intros c m ->. apply resolved_once_call.
    by apply (proj1 (Forall_forall _ _) Hcalm).
Qed.

(** ** Responses, error responses and timeouts, step by step *)

Lemma evicted_tables c id st :
  outTbl (chans (evicted c id st) c) !! id = None
  ∧ s_transIds (evicted c id st) !! id = None
  ∧ log (evicted c id st) = log st
  ∧ wire (evicted c id st) = wire st.
Proof.
  unfold evicted. simpl. rewrite fn_lookup_insert. simpl.
  by rewrite !lookup_delete_eq.
Qed.

Lemma invoke_user_returns `{Platform} site u args st :
  uf_throws u = None →
  invoke_value site (VFun (FUser u)) args st
  = Ok VUndef (invoked site (FUser u) args st).
Proof. intros Hu. unfold invoke_value, and_then, modify, ret. by rewrite Hu. Qed.

Lemma on_response_success `{Platform} c id m e u st :
  outTbl (chans st c) !! id = Some e →
  truthy (m_error m) = false →
  oe_success e = VFun (FUser u) → uf_throws u = None →
  on_response c id m st
  = Ok tt (evicted c id
             (invoked (SiteSuccess id) (FUser u)
                (if bool_decide (m_result m = VUndef) then [] else [m_result m])
                st)).
Proof.
  intros He Herr Hs Hu. unfold on_response. unfold and_then at 1. unfold get.
  rewrite He, Herr, Hs.
  case_bool_decide; unfold and_then; by rewrite invoke_user_returns.
Qed.

Lemma on_response_error `{Platform} c id m e u st :
  outTbl (chans st c) !! id = Some e →
  truthy (m_error m) = true →
  oe_error e = VFun (FUser u) → uf_throws u = None →
  on_response c id m st
  = Ok tt (evicted c id
             (invoked (SiteError id) (FUser u) [m_error m; m_message m] st)).
Proof.
  intros He Herr Hs Hu. unfold on_response. unfold and_then at 1. unfold get.
  rewrite He, Herr, Hs. cbn [truthy]. unfold and_then.
  by rewrite invoke_user_returns.
Qed.

(** Without an error callback an error response resolves the
    transaction silently. *)
Lemma on_response_error_unheard `{Platform} c id m e st :
  outTbl (chans st c) !! id = Some e →
  truthy (m_error m) = true →
  truthy (oe_error e) = false →
  on_response c id m st = Ok tt (evicted c id st).
Proof.
  intros He Herr Hs. unfold on_response. unfold and_then at 1. unfold get.
  by rewrite He, Herr, Hs.
Qed.

Lemma on_response_unknown `{Platform} c id m st :
  outTbl (chans st c) !! id = None → on_response c id m st = Ok tt st.
Proof.
  intros He. unfold on_response. unfold and_then at 1. unfold get.
  by rewrite He.
Qed.

Lemma timeout_expired_error `{Platform} t e u st :
  outTbl (chans st (tm_chan t)) !! tm_transId t = Some e →
  oe_error e = VFun (FUser u) → uf_throws u = None →
  timeout_expired t st
  = Ok tt (evicted (tm_chan t) (tm_transId t)
             (invoked (SiteError (tm_transId t)) (FUser u)
                [VStr "timeout_error"; VStr (timeout_message st t)] st)).
Proof.
  intros He Hs Hu. unfold timeout_expired. unfold and_then at 1. unfold get.
  rewrite He, Hs. cbn [truthy]. unfold and_then.
  by rewrite invoke_user_returns.
Qed.

Lemma timeout_expired_unheard `{Platform} t e st :
  outTbl (chans st (tm_chan t)) !! tm_transId t = Some e →
  truthy (oe_error e) = false →
  timeout_expired t st = Ok tt (evicted (tm_chan t) (tm_transId t) st).
Proof.
  intros He Hs. unfold timeout_expired. unfold and_then at 1. unfold get.
  by rewrite He, Hs.
Qed.

Lemma timeout_expired_resolved `{Platform} t st :
  outTbl (chans st (tm_chan t)) !! tm_transId t = None →
  timeout_expired t st = Ok tt st.
Proof.
  intros He. unfold timeout_expired. unfold and_then at 1. unfold get.
  by rewrite He.
Qed.

(** A message without a method is routed by its id alone. *)
Lemma s_onMessage_by_id `{Platform} e m id st :
  e_data e = Some m → m_method m = None → m_id m = Some id →
  s_onMessage e st
  = match s_transIds st !! id with
    | Some c => onMessage c (e_origin e) None m st
    | None => Ok tt st
    end.
Proof.
  intros Hd Hm Hi. unfold s_onMessage. rewrite Hd, Hm, Hi.
  unfold and_then, get. by destruct (s_transIds st !! id).
Qed.

Lemma onMessage_response `{Platform} c origin m id st :
  m_id m = Some id → id ≠ 0 → m_callback m = None →
  onMessage c origin None m st = on_response c id m st.
Proof.
  intros Hi Hz Hc. unfold onMessage. rewrite Hi, Hc. simpl.
  destruct (Z.eqb_spec id 0); done.
Qed.

(** With no entry for its id, a message without a method is dropped. *)
Lemma onMessage_dropped `{Platform} c origin m id st :
  m_id m = Some id → outTbl (chans st c) !! id = None →
  onMessage c origin None m st = Ok tt st.
Proof.
  intros Hi He. unfold onMessage. rewrite Hi. simpl.
  rewrite andb_false_r. destruct (negb (id =? 0)); simpl; [|done].
  destruct (truthy_str (m_callback m)).
  - unfold on_callback, and_then, get. by rewrite He.
  - by apply on_response_unknown.
Qed.

(** ** Once resolved, never again *)

Lemma settled_quiet_closed id n : quiet_closed (settled id n).
Proof.
  intros st st' [[Hid Hout] Hlog] (Hlt & Hnone & Hn). split; [|split].
  - by rewrite Hid.
  - intros c. destruct (outTbl (chans st' c) !! id) eqn:E; [|done].
    apply Hout in E. by rewrite Hnone in E.
  - by rewrite Hlog.
Qed.

Lemma settled_invoke `{Platform} id n site f args :
  (∀ g, is_resolution id (Invocation site g args) = false) →
  keeps (settled id n) (invoke_value site f args).
Proof.
  intros Hsite.
  assert (Hq : ∀ A (x : M A), quiet_m x → keeps (settled id n) x).
  { intros A x. apply keeps_quiet, settled_quiet_closed. }
  assert (Hlog : ∀ g, keeps (settled id n)
            (modify (set_log (λ l, l ++ [Invocation site g args])))).
  { intros g st (Hlt & Hnone & Hn). split; [done|]. split; [done|]. simpl.
    by rewrite resolutions_app, resolutions_one, Hsite, Nat.add_0_r. }
  unfold invoke_value. destruct f as [| | | | |[u|c id' cbs name]|];
    try solve [apply Hq; quiet_go].
  - apply keeps_bind; [apply Hlog|]. intros _. apply Hq. quiet_go.
  - apply keeps_bind; [apply Hlog|]. intros _. apply Hq. quiet_go.
Qed.

Lemma settled_resolution `{Platform} id n site f args c id' :
  id' ≠ id → site = SiteSuccess id' ∨ site = SiteError id' →
  keeps (settled id n) ((invoke_value site f args >> ret tt) >> evict c id').
Proof.
  intros Hne Hsite.
  assert (Hq : ∀ A (x : M A), quiet_m x → keeps (settled id n) x).
  { intros A x. apply keeps_quiet, settled_quiet_closed. }
  apply keeps_bind; [|intros _; apply Hq; quiet_go].
  apply keeps_bind; [|intros _; apply Hq; quiet_go].
  apply settled_invoke. intros g. rewrite (is_resolution_site id'); [|done].
  by rewrite bool_decide_eq_false_2.
Qed.

Lemma settled_on_response `{Platform} id n c id' m :
  keeps (settled id n) (on_response c id' m).
Proof.
  assert (Hq : ∀ A (x : M A), quiet_m x → keeps (settled id n) x).
  { intros A x. apply keeps_quiet, settled_quiet_closed. }
  intros st Hst. unfold on_response. unfold and_then at 1. unfold get.
  destruct (outTbl (chans st c) !! id') as [e|] eqn:He; [|done].
  assert (id' ≠ id) as Hne.
  { intros ->. destruct Hst as (_ & Hnone & _). by rewrite Hnone in He. }
  destruct (truthy (m_error m)).
  - destruct (truthy (oe_error e)).
    + apply settled_resolution; eauto.
    + apply Hq; [quiet_go|done].
  - case_bool_decide; apply settled_resolution; eauto.
Qed.

Lemma settled_timeout_expired `{Platform} id n t :
  keeps (settled id n) (timeout_expired t).
Proof.
  assert (Hq : ∀ A (x : M A), quiet_m x → keeps (settled id n) x).
  { intros A x. apply keeps_quiet, settled_quiet_closed. }
  intros st Hst. unfold timeout_expired. unfold and_then at 1. unfold get.
  destruct (outTbl (chans st (tm_chan t)) !! tm_transId t) as [e|] eqn:He;
    [|done].
  assert (tm_transId t ≠ id) as Hne.
  { intros Heq. destruct Hst as (_ & Hnone & _). rewrite Heq in He.
    by rewrite Hnone in He. }
  destruct (truthy (oe_error e)).
  - apply settled_resolution; eauto.
  - apply Hq; [quiet_go|done].
Qed.

Lemma settled_call `{Platform} id n c m : keeps (settled id n) (call c m).
Proof.
  intros st Hst. destruct (call c m st) as [[] st'|e st'|] eqn:Ec; simpl; [| |done].
  - destruct (call_ok_inv _ _ _ _ Ec) as (a & method & w & -> & Hm & Hne & Hs & Hw).
    destruct (call_ok c a method st w Hm Hne Hs Hw)
      as (st2 & Hc2 & _ & Hid & _ & Hout & Hother & _ & Hlog & _).
    rewrite Ec in Hc2. simplify_eq. destruct Hst as (Hlt & Hnone & Hn).
    split; [lia|]. split; [|by rewrite Hlog].
    intros c'. destruct (decide (c' = c)) as [->|Hne'].
    + rewrite Hout, lookup_insert_ne by lia. apply Hnone.
    + rewrite Hother by done. apply Hnone.
  - pose proof (call_not_ok_quiet c m st) as Hq. rewrite Ec in Hq.
    eapply settled_quiet_closed; [|done]. apply Hq. by intros st2.
Qed.

(** Whatever happens next, and whatever the callbacks do, a settled
    transaction sees none of its callbacks run again. *)
Lemma settled_run `{Platform} id n evs st :
  settled id n st → settled id n (run evs st).
Proof.
  apply keeps_run. intros ev _. apply keeps_run_event.
  - apply settled_quiet_closed.
  - apply settled_on_response.
  - apply settled_timeout_expired.
  - intros c m _. apply settled_call.
Qed.

(** ** Timeouts *)

Lemma call_arms_timer `{Platform} c a st st1 :
  call c (Some a) st = Ok tt st1 → truthy (a_timeout a) = true →
  ∃ t e,
    timers st1 = timers st ++ [t]
    ∧ tm_chan t = c ∧ tm_transId t = s_curTranId st
    ∧ tm_timeout t = a_timeout a
    ∧ outTbl (chans st1 c) !! s_curTranId st = Some e
    ∧ oe_error e = a_error a ∧ oe_success e = a_success a
    ∧ s_transIds st1 !! s_curTranId st = Some c.
Proof.
  intros Hc Ht.
  destruct (call_ok_inv _ _ _ _ Hc) as (a' & method & w & [= <-] & Hm & Hne & Hs & Hw).
  destruct (call_ok c a method st w Hm Hne Hs Hw)
    as (st2 & Hc2 & _ & _ & _ & Hout & _ & Hids & _ & Htim & _).
  rewrite Hc in Hc2. simplify_eq. rewrite Ht in Htim.
  eexists _, _. split; [exact Htim|]. simpl.
  rewrite Hout, Hids, !lookup_insert_eq. done.
Qed.

Lemma timeout_expiry `{Platform} t e u st :
  outTbl (chans st (tm_chan t)) !! tm_transId t = Some e →
  oe_error e = VFun (FUser u) → uf_throws u = None →
  ∃ st',
    timeout_expired t st = Ok tt st'
    ∧ log st' = log st ++ [Invocation (SiteError (tm_transId t)) (FUser u)
                             [VStr "timeout_error";
                              VStr (timeout_message st t)]]
    ∧ wire st' = wire st
    ∧ outTbl (chans st' (tm_chan t)) !! tm_transId t = None
    ∧ s_transIds st' !! tm_transId t = None
    ∧ (∀ ev m, e_data ev = Some m → m_method m = None →
               m_id m = Some (tm_transId t) → s_onMessage ev st' = Ok tt st')
    ∧ (∀ origin m, m_id m = Some (tm_transId t) →
                   onMessage (tm_chan t) origin None m st' = Ok tt st')
    ∧ (ids_fresh st →
       ∀ evs, settled (tm_transId t) (S (resolutions (tm_transId t) (log st)))
                      (run evs st')).
Proof.
  intros He Hf Hu. eexists. split; [by apply (timeout_expired_error t e u)|].
  set (st1 := invoked _ _ _ st).
  destruct (evicted_tables (tm_chan t) (tm_transId t) st1)
    as (Hout & Hids & Hlog & Hwire).
  split; [by rewrite Hlog|]. split; [by rewrite Hwire|].
  split; [done|]. split; [done|]. split; [|split].
  - intros ev m Hd Hm Hi.
    rewrite (s_onMessage_by_id ev m (tm_transId t) _ Hd Hm Hi).
    by rewrite Hids.
  - intros origin m Hi. by apply (onMessage_dropped _ _ _ (tm_transId t)).
  - intros [Hb Hun] evs. apply settled_run. split; [|split].
    + simpl. apply (Hb (tm_chan t)). eauto.
    + intros c. unfold evicted, st1. simpl.
      destruct (decide (tm_chan t = c)) as [<-|Hne].
      * rewrite fn_lookup_insert. simpl. apply lookup_delete_eq.
      * rewrite fn_lookup_insert_ne by done.
        destruct (outTbl (chans st c) !! tm_transId t) eqn:E; [|done].
        destruct Hne. apply (Hun _ _ (tm_transId t)); eauto.
    + rewrite Hlog. unfold st1, invoked. simpl.
      rewrite resolutions_app, resolutions_one.
      rewrite (is_resolution_site (tm_transId t)) by eauto.
      rewrite bool_decide_eq_true_2 by done. lia.
Qed.



(** ** Exactly one callback, when there is one to run *)

Lemma s_onMessage_response `{Platform} ev m c id st :
  e_data ev = Some m → m_method m = None → m_callback m = None →
  m_id m = Some id → id ≠ 0 → s_transIds st !! id = Some c →
  s_onMessage ev st = on_response c id m st.
Proof.
  intros Hd Hm Hcb Hi Hz Hc. rewrite (s_onMessage_by_id ev m id _ Hd Hm Hi), Hc.
  by apply onMessage_response.
Qed.




(** ** Transaction ids: the seed *)

(** Ids are handed out one by one, and an outstanding id is held by one
    channel only, along every run. *)
Lemma tran_ids_unique_and_increasing `{Platform} :
  (∀ w k h evs, ids_fresh (run evs (initial_proc w k h)))
  ∧ (∀ c m st st',
       call c m st = Ok tt st' →
       is_Some (outTbl (chans st' c) !! s_curTranId st)
       ∧ s_curTranId st' = s_curTranId st + 1)
  ∧ (∀ k, 0 ≤ k < 2 ^ 53 → 0 ≤ initial_tran_id k ≤ 1000000).
Proof.
  split; [|split].
  - intros w k h evs. apply ids_fresh_run, ids_fresh_initial.
  - intros c m st st' Hc.
    destruct (call_ok_inv _ _ _ _ Hc) as (a & method & w & -> & Hm & Hne & Hs & Hw).
    destruct (call_ok c a method st w Hm Hne Hs Hw)
      as (st2 & Hc2 & _ & Hid & _ & Hout & _).
    rewrite Hc in Hc2. simplify_eq. split; [|done].
    rewrite Hout, lookup_insert_eq. eauto.
  - intros k Hk. unfold initial_tran_id.
    change (2 ^ 53) with 9007199254740992 in *. split.
    + apply Z.div_pos; lia.
    + cut (k * 1000001 / 9007199254740992 < 1000001); [lia|].
      apply Z.div_lt_upper_bound; lia.
Qed.

(** C3.  The seed is not always odd: for [Math.random()] returning one
    half, [Math.floor(Math.random()*1000001)] is 500000, and that even
    number is the id of the first call. *)
Theorem seed_is_not_always_odd :
  initial_tran_id (2 ^ 52) = 500000
  ∧ Z.odd (s_curTranId (initial_proc 0%nat (2 ^ 52) ∅)) = false
  ∧ ∃ st1,
      @call sample_platform 0%nat
        (Some bare_call) (initial_proc 0%nat (2 ^ 52) ∅)
      = Ok tt st1
      ∧ is_Some (outTbl (chans st1 0%nat) !! 500000)
      ∧ s_curTranId st1 = 500001.
Proof.
  split; [reflexivity|]. split; [reflexivity|].
  destruct (@call_ok sample_platform 0%nat bare_call "ping"
              (initial_proc 0%nat (2 ^ 52) ∅)
              (walk_init ∅)) as (st1 & Hcall & _ & Hid & _ & Hout & _);
    [reflexivity|done|reflexivity|reflexivity|].
  exists st1. split; [done|]. split; [|exact Hid].
  rewrite Hout. change (s_curTranId (initial_proc 0%nat (2 ^ 52) ∅)) with 500000.
  rewrite lookup_insert_eq. eauto.
Qed.

(** ** Exceptions of bound handlers *)

Lemma render_value `{Platform} e st :
  e ≠ VNull → e ≠ VUndef →
  render e st = Ok (VStr (js_toString (the_heap st) e)) st.
Proof. intros Hn Hu. by destruct e. Qed.

Lemma try_harder_value `{Platform} e st :
  e ≠ VNull → e ≠ VUndef →
  ∃ s, try_harder e st = Ok (VStr s) st.
Proof.
  intros Hn Hu. unfold try_harder, try_catch, and_then, get.
  destruct (JSON_stringify (the_heap st) e) eqn:Ej.
  - by eexists.
  - rewrite render_value by done. by eexists.
  - unfold throw. rewrite render_value by done. by eexists.
Qed.

Lemma get_prop_ref l k st :
  ∃ v, get_prop (VRef l) k st = Ok v st.
Proof.
  unfold get_prop, and_then, get, ret.
  destruct (the_heap st !! l) as [[[| |] props]|]; try by eexists.
  - destruct (k =? "length")%string; by eexists.
  - destruct (k =? "message")%string; by eexists.
Qed.

Lemma truthy_not_nullish v : truthy v = true → v ≠ VNull ∧ v ≠ VUndef.
Proof. by destruct v. Qed.

(** Every thrown value but [null] and [undefined] is normalised, and
    normalising has no effect on the state. *)
Lemma normalize_exception_total `{Platform} e st :
  e ≠ VNull → e ≠ VUndef →
  ∃ error message, normalize_exception e st = Ok (error, message) st.
Proof.
  intros Hn Hu.
  assert (Hfin : ∀ error message e' : value,
            e' ≠ VNull → e' ≠ VUndef →
            ∃ err msg,
              (if bool_decide (message = VNull)
               then let! message := try_harder e' in ret (error, message)
               else ret (error, message)) st = Ok (err, msg) st).
  { intros error message e' Hn' Hu'. case_bool_decide; [|by eexists _, _].
    destruct (try_harder_value e' st Hn' Hu') as [s Hs].
    unfold and_then. rewrite Hs. by eexists _, _. }
  unfold normalize_exception. unfold and_then at 1. unfold get.
  destruct e as [| |b|z|s|f|l]; try done; cbn [typeof];
    try (unfold and_then at 1; unfold ret at 1; cbn beta iota; by apply Hfin).
  unfold and_then at 1.
  destruct (is_error_instance (the_heap st) (VRef l)) as [[ctor message]|];
    [unfold ret at 1; cbn beta iota; by apply Hfin|].
  unfold and_then at 1.
  destruct (get_prop_ref l "length" st) as [len Hlen].
  assert (∃ len', (if truthy (VRef l) && s_isArray (the_heap st) (VRef l)
                   then get_prop (VRef l) "length" else ret VUndef) st
                  = Ok len' st) as [len' ->].
  { destruct (truthy (VRef l) && s_isArray (the_heap st) (VRef l));
      [by exists len|by exists VUndef]. }
  case_bool_decide.
  - unfold and_then at 1. destruct (get_prop_ref l "0" st) as [e0 ->].
    unfold and_then at 1. destruct (get_prop_ref l "1" st) as [e1 ->].
    unfold ret at 1; cbn beta iota. by apply Hfin.
  - unfold and_then at 1. destruct (get_prop_ref l "error" st) as [err ->].
    case_bool_decide;
      [|unfold ret at 1; cbn beta iota; by apply Hfin].
    unfold and_then at 1. destruct (get_prop_ref l "message" st) as [msg ->].
    destruct (truthy msg) eqn:Et; cbn [negb];
      [|unfold ret at 1; cbn beta iota; by apply Hfin].
    case_bool_decide; unfold ret at 1; cbn beta iota; [by apply Hfin|].
    apply truthy_not_nullish in Et as [? ?]. by apply Hfin.
Qed.

(** The shapes of thrown values that the [catch] block recognises. *)

Lemma normalize_string `{Platform} s st :
  normalize_exception (VStr s) st = Ok (VStr "runtime_error", VStr s) st.
Proof. done. Qed.

Lemma get_prop_array l n props k st :
  the_heap st !! l = Some (Obj (CArray n) props) →
  get_prop (VRef l) k st
  = Ok (if (k =? "length")%string then VNum (Z.of_nat n)
        else default VUndef (assoc k props)) st.
Proof.
  intros Hl. unfold get_prop, and_then, get. rewrite Hl. simpl.
  by destruct (k =? "length")%string.
Qed.

Lemma get_prop_object l props k st :
  the_heap st !! l = Some (Obj CObject props) →
  get_prop (VRef l) k st = Ok (default VUndef (assoc k props)) st.
Proof. intros Hl. unfold get_prop, and_then, get. by rewrite Hl. Qed.

Lemma normalize_pair `{Platform} l props st :
  the_heap st !! l = Some (Obj (CArray 2) props) →
  default VUndef (assoc "1" props) ≠ VNull →
  normalize_exception (VRef l) st
  = Ok (default VUndef (assoc "0" props), default VUndef (assoc "1" props)) st.
Proof.
  intros Hl Hm. unfold normalize_exception. unfold and_then at 1. unfold get.
  cbn [typeof]. unfold and_then at 1.
  assert (is_error_instance (the_heap st) (VRef l) = None) as ->
    by (unfold is_error_instance; by rewrite Hl).
  unfold and_then at 1.
  assert (s_isArray (the_heap st) (VRef l) = true) as ->
    by (unfold s_isArray; by rewrite Hl).
  cbn [truthy andb]. rewrite (get_prop_array l 2 props) by done.
  cbn [String.eqb Ascii.eqb Bool.eqb andb]. cbn beta iota.
  rewrite bool_decide_eq_true_2 by done.
  unfold and_then at 1. rewrite (get_prop_array l 2 props) by done.
  unfold and_then at 1. rewrite (get_prop_array l 2 props) by done.
  unfold ret. cbn. by rewrite bool_decide_eq_false_2.
Qed.

Lemma normalize_error_instance `{Platform} l ctor message props st :
  the_heap st !! l = Some (Obj (CError ctor message) props) →
  message ≠ VNull →
  normalize_exception (VRef l) st = Ok (VStr ctor, message) st.
Proof.
  intros Hl Hm. unfold normalize_exception. unfold and_then at 1. unfold get.
  cbn [typeof]. unfold and_then at 1.
  assert (is_error_instance (the_heap st) (VRef l) = Some (ctor, message)) as ->
    by (unfold is_error_instance; by rewrite Hl).
  unfold ret. cbn beta iota. by rewrite bool_decide_eq_false_2.
Qed.

Lemma normalize_object `{Platform} l props code st :
  the_heap st !! l = Some (Obj CObject props) →
  assoc "error" props = Some (VStr code) →
  (truthy (default VUndef (assoc "message" props)) = false →
   normalize_exception (VRef l) st = Ok (VStr code, VStr "") st)
  ∧ (∀ s, default VUndef (assoc "message" props) = VStr s → s ≠ "" →
          normalize_exception (VRef l) st = Ok (VStr code, VStr s) st).
Proof.
  intros Hl He.
  assert (Hpre : normalize_exception (VRef l) st
    = (let! (error, message, e) :=
         (if negb (truthy (default VUndef (assoc "message" props)))
          then ret (VStr code, VStr "", VRef l)
          else if bool_decide
                    (typeof (default VUndef (assoc "message" props)) = TString)
               then ret (VStr code, default VUndef (assoc "message" props),
                         VRef l)
               else ret (VStr code, VNull,
                         default VUndef (assoc "message" props))) in
       if bool_decide (message = VNull)
       then let! message := try_harder e in ret (error, message)
       else ret (error, message)) st).
  { unfold normalize_exception. unfold and_then at 1. unfold get.
    cbn [typeof]. unfold and_then at 1 3.
    assert (is_error_instance (the_heap st) (VRef l) = None) as ->
      by (unfold is_error_instance; by rewrite Hl).
    unfold and_then at 1.
    assert (s_isArray (the_heap st) (VRef l) = false) as ->
      by (unfold s_isArray; by rewrite Hl).
    cbn [truthy andb]. unfold ret at 1. cbn beta iota.
    rewrite bool_decide_eq_false_2 by done.
    unfold and_then at 1. rewrite (get_prop_object l props) by done.
    rewrite He. cbn [default from_option id typeof].
    rewrite bool_decide_eq_true_2 by done.
    unfold and_then at 1. rewrite (get_prop_object l props) by done.
    done. }
  rewrite Hpre. split.
  - intros Ht. rewrite Ht. by cbn.
  - intros s Hs Hne. rewrite Hs. cbn [truthy negb].
    destruct (String.eqb_spec s ""); [done|]. by cbn.
Qed.

(** Anything else that is not [null] or [undefined] gets the code
    ["runtime_error"] and a rendering as its message. *)
Lemma normalize_other `{Platform} e st :
  e ≠ VNull → e ≠ VUndef → typeof e ≠ TString → typeof e ≠ TObject →
  ∃ s, normalize_exception e st = Ok (VStr "runtime_error", VStr s) st.
Proof.
  intros Hn Hu Hs Ho. destruct (try_harder_value e st Hn Hu) as [s Hh].
  exists s. unfold normalize_exception. unfold and_then at 1. unfold get.
  destruct e; try done; cbn [typeof]; unfold and_then at 1; unfold ret at 1;
    cbn beta iota; rewrite bool_decide_eq_true_2 by done;
    unfold and_then; by rewrite Hh.
Qed.

(** [trans.error] on an open transaction. *)
Lemma unserializable_error `{Platform} h id error message :
  unserializable h (ErrorResponse id error message)
  = stringify_throws h error || stringify_throws h message.
Proof.
  unfold unserializable. simpl.
  by rewrite stringify_undef, orb_false_l, orb_false_r.
Qed.

Lemma trans_error_open `{Platform} c id error message st :
  id ∈ inTbl (chans st c) →
  serializable (the_heap st) error → serializable (the_heap st) message →
  ∃ st', trans_error c id error message st = Ok tt st'
         ∧ emitted c st st' (ErrorResponse id error message)
         ∧ inTbl (chans st' c) = inTbl (chans st c) ∖ {[id]}
         ∧ log st' = log st ∧ the_heap st' = the_heap st.
Proof.
  intros Hin He Hm. unfold trans_error. unfold and_then at 1. unfold get.
  rewrite bool_decide_eq_true_2 by done. cbn [negb].
  unfold and_then at 1. unfold modify.
  destruct (postMessage_emitted c (ErrorResponse id error message)
              (set_chan c (set_inTbl (λ t, t ∖ {[id]})) st))
    as (st' & -> & Hem & _ & Hh & _ & Hi & _ & Hl & _).
  { rewrite unserializable_error. apply orb_false_iff.
    split; by apply stringify_throws_false. }
  exists st'. split; [done|]. split; [|split; [|done]].
  - revert Hem. unfold emitted. simpl. by rewrite !fn_lookup_insert.
  - rewrite Hi. simpl. by rewrite fn_lookup_insert.
Qed.

(** [trans.error] with a payload that cannot be serialised: the
    transaction is closed, nothing is posted, and the engine's exception
    leaves [trans.error]. *)
Lemma trans_error_unserializable `{Platform} c id error message st :
  id ∈ inTbl (chans st c) →
  ¬ (serializable (the_heap st) error ∧ serializable (the_heap st) message) →
  ∃ e st', trans_error c id error message st = Exc e st'
           ∧ wire st' = wire st
           ∧ pendingQueue (chans st' c) = pendingQueue (chans st c)
           ∧ inTbl (chans st' c) = inTbl (chans st c) ∖ {[id]}.
Proof.
  intros Hin Hns. unfold trans_error. unfold and_then at 1. unfold get.
  rewrite bool_decide_eq_true_2 by done. cbn [negb].
  unfold and_then at 1. unfold modify, postMessage.
  unfold and_then at 1. unfold get.
  replace (unserializable _ _) with true.
  - unfold type_error, and_then, alloc, throw. eexists _, _.
    split; [done|]. simpl. by rewrite fn_lookup_insert.
  - symmetry. apply not_false_iff_true. intros Hu.
    rewrite unserializable_error in Hu. apply orb_false_iff in Hu as [H1 H2].
    apply Hns. split; by apply stringify_throws_false.
Qed.

Lemma trans_error_closed `{Platform} c id error message st :
  id ∉ inTbl (chans st c) →
  trans_error c id error message st
  = Exc (VStr ("error called for nonexistent message: " +:+ pretty id)) st.
Proof.
  intros Hin. unfold trans_error, and_then, get.
  by rewrite bool_decide_eq_false_2.
Qed.

(** The request branch when the [try] block ends in an exception. *)
Lemma on_request_catch `{Platform} c id meth m h st e st2 :
  regTbl (chans st c) !! meth = Some h →
  request_try c id (default [] (m_callbacks m)) m h
    (set_chan c (set_inTbl (λ t, {[id]} ∪ t)) st) = Exc e st2 →
  on_request c id meth m st = request_catch c id e st2.
Proof.
  intros Hh Htry. unfold on_request. unfold and_then at 1. unfold modify.
  unfold and_then at 1. unfold get. cbn beta iota.
  replace (regTbl (chans (set_chan c (set_inTbl (λ t, {[id]} ∪ t)) st) c))
    with (regTbl (chans st c)) by (simpl; by rewrite fn_lookup_insert).
  rewrite Hh. unfold try_catch. by rewrite Htry.
Qed.

Lemma request_catch_reports `{Platform} c id e st :
  e ≠ VNull → e ≠ VUndef → id ∈ inTbl (chans st c) →
  ∃ error message,
    normalize_exception e st = Ok (error, message) st
    ∧ (serializable (the_heap st) error →
       serializable (the_heap st) message →
       ∃ st', request_catch c id e st = Ok tt st'
              ∧ emitted c st st' (ErrorResponse id error message)
              ∧ inTbl (chans st' c) = inTbl (chans st c) ∖ {[id]}).
Proof.
  intros Hn Hu Hin.
  destruct (normalize_exception_total e st Hn Hu) as (error & message & Hnorm).
  exists error, message. split; [done|]. intros He Hm.
  destruct (trans_error_open c id error message st Hin He Hm)
    as (st' & Ht & Hem & Hi & _).
  exists st'. split; [|done].
  unfold request_catch, and_then. rewrite Hnorm. by rewrite Ht.
Qed.

(** A notification handler's exception passes through the dispatcher. *)
Lemma on_notification_throws `{Platform} c meth m h st e st2 :
  regTbl (chans st c) !! meth = Some h →
  run_handler TNotification (m_params m) h (TransFlags false false) st
  = Exc e st2 →
  on_notification c meth m st = Exc e st2.
Proof.
  intros Hh Hrun. unfold on_notification. unfold and_then at 1. unfold get.
  rewrite Hh. unfold and_then. by rewrite Hrun.
Qed.

Lemma onMessage_request `{Platform} c origin meth m id st :
  m_id m = Some id → id ≠ 0 → meth ≠ "" →
  onMessage c origin (Some meth) m st = on_request c id meth m st.
Proof.
  intros Hi Hz Hm. unfold onMessage. rewrite Hi. simpl.
  destruct (Z.eqb_spec id 0); [done|].
  by destruct (String.eqb_spec meth "").
Qed.

Lemma onMessage_notification `{Platform} c origin meth m st :
  m_id m = None → meth ≠ "" →
  onMessage c origin (Some meth) m st = on_notification c meth m st.
Proof.
  intros Hi Hm. unfold onMessage. rewrite Hi. simpl.
  by destruct (String.eqb_spec meth "").
Qed.

Lemma request_catch_unserializable `{Platform} c id e error message st :
  normalize_exception e st = Ok (error, message) st →
  id ∈ inTbl (chans st c) →
  ¬ (serializable (the_heap st) error ∧ serializable (the_heap st) message) →
  ∃ e' st', request_catch c id e st = Exc e' st'
            ∧ wire st' = wire st
            ∧ pendingQueue (chans st' c) = pendingQueue (chans st c).
Proof.
  intros Hnorm Hin Hns.
  destruct (trans_error_unserializable c id error message st Hin Hns)
    as (e' & st' & Ht & Hw & Hq & _).
  exists e', st'. split; [|done].
  unfold request_catch, and_then. rewrite Hnorm. by rewrite Ht.
Qed.




(** Two of the documented outcomes, run through the listener. *)
Example thrown_string_is_reported :
  pendingQueue
    (chans (@run sample_platform
              (serving (Handler [] (HThrow (VStr "boom")))
               ++ [EMessage ping_request])
              (initial_proc 0%nat (2 ^ 52) ∅)) 0%nat)
  = [ErrorResponse 7 (VStr "runtime_error") (VStr "boom")].
Proof. vm_compute. reflexivity. Qed.

Example thrown_pair_is_reported :
  pendingQueue
    (chans (@run sample_platform
              (serving (Handler []
                 (HThrowNew (Obj (CArray 2) [("0", VStr "E_BAD");
                                             ("1", VStr "bad input")])))
               ++ [EMessage ping_request])
              (initial_proc 0%nat (2 ^ 52) ∅)) 0%nat)
  = [ErrorResponse 7 (VStr "E_BAD") (VStr "bad input")].
Proof. vm_compute. reflexivity. Qed.

(** C4.  A handler that throws [null]: the [catch] block reads
    [e.error] of [null], the resulting [TypeError] leaves the listener,
    no ErrorResponse is posted or queued, and the transaction stays in
    [inTbl]. *)
Theorem thrown_null_is_not_reported :
  let st := @run sample_platform (serving (Handler [] (HThrow VNull)))
              (initial_proc 0%nat (2 ^ 52) ∅) in
  ∃ e st',
    @s_onMessage sample_platform ping_request st = Exc e st'
    ∧ is_error_instance (the_heap st') e
      = Some ("TypeError", VStr "cannot read a property of null or undefined")
    ∧ wire st' = wire st
    ∧ pendingQueue (chans st' 0%nat) = pendingQueue (chans st 0%nat)
    ∧ elements (inTbl (chans st' 0%nat)) = [7].
Proof.
  intros st. eexists _, _. split; [vm_compute; reflexivity|].
  repeat split; vm_compute; reflexivity.
Qed.

(** ** Callbacks in parameters *)

(** A function held by the walked object itself is extracted. *)
Lemma pruneFunctions_extracts fuel path l s s' k f :
  pruneFunctions fuel path (VRef l) s = WDone s' →
  own_prop (w_heap s) l k = Some (VFun f) →
  sub_path path k ∈ w_callbackNames s'.
Proof.
  destruct fuel as [|n]; [done|]. simpl. case_bool_decide as Hseen; [done|].
  intros Hrun Hf.
  apply prune_props_spec in Hrun as [new Hloop];
    [|apply pruneFunctions_spec|simpl; set_solver].
  apply (ls_extracted _ _ _ _ _ _ Hloop k f); [|done].
  by eapply own_prop_Some_key.
Qed.

(** After a completed walk no object of the graph holds a function. *)
Lemma pruneFunctions_function_free fuel path v s s' :
  pruneFunctions fuel path v s = WDone s' → function_free (w_heap s') v.
Proof.
  intros Hrun. destruct (pruneFunctions_spec _ _ _ _ _ Hrun) as [new Hw].
  intros p u Hp. apply (ws_clean _ _ _ _ Hw).
  apply (ws_reach _ _ _ _ Hw p). by apply (resolve_pruned _ _ _ _ _ (ws_heap _ _ _ _ Hw)).
Qed.

Lemma call_posts_callback_paths `{Platform} c a method l f st st' :
  call c (Some a) st = Ok tt st' →
  a_method a = VStr method → a_params a = VRef l →
  own_prop (the_heap st) l "onProgress" = Some (VFun f) →
  ∃ names,
    emitted c st st'
      (Request (s_curTranId st) (cfg_scope (chans st c) +:+ "::" +:+ method)
               (VRef l) names)
    ∧ m_callbacks (Request (s_curTranId st)
                     (cfg_scope (chans st c) +:+ "::" +:+ method)
                     (VRef l) names) = Some names
    ∧ "onProgress" ∈ names
    ∧ function_free (the_heap st') (VRef l)
    ∧ own_prop (the_heap st') l "onProgress" = None.
Proof.
  intros Hc Hm Hp Hf.
  destruct (call_ok_inv _ _ _ _ Hc) as (a' & method' & w & [= <-] & Hm' & Hne & Hs & Hw).
  rewrite Hm in Hm'. simplify_eq.
  destruct (call_ok c a method' st w Hm Hne Hs Hw)
    as (st2 & Hc2 & Hem & _ & Hheap & _).
  rewrite Hc in Hc2. simplify_eq. rewrite Hp in *.
  pose proof (pruneFunctions_extracts _ _ _ _ _ "onProgress" f Hw Hf) as Hin.
  change (sub_path "" "onProgress") with "onProgress" in Hin.
  pose proof (pruneFunctions_function_free _ _ _ _ _ Hw) as Hfree.
  exists (w_callbackNames w). split; [done|]. split; [|split; [done|]].
  - unfold Request. simpl. destruct (w_callbackNames w); [|done].
    by apply not_elem_of_nil in Hin.
  - rewrite Hheap. split; [done|].
    destruct (pruneFunctions_spec _ _ _ _ _ Hw) as [new Hspec].
    destruct (own_prop (w_heap w) l "onProgress") as [x|] eqn:Ex; [|done].
    pose proof (hp_back _ _ (ws_heap _ _ _ _ Hspec) _ _ _ Ex) as Hx.
    simpl in Hx. rewrite Hf in Hx. simplify_eq.
    by destruct (Hfree [] l eq_refl "onProgress" f).
Qed.

Lemma assoc_put_key k v ps : assoc k (put_key k v ps) = Some v.
Proof.
  induction ps as [|[k' v'] ps IH]; simpl.
  - by rewrite String.eqb_refl.
  - destruct (String.eqb_spec k k') as [->|Hne]; simpl.
    + by rewrite String.eqb_refl.
    + by destruct (String.eqb_spec k k').
Qed.

Lemma own_prop_store_prop h l k v :
  is_Some (h !! l) → own_prop (store_prop l k v h) l k = Some v.
Proof.
  intros [o Ho]. unfold own_prop, store_prop. rewrite lookup_alter_eq, Ho.
  simpl. apply assoc_put_key.
Qed.

(** The closure synthesized for the path ["onProgress"]. *)
Lemma synth_one_onProgress c id cbs l st :
  is_Some (the_heap st !! l) →
  ∃ st',
    synth_one c id cbs (VRef l) "onProgress" st = Ok tt st'
    ∧ own_prop (the_heap st') l "onProgress"
      = Some (VFun (FRemote c id cbs "onProgress"))
    ∧ chans st' = chans st ∧ wire st' = wire st ∧ log st' = log st.
Proof.
  intros Hl. eexists. split; [reflexivity|]. simpl.
  split; [|done]. by apply own_prop_store_prop.
Qed.

Lemma unserializable_callback `{Platform} h id name v :
  unserializable h (CallbackInvocation id name v) = stringify_throws h v.
Proof.
  unfold unserializable. simpl. by rewrite stringify_undef, !orb_false_r.
Qed.

Lemma trans_invoke_open `{Platform} c id cbs name v st :
  id ∈ inTbl (chans st c) → name ∈ cbs → serializable (the_heap st) v →
  ∃ st',
    trans_invoke c id cbs name v st = Ok tt st'
    ∧ emitted c st st' (CallbackInvocation id name v)
    ∧ inTbl (chans st' c) = inTbl (chans st c)
    ∧ log st' = log st.
Proof.
  intros Hin Hname Hv. unfold trans_invoke, and_then, get.
  rewrite !bool_decide_eq_true_2 by done. cbn [negb].
  destruct (postMessage_emitted c (CallbackInvocation id name v) st)
    as (st' & -> & Hem & _ & _ & _ & Hi & _ & Hl & _).
  { by rewrite unserializable_callback, stringify_throws_false. }
  by exists st'.
Qed.

(** Calling the synthesized closure while the transaction is open. *)
Lemma invoke_remote_callback `{Platform} site c id cbs name v st :
  id ∈ inTbl (chans st c) → name ∈ cbs → serializable (the_heap st) v →
  ∃ st',
    invoke_value site (VFun (FRemote c id cbs name)) [v] st = Ok VUndef st'
    ∧ emitted c st st' (CallbackInvocation id name v)
    ∧ m_id (CallbackInvocation id name v) = Some id
    ∧ inTbl (chans st' c) = inTbl (chans st c).
Proof.
  intros Hin Hname Hv.
  destruct (trans_invoke_open c id cbs name v
              (invoked site (FRemote c id cbs name) [v] st))
    as (st' & Ht & Hem & Hi & _); [done|done|done|].
  exists st'. split; [|done].
  unfold invoke_value. unfold and_then at 1. unfold modify.
  cbn beta iota. unfold and_then.
  change (default VUndef (head [v])) with v.
  unfold invoked in Ht. by rewrite Ht.
Qed.

Lemma request_try_onProgress `{Platform} c id m h l st :
  m_callbacks m = Some ["onProgress"] → m_params m = VRef l →
  is_Some (the_heap st !! l) →
  ∃ st1,
    own_prop (the_heap st1) l "onProgress"
    = Some (VFun (FRemote c id ["onProgress"] "onProgress"))
    ∧ chans st1 = chans st ∧ wire st1 = wire st
    ∧ request_try c id ["onProgress"] m h st
      = (let! (resp, fl) :=
           run_handler (TRequest c id ["onProgress"]) (VRef l) h
                       (TransFlags false false) in
         if negb (shouldDelayReturn fl) && negb (completed fl)
         then trans_complete c id resp
         else ret tt) st1.
Proof.
  intros Hcb Hp Hl.
  destruct (synth_one_onProgress c id ["onProgress"] l st Hl)
    as (st1 & Hs & Hown & Hch & Hw & _).
  exists st1. split; [done|]. split; [done|]. split; [done|].
  unfold request_try. rewrite Hcb, Hp.
  change (default [] (Some ["onProgress"])) with ["onProgress"].
  cbn [synth_all]. unfold and_then at 1. unfold and_then at 1. by rewrite Hs.
Qed.

(** The same seen from [onMessage]: when the handler starts, the request
    is in [inTbl] and its parameters hold the closure. *)
Lemma onMessage_synthesizes `{Platform} c origin meth m id h l st :
  m_id m = Some id → id ≠ 0 → meth ≠ "" →
  regTbl (chans st c) !! meth = Some h →
  m_callbacks m = Some ["onProgress"] → m_params m = VRef l →
  is_Some (the_heap st !! l) →
  ∃ st1,
    own_prop (the_heap st1) l "onProgress"
    = Some (VFun (FRemote c id ["onProgress"] "onProgress"))
    ∧ id ∈ inTbl (chans st1 c)
    ∧ wire st1 = wire st
    ∧ pendingQueue (chans st1 c) = pendingQueue (chans st c)
    ∧ onMessage c origin (Some meth) m st
      = try_catch
          (let! (resp, fl) :=
             run_handler (TRequest c id ["onProgress"]) (VRef l) h
                         (TransFlags false false) in
           if negb (shouldDelayReturn fl) && negb (completed fl)
           then trans_complete c id resp
           else ret tt)
          (request_catch c id) st1.
Proof.
  intros Hi Hz Hm Hh Hcb Hp Hl.
  set (st0 := set_chan c (set_inTbl (λ t, {[id]} ∪ t)) st).
  destruct (request_try_onProgress c id m h l st0 Hcb Hp Hl)
    as (st1 & Hown & Hch & Hw & Htry).
  exists st1. split; [done|]. rewrite Hch, Hw. unfold st0.
  cbn [chans set_chan wire]. rewrite fn_lookup_insert.
  cbn [inTbl set_inTbl pendingQueue]. split; [set_solver|].
  split; [done|]. split; [done|].
  rewrite (onMessage_request _ _ _ _ id) by done.
  unfold on_request. unfold and_then at 1. unfold modify.
  unfold and_then at 1. unfold get. cbn beta iota. fold st0.
  replace (regTbl (chans st0 c)) with (regTbl (chans st c))
    by (unfold st0; simpl; by rewrite fn_lookup_insert).
  rewrite Hh, Hcb. change (default [] (Some ["onProgress"])) with ["onProgress"].
  unfold try_catch. by rewrite Htry.
Qed.



(** ** Remarks on the limits of the statements above *)

(** The wildcard branch of [s_addBoundChan] never looks at the wildcard
    bucket: the same window and scope can be registered under ["*"]
    twice. *)
Example wildcard_twice_is_accepted :
  ∃ st1 st2,
    s_addBoundChan 7%nat "*" "s" 0%nat empty_proc = Ok tt st1
    ∧ s_addBoundChan 7%nat "*" "s" 1%nat st1 = Ok tt st2
    ∧ entries_at (s_boundChans st2) "*" "s" 7%nat = 2%nat.
Proof.
  eexists _, _. split; [vm_compute; reflexivity|].
  split; vm_compute; reflexivity.
Qed.

(** When the success callback throws, the entry is not evicted, and the
    timer later runs the error callback as well: the hypothesis that
    callbacks return is needed for "never both". *)
Example throwing_success_then_timeout :
  i_site <$> log (@run sample_platform
                    [EBuild (Some unscoped_cfg);
                     ECall 0%nat (Some failing_success_call);
                     EMessage (MessageEvent
                                 (Some (Response 500000 (VStr "done")))
                                 7%nat "https://a.example");
                     ETimer 0%nat]
                    (initial_proc 0%nat (2 ^ 52) ∅))
  = [SiteSuccess 500000; SiteError 500000].
Proof. vm_compute. reflexivity. Qed.

(** A transaction whose id is 0 (the seed can be 0) is not resolved by
    a Response: [m.id] is falsy. *)
Example response_to_id_zero_is_ignored :
  let st := @run sample_platform
              [EBuild (Some unscoped_cfg);
               ECall 0%nat (Some bare_call);
               EMessage (MessageEvent (Some (Response 0 (VStr "done")))
                                      7%nat "https://a.example")]
              (initial_proc 0%nat 0 ∅) in
  log st = [] ∧ is_Some (outTbl (chans st 0%nat) !! 0).
Proof. split; [vm_compute; reflexivity|]. vm_compute. eauto. Qed.

(** A thrown pair whose second element is [null] is not reported as the
    pair: the message is the rendering of the array. *)
Example thrown_pair_with_null_message :
  pendingQueue
    (chans (@run sample_platform
              (serving (Handler []
                 (HThrowNew (Obj (CArray 2) [("0", VStr "E_BAD");
                                             ("1", VNull)])))
               ++ [EMessage ping_request])
              (initial_proc 0%nat (2 ^ 52) ∅)) 0%nat)
  = [ErrorResponse 7 (VStr "E_BAD") (VStr "{}")].
Proof. vm_compute. reflexivity. Qed.

(** A handler that completes its transaction and then throws: the
    [catch] block calls [trans.error] on a transaction that is gone,
    and that exception leaves the listener. *)
Example throw_after_complete_escapes :
  let st := @run sample_platform
              (serving (Handler [HComplete (VStr "ok")] (HThrow (VStr "late"))))
              (initial_proc 0%nat (2 ^ 52) ∅) in
  ∃ st',
    @s_onMessage sample_platform ping_request st
    = Exc (VStr ("error called for nonexistent message: " +:+ "7")) st'
    ∧ pendingQueue (chans st' 0%nat) = [Response 7 (VStr "ok")].
Proof.
  intros st. eexists. split; vm_compute; reflexivity.
Qed.

(** [notify] does not walk its parameters: a cycle in them is met by the
    serialisation in [postMessage], whose exception leaves [notify], and
    nothing is posted. *)
Example notify_cyclic_params_throws :
  ∃ e st',
    @notify strict_platform 0%nat
      (Some (NotifyArgs (VStr "ping") (VRef 1%nat)))
      (sample_proc loop_heap true) = Exc e st'
    ∧ is_error_instance (the_heap st') e
      = Some ("TypeError", VStr "cannot serialise the message")
    ∧ wire st' = [].
Proof.
  eexists _, _. split; [vm_compute; reflexivity|].
  split; vm_compute; reflexivity.
Qed.

(** A handler that throws a pair whose message is such an object: the
    [catch] block passes the pair on as it is, the serialisation of the
    ErrorResponse fails, and the exception leaves the listener. *)
Example thrown_pair_with_cyclic_message :
  let st := @run strict_platform
              (serving (Handler [] (HThrowNew
                 (Obj (CArray 2) [("0", VStr "E_BAD"); ("1", VRef 1%nat)]))))
              (initial_proc 0%nat (2 ^ 52) loop_heap) in
  ∃ e st',
    @s_onMessage strict_platform ping_request st = Exc e st'
    ∧ is_error_instance (the_heap st') e
      = Some ("TypeError", VStr "cannot serialise the message")
    ∧ wire st' = wire st
    ∧ pendingQueue (chans st' 0%nat) = pendingQueue (chans st 0%nat).
Proof.
  intros st. eexists _, _. split; [vm_compute; reflexivity|].
  repeat split; vm_compute; reflexivity.
Qed.

(** * Further properties of the code *)

(** ** Strings *)

Lemma string_app_nil_l s : "" +:+ s = s.
Proof. reflexivity. Qed.

Lemma string_app_cons a s t : String a s +:+ t = String a (s +:+ t).
Proof. reflexivity. Qed.

Lemma string_app_nil_r s : s +:+ "" = s.
Proof.
  induction s as [|a s IH]; [done|]. by rewrite string_app_cons, IH.
Qed.

Lemma string_app_assoc a b c : (a +:+ b) +:+ c = a +:+ b +:+ c.
Proof.
  induction a as [|x a IH]; [done|]. by rewrite !string_app_cons, IH.
Qed.

Lemma prefix_split p s : String.prefix p s = true → ∃ b, s = p +:+ b.
Proof.
  revert s. induction p as [|a p IH]; intros s; [by exists s|].
  destruct s as [|b s]; [done|]. simpl.
  destruct (ascii_dec a b) as [->|]; [|done].
  intros [r ->]%IH. by exists r.
Qed.

Lemma ends_with_b_spec c s : ends_with_b c s = true ↔ ends_with c s.
Proof.
  induction s as [|a s IH]; simpl.
  - rewrite orb_false_r. split.
    + intros ->%String.eqb_eq. by exists "".
    + intros [[|x y] Hx]; [|done]. apply String.eqb_eq.
      by rewrite string_app_nil_l in Hx.
  - rewrite orb_true_iff, IH. split.
    + intros [->%String.eqb_eq|[x ->]]; [by exists ""|by exists (String a x)].
    + intros [[|x y] Hx].
      * left. apply String.eqb_eq. by rewrite string_app_nil_l in Hx.
      * right. rewrite string_app_cons in Hx. simplify_eq. by exists y.
Qed.

Lemma occurs_spec sep s : occurs sep s = true ↔ Str.contains sep s.
Proof.
  induction s as [|a s IH].
  - cbn [occurs]. rewrite orb_false_r. split.
    + intros [b Hb]%prefix_split. by exists "", b.
    + intros ([|x y] & b & Hx); [|done].
      rewrite string_app_nil_l in Hx. rewrite Hx. apply prefix_append.
  - cbn [occurs]. rewrite orb_true_iff, IH. split.
    + intros [[b Hb]%prefix_split|(x & b & ->)];
        [by exists "", b|by exists (String a x), b].
    + intros ([|x y] & b & Hx).
      * left. rewrite string_app_nil_l in Hx. rewrite Hx. apply prefix_append.
      * right. rewrite string_app_cons in Hx. simplify_eq. by exists y, b.
Qed.

(** A string without the separator is not cut. *)
Lemma split_from_no_sep sep cur s :
  ¬ Str.contains sep s → Str.split_from sep 0 cur s = [cur +:+ s].
Proof.
  revert cur. induction s as [|a s IH]; intros cur Hno.
  - simpl. by rewrite string_app_nil_r.
  - cbn [Str.split_from].
    destruct (String.prefix sep (String a s)) eqn:Ep.
    + destruct Hno. apply prefix_split in Ep as [b ->]. by exists "", b.
    + rewrite IH.
      * by rewrite string_app_assoc.
      * intros (x & y & ->). apply Hno. by exists (String a x), y.
Qed.

Lemma scoped_split cur scope meth :
  ¬ Str.contains "::" scope → ¬ ends_with ":" scope →
  ¬ Str.contains "::" meth →
  Str.split_from "::" 0 cur (scope +:+ "::" +:+ meth) = [cur +:+ scope; meth].
Proof.
  revert cur. induction scope as [|a sc IH]; intros cur Hno Hend Hm.
  - rewrite string_app_nil_l, string_app_nil_r.
    change ("::" +:+ meth) with (String ":" (":" +:+ meth)).
    cbn [Str.split_from].
    change (String ":" (":" +:+ meth)) with ("::" +:+ meth).
    rewrite prefix_append.
    change (":" +:+ meth) with (String ":" meth).
    change (String.length "::" - 1)%nat with 1%nat. cbn [Str.split_from].
    f_equal. by rewrite split_from_no_sep.
  - rewrite string_app_cons. cbn [Str.split_from].
    assert (Hp : String.prefix "::" (String a (sc +:+ "::" +:+ meth)) = false).
    { cbn [String.prefix]. destruct (ascii_dec ":" a) as [<-|]; [|done].
      destruct sc as [|b sc].
      - destruct Hend. by exists "".
      - rewrite string_app_cons. cbn [String.prefix].
        destruct (ascii_dec ":" b) as [<-|]; [|done].
        destruct Hno. by exists "", sc. }
    rewrite Hp, IH.
    + by rewrite string_app_assoc.
    + intros (x & y & ->). apply Hno. by exists (String a x), y.
    + intros [x ->]. apply Hend. by exists (String a x).
    + done.
Qed.

(** ** Origins *)

Lemma take_while_spec p s t d :
  take_while p s = (t, d) →
  s = t +:+ d ∧ all_chars p t = true
  ∧ match d with EmptyString => True | String a _ => p a = false end.
Proof.
  revert t d. induction s as [|a s IH]; intros t d; simpl.
  - by intros [= <- <-].
  - destruct (p a) eqn:Ea.
    + destruct (take_while p s) as [t' d'] eqn:Et. intros [= <- <-].
      destruct (IH t' d' eq_refl) as (-> & Hall & Hd).
      rewrite string_app_cons. simpl. by rewrite Ea, Hall.
    + intros [= <- <-]. by rewrite string_app_nil_l, Ea.
Qed.

Lemma take_while_app p t d :
  all_chars p t = true →
  match d with EmptyString => True | String a _ => p a = false end →
  take_while p (t +:+ d) = (t, d).
Proof.
  intros Ht Hd. induction t as [|a t IH].
  - rewrite string_app_nil_l. destruct d as [|a d]; [done|]. simpl.
    by rewrite Hd.
  - rewrite string_app_cons. simpl in *. apply andb_true_iff in Ht as [-> Ht].
    by rewrite IH.
Qed.

Lemma strip_prefix_spec p s r : strip_prefix p s = Some r → s = p +:+ r.
Proof.
  revert s. induction p as [|a p IH]; intros s; simpl.
  - by intros [= ->].
  - destruct s as [|b s]; [done|]. destruct (Ascii.eqb_spec a b) as [->|]; [|done].
    intros ->%IH. by rewrite string_app_cons.
Qed.

Lemma strip_prefix_app p r : strip_prefix p (p +:+ r) = Some r.
Proof.
  induction p as [|a p IH]; [done|]. rewrite string_app_cons. simpl.
  by rewrite Ascii.eqb_refl.
Qed.

Lemma toLowerCase_app a b : toLowerCase (a +:+ b) = toLowerCase a +:+ toLowerCase b.
Proof.
  induction a as [|x a IH]; [done|]. rewrite string_app_cons. simpl.
  by rewrite IH, string_app_cons.
Qed.

Lemma lower_char_idem a : lower_char (lower_char a) = lower_char a.
Proof. by destruct a as [[] [] [] [] [] [] [] []]. Qed.

Lemma lower_char_host a :
  is_host_char a = true → is_host_char (lower_char a) = true.
Proof. by destruct a as [[] [] [] [] [] [] [] []]. Qed.

Lemma lower_char_digit a : is_digit a = true → lower_char a = a.
Proof. by destruct a as [[] [] [] [] [] [] [] []]. Qed.

Lemma digit_not_host_start a : is_digit a = true → is_host_char a = true.
Proof. by destruct a as [[] [] [] [] [] [] [] []]. Qed.

Lemma toLowerCase_idem s : toLowerCase (toLowerCase s) = toLowerCase s.
Proof. induction s as [|a s IH]; simpl; [done|]. by rewrite lower_char_idem, IH. Qed.

Lemma toLowerCase_host s :
  all_chars is_host_char s = true →
  all_chars is_host_char (toLowerCase s) = true.
Proof.
  induction s as [|a s IH]; simpl; [done|].
  intros [Ha Hs]%andb_true_iff. by rewrite lower_char_host, IH.
Qed.

Lemma toLowerCase_digits s :
  all_chars is_digit s = true → toLowerCase s = s.
Proof.
  induction s as [|a s IH]; simpl; [done|].
  intros [Ha Hs]%andb_true_iff. by rewrite lower_char_digit, IH.
Qed.

Lemma toLowerCase_empty s : toLowerCase s = "" → s = "".
Proof. by destruct s. Qed.

(** The shape of what the pattern matches. *)
Lemma match_origin_shape s r :
  match_origin s = Some r →
  ∃ sch host port rest,
    (sch = "https://" ∨ sch = "http://")
    ∧ s = (sch +:+ host +:+ port) +:+ rest
    ∧ r = toLowerCase (sch +:+ host +:+ port)
    ∧ host ≠ "" ∧ all_chars is_host_char host = true
    ∧ (port = "" ∨ ∃ digits, port = ":" +:+ digits ∧ digits ≠ ""
                              ∧ all_chars is_digit digits = true).
Proof.
  unfold match_origin.
  assert (Hgo : ∀ sch r0,
    (sch = "https://" ∨ sch = "http://") → s = sch +:+ r0 →
    (let '(host, r') := take_while is_host_char r0 in
     if (host =? "")%string then None
     else Some (toLowerCase (sch +:+ host +:+
            match r' with
            | String ":" r'' =>
                let '(digits, _) := take_while is_digit r'' in
                if (digits =? "")%string then "" else ":" +:+ digits
            | _ => ""
            end))) = Some r →
    ∃ sch host port rest,
      (sch = "https://" ∨ sch = "http://")
      ∧ s = (sch +:+ host +:+ port) +:+ rest
      ∧ r = toLowerCase (sch +:+ host +:+ port)
      ∧ host ≠ "" ∧ all_chars is_host_char host = true
      ∧ (port = "" ∨ ∃ digits, port = ":" +:+ digits ∧ digits ≠ ""
                                ∧ all_chars is_digit digits = true)).
  { intros sch r0 Hsch -> .
    destruct (take_while is_host_char r0) as [host r'] eqn:Eh.
    destruct (take_while_spec _ _ _ _ Eh) as (-> & Hhost & Hr').
    destruct (String.eqb_spec host "") as [|Hne]; [done|].
    assert (Hplain :
      Some (toLowerCase (sch +:+ host +:+ "")) = Some r →
      ∃ sch0 host0 port rest0,
        (sch0 = "https://" ∨ sch0 = "http://")
        ∧ sch +:+ host +:+ r' = (sch0 +:+ host0 +:+ port) +:+ rest0
        ∧ r = toLowerCase (sch0 +:+ host0 +:+ port)
        ∧ host0 ≠ "" ∧ all_chars is_host_char host0 = true
        ∧ (port = "" ∨ ∃ digits, port = ":" +:+ digits ∧ digits ≠ ""
                                  ∧ all_chars is_digit digits = true)).
    { intros [= <-]. exists sch, host, "", r'.
      rewrite !string_app_assoc, string_app_nil_l. eauto 10. }
    destruct r' as [|a r'']; [done|].
    destruct (ascii_dec a ":") as [->|Ha].
    - destruct (take_while is_digit r'') as [digits rest] eqn:Ed.
      destruct (take_while_spec _ _ _ _ Ed) as (-> & Hdig & _).
      destruct (String.eqb_spec digits "") as [->|Hd]; [done|].
      intros [= <-]. exists sch, host, (":" +:+ digits), rest.
      split; [done|]. split.
      { by rewrite !string_app_assoc. }
      split; [done|]. split; [done|]. split; [done|]. right. eauto.
    - intros Hr. apply Hplain. revert Hr. clear -Ha.
      destruct a as [[] [] [] [] [] [] [] []]; try done. }
  destruct (strip_prefix "https://" s) as [r0|] eqn:E1.
  - apply strip_prefix_spec in E1. apply (Hgo "https://" r0); auto.
  - destruct (strip_prefix "http://" s) as [r0|] eqn:E2; [|done].
    apply strip_prefix_spec in E2. apply (Hgo "http://" r0); auto.
Qed.

(** The pattern matches what it has produced, and gives it back. *)
Lemma match_origin_fixed sch host port :
  (sch = "https://" ∨ sch = "http://") →
  host ≠ "" → all_chars is_host_char host = true →
  (port = "" ∨ ∃ digits, port = ":" +:+ digits ∧ digits ≠ ""
                          ∧ all_chars is_digit digits = true) →
  match_origin (toLowerCase (sch +:+ host +:+ port))
  = Some (toLowerCase (sch +:+ host +:+ port)).
Proof.
  intros Hsch Hne Hhost Hport.
  assert (Hp : toLowerCase port = port
               ∧ match port with
                 | EmptyString => True
                 | String a _ => is_host_char a = false
                 end).
  { destruct Hport as [->|(digits & -> & _ & Hd)]; [done|].
    rewrite toLowerCase_app, (toLowerCase_digits digits) by done. done. }
  destruct Hp as [Hlp Hstart].
  rewrite !toLowerCase_app, Hlp.
  assert (Hgo : ∀ sch',
    (let '(host', r') := take_while is_host_char (toLowerCase host +:+ port) in
     if (host' =? "")%string then None
     else Some (toLowerCase (sch' +:+ host' +:+
            match r' with
            | String ":" r'' =>
                let '(digits, _) := take_while is_digit r'' in
                if (digits =? "")%string then "" else ":" +:+ digits
            | _ => ""
            end)))
    = Some (toLowerCase sch' +:+ toLowerCase host +:+ port)).
  { intros sch'. rewrite take_while_app by (by try apply toLowerCase_host).
    destruct (String.eqb_spec (toLowerCase host) "") as [He|_].
    { by apply toLowerCase_empty in He. }
    f_equal. rewrite !toLowerCase_app, toLowerCase_idem. f_equal. f_equal.
    destruct Hport as [->|(digits & -> & Hd & Hdig)]; [done|].
    change (":" +:+ digits) with (String ":" digits).
    replace digits with (digits +:+ "") at 1 by apply string_app_nil_r.
    rewrite take_while_app by done.
    destruct (String.eqb_spec digits ""); [done|].
    rewrite toLowerCase_app, (toLowerCase_digits digits) by done. done. }
  unfold match_origin. destruct Hsch as [-> | ->].
  - change (toLowerCase "https://") with "https://".
    rewrite strip_prefix_app. apply (Hgo "https://").
  - change (toLowerCase "http://") with "http://".
    assert (strip_prefix "https://" ("http://" +:+ toLowerCase host +:+ port)
            = None) as -> by done.
    rewrite strip_prefix_app. apply (Hgo "http://").
Qed.
Lemma match_origin_not_star s : match_origin s ≠ Some "*".
Proof.
  intros (sch & host & port & rest & Hsch & _ & Hr & _)%match_origin_shape.
  rewrite toLowerCase_app in Hr. by destruct Hsch as [-> | ->].
Qed.

(** X1.  The origin [build] keeps for a channel is either ["*"], given
    as such, or the lower-cased part of the configured string that the
    pattern matches, a prefix of it; in both cases it is in lower case
    and is kept as it is when given to [build] again. *)
Theorem origin_normal_form o r :
  valid_origin o = Some r →
  valid_origin (VStr r) = Some r
  ∧ toLowerCase r = r
  ∧ (r = "*" ↔ o = VStr "*")
  ∧ ∃ s p rest, o = VStr s ∧ s = p +:+ rest ∧ r = toLowerCase p.
Proof.
  destruct o as [| | | |s| |]; try done. simpl.
  destruct (String.eqb_spec s "*") as [->|Hs].
  - intros [= <-]. split; [done|]. split; [done|]. split; [done|].
    by exists "*", "*", "".
  - intros Hm. pose proof (match_origin_not_star s) as Hstar.
    destruct (match_origin_shape _ _ Hm)
      as (sch & host & port & rest & Hsch & Hsplit & Hr & Hne & Hhost & Hport).
    assert (Hr' : r ≠ "*") by congruence.
    destruct (String.eqb_spec r "*") as [|_]; [done|].
    rewrite Hr. split; [by apply match_origin_fixed|].
    split; [apply toLowerCase_idem|]. split.
    + split; [by rewrite <- Hr|]. by intros [= ->].
    + by exists s, (sch +:+ host +:+ port), rest.
Qed.

Lemma origin_normal_form_witness :
  valid_origin (VStr "https://A.Example:8080/map?x=1")
  = Some "https://a.example:8080"
  ∧ valid_origin (VStr "https://a.example:8080")
    = Some "https://a.example:8080".
Proof.
  split; [reflexivity|].
  apply (origin_normal_form (VStr "https://A.Example:8080/map?x=1")).
  reflexivity.
Defined.

(** ** Computations that respect a relation *)

Section Respects.
Context (R : Proc → Proc → Prop) `{!HeapLog R}.

Lemma respects_ret {A} (a : A) : respects R (ret a).
Proof. intros st. apply hl_refl. Qed.

Lemma respects_throw {A} e : respects R (@throw A e).
Proof. intros st. apply hl_refl. Qed.

Lemma respects_get : respects R get.
Proof. intros st. apply hl_refl. Qed.

Lemma respects_modify f : (∀ st, R st (f st)) → respects R (modify f).
Proof. intros Hf st. apply Hf. Qed.

Lemma respects_bind {A B} (m : M A) (k : A → M B) :
  respects R m → (∀ a, respects R (k a)) → respects R (and_then m k).
Proof.
  intros Hm Hk st. unfold and_then. specialize (Hm st).
  destruct (m st) as [a st1|e st1|]; simpl in *; [|done|done].
  specialize (Hk a st1). destruct (k a st1); simpl in *.
  - by eapply hl_trans.
  - by eapply hl_trans.
  - apply hl_refl.
Qed.

Lemma respects_try_catch {A} (m : M A) (k : value → M A) :
  respects R m → (∀ e, respects R (k e)) → respects R (try_catch m k).
Proof.
  intros Hm Hk st. unfold try_catch. specialize (Hm st).
  destruct (m st) as [a st1|e st1|]; simpl in *; [done| |done].
  specialize (Hk e st1). destruct (k e st1); simpl in *.
  - by eapply hl_trans.
  - by eapply hl_trans.
  - apply hl_refl.
Qed.

End Respects.

Create HintDb respects.

(** One step of a proof that a computation respects [R]: the monad's
    operations, the computations already dealt with, the primitive
    updates, and case analysis on what the code branches on. *)
Ltac respects_leaf :=
  first
    [ apply hl_heap | apply hl_log | apply pas_wire | apply pas_pending
    | apply pas_inTbl | apply pas_regTbl | apply pas_publish
    | apply stb_outTbl | apply stb_transIds | apply stb_timers
    | apply stb_counter ].

Ltac respects_go :=
  repeat first
    [ apply respects_ret; solve [apply _]
    | apply respects_throw; solve [apply _]
    | apply respects_get; solve [apply _]
    | solve [eauto with respects typeclass_instances]
    | apply respects_bind; [solve [apply _]| |intros ?]
    | apply respects_try_catch; [solve [apply _]| |intros ?]
    | apply respects_modify; intros; respects_leaf
    | match goal with
      | |- respects _ (match ?x with _ => _ end) => destruct x
      | |- respects _ (if ?b then _ else _) => destruct b
      | |- respects _ (let '(_, _) := ?x in _) => destruct x
      end ].

Section HeapLogCode.
Context `{Platform} (R : Proc → Proc → Prop) `{!HeapLog R}.

Lemma respects_alloc o : respects R (alloc o).
Proof. intros st. unfold alloc. simpl. apply hl_heap. Qed.
Hint Resolve respects_alloc : respects.

Lemma respects_type_error {A} text : respects R (@type_error A text).
Proof. unfold type_error. respects_go. Qed.
Hint Resolve respects_type_error : respects.

Lemma respects_get_prop v k : respects R (get_prop v k).
Proof. unfold get_prop. respects_go. Qed.
Hint Resolve respects_get_prop : respects.

Lemma respects_set_prop v k x : respects R (set_prop v k x).
Proof. unfold set_prop. respects_go. Qed.
Hint Resolve respects_set_prop : respects.

Lemma respects_get_path v path : respects R (get_path v path).
Proof. revert v. induction path; intros v; simpl; respects_go. Qed.
Hint Resolve respects_get_path : respects.

Lemma respects_finish f : respects R (finish f).
Proof. unfold finish. respects_go. Qed.
Hint Resolve respects_finish : respects.

Lemma respects_descend obj items : respects R (descend obj items).
Proof. revert obj. induction items; intros obj; simpl; respects_go. Qed.
Hint Resolve respects_descend : respects.

Lemma respects_synth_one c id cbs params path :
  respects R (synth_one c id cbs params path).
Proof. unfold synth_one. respects_go. Qed.
Hint Resolve respects_synth_one : respects.

Lemma respects_synth_all c id cbs params paths :
  respects R (synth_all c id cbs params paths).
Proof. induction paths; simpl; respects_go. Qed.
Hint Resolve respects_synth_all : respects.

Lemma respects_render e : respects R (render e).
Proof. unfold render. respects_go. Qed.
Hint Resolve respects_render : respects.

Lemma respects_try_harder e : respects R (try_harder e).
Proof. unfold try_harder. respects_go. Qed.
Hint Resolve respects_try_harder : respects.

Lemma respects_normalize_exception e : respects R (normalize_exception e).
Proof. unfold normalize_exception. respects_go. Qed.
Hint Resolve respects_normalize_exception : respects.

Lemma respects_prune_params params : respects R (prune_params params).
Proof.
  intros st. unfold prune_params.
  destruct (pruneFunctions _ _ _ _); simpl; try apply hl_heap.
  apply hl_refl.
Qed.

End HeapLogCode.

Section PassiveCode.
Context `{Platform} (R : Proc → Proc → Prop) `{!Passive R}.

Hint Resolve respects_alloc respects_type_error respects_get_prop
  respects_set_prop respects_get_path respects_finish respects_descend
  respects_synth_one respects_synth_all respects_render respects_try_harder
  respects_normalize_exception respects_prune_params : respects.

Lemma respects_postMessage c m force : respects R (postMessage c m force).
Proof. unfold postMessage. respects_go. Qed.
Hint Resolve respects_postMessage : respects.

Lemma respects_trans_invoke c id cbs name v :
  respects R (trans_invoke c id cbs name v).
Proof. unfold trans_invoke. respects_go. Qed.
Hint Resolve respects_trans_invoke : respects.

Lemma respects_trans_error c id e m : respects R (trans_error c id e m).
Proof. unfold trans_error. respects_go. Qed.
Hint Resolve respects_trans_error : respects.

Lemma respects_trans_complete c id v : respects R (trans_complete c id v).
Proof. unfold trans_complete. respects_go. Qed.
Hint Resolve respects_trans_complete : respects.

Lemma respects_invoke_value site f args :
  respects R (invoke_value site f args).
Proof. unfold invoke_value. respects_go. Qed.
Hint Resolve respects_invoke_value : respects.

Lemma respects_run_op tc params op fl : respects R (run_op tc params op fl).
Proof. unfold run_op. respects_go. Qed.
Hint Resolve respects_run_op : respects.

Lemma respects_run_ops tc params ops fl :
  respects R (run_ops tc params ops fl).
Proof. revert fl. induction ops; intros fl; simpl; respects_go. Qed.
Hint Resolve respects_run_ops : respects.

Lemma respects_run_handler tc params h fl :
  respects R (run_handler tc params h fl).
Proof. unfold run_handler. respects_go. Qed.
Hint Resolve respects_run_handler : respects.

Lemma respects_request_try c id cbs m h :
  respects R (request_try c id cbs m h).
Proof. unfold request_try. respects_go. Qed.
Hint Resolve respects_request_try : respects.

Lemma respects_request_catch c id e : respects R (request_catch c id e).
Proof. unfold request_catch. respects_go. Qed.
Hint Resolve respects_request_catch : respects.

Lemma respects_on_request c id meth m : respects R (on_request c id meth m).
Proof. unfold on_request. respects_go. Qed.

Lemma respects_on_callback c id cb m : respects R (on_callback c id cb m).
Proof. unfold on_callback. respects_go. Qed.

Lemma respects_on_notification c meth m :
  respects R (on_notification c meth m).
Proof. unfold on_notification. respects_go. Qed.

Lemma respects_notify c m : respects R (notify c m).
Proof. unfold notify. respects_go. Qed.
Hint Resolve respects_notify : respects.

Lemma respects_bind_method c method cb doNotPublish :
  respects R (bind c method cb doNotPublish).
Proof. unfold bind. respects_go. Qed.

Lemma respects_unbind c method doNotPublish :
  respects R (unbind c method doNotPublish).
Proof. unfold unbind. respects_go. Qed.

End PassiveCode.

Section StableCode.
Context `{Platform} (R : Proc → Proc → Prop) `{!Stable R}.

Hint Resolve respects_invoke_value respects_on_request respects_on_callback
  respects_on_notification respects_prune_params respects_postMessage
  respects_notify : respects.

Lemma respects_evict c id : respects R (evict c id).
Proof. unfold evict. respects_go. Qed.
Hint Resolve respects_evict : respects.

Lemma respects_setTransactionTimeout c id timeout method :
  respects R (setTransactionTimeout c id timeout method).
Proof. unfold setTransactionTimeout. respects_go. Qed.
Hint Resolve respects_setTransactionTimeout : respects.

Lemma respects_on_response c id m : respects R (on_response c id m).
Proof. unfold on_response. respects_go. Qed.
Hint Resolve respects_on_response : respects.

Lemma respects_timeout_expired t : respects R (timeout_expired t).
Proof. unfold timeout_expired. respects_go. Qed.

Lemma respects_call c m : respects R (call c m).
Proof. unfold call. respects_go. Qed.

Lemma respects_onMessage c origin method m :
  respects R (onMessage c origin method m).
Proof. unfold onMessage. respects_go. Qed.
Hint Resolve respects_onMessage : respects.

Lemma respects_deliver w arr o meth m : respects R (deliver w arr o meth m).
Proof. induction arr; simpl; respects_go. Qed.
Hint Resolve respects_deliver : respects.

Lemma respects_s_onMessage e : respects R (s_onMessage e).
Proof.
  unfold s_onMessage. destruct (e_data e) as [m|]; [|respects_go].
  destruct (match m_method m with Some _ => _ | None => _ end) as [s [meth|]];
    respects_go.
Qed.

(** Every event but [build] respects [R]. *)
Lemma respects_run_event ev :
  (∀ cfg, ev ≠ EBuild cfg) → respects R (run_event ev).
Proof.
  intros Hev. destruct ev; simpl.
  - by destruct (Hev cfg).
  - apply respects_call.
  - apply respects_notify; apply _.
  - apply respects_bind_method; apply _.
  - apply respects_bind; [apply _|apply respects_unbind; apply _|].
    intros ?. apply respects_ret; apply _.
  - apply respects_s_onMessage.
  - apply respects_bind; [apply _|apply respects_get; apply _|]. intros st.
    destruct (timers st !! n); [|apply respects_ret; apply _].
    apply respects_bind; [apply _| |intros ?; apply respects_timeout_expired].
    apply respects_modify. intros. apply stb_timers.
  - apply respects_modify. intros. apply hl_heap.
Qed.

End StableCode.

(** ** The wiring of the process *)

Lemma same_wiring_refl st : same_wiring st st.
Proof. by split. Qed.

Lemma same_wiring_trans st1 st2 st3 :
  same_wiring st1 st2 → same_wiring st2 st3 → same_wiring st1 st3.
Proof. intros [] []. split; intros; congruence. Qed.

Ltac wiring_leaf :=
  intros; split; simpl; try done; intros c';
  match goal with
  | |- context [ <[?c := _]> _ ?c' ] =>
      destruct (decide (c = c')) as [?|?]; [subst|]
  end; chan_lookup; done.

#[global] Instance same_wiring_heaplog : HeapLog same_wiring.
Proof.
  split; [apply same_wiring_refl|apply same_wiring_trans|..]; wiring_leaf.
Qed.

#[global] Instance same_wiring_passive : Passive same_wiring.
Proof. split; [apply _|..]; wiring_leaf. Qed.

#[global] Instance same_wiring_stable : Stable same_wiring.
Proof. split; [apply _|..]; wiring_leaf. Qed.

Lemma registry_sound_wiring st st' :
  same_wiring st st' → registry_sound st → registry_sound st'.
Proof.
  intros [Hr Hn Hw Ho Hs _] Hsound origin scope arr b Hb Hin.
  rewrite Hr in Hb. rewrite Hn, Hw, Ho, Hs. by apply (Hsound origin scope arr).
Qed.

(** ** [build] *)

Lemma s_addBoundChan_state w origin scope handler st st' :
  s_addBoundChan w origin scope handler st = Ok tt st' →
  st' = set_boundChans
          (insert origin
             (<[scope := default [] (default ∅ (s_boundChans st !! origin)
                                       !! scope) ++ [Bound w handler]]>
                (default ∅ (s_boundChans st !! origin)))) st.
Proof. unfold s_addBoundChan. case_match; [done|]. by intros [= <-]. Qed.

Lemma s_addBoundChan_fails w origin scope handler st e st' :
  s_addBoundChan w origin scope handler st = Exc e st' → st' = st.
Proof. unfold s_addBoundChan. case_match; [|done]. by intros [= _ <-]. Qed.

Lemma check_scope_fails scope st e st' :
  check_scope scope st = Exc e st' → st' = st.
Proof.
  unfold check_scope. destruct scope; try (by intros [= _ <-]); try done.
  case_match; [|done]. by intros [= _ <-].
Qed.

(** What a [build] that returns has done. *)
Lemma build_inv `{Platform} cfg st c st' :
  build cfg st = Ok c st' →
  ∃ bcfg w origin scope st1,
    cfg = Some bcfg
    ∧ bc_window bcfg = Some (RemoteWindow w true)
    ∧ window st ≠ w
    ∧ valid_origin (bc_origin bcfg) = Some origin
    ∧ check_scope (bc_scope bcfg) st = Ok scope st
    ∧ c = nchans st
    ∧ s_addBoundChan w origin scope c st = Ok tt st1
    ∧ st' = set_nchans S
              (set_chan c (λ _, Chan w origin scope (bc_publish bcfg)
                                     ∅ ∅ ∅ false [] []) st1).
Proof.
  unfold build. destruct has_postMessage; [|done]. destruct has_JSON; [|done].
  simpl. destruct cfg as [bcfg|]; [|done].
  destruct (bc_window bcfg) as [[w [|]]|] eqn:Ew; try done.
  unfold and_then at 1. unfold get. case_bool_decide as Hw; [done|].
  destruct (valid_origin (bc_origin bcfg)) as [origin|] eqn:Eo; [|done].
  unfold and_then at 1.
  destruct (check_scope (bc_scope bcfg) st) as [scope st0|e st0|] eqn:Es;
    try done.
  pose proof (check_scope_ok _ _ _ _ Es) as [-> _].
  unfold and_then at 1.
  destruct (s_addBoundChan w origin scope (nchans st) st) as [[] st1|e st1|]
    eqn:Ea; try done.
  unfold and_then, modify, ret. intros [= <- <-].
  by exists bcfg, w, origin, scope, st1.
Qed.

(** A [build] that throws has changed nothing. *)
Lemma build_fails `{Platform} cfg st e st' :
  build cfg st = Exc e st' → st' = st.
Proof.
  unfold build. destruct has_postMessage; [|by intros [= _ <-]].
  destruct has_JSON; [|by intros [= _ <-]].
  simpl. destruct cfg as [bcfg|]; [|by intros [= _ <-]].
  destruct (bc_window bcfg) as [[w [|]]|] eqn:Ew; try (by intros [= _ <-]).
  unfold and_then at 1. unfold get. case_bool_decide as Hw; [by intros [= _ <-]|].
  destruct (valid_origin (bc_origin bcfg)) as [origin|] eqn:Eo;
    [|by intros [= _ <-]].
  unfold and_then at 1.
  destruct (check_scope (bc_scope bcfg) st) as [scope st0|e0 st0|] eqn:Es;
    [|intros [= _ <-]; by apply check_scope_fails in Es|done].
  pose proof (check_scope_ok _ _ _ _ Es) as [-> _].
  unfold and_then at 1.
  destruct (s_addBoundChan w origin scope (nchans st) st) as [[] st1|e1 st1|]
    eqn:Ea; [|intros [= _ <-]; by apply s_addBoundChan_fails in Ea|done].
  unfold and_then, modify, ret. done.
Qed.

(** Membership in a bucket after a registration. *)
Lemma bucket_after_add reg origin scope w handler o s arr b :
  bucket
    (<[origin := <[scope := default [] (default ∅ (reg !! origin) !! scope)
                            ++ [Bound w handler]]>
                   (default ∅ (reg !! origin))]> reg) o s = Some arr →
  b ∈ arr →
  (∃ arr0, bucket reg o s = Some arr0 ∧ b ∈ arr0)
  ∨ (o = origin ∧ s = scope ∧ b = Bound w handler).
Proof.
  unfold bucket. destruct (decide (o = origin)) as [->|Ho].
  - rewrite lookup_insert_eq. simpl. destruct (decide (s = scope)) as [->|Hs].
    + rewrite lookup_insert_eq. intros [= <-].
      intros [Hin|Hin%list_elem_of_singleton]%elem_of_app; [|by right].
      left. destruct (reg !! origin) as [scopes|]; simpl in *.
      * destruct (scopes !! scope) as [arr0|]; simpl in *; [eauto|].
        by apply not_elem_of_nil in Hin.
      * rewrite lookup_empty in Hin. by apply not_elem_of_nil in Hin.
    + rewrite lookup_insert_ne by done. intros Hb Hin. left.
      destruct (reg !! origin) as [scopes|]; simpl in *; [eauto|].
      by rewrite lookup_empty in Hb.
  - rewrite lookup_insert_ne by done. eauto.
Qed.

Lemma registry_sound_build `{Platform} cfg st :
  registry_sound st → registry_sound (state_after st (build cfg st)).
Proof.
  intros Hsound. destruct (build cfg st) as [c st'|e st'|] eqn:Eb; simpl.
  - destruct (build_inv _ _ _ _ Eb)
      as (bcfg & w & origin & scope & st1 & -> & _ & _ & _ & _ & -> & Ha & ->).
    apply s_addBoundChan_state in Ha as ->.
    intros o s arr b Hb Hin. simpl in Hb. simpl.
    destruct (bucket_after_add _ _ _ _ _ _ _ _ _ Hb Hin)
      as [(arr0 & Hb0 & Hin0)|(-> & -> & ->)].
    + destruct (Hsound o s arr0 b Hb0 Hin0) as (Hlt & Hw & Ho & Hs).
      rewrite fn_lookup_insert_ne by lia. split; [lia|done].
    + simpl. rewrite fn_lookup_insert. split; [lia|done].
  - by apply build_fails in Eb as ->.
  - done.
Qed.

Lemma registry_sound_step `{Platform} ev st :
  registry_sound st → registry_sound (step st ev).
Proof.
  intros Hsound. unfold step.
  assert (Hother : (∀ cfg, ev ≠ EBuild cfg) →
                   registry_sound (state_after st (run_event ev st))).
  { intros Hev. eapply registry_sound_wiring; [|done].
    exact (respects_run_event same_wiring ev Hev st). }
  destruct ev; try (by apply Hother).
  simpl. pose proof (registry_sound_build cfg st Hsound) as Hb.
  unfold and_then. by destruct (build cfg st).
Qed.

Lemma registry_sound_run `{Platform} evs st :
  registry_sound st → registry_sound (run evs st).
Proof.
  revert st. induction evs as [|ev evs IH]; intros st Hs; simpl; [done|].
  by apply IH, registry_sound_step.
Qed.

Lemma registry_sound_initial w k h : registry_sound (initial_proc w k h).
Proof.
  intros origin scope arr b Hb. unfold bucket in Hb. simpl in Hb.
  by rewrite lookup_empty in Hb.
Qed.

(** ** Routing of requests and notifications *)

Lemma deliver_none `{Platform} w arr o meth m st :
  entries_in arr w = 0%nat → deliver w arr o meth m st = Ok false st.
Proof.
  unfold entries_in. induction arr as [|b arr IH]; simpl; [done|].
  rewrite filter_cons. case_bool_decide as Hb.
  - by rewrite decide_True.
  - rewrite decide_False by done. apply IH.
Qed.

Lemma deliver_some `{Platform} w arr o meth m st :
  (0 < entries_in arr w)%nat →
  ∃ b, b ∈ arr ∧ b_win b = w
       ∧ deliver w arr o meth m st
         = (onMessage (b_handler b) o (Some meth) m >> ret true) st.
Proof.
  unfold entries_in. induction arr as [|b arr IH]; simpl; [lia|].
  rewrite filter_cons. case_bool_decide as Hb.
  - intros _. exists b. split; [apply list_elem_of_here|done].
  - rewrite decide_False by done. intros Hpos.
    destruct (IH Hpos) as (b' & Hin & Hw & Hd). exists b'.
    split; [by apply list_elem_of_further|done].
Qed.

Lemma s_onMessage_method `{Platform} ev m mm s meth st :
  e_data ev = Some m → m_method m = Some mm → parse_method mm = (s, meth) →
  s_onMessage ev st
  = (let! st := get in
     let! delivered :=
       match bucket (s_boundChans st) (e_origin ev) (scope_key s) with
       | Some arr => deliver (e_source ev) arr (e_origin ev) meth m
       | None => ret false
       end in
     if delivered then ret tt
     else
       let! st := get in
       match bucket (s_boundChans st) "*" (scope_key s) with
       | Some arr => deliver (e_source ev) arr (e_origin ev) meth m >> ret tt
       | None => ret tt
       end) st.
Proof.
  intros Hd Hm Hp. unfold s_onMessage. rewrite Hd, Hm.
  unfold parse_method in Hp.
  destruct (Str.split "::" mm) as [|a [|b [|x l]]]; by simplify_eq.
Qed.

Lemma s_onMessage_routes `{Platform} st ev m mm s meth :
  registry_sound st → e_data ev = Some m → m_method m = Some mm →
  parse_method mm = (s, meth) →
  (entries_at (s_boundChans st) (e_origin ev) (scope_key s) (e_source ev)
   = 0%nat
   ∧ entries_at (s_boundChans st) "*" (scope_key s) (e_source ev) = 0%nat
   ∧ s_onMessage ev st = Ok tt st)
  ∨ ∃ c, (c < nchans st)%nat
      ∧ cfg_window (chans st c) = e_source ev
      ∧ cfg_scope (chans st c) = scope_key s
      ∧ (cfg_origin (chans st c) = e_origin ev
         ∨ cfg_origin (chans st c) = "*")
      ∧ s_onMessage ev st = onMessage c (e_origin ev) (Some meth) m st.
Proof.
  intros Hsound Hd Hm Hp.
  pose proof (s_onMessage_method ev m mm s meth st Hd Hm Hp) as Hs.
  unfold entries_at. unfold and_then at 1 in Hs. unfold get at 1 in Hs.
  set (o := e_origin ev) in *. set (w := e_source ev) in *.
  set (sk := scope_key s) in *.
  destruct (Nat.eq_dec
              (entries_in (default [] (bucket (s_boundChans st) o sk)) w)
              0%nat) as [Hz|Hnz].
  - assert (Hfirst :
      match bucket (s_boundChans st) o sk with
      | Some arr => deliver w arr o meth m
      | None => ret false
      end st = Ok false st).
    { destruct (bucket (s_boundChans st) o sk) as [arr|]; [|done].
      by apply deliver_none. }
    unfold and_then at 1 in Hs. rewrite Hfirst in Hs.
    unfold and_then at 1 in Hs. unfold get in Hs.
    destruct (Nat.eq_dec
                (entries_in (default [] (bucket (s_boundChans st) "*" sk)) w)
                0%nat) as [Hz'|Hnz'].
    + left. split; [done|]. split; [done|]. rewrite Hs.
      destruct (bucket (s_boundChans st) "*" sk) as [arr|]; [|done].
      unfold and_then. simpl in Hz'.
      by rewrite (deliver_none w arr o meth m st Hz').
    + right. destruct (bucket (s_boundChans st) "*" sk) as [arr|] eqn:Eb;
        [|by destruct Hnz'].
      simpl in Hnz'.
      destruct (deliver_some w arr o meth m st) as (b & Hin & Hw & Hdel);
        [lia|].
      destruct (Hsound "*" sk arr b Eb Hin) as (Hlt & Hcw & Hco & Hcs).
      exists (b_handler b). split; [done|]. split; [congruence|].
      split; [done|]. split; [by right|]. rewrite Hs.
      unfold and_then at 1. rewrite Hdel. unfold and_then, ret.
      by destruct (onMessage (b_handler b) o (Some meth) m st) as [[] ?|? ?|].
  - right. destruct (bucket (s_boundChans st) o sk) as [arr|] eqn:Eb;
      [|by destruct Hnz].
    simpl in Hnz.
    destruct (deliver_some w arr o meth m st) as (b & Hin & Hw & Hdel); [lia|].
    destruct (Hsound o sk arr b Eb Hin) as (Hlt & Hcw & Hco & Hcs).
    exists (b_handler b). split; [done|]. split; [congruence|].
    split; [done|]. split; [by left|]. rewrite Hs.
    unfold and_then at 1. rewrite Hdel. unfold and_then, ret.
    by destruct (onMessage (b_handler b) o (Some meth) m st) as [[] ?|? ?|].
Qed.

(** X2.  Along every run of builds, calls, notifications, binds,
    unbinds, messages and timers the registry files each entry under
    the window, origin and scope of a built channel; so a message that
    names a method is handed to a channel only if it comes from that
    channel's window, carries that channel's scope, and comes from that
    channel's origin unless the channel accepts any: otherwise the
    listener returns and the state is unchanged.  The origin and the
    scope of the message are not names that the registry inherits. *)
Theorem messages_reach_their_channel `{Platform} :
  (∀ w k h evs, registry_sound (run evs (initial_proc w k h)))
  ∧ (∀ st ev m mm s meth,
       registry_sound st → e_data ev = Some m → m_method m = Some mm →
       parse_method mm = (s, meth) →
       e_origin ev ∉ inherited_names → scope_key s ∉ inherited_names →
       (entries_at (s_boundChans st) (e_origin ev) (scope_key s)
                   (e_source ev) = 0%nat
        ∧ entries_at (s_boundChans st) "*" (scope_key s) (e_source ev)
          = 0%nat
        ∧ s_onMessage ev st = Ok tt st)
       ∨ ∃ c, (c < nchans st)%nat
           ∧ cfg_window (chans st c) = e_source ev
           ∧ cfg_scope (chans st c) = scope_key s
           ∧ (cfg_origin (chans st c) = e_origin ev
              ∨ cfg_origin (chans st c) = "*")
           ∧ s_onMessage ev st
             = onMessage c (e_origin ev) (Some meth) m st).
Proof.
  split.
  - intros w k h evs. apply registry_sound_run, registry_sound_initial.
  - intros st ev m mm s meth Hr Hd Hm Hp _ _.
    by apply (s_onMessage_routes st ev m mm s meth).
Qed.

Lemma messages_reach_their_channel_witness :
  let st := @run sample_platform
              (serving (Handler [] (HReturn VUndef)))
              (initial_proc 0%nat (2 ^ 52) ∅) in
  registry_sound st
  ∧ ∃ c, cfg_window (chans st c) = 7%nat
      ∧ @s_onMessage sample_platform ping_notification st
        = @onMessage sample_platform c "https://a.example" (Some "ping")
            (Notification "__default::ping" VUndef) st.
Proof.
  intros st.
  destruct (@messages_reach_their_channel sample_platform) as [Hinv Hroute].
  assert (Hs : registry_sound st) by apply Hinv.
  split; [exact Hs|].
  destruct (Hroute st ping_notification
              (Notification "__default::ping" VUndef) "__default::ping"
              (Some "__default") "ping" Hs eq_refl eq_refl eq_refl)
    as [(Hz & _)|(c & _ & Hw & _ & _ & Hr)].
  - unfold inherited_names. cbn. set_solver.
  - unfold inherited_names. cbn. set_solver.
  - vm_compute in Hz. discriminate.
  - by exists c.
Defined.

(** What a [build] that returns leaves behind. *)
Lemma build_ok `{Platform} cfg st c st' :
  build cfg st = Ok c st' →
  ∃ bcfg w origin scope,
    cfg = Some bcfg
    ∧ bc_window bcfg = Some (RemoteWindow w true)
    ∧ valid_origin (bc_origin bcfg) = Some origin
    ∧ (bc_scope bcfg = VUndef → scope = "__default")
    ∧ (∀ x, bc_scope bcfg = VStr x → scope = x)
    ∧ c = nchans st ∧ nchans st' = S (nchans st)
    ∧ chans st' c
      = Chan w origin scope (bc_publish bcfg) ∅ ∅ ∅ false [] []
    ∧ (∀ c', c' ≠ c → chans st' c' = chans st c')
    ∧ (∀ o s w',
         entries_at (s_boundChans st') o s w'
         = (entries_at (s_boundChans st) o s w'
            + if bool_decide (o = origin ∧ s = scope ∧ w' = w)
              then 1 else 0)%nat)
    ∧ s_curTranId st' = s_curTranId st
    ∧ s_transIds st' = s_transIds st
    ∧ the_heap st' = the_heap st ∧ timers st' = timers st
    ∧ wire st' = wire st ∧ log st' = log st.
Proof.
  intros Hb.
  destruct (build_inv _ _ _ _ Hb)
    as (bcfg & w & origin & scope & st1 & -> & Hw & _ & Ho & Hs & -> & Ha & ->).
  exists bcfg, w, origin, scope.
  destruct (check_scope_ok _ _ _ _ Hs) as (_ & _ & Hdef & Hstr).
  pose proof (s_addBoundChan_ok_inv _ _ _ _ _ _ Ha) as Hfree.
  destruct (s_addBoundChan_ok w origin scope (nchans st) st Hfree)
    as (st2 & Ha2 & Hcount).
  rewrite Ha in Ha2. simplify_eq.
  apply s_addBoundChan_state in Ha. subst st2. simpl in *.
  rewrite fn_lookup_insert.
  repeat (split; [done|]). split.
  { intros c' Hc. by rewrite fn_lookup_insert_ne. }
  done.
Qed.

(** X3.  The checks and the registration that [build] begins with
    leave the process as it was when they throw.  When they return
    they have created channel number [nchans], not ready and with
    empty tables and queues, under the window, the normalised origin
    and the scope of the configuration, have added one registry entry
    for it, and have touched nothing else of the process.  The scope is
    not a name that the registry inherits. *)
Theorem build_creates_one_channel `{Platform} :
  (∀ cfg st e st', build cfg st = Exc e st' → st' = st)
  ∧ (∀ cfg st c st',
       (∀ bcfg x, cfg = Some bcfg → bc_scope bcfg = VStr x →
                  x ∉ inherited_names) →
       build cfg st = Ok c st' →
       ∃ bcfg w origin scope,
         cfg = Some bcfg
         ∧ bc_window bcfg = Some (RemoteWindow w true)
         ∧ valid_origin (bc_origin bcfg) = Some origin
         ∧ (bc_scope bcfg = VUndef → scope = "__default")
         ∧ (∀ x, bc_scope bcfg = VStr x → scope = x)
         ∧ c = nchans st ∧ nchans st' = S (nchans st)
         ∧ chans st' c
           = Chan w origin scope (bc_publish bcfg) ∅ ∅ ∅ false [] []
         ∧ (∀ c', c' ≠ c → chans st' c' = chans st c')
         ∧ (∀ o s w',
              entries_at (s_boundChans st') o s w'
              = (entries_at (s_boundChans st) o s w'
                 + if bool_decide (o = origin ∧ s = scope ∧ w' = w)
                   then 1 else 0)%nat)
         ∧ s_curTranId st' = s_curTranId st
         ∧ s_transIds st' = s_transIds st
         ∧ the_heap st' = the_heap st ∧ timers st' = timers st
         ∧ wire st' = wire st ∧ log st' = log st).
Proof.
  split.
  - intros cfg st e st'. apply build_fails.
  - intros cfg st c st' _. apply build_ok.
Qed.

Lemma build_creates_one_channel_witness :
  ∃ st',
    @build sample_platform (Some unscoped_cfg) (initial_proc 0%nat 0 ∅)
    = Ok 0%nat st'
    ∧ chans st' 0%nat
      = Chan 7%nat "https://a.example" "__default" false ∅ ∅ ∅ false [] []
    ∧ entries_at (s_boundChans st') "https://a.example" "__default" 7%nat
      = 1%nat.
Proof.
  destruct (@build sample_platform (Some unscoped_cfg) (initial_proc 0%nat 0 ∅))
    as [c st'|e st'|] eqn:Eb; [|by vm_compute in Eb..].
  destruct (proj2 (@build_creates_one_channel sample_platform)
              (Some unscoped_cfg) _ _ _ ltac:(by intros ?? [= <-]) Eb)
    as (bcfg & w & origin & scope & [= <-] & [= <-] & [= <-] & Hdef & _ & ->
        & _ & Hch & _ & Hcount & _).
  rewrite (Hdef eq_refl) in *. exists st'. split; [done|]. split; [done|].
  rewrite Hcount. by rewrite bool_decide_eq_true_2.
Defined.

(** X4.  After a channel has been built for a concrete origin, a
    second [build] for the same window and scope whose origin has the
    same normal form (it may differ in case or carry a path) throws the
    overlap error and changes nothing.  The scope is not a name that
    the registry inherits. *)
Theorem build_twice_conflicts `{Platform} cfg cfg' st c st' :
  build (Some cfg) st = Ok c st' →
  cfg_scope (chans st' c) ∉ inherited_names →
  cfg_origin (chans st' c) ≠ "*" →
  bc_window cfg' = bc_window cfg →
  valid_origin (bc_origin cfg') = valid_origin (bc_origin cfg) →
  bc_scope cfg' = bc_scope cfg →
  build (Some cfg') st'
  = Exc (overlap_error (cfg_origin (chans st' c)) (cfg_scope (chans st' c)))
        st'.
Proof.
  intros Hb _ Hstar Hw Ho Hs.
  destruct (build_ok _ _ _ _ Hb)
    as (bcfg & w & origin & scope & [= <-] & Hwin & Horigin & Hdef & Hstr & ->
        & Hn & Hch & _ & Hcount & _).
  rewrite Hch in *. simpl in *.
  destruct (build_inv _ _ _ _ Hb)
    as (? & w0 & origin0 & scope0 & st1 & [= <-] & Hwin0 & Hne & Ho0 & Hs0
        & _ & _ & _).
  rewrite Hwin in Hwin0. rewrite Horigin in Ho0. simplify_eq.
  destruct (check_scope_ok _ _ _ _ Hs0) as (_ & _ & Hdef0 & Hstr0).
  assert (scope0 = scope) as ->.
  { destruct (bc_scope cfg) eqn:E; try done; [by rewrite Hdef, Hdef0|].
    by rewrite (Hstr s), (Hstr0 s). }
  assert (Hwindow : window st' = window st).
  { apply build_inv in Hb as (? & ? & ? & ? & st2 & _ & _ & _ & _ & _ & _
                              & Ha & ->).
    by apply s_addBoundChan_state in Ha as ->. }
  assert (Hscope : check_scope (bc_scope cfg') st' = Ok scope st').
  { rewrite Hs. revert Hs0. unfold check_scope.
    destruct (bc_scope cfg); try done; [by intros [= <-]|].
    case_match; [done|]. by intros [= <-]. }
  unfold build. destruct has_postMessage eqn:Ep;
    [|by unfold build in Hb; rewrite Ep in Hb].
  destruct has_JSON eqn:Ej;
    [|by unfold build in Hb; rewrite Ep, Ej in Hb].
  simpl. rewrite Hw, Hwin. unfold and_then at 1. unfold get.
  rewrite Hwindow, bool_decide_eq_false_2 by done.
  rewrite Ho, Horigin. unfold and_then at 1. rewrite Hscope.
  unfold and_then at 1.
  rewrite (s_addBoundChan_conflict w0 origin0 scope (nchans st') st'); [done|].
  rewrite decide_False by done. right. rewrite Hcount.
  rewrite bool_decide_eq_true_2 by done. lia.
Qed.

Lemma build_twice_conflicts_witness :
  ∃ st',
    @build sample_platform (Some unscoped_cfg) (initial_proc 0%nat 0 ∅)
    = Ok 0%nat st'
    ∧ @build sample_platform
        (Some (BuildCfg (Some (RemoteWindow 7%nat true))
                        (VStr "https://A.Example/map") VUndef true)) st'
      = Exc (overlap_error "https://a.example" "__default") st'.
Proof.
  destruct (@build sample_platform (Some unscoped_cfg) (initial_proc 0%nat 0 ∅))
    as [c st'|e st'|] eqn:Eb; [|by vm_compute in Eb..].
  assert (c = 0%nat) as ->.
  { by destruct (@build_ok sample_platform _ _ _ _ Eb)
      as (? & ? & ? & ? & _ & _ & _ & _ & _ & -> & _). }
  assert (Hch : chans st' 0%nat
                = Chan 7%nat "https://a.example" "__default" false ∅ ∅ ∅
                       false [] []).
  { destruct (@build_ok sample_platform _ _ _ _ Eb)
      as (? & ? & ? & ? & [= <-] & [= <-] & [= <-] & Hdef & _ & _ & _ & Hch
          & _).
    by rewrite (Hdef eq_refl) in Hch. }
  exists st'. split; [done|].
  pose proof (@build_twice_conflicts sample_platform unscoped_cfg
                (BuildCfg (Some (RemoteWindow 7%nat true))
                          (VStr "https://A.Example/map") VUndef true)
                _ _ _ Eb) as Hc.
  rewrite Hch in Hc. simpl in Hc. apply Hc; try done.
  unfold inherited_names. set_solver.
Defined.

(** ** One reply per request *)

Lemma outcome_bind {A B} (m : M A) (k : A → M B) st P Q P' :
  outcome (m st) P Q →
  (∀ a st1, P a st1 → outcome (k a st1) P' Q) →
  outcome (and_then m k st) P' Q.
Proof.
  unfold and_then. destruct (m st) as [a st1|e st1|]; simpl; [|done|done].
  intros HP Hk. by apply Hk.
Qed.

Lemma outcome_weaken {A} (r : res A) (P P' : A → Proc → Prop)
    (Q Q' : Proc → Prop) :
  outcome r P Q → (∀ a st, P a st → P' a st) → (∀ st, Q st → Q' st) →
  outcome r P' Q'.
Proof. destruct r; simpl; eauto. Qed.

Lemma outcome_respects {A} R (m : M A) st (J : Proc → Prop) :
  respects R m → (∀ st', R st st' → J st') →
  outcome (m st) (λ _, J) J.
Proof.
  intros Hm HJ. specialize (Hm st). destruct (m st); simpl in *; auto.
Qed.

Lemma no_reply_refl c id st : no_reply c id st st.
Proof. by split. Qed.

Lemma no_reply_trans c id st1 st2 st3 :
  no_reply c id st1 st2 → no_reply c id st2 st3 → no_reply c id st1 st3.
Proof. intros [I1 R1] [I2 R2]. split; [by rewrite I2|congruence]. Qed.

#[global] Instance no_reply_heaplog c id : HeapLog (no_reply c id).
Proof.
  split; [apply no_reply_refl|apply no_reply_trans|..]; intros; by split.
Qed.

Lemma tx_in_no_reply c id n s st st' :
  no_reply c id st st' → tx_in c id n s st → tx_in c id n s st'.
Proof. intros [Hi Hr]. destruct s; simpl; rewrite Hi, Hr; done. Qed.

Lemma replies_wire c id st x :
  replies c id (set_wire (λ w, w ++ [x]) st)
  = (replies c id st + if is_reply id (p_msg x) then 1 else 0)%nat.
Proof.
  unfold replies. simpl. rewrite filter_app, length_app, filter_cons, filter_nil.
  destruct (decide (is_reply id (p_msg x) = true)) as [-> |Hn]; simpl; [lia|].
  apply not_true_is_false in Hn. rewrite Hn. lia.
Qed.

Lemma replies_pending c c' id st m :
  replies c id (set_chan c' (set_pendingQueue (λ q, q ++ [m])) st)
  = (replies c id st
     + if bool_decide (c' = c) && is_reply id m then 1 else 0)%nat.
Proof.
  unfold replies. simpl. case_bool_decide as Hc.
  - subst c'. rewrite fn_lookup_insert. simpl.
    rewrite filter_app, length_app, filter_cons, filter_nil.
    destruct (decide (is_reply id m = true)) as [-> |Hn]; simpl; [lia|].
    apply not_true_is_false in Hn. rewrite Hn. lia.
  - rewrite fn_lookup_insert_ne by done. simpl. lia.
Qed.

(** Posting a message that is not a reply to [id]. *)
Lemma postMessage_no_reply `{Platform} c id c' m force st :
  is_reply id m = false →
  no_reply c id st (state_after st (postMessage c' m force st)).
Proof.
  intros Hm. unfold postMessage, and_then, get.
  destruct (unserializable (the_heap st) m).
  - apply (respects_type_error (no_reply c id)).
  - cbv zeta. destruct (negb force && negb (ready (chans st c'))); simpl.
    + split.
      * simpl. destruct (decide (c' = c)) as [->|Hc];
          [by rewrite fn_lookup_insert|by rewrite fn_lookup_insert_ne].
      * rewrite replies_pending, Hm, andb_false_r. lia.
    + split; [done|]. rewrite replies_wire. simpl. rewrite Hm. lia.
Qed.

Lemma trans_invoke_no_reply `{Platform} c id c' id' cbs name v :
  respects (no_reply c id) (trans_invoke c' id' cbs name v).
Proof.
  intros st. unfold trans_invoke, and_then, get.
  destruct (negb _); [apply no_reply_refl|].
  destruct (negb _); [apply no_reply_refl|].
  apply postMessage_no_reply. unfold is_reply.
  by rewrite bool_decide_eq_false_2 by naive_solver.
Qed.

Lemma invoke_value_no_reply `{Platform} c id site f args :
  respects (no_reply c id) (invoke_value site f args).
Proof.
  pose proof (trans_invoke_no_reply c id) as Hti.
  unfold invoke_value. respects_go.
Qed.

(** Closing the request and posting the reply [m0]. *)
Lemma close_and_reply `{Platform} c id n m0 st :
  is_reply id m0 = true → tx_in c id n TxOpen st →
  outcome
    ((modify (set_chan c (set_inTbl (λ t, t ∖ {[id]}))) >>
      postMessage c m0 false) st)
    (λ _, tx_in c id n TxDone) (tx_in c id n TxLost).
Proof.
  intros Hm [Hin Hn]. unfold and_then at 1. unfold modify.
  set (st1 := set_chan c _ st).
  assert (H1 : id ∉ inTbl (chans st1 c) ∧ replies c id st1 = n).
  { unfold st1. split.
    - simpl. rewrite fn_lookup_insert. simpl. set_solver.
    - unfold replies in *. simpl. by rewrite fn_lookup_insert. }
  destruct H1 as [Hout Hn1].
  unfold postMessage, and_then, get.
  destruct (unserializable (the_heap st1) m0).
  - unfold type_error, and_then, alloc, throw. simpl. done.
  - cbv zeta. destruct (negb false && negb (ready (chans st1 c))); simpl.
    + split.
      * by rewrite fn_lookup_insert.
      * rewrite replies_pending, Hm, bool_decide_eq_true_2 by done.
        simpl. lia.
    + split; [done|]. rewrite replies_wire. simpl. rewrite Hm. lia.
Qed.

Lemma trans_error_tx `{Platform} c id n e m st :
  tx_in c id n TxOpen st →
  outcome (trans_error c id e m st)
          (λ _, tx_in c id n TxDone) (tx_in c id n TxLost).
Proof.
  intros Ho. unfold trans_error. unfold and_then at 1. unfold get.
  rewrite bool_decide_eq_true_2 by apply Ho. cbn [negb].
  apply close_and_reply; [|done]. unfold is_reply.
  by rewrite bool_decide_eq_true_2.
Qed.

Lemma trans_complete_tx `{Platform} c id n v st :
  tx_in c id n TxOpen st →
  outcome (trans_complete c id v st)
          (λ _, tx_in c id n TxDone) (tx_in c id n TxLost).
Proof.
  intros Ho. unfold trans_complete. unfold and_then at 1. unfold get.
  rewrite bool_decide_eq_true_2 by apply Ho. cbn [negb].
  apply close_and_reply; [|done]. unfold is_reply.
  by rewrite bool_decide_eq_true_2.
Qed.

Lemma trans_error_shut `{Platform} c id e m st :
  id ∉ inTbl (chans st c) → ∃ x, trans_error c id e m st = Exc x st.
Proof.
  intros Hn. unfold trans_error, and_then, get.
  rewrite bool_decide_eq_false_2 by done. by eexists.
Qed.

Lemma trans_complete_shut `{Platform} c id v st :
  id ∉ inTbl (chans st c) → ∃ x, trans_complete c id v st = Exc x st.
Proof.
  intros Hn. unfold trans_complete, and_then, get.
  rewrite bool_decide_eq_false_2 by done. by eexists.
Qed.

Lemma tx_live_no_reply c id n fl st st' :
  no_reply c id st st' → tx_live c id n fl st → tx_live c id n fl st'.
Proof.
  intros Hr [[Ht Hf]|[Ht Hf]]; [left|right];
    (split; [by eapply tx_in_no_reply|done]).
Qed.

Lemma tx_live_any c id n fl st : tx_live c id n fl st → tx_any c id n st.
Proof. intros [[Ht _]|[Ht _]]; by eexists. Qed.

Lemma tx_any_no_reply c id n st st' :
  no_reply c id st st' → tx_any c id n st → tx_any c id n st'.
Proof. intros Hr [s Hs]. exists s. by eapply tx_in_no_reply. Qed.

(** A step that neither closes nor answers the request. *)
Lemma outcome_no_reply {A} c id n fl (m : M A) st :
  respects (no_reply c id) m → tx_live c id n fl st →
  outcome (m st) (λ _, tx_live c id n fl) (tx_any c id n).
Proof.
  intros Hm Hl. specialize (Hm st). destruct (m st); simpl in *.
  - by eapply tx_live_no_reply.
  - by eapply tx_any_no_reply, tx_live_any.
  - done.
Qed.

(** [trans.error] and [trans.complete] while the handler runs. *)
Lemma terminal_tx {A} c id n fl (f : M A) st :
  (tx_in c id n TxOpen st →
   outcome (f st) (λ _, tx_in c id n TxDone) (tx_in c id n TxLost)) →
  (id ∉ inTbl (chans st c) → ∃ x, f st = Exc x st) →
  tx_live c id n fl st →
  outcome (f st) (λ _, tx_in c id n TxDone) (tx_any c id n).
Proof.
  intros Hopen Hshut [[Ht _]|[Ht _]].
  - eapply outcome_weaken; [by apply Hopen|done|]. intros st' Hs. by eexists.
  - destruct (Hshut (proj1 Ht)) as [x ->]. simpl. by exists TxDone.
Qed.

Lemma run_op_tx `{Platform} c id cbs n params op fl st :
  tx_live c id n fl st →
  outcome (run_op (TRequest c id cbs) params op fl st)
    (λ fl' st',
       tx_live c id n fl' st'
       ∧ (shouldDelayReturn fl' = true →
          shouldDelayReturn fl = true ∨ op = HDelayReturn (VBool true)))
    (tx_any c id n).
Proof.
  intros Hl. destruct op as [cbName v|path v|e m|v|d]; simpl.
  - eapply outcome_bind.
    + apply (outcome_no_reply c id n fl); [apply trans_invoke_no_reply|done].
    + intros ? st1 Hl1. unfold ret. simpl. auto.
  - eapply outcome_bind.
    + apply (outcome_no_reply c id n fl); [|done].
      apply (respects_get_path (no_reply c id)).
    + intros f st1 Hl1. eapply outcome_bind.
      * apply (outcome_no_reply c id n fl); [apply invoke_value_no_reply|done].
      * intros ? st2 Hl2. unfold ret. simpl. auto.
  - eapply outcome_bind.
    + apply (terminal_tx c id n fl); [apply trans_error_tx
                                     |apply trans_error_shut|done].
    + intros ? st1 Hd. unfold ret. simpl. split; [by right|auto].
  - eapply outcome_bind.
    + apply (terminal_tx c id n fl); [apply trans_complete_tx
                                     |apply trans_complete_shut|done].
    + intros ? st1 Hd. unfold ret. simpl. split; [by right|auto].
  - destruct d as [| |b| | | |]; unfold ret; simpl; try (split; [done|auto]).
    intros ->. by right.
Qed.

Lemma run_ops_tx `{Platform} c id cbs n params ops fl st :
  tx_live c id n fl st →
  outcome (run_ops (TRequest c id cbs) params ops fl st)
    (λ fl' st',
       tx_live c id n fl' st'
       ∧ (shouldDelayReturn fl' = true →
          shouldDelayReturn fl = true ∨ HDelayReturn (VBool true) ∈ ops))
    (tx_any c id n).
Proof.
  revert fl st. induction ops as [|op ops IH]; intros fl st Hl; simpl.
  - auto.
  - eapply outcome_bind; [by apply run_op_tx|].
    intros fl1 st1 [Hl1 Hd1]. eapply outcome_weaken; [by apply IH| |done].
    intros fl2 st2 [Hl2 Hd2]. split; [done|]. intros Hs.
    destruct (Hd2 Hs) as [Hs1|Hin]; [|right; by apply list_elem_of_further].
    destruct (Hd1 Hs1) as [?| ->]; [by left|right; apply list_elem_of_here].
Qed.

Lemma request_try_tx `{Platform} c id cbs n m h st :
  tx_in c id n TxOpen st →
  outcome (request_try c id cbs m h st)
    (λ _ st',
       tx_in c id n TxDone st'
       ∨ (tx_in c id n TxOpen st' ∧ HDelayReturn (VBool true) ∈ h_ops h))
    (tx_any c id n).
Proof.
  intros Ho. unfold request_try.
  assert (Hl : tx_live c id n (TransFlags false false) st) by (by left).
  eapply outcome_bind.
  { apply (outcome_no_reply c id n (TransFlags false false)); [|done].
    apply (respects_synth_all (no_reply c id)). }
  intros ? st1 Hl1. simpl in Hl1. unfold run_handler.
  eapply (outcome_bind _ _ _
            (λ p st', tx_live c id n p.2 st'
                      ∧ (shouldDelayReturn p.2 = true →
                         HDelayReturn (VBool true) ∈ h_ops h))).
  { eapply outcome_bind; [by apply run_ops_tx|].
    intros fl1 st2 [Hl2 Hd]. eapply outcome_bind.
    - by apply (outcome_no_reply c id n fl1), Hl2;
        apply (respects_finish (no_reply c id)).
    - intros r st3 Hl3. unfold ret. simpl. split; [done|].
      intros Hs. by destruct (Hd Hs). }
  intros [resp fl1] st2 [Hl2 Hd2]. simpl in Hl2, Hd2.
  destruct (shouldDelayReturn fl1) eqn:Es; simpl.
  - destruct Hl2 as [[Ht _]|[Ht _]]; [right|left]; auto.
  - destruct (completed fl1) eqn:Ec; simpl.
    + destruct Hl2 as [[_ ?]|[Ht _]]; [congruence|by left].
    + destruct Hl2 as [[Ht _]|[_ ?]]; [|congruence].
      eapply outcome_weaken; [by apply trans_complete_tx|auto|].
      intros st' Hs. by eexists.
Qed.

Lemma request_catch_tx `{Platform} c id n e st :
  tx_any c id n st →
  outcome (request_catch c id e st)
    (λ _, tx_in c id n TxDone) (tx_any c id n).
Proof.
  intros Ha. unfold request_catch. eapply outcome_bind.
  - apply (outcome_respects (no_reply c id) _ _ (tx_any c id n)).
    + apply (respects_normalize_exception (no_reply c id)).
    + intros st' Hr. by eapply tx_any_no_reply.
  - intros [error message] st1 [s Hs]. simpl. destruct s.
    + eapply outcome_weaken; [by apply trans_error_tx|done|].
      intros st' Hs'. by eexists.
    + destruct (trans_error_shut c id error message st1 (proj1 Hs)) as [x ->].
      by exists TxDone.
    + destruct (trans_error_shut c id error message st1 (proj1 Hs)) as [x ->].
      by exists TxLost.
Qed.

Lemma replies_set_inTbl c c' id f st :
  replies c id (set_chan c' (set_inTbl f) st) = replies c id st.
Proof.
  unfold replies. simpl. destruct (decide (c' = c)) as [->|Hc];
    [by rewrite fn_lookup_insert|by rewrite fn_lookup_insert_ne].
Qed.

Lemma on_request_tx `{Platform} c id meth m st :
  outcome (on_request c id meth m st)
    (λ _ st',
       tx_in c id (replies c id st) TxDone st'
       ∨ (tx_in c id (replies c id st) TxOpen st'
          ∧ ∃ h, regTbl (chans st c) !! meth = Some h
                 ∧ HDelayReturn (VBool true) ∈ h_ops h))
    (tx_any c id (replies c id st)).
Proof.
  set (n := replies c id st). unfold on_request.
  unfold and_then at 1. unfold modify.
  set (st1 := set_chan c _ st).
  assert (Ho : tx_in c id n TxOpen st1).
  { split.
    - unfold st1. simpl. rewrite fn_lookup_insert. simpl. set_solver.
    - apply replies_set_inTbl. }
  unfold and_then at 1. unfold get.
  replace (regTbl (chans st1 c)) with (regTbl (chans st c))
    by (unfold st1; simpl; by rewrite fn_lookup_insert).
  destruct (regTbl (chans st c) !! meth) as [h|] eqn:Eh.
  - unfold try_catch.
    pose proof (request_try_tx c id (default [] (m_callbacks m)) n m h st1 Ho)
      as Htry.
    destruct (request_try c id (default [] (m_callbacks m)) m h st1)
      as [[] st2|e st2|]; simpl in *.
    + destruct Htry as [Hd|[Hopen Hdelay]]; [by left|right; eauto].
    + eapply outcome_weaken; [by apply request_catch_tx|auto|done].
    + done.
  - eapply outcome_weaken; [by apply trans_error_tx|auto|].
    intros st' Hs. by eexists.
Qed.

Lemma run_op_notification_no_reply `{Platform} c id params op fl :
  respects (no_reply c id) (run_op TNotification params op fl).
Proof.
  pose proof (invoke_value_no_reply c id) as Hiv.
  pose proof (respects_get_path (no_reply c id)) as Hgp.
  pose proof (@respects_type_error (no_reply c id) _) as Hte.
  destruct op; simpl; respects_go.
Qed.

Lemma on_notification_no_reply `{Platform} c id c' meth m :
  respects (no_reply c id) (on_notification c' meth m).
Proof.
  pose proof (run_op_notification_no_reply c id) as Hop.
  pose proof (respects_finish (no_reply c id)) as Hfin.
  assert (Hops : ∀ params ops fl,
            respects (no_reply c id) (run_ops TNotification params ops fl)).
  { intros params ops. induction ops; intros fl; simpl; respects_go. }
  unfold on_notification, run_handler. respects_go.
Qed.



(** ** What the reply to a request is *)

Lemma unserializable_response `{Platform} h id v :
  unserializable h (Response id v) = stringify_throws h v.
Proof.
  unfold unserializable. simpl. by rewrite stringify_undef, !orb_false_l.
Qed.

Lemma trans_complete_open `{Platform} c id v st :
  id ∈ inTbl (chans st c) → serializable (the_heap st) v →
  ∃ st', trans_complete c id v st = Ok tt st'
         ∧ emitted c st st' (Response id v)
         ∧ inTbl (chans st' c) = inTbl (chans st c) ∖ {[id]}
         ∧ log st' = log st ∧ the_heap st' = the_heap st.
Proof.
  intros Hin Hv. unfold trans_complete. unfold and_then at 1. unfold get.
  rewrite bool_decide_eq_true_2 by done. cbn [negb].
  unfold and_then at 1. unfold modify.
  destruct (postMessage_emitted c (Response id v)
              (set_chan c (set_inTbl (λ t, t ∖ {[id]})) st))
    as (st' & -> & Hem & _ & Hh & _ & Hi & _ & Hl & _).
  { rewrite unserializable_response. by apply stringify_throws_false. }
  exists st'. split; [done|]. split; [|split; [|done]].
  - revert Hem. unfold emitted. simpl. by rewrite !fn_lookup_insert.
  - rewrite Hi. simpl. by rewrite fn_lookup_insert.
Qed.

Lemma emitted_after_open c id st st' m :
  emitted c (set_chan c (set_inTbl (λ t, {[id]} ∪ t)) st) st' m →
  emitted c st st' m.
Proof. unfold emitted. simpl. by rewrite !fn_lookup_insert. Qed.

Lemma on_request_unbound `{Platform} c id meth m st :
  regTbl (chans st c) !! meth = None →
  ∃ st',
    on_request c id meth m st = Ok tt st'
    ∧ emitted c st st'
        (ErrorResponse id (VStr "method_not_found")
           (VStr ("No method '" +:+ meth
                  +:+ "' was (yet) bound by the provider")))
    ∧ inTbl (chans st' c) = inTbl (chans st c) ∖ {[id]}
    ∧ log st' = log st ∧ the_heap st' = the_heap st.
Proof.
  intros Hnone. unfold on_request. unfold and_then at 1. unfold modify.
  set (st1 := set_chan c _ st). unfold and_then at 1. unfold get.
  replace (regTbl (chans st1 c)) with (regTbl (chans st c))
    by (unfold st1; simpl; by rewrite fn_lookup_insert).
  rewrite Hnone.
  destruct (trans_error_open c id (VStr "method_not_found")
              (VStr ("No method '" +:+ meth
                     +:+ "' was (yet) bound by the provider")) st1)
    as (st' & Ht & Hem & Hi & Hl & Hh).
  - unfold st1. simpl. rewrite fn_lookup_insert. simpl. set_solver.
  - by apply serializable_primitive.
  - by apply serializable_primitive.
  - exists st'. split; [done|]. split; [by apply (emitted_after_open c id)|].
    split; [|done]. rewrite Hi. unfold st1. simpl. rewrite fn_lookup_insert.
    simpl. set_solver.
Qed.

(** X6.  A request (a message with an id other than 0 and a method)
    for a method that no handler is bound to is answered with an
    ErrorResponse carrying ["method_not_found"] and the method's name;
    the dispatcher returns, no client code has run, and the request is
    not left in [inTbl].  The method is not one of the reserved names,
    which [build] binds, nor a name that [regTbl] inherits. *)
Theorem unbound_method_is_reported `{Platform} c origin meth m id st :
  m_id m = Some id → id ≠ 0 → meth ≠ "" → meth ∉ reserved_methods →
  meth ∉ inherited_names →
  regTbl (chans st c) !! meth = None →
  ∃ st',
    onMessage c origin (Some meth) m st = Ok tt st'
    ∧ emitted c st st'
        (ErrorResponse id (VStr "method_not_found")
           (VStr ("No method '" +:+ meth
                  +:+ "' was (yet) bound by the provider")))
    ∧ inTbl (chans st' c) = inTbl (chans st c) ∖ {[id]}
    ∧ log st' = log st ∧ the_heap st' = the_heap st.
Proof.
  intros Hi Hz Hm _ _ Hnone. rewrite (onMessage_request _ _ _ _ id) by done.
  by apply on_request_unbound.
Qed.

Lemma unbound_method_is_reported_witness :
  ∃ st',
    @onMessage sample_platform 0%nat "https://a.example" (Some "ping")
      (Request 7 "__default::ping" VUndef []) (sample_proc ∅ true)
    = Ok tt st'
    ∧ wire st'
      = [Posted 7%nat "https://a.example"
           (ErrorResponse 7 (VStr "method_not_found")
              (VStr "No method 'ping' was (yet) bound by the provider"))].
Proof.
  destruct (@unbound_method_is_reported sample_platform 0%nat
              "https://a.example" "ping"
              (Request 7 "__default::ping" VUndef []) 7 (sample_proc ∅ true))
    as (st' & Hr & Hem & _); [reflexivity|done|done| | |reflexivity|].
  - unfold reserved_methods. set_solver.
  - unfold inherited_names. set_solver.
  - exists st'. split; [done|]. by destruct Hem as [-> _].
Defined.

(** The request branch when the handler returns. *)
Lemma on_request_returns `{Platform} c id meth m h st st1 resp fl st2 :
  regTbl (chans st c) !! meth = Some h →
  synth_all c id (default [] (m_callbacks m)) (m_params m)
            (default [] (m_callbacks m))
            (set_chan c (set_inTbl (λ t, {[id]} ∪ t)) st) = Ok tt st1 →
  run_handler (TRequest c id (default [] (m_callbacks m))) (m_params m) h
              (TransFlags false false) st1 = Ok (resp, fl) st2 →
  on_request c id meth m st
  = try_catch
      (if negb (shouldDelayReturn fl) && negb (completed fl)
       then trans_complete c id resp else ret tt)
      (request_catch c id) st2.
Proof.
  intros Hh Hsyn Hrun. unfold on_request. unfold and_then at 1. unfold modify.
  unfold and_then at 1. unfold get. cbn beta iota.
  replace (regTbl (chans (set_chan c (set_inTbl (λ t, {[id]} ∪ t)) st) c))
    with (regTbl (chans st c)) by (simpl; by rewrite fn_lookup_insert).
  rewrite Hh. unfold try_catch, request_try. unfold and_then at 1.
  rewrite Hsyn. unfold and_then at 1. by rewrite Hrun.
Qed.

(** The transaction is open after a handler run that has not completed
    it. *)
Lemma run_handler_open `{Platform} c id cbs params h st resp fl st' :
  id ∈ inTbl (chans st c) →
  run_handler (TRequest c id cbs) params h (TransFlags false false) st
  = Ok (resp, fl) st' →
  completed fl = false → id ∈ inTbl (chans st' c).
Proof.
  intros Hin Hrun Hc. unfold run_handler in Hrun.
  pose proof (run_ops_tx c id cbs (replies c id st) params (h_ops h)
                (TransFlags false false) st) as Hops.
  unfold and_then at 1 in Hrun.
  destruct (run_ops (TRequest c id cbs) params (h_ops h)
              (TransFlags false false) st) as [fl1 st1|e st1|]; [|done|done].
  simpl in Hops. destruct Hops as [Hl _]; [by left|].
  pose proof (respects_finish (no_reply c id) (h_fin h) st1) as Hfin.
  unfold and_then in Hrun.
  destruct (finish (h_fin h) st1) as [r st3|e st3|]; [|done|done].
  unfold ret in Hrun. simplify_eq. simpl in Hfin.
  apply (tx_live_no_reply _ _ _ _ _ _ Hfin) in Hl.
  destruct Hl as [[[Ho _] _]|[_ ?]]; [done|congruence].
Qed.



(** ** [bind] and [unbind] *)

(** What [bind] and [unbind] tell the other side, when the channel
    publishes its methods: a notification if the channel is ready, an
    entry of the publish queue otherwise. *)
Lemma publish_step `{Platform} c (rname : string) act meth st :
  rname ≠ "" →
  ∃ st',
    (if cfg_publish (chans st c) && negb false then
       if ready (chans st c)
       then notify c (Some (NotifyArgs (VStr rname) (VStr meth)))
       else modify (set_chan c (set_publishQueue (λ q, q ++ [(act, meth)])))
     else ret tt) st = Ok tt st'
    ∧ regTbl (chans st' c) = regTbl (chans st c)
    ∧ (if cfg_publish (chans st c) then
         if ready (chans st c)
         then wire st'
              = wire st ++
                [Posted (cfg_window (chans st c)) (cfg_origin (chans st c))
                   (Notification (cfg_scope (chans st c) +:+ "::" +:+ rname)
                                 (VStr meth))]
              ∧ publishQueue (chans st' c) = publishQueue (chans st c)
         else publishQueue (chans st' c)
              = publishQueue (chans st c) ++ [(act, meth)]
              ∧ wire st' = wire st
       else publishQueue (chans st' c) = publishQueue (chans st c)
            ∧ wire st' = wire st).
Proof.
  intros Hr. destruct (cfg_publish (chans st c)) eqn:Ep; simpl.
  - destruct (ready (chans st c)) eqn:Er.
    + destruct (notify_emits c rname (VStr meth) st Hr) as (st' & Hn & Hem);
        [by apply serializable_primitive|].
      exists st'. split; [done|]. unfold emitted in Hem. rewrite Er in Hem.
      destruct Hem as [Hw Hq]. split; [|split; [done|]].
      * revert Hn. unfold notify. simpl.
        destruct (String.eqb_spec rname ""); [done|].
        unfold and_then, get, postMessage, and_then, get.
        destruct (unserializable _ _).
        { unfold type_error, and_then, alloc, throw. done. }
        rewrite Er. simpl. by intros [= <-].
      * revert Hn. unfold notify. simpl.
        destruct (String.eqb_spec rname ""); [done|].
        unfold and_then, get, postMessage, and_then, get.
        destruct (unserializable _ _).
        { unfold type_error, and_then, alloc, throw. done. }
        rewrite Er. simpl. by intros [= <-].
    + eexists. split; [done|]. simpl. by rewrite fn_lookup_insert.
  - by exists st.
Qed.

Lemma bind_ok `{Platform} c meth h doNotPublish st :
  meth ≠ "" → regTbl (chans st c) !! meth = None →
  ∃ st',
    bind c (VStr meth) (Some h) doNotPublish st = Ok tt st'
    ∧ regTbl (chans st' c) = <[meth := h]> (regTbl (chans st c))
    ∧ (if cfg_publish (chans st c) && negb doNotPublish then
         if ready (chans st c)
         then wire st'
              = wire st ++
                [Posted (cfg_window (chans st c)) (cfg_origin (chans st c))
                   (Notification (cfg_scope (chans st c) +:+ "::__bind")
                                 (VStr meth))]
              ∧ publishQueue (chans st' c) = publishQueue (chans st c)
         else publishQueue (chans st' c)
              = publishQueue (chans st c) ++ [(PBind, meth)]
              ∧ wire st' = wire st
       else publishQueue (chans st' c) = publishQueue (chans st c)
            ∧ wire st' = wire st).
Proof.
  intros Hne Hnone. unfold bind. destruct (String.eqb_spec meth ""); [done|].
  unfold and_then at 1. unfold get. rewrite Hnone.
  unfold and_then at 1. unfold modify.
  set (st1 := set_chan c (set_regTbl (insert meth h)) st).
  assert (Hcfg : cfg_publish (chans st1 c) = cfg_publish (chans st c)
                 ∧ ready (chans st1 c) = ready (chans st c)
                 ∧ cfg_window (chans st1 c) = cfg_window (chans st c)
                 ∧ cfg_origin (chans st1 c) = cfg_origin (chans st c)
                 ∧ cfg_scope (chans st1 c) = cfg_scope (chans st c)
                 ∧ publishQueue (chans st1 c) = publishQueue (chans st c)
                 ∧ regTbl (chans st1 c) = <[meth := h]> (regTbl (chans st c))).
  { unfold st1. simpl. by rewrite fn_lookup_insert. }
  destruct Hcfg as (Hp & Hr & Hw & Ho & Hs & Hq & Hreg).
  destruct doNotPublish; simpl.
  - rewrite andb_false_r. by exists st1.
  - destruct (publish_step c "__bind" PBind meth st1) as (st' & Hrun & Hreg' & Hpub);
      [done|].
    rewrite Hp, Hr, Hw, Ho, Hs, Hq in Hpub. rewrite Hp, Hr in Hrun.
    rewrite !andb_true_r in *. exists st'. split; [done|].
    split; [by rewrite Hreg'|done].
Qed.

Lemma unbind_ok `{Platform} c meth h doNotPublish st :
  regTbl (chans st c) !! meth = Some h →
  ∃ st',
    unbind c meth doNotPublish st = Ok true st'
    ∧ regTbl (chans st' c) = delete meth (regTbl (chans st c))
    ∧ (if cfg_publish (chans st c) && negb doNotPublish then
         if ready (chans st c)
         then wire st'
              = wire st ++
                [Posted (cfg_window (chans st c)) (cfg_origin (chans st c))
                   (Notification (cfg_scope (chans st c) +:+ "::__unbind")
                                 (VStr meth))]
              ∧ publishQueue (chans st' c) = publishQueue (chans st c)
         else publishQueue (chans st' c)
              = publishQueue (chans st c) ++ [(PUnbind, meth)]
              ∧ wire st' = wire st
       else publishQueue (chans st' c) = publishQueue (chans st c)
            ∧ wire st' = wire st).
Proof.
  intros Hsome. unfold unbind. unfold and_then at 1. unfold get. rewrite Hsome.
  unfold and_then at 1. unfold modify.
  set (st1 := set_chan c (set_regTbl (delete meth)) st).
  assert (Hcfg : cfg_publish (chans st1 c) = cfg_publish (chans st c)
                 ∧ ready (chans st1 c) = ready (chans st c)
                 ∧ cfg_window (chans st1 c) = cfg_window (chans st c)
                 ∧ cfg_origin (chans st1 c) = cfg_origin (chans st c)
                 ∧ cfg_scope (chans st1 c) = cfg_scope (chans st c)
                 ∧ publishQueue (chans st1 c) = publishQueue (chans st c)
                 ∧ regTbl (chans st1 c) = delete meth (regTbl (chans st c))).
  { unfold st1. simpl. by rewrite fn_lookup_insert. }
  destruct Hcfg as (Hp & Hr & Hw & Ho & Hs & Hq & Hreg).
  destruct doNotPublish; cbn [negb].
  - rewrite andb_false_r. exists st1. unfold and_then, ret. done.
  - destruct (publish_step c "__unbind" PUnbind meth st1)
      as (st' & Hrun & Hreg' & Hpub); [done|].
    rewrite Hp, Hr, Hw, Ho, Hs, Hq in Hpub. rewrite Hp, Hr in Hrun.
    rewrite !andb_true_r in *. exists st'. unfold and_then at 1.
    unfold modify in Hrun. rewrite Hrun. split; [done|]. split; [by rewrite Hreg'|done].
Qed.

(** X8.  [bind] never replaces a handler: on a method that is bound it
    throws and changes nothing.  On a free method it stores the handler,
    and [unbind] of that method then returns [true] and leaves [regTbl]
    as it was before the [bind]; [unbind] of a method that is not bound
    returns [false] and changes nothing.  A channel that publishes its
    methods tells the other side of each: by a [__bind] or [__unbind]
    notification when it is ready, by an entry of the publish queue
    when it is not.  A free method is a name that [regTbl] does not
    hold and that is neither reserved nor inherited. *)
Theorem bind_and_unbind `{Platform} :
  (∀ c meth h h' doNotPublish st,
     meth ≠ "" → regTbl (chans st c) !! meth = Some h' →
     bind c (VStr meth) (Some h) doNotPublish st
     = Exc (VStr ("method '" +:+ meth +:+ "' is already bound!")) st)
  ∧ (∀ c meth h doNotPublish st,
       meth ≠ "" → meth ∉ reserved_methods → meth ∉ inherited_names →
       regTbl (chans st c) !! meth = None →
       ∃ st',
         bind c (VStr meth) (Some h) doNotPublish st = Ok tt st'
         ∧ regTbl (chans st' c) = <[meth := h]> (regTbl (chans st c))
         ∧ (if cfg_publish (chans st c) && negb doNotPublish then
              if ready (chans st c)
              then wire st'
                   = wire st ++
                     [Posted (cfg_window (chans st c))
                        (cfg_origin (chans st c))
                        (Notification
                           (cfg_scope (chans st c) +:+ "::__bind")
                           (VStr meth))]
                   ∧ publishQueue (chans st' c) = publishQueue (chans st c)
              else publishQueue (chans st' c)
                   = publishQueue (chans st c) ++ [(PBind, meth)]
                   ∧ wire st' = wire st
            else publishQueue (chans st' c) = publishQueue (chans st c)
                 ∧ wire st' = wire st)
         ∧ ∀ doNotPublish', ∃ st'',
             unbind c meth doNotPublish' st' = Ok true st''
             ∧ regTbl (chans st'' c) = regTbl (chans st c))
  ∧ (∀ c meth h doNotPublish st,
       regTbl (chans st c) !! meth = Some h →
       ∃ st',
         unbind c meth doNotPublish st = Ok true st'
         ∧ regTbl (chans st' c) = delete meth (regTbl (chans st c))
         ∧ (if cfg_publish (chans st c) && negb doNotPublish then
              if ready (chans st c)
              then wire st'
                   = wire st ++
                     [Posted (cfg_window (chans st c))
                        (cfg_origin (chans st c))
                        (Notification
                           (cfg_scope (chans st c) +:+ "::__unbind")
                           (VStr meth))]
                   ∧ publishQueue (chans st' c) = publishQueue (chans st c)
              else publishQueue (chans st' c)
                   = publishQueue (chans st c) ++ [(PUnbind, meth)]
                   ∧ wire st' = wire st
            else publishQueue (chans st' c) = publishQueue (chans st c)
                 ∧ wire st' = wire st))
  ∧ (∀ c meth doNotPublish st,
       meth ∉ reserved_methods → meth ∉ inherited_names →
       regTbl (chans st c) !! meth = None →
       unbind c meth doNotPublish st = Ok false st).
Proof.
  refine (conj _ (conj _ (conj _ _))).
  - intros c meth h h' dnp st Hne Hsome. unfold bind.
    destruct (String.eqb_spec meth ""); [done|].
    unfold and_then, get. by rewrite Hsome.
  - intros c meth h dnp st Hne _ _ Hnone.
    destruct (bind_ok c meth h dnp st Hne Hnone) as (st' & Hb & Hreg & Hpub).
    exists st'. split; [done|]. split; [done|]. split; [done|]. intros dnp'.
    destruct (unbind_ok c meth h dnp' st') as (st'' & Hu & Hreg' & _).
    { rewrite Hreg. apply lookup_insert_eq. }
    exists st''. split; [done|]. rewrite Hreg', Hreg.
    by rewrite delete_insert_id.
  - intros c meth h dnp st. apply unbind_ok.
  - intros c meth dnp st _ _ Hnone. unfold unbind, and_then, get.
    by rewrite Hnone.
Qed.

Lemma bind_and_unbind_witness :
  let h := Handler [] (HReturn VUndef) in
  let ch := Chan 7%nat "https://a.example" "s" true ∅ ∅ ∅ true [] [] in
  let st := MkProc 0%nat 1 ∅ ∅ (<[0%nat := ch]> (λ _, chan_unbuilt)) 1 ∅
                   [] [] [] in
  ∃ st' st'',
    @bind sample_platform 0%nat (VStr "ping") (Some h) false st = Ok tt st'
    ∧ wire st' = [Posted 7%nat "https://a.example"
                    (Notification "s::__bind" (VStr "ping"))]
    ∧ @bind sample_platform 0%nat (VStr "ping") (Some h) false st'
      = Exc (VStr "method 'ping' is already bound!") st'
    ∧ @unbind sample_platform 0%nat "ping" true st' = Ok true st''
    ∧ regTbl (chans st'' 0%nat) = ∅.
Proof.
  intros h ch st.
  destruct (@bind_and_unbind sample_platform) as (Hdup & Hbind & _ & _).
  destruct (Hbind 0%nat "ping" h false st) as (st' & Hb & Hreg & Hpub & Hun);
    [done| | |reflexivity|].
  { unfold reserved_methods. set_solver. }
  { unfold inherited_names. set_solver. }
  destruct (Hun true) as (st'' & Hu & Hreg'').
  exists st', st''. split; [done|]. split; [apply Hpub|].
  split; [|done].
  apply (Hdup 0%nat "ping" h h false st'); [done|].
  rewrite Hreg. apply lookup_insert_eq.
Defined.

(** ** A [call] that throws *)

Lemma prune_props_pruned rec l path ks s :
  (∀ path v s, heap_pruned (w_heap s) (w_heap (walk_after s (rec path v s)))) →
  heap_pruned (w_heap s) (w_heap (walk_after s (prune_props rec l path ks s))).
Proof.
  intros Hrec. revert s. induction ks as [|k ks IH]; intros s; simpl;
    [apply heap_pruned_refl|].
  destruct (own_prop (w_heap s) l k) as [v|] eqn:Ev; [|apply IH].
  destruct (typeof v) eqn:Et; try apply IH.
  - specialize (Hrec (sub_path path k) v s).
    destruct (rec (sub_path path k) v s) as [sm|e sm|]; simpl in *;
      [|done|apply heap_pruned_refl].
    specialize (IH sm).
    destruct (prune_props rec l path ks sm) as [s'|e s'|]; simpl in *;
      [by eapply heap_pruned_trans|by eapply heap_pruned_trans
      |apply heap_pruned_refl].
  - destruct v; try done.
    set (s2 := Walk _ _ _ _). specialize (IH s2).
    assert (Hdel : heap_pruned (w_heap s) (w_heap s2))
      by (by eapply heap_pruned_delete).
    destruct (prune_props rec l path ks s2) as [s'|e s'|]; simpl in *;
      [by eapply heap_pruned_trans|by eapply heap_pruned_trans
      |apply heap_pruned_refl].
Qed.

(** Whatever the outcome of the walk, all it has done to the heap is
    delete function-valued properties. *)
Lemma pruneFunctions_pruned fuel path v s :
  heap_pruned (w_heap s) (w_heap (walk_after s (pruneFunctions fuel path v s))).
Proof.
  revert path v s. induction fuel as [|n IH]; intros path v s;
    [apply heap_pruned_refl|].
  simpl. case_bool_decide; [apply heap_pruned_refl|].
  destruct v as [| |b|z|x|f|l];
    try (destruct (truthy _); apply heap_pruned_refl).
  simpl.
  pose proof (prune_props_pruned (pruneFunctions n) l path
           (own_keys (w_heap s) l)
           (Walk (w_heap s) (w_seen s ++ [VRef l]) (w_callbacks s)
                 (w_callbackNames s)) IH) as Hp.
  by destruct (prune_props _ _ _ _ _).
Qed.

Lemma call_fails `{Platform} c m st e st' :
  call c m st = Exc e st' →
  st' = set_heap (λ _, the_heap st') st
  ∧ heap_pruned (the_heap st) (the_heap st')
  ∧ (e ≠ recursive_params_error → st' = st)
  ∧ e ∈ [VStr "missing arguments to call function";
         VStr "'method' argument to call must be string";
         VStr "'success' callback missing from call";
         recursive_params_error].
Proof.
  assert (Hsame : ∀ x, x ∈ [VStr "missing arguments to call function";
                            VStr "'method' argument to call must be string";
                            VStr "'success' callback missing from call";
                            recursive_params_error] →
                       @Exc unit x st = Exc e st' →
    st' = set_heap (λ _, the_heap st') st
    ∧ heap_pruned (the_heap st) (the_heap st')
    ∧ (e ≠ recursive_params_error → st' = st)
    ∧ e ∈ [VStr "missing arguments to call function";
           VStr "'method' argument to call must be string";
           VStr "'success' callback missing from call";
           recursive_params_error]).
  { intros x Hx [= <- <-]. split; [by destruct st|].
    split; [apply heap_pruned_refl|done]. }
  destruct m as [a|]; [|apply Hsame; set_solver]. unfold call.
  destruct (a_method a) as [| | | |method| |] eqn:Em;
    try (apply Hsame; set_solver).
  destruct (String.eqb_spec method "") as [->|Hne]; [apply Hsame; set_solver|].
  case_bool_decide as Hs; simpl; [|apply Hsame; set_solver].
  pose proof (pruneFunctions_pruned (walk_fuel (the_heap st)) "" (a_params a)
                (walk_init (the_heap st))) as Hp.
  destruct (pruneFunctions (walk_fuel (the_heap st)) "" (a_params a)
              (walk_init (the_heap st))) as [w|x w|] eqn:Ew.
  - destruct (call_ok c a method st w Em Hne Hs Ew) as (st2 & Hc & _).
    unfold call in Hc. rewrite Em in Hc.
    destruct (String.eqb_spec method ""); [done|].
    rewrite bool_decide_eq_true_2 in Hc by done. simpl in Hc.
    rewrite Hc. done.
  - unfold and_then at 1. unfold prune_params. rewrite Ew.
    intros [= <- <-]. simpl in Hp. split; [done|]. split; [done|].
    apply pruneFunctions_throws in Ew as ->. split; [done|set_solver].
  - unfold and_then at 1. unfold prune_params. by rewrite Ew.
Qed.



(** ** Names on the wire *)

(** X10.  A method name scoped by a channel is read back by the
    receiving side as that channel's scope and that method, provided
    the scope does not end in a colon and the method has no ["::"].
    (A scope ["a:"] is accepted by [build], and its names are read as
    scope ["a"]; a method with ["::"] is read as unscoped.) *)
Theorem scoped_name_round_trip `{Platform} cfg st c st' meth :
  build (Some cfg) st = Ok c st' →
  ¬ ends_with ":" (cfg_scope (chans st' c)) →
  ¬ Str.contains "::" meth →
  parse_method (scopeMethod (chans st' c) meth)
  = (Some (cfg_scope (chans st' c)), meth).
Proof.
  intros Hb Hend Hm. destruct (build_scope _ _ _ _ Hb) as (Hno & _).
  unfold parse_method, scopeMethod, Str.join2, Str.split.
  by rewrite scoped_split.
Qed.

Lemma scoped_name_round_trip_witness :
  ∃ st',
    @build sample_platform (Some unscoped_cfg) (initial_proc 0%nat 0 ∅)
    = Ok 0%nat st'
    ∧ parse_method (scopeMethod (chans st' 0%nat) "ping")
      = (Some "__default", "ping").
Proof.
  destruct (@build sample_platform (Some unscoped_cfg) (initial_proc 0%nat 0 ∅))
    as [c st'|e st'|] eqn:Eb; [|by vm_compute in Eb..].
  assert (Hc : c = 0%nat ∧ cfg_scope (chans st' c) = "__default")
    by (vm_compute in Eb; by simplify_eq).
  destruct Hc as [-> Hs]. exists st'. split; [done|]. rewrite <- Hs.
  apply (@scoped_name_round_trip sample_platform _ _ _ _ _ Eb).
  - rewrite Hs, <- ends_with_b_spec. by vm_compute.
  - rewrite <- occurs_spec. by vm_compute.
Defined.

Example scope_ending_in_colon_is_misread :
  check_scope (VStr "a:") = ret "a:"
  ∧ parse_method (Str.join2 "::" "a:" "b") = (Some "a", ":b").
Proof. by vm_compute. Qed.

Example method_with_separator_is_unscoped :
  parse_method (Str.join2 "::" "a" "x::y") = (None, "a::x::y").
Proof. by vm_compute. Qed.

(** ** Callbacks among the parameters of a [call] *)

Lemma sub_path_top k : sub_path "" k = k.
Proof. reflexivity. Qed.

Lemma sub_path_contains path k : path ≠ "" → Str.contains "/" (sub_path path k).
Proof.
  intros Hp. unfold sub_path. destruct (String.eqb_spec path ""); [done|].
  by exists path, k.
Qed.

Lemma sub_path_nonempty path k : path ≠ "" → sub_path path k ≠ "".
Proof.
  intros Hp. unfold sub_path. destruct path as [|a p]; [done|].
  by rewrite string_app_cons.
Qed.

Lemma prune_props_nested_callbacks rec l path ks s key :
  path ≠ "" → ¬ Str.contains "/" key →
  (∀ p v s, p ≠ "" →
     w_callbacks (walk_after s (rec p v s)) !! key = w_callbacks s !! key) →
  w_callbacks (walk_after s (prune_props rec l path ks s)) !! key
  = w_callbacks s !! key.
Proof.
  intros Hp Hk Hrec. revert s. induction ks as [|k ks IH]; intros s; simpl;
    [done|].
  destruct (own_prop (w_heap s) l k) as [v|] eqn:Ev; [|apply IH].
  destruct (typeof v) eqn:Et; try apply IH.
  - specialize (Hrec (sub_path path k) v s (sub_path_nonempty _ _ Hp)).
    destruct (rec (sub_path path k) v s) as [sm|e sm|]; simpl in *;
      [|done|done].
    specialize (IH sm).
    destruct (prune_props rec l path ks sm) as [s'|e s'|]; simpl in *;
      [congruence|congruence|done].
  - set (s2 := Walk _ _ _ _). specialize (IH s2).
    assert (Hs2 : w_callbacks s2 !! key = w_callbacks s !! key).
    { simpl. apply lookup_insert_ne. intros <-.
      by apply Hk, sub_path_contains. }
    destruct (prune_props rec l path ks s2) as [s'|e s'|]; simpl in *;
      [congruence|congruence|done].
Qed.

(** A walk below the top level only writes callback paths with a
    slash. *)
Lemma pruneFunctions_nested_callbacks fuel path v s key :
  path ≠ "" → ¬ Str.contains "/" key →
  w_callbacks (walk_after s (pruneFunctions fuel path v s)) !! key
  = w_callbacks s !! key.
Proof.
  intros Hp Hk. revert path v s Hp.
  induction fuel as [|n IH]; intros path v s Hp; [done|].
  simpl. case_bool_decide; [done|].
  destruct v as [| |b|z|x|f|l]; try (by destruct (truthy _)).
  simpl.
  pose proof (prune_props_nested_callbacks (pruneFunctions n) l path
           (own_keys (w_heap s) l)
           (Walk (w_heap s) (w_seen s ++ [VRef l]) (w_callbacks s)
                 (w_callbackNames s)) key Hp Hk) as Hq.
  destruct (prune_props _ _ _ _ _); simpl in *; [|..|done];
    apply Hq; intros; by apply IH.
Qed.

(** The loop over the properties of the parameter object itself. *)
Lemma toplevel_callbacks n l ks s s' key :
  prune_props (pruneFunctions n) l "" ks s = WDone s' →
  VRef l ∈ w_seen s → own_prop (w_heap s) l "" = None →
  ¬ Str.contains "/" key →
  w_callbacks s' !! key
  = match own_prop (w_heap s) l key with
    | Some (VFun f) =>
        if bool_decide (key ∈ ks) then Some (VFun f) else w_callbacks s !! key
    | _ => w_callbacks s !! key
    end.
Proof.
  intros Hrun Hseen Hnone Hk. revert s Hrun Hseen Hnone.
  induction ks as [|k ks IH]; intros s Hrun Hseen Hnone.
  - simpl in Hrun. injection Hrun as <-.
    by destruct (own_prop (w_heap s) l key) as [[]|].
  - assert (Hskip : prune_props (pruneFunctions n) l "" ks s = WDone s' →
              typeof (default VUndef (own_prop (w_heap s) l k)) ≠ TFunction →
              w_callbacks s' !! key
              = match own_prop (w_heap s) l key with
                | Some (VFun f) =>
                    if bool_decide (key ∈ k :: ks) then Some (VFun f)
                    else w_callbacks s !! key
                | _ => w_callbacks s !! key
                end).
    { intros Hr Hty. rewrite (IH s Hr Hseen Hnone).
      destruct (own_prop (w_heap s) l key) as [[| | | | |f|]|] eqn:Eo; try done.
      destruct (decide (key = k)) as [->|Hne].
      - by rewrite Eo in Hty.
      - rewrite (bool_decide_ext (key ∈ k :: ks) (key ∈ ks)) by set_solver. done. }
    simpl in Hrun.
    destruct (own_prop (w_heap s) l k) as [v|] eqn:Ev; [|by apply Hskip].
    destruct (typeof v) eqn:Et; try (apply Hskip; [done|simpl; congruence]).
    + (* a nested object *)
      rewrite sub_path_top in Hrun.
      assert (Hk0 : k ≠ "") by (intros ->; congruence).
      pose proof (pruneFunctions_nested_callbacks n k v s key Hk0 Hk) as Hcb.
      destruct (pruneFunctions n k v s) as [sm|e sm|] eqn:Er; [|done|done].
      simpl in Hcb. destruct (pruneFunctions_spec _ _ _ _ _ Er) as [new Hw].
      assert (Hl : w_heap sm !! l = w_heap s !! l).
      { apply (ws_frame _ _ _ _ Hw). intros Hin.
        by apply (ws_fresh _ _ _ _ Hw) in Hin. }
      assert (Hown : ∀ x, own_prop (w_heap sm) l x = own_prop (w_heap s) l x)
        by (intros; unfold own_prop; by rewrite Hl).
      rewrite (IH sm Hrun), Hown, Hcb.
      * destruct (own_prop (w_heap s) l key) as [[| | | | |f|]|] eqn:Eo;
          try done.
        destruct (decide (key = k)) as [->|Hne].
        -- rewrite Eo in Ev. by simplify_eq.
        -- rewrite (bool_decide_ext (key ∈ k :: ks) (key ∈ ks)) by set_solver. done.
      * rewrite (ws_seen _ _ _ _ Hw). set_solver.
      * by rewrite Hown.
    + (* a function *)
      rewrite sub_path_top in Hrun.
      rewrite (IH _ Hrun); simpl; [|done|].
      * rewrite own_prop_delete_prop.
        destruct (decide (key = k)) as [->|Hne].
        -- rewrite decide_True by done. rewrite lookup_insert, Ev.
           rewrite decide_True by done.
           destruct v; try done. by rewrite bool_decide_eq_true_2 by set_solver.
        -- rewrite decide_False by naive_solver.
           rewrite lookup_insert_ne by done.
           destruct (own_prop (w_heap s) l key) as [[| | | | |f|]|] eqn:Eo;
             try done.
           rewrite (bool_decide_ext (key ∈ k :: ks) (key ∈ ks)) by set_solver. done.
      * rewrite own_prop_delete_prop. by destruct (decide _).
Qed.

Lemma pruneFunctions_ref n path l s :
  VRef l ∉ w_seen s →
  pruneFunctions (S n) path (VRef l) s
  = prune_props (pruneFunctions n) l path (own_keys (w_heap s) l)
      (Walk (w_heap s) (w_seen s ++ [VRef l]) (w_callbacks s)
            (w_callbackNames s)).
Proof.
  intros Hs. cbn [pruneFunctions]. by rewrite bool_decide_eq_false_2.
Qed.

Lemma walked_callbacks h l w key f :
  pruneFunctions (walk_fuel h) "" (VRef l) (walk_init h) = WDone w →
  own_prop h l key = Some (VFun f) → own_prop h l "" = None →
  ¬ Str.contains "/" key →
  w_callbacks w !! key = Some (VFun f) ∧ own_prop (w_heap w) l key = None.
Proof.
  intros Hw Hf Hnone Hk. split.
  - unfold walk_fuel in Hw.
    rewrite pruneFunctions_ref in Hw by (simpl; set_solver).
    rewrite (toplevel_callbacks _ _ _ _ _ key Hw); simpl;
      [|set_solver|done|done].
    rewrite Hf. rewrite bool_decide_eq_true_2; [done|].
    by eapply own_prop_Some_key.
  - destruct (pruneFunctions_spec _ _ _ _ _ Hw) as [new Hs].
    assert (Hin : VRef l ∈ new).
    { apply (ws_reach _ _ _ _ Hs []). simpl. done. }
    pose proof (ws_clean _ _ _ _ Hs l Hin key) as Hcl.
    pose proof (hp_back _ _ (ws_heap _ _ _ _ Hs) l key) as Hb. simpl in Hb.
    destruct (own_prop (w_heap w) l key) as [v|]; [exfalso|done].
    specialize (Hb v eq_refl). rewrite Hf in Hb. injection Hb as <-.
    by apply (Hcl f).
Qed.

Lemma on_callback_known `{Platform} c id cb m e u st :
  outTbl (chans st c) !! id = Some e →
  oe_callbacks e !! cb = Some (VFun (FUser u)) →
  on_callback c id cb m st
  = match uf_throws u with
    | Some x => Exc (VStr x)
    | None => Ok tt
    end (invoked (SiteCallback id cb) (FUser u) [m_params m] st).
Proof.
  intros He Hcb. unfold on_callback. unfold and_then at 1. unfold get.
  rewrite He, Hcb. simpl. unfold and_then, modify, invoked.
  by destruct (uf_throws u).
Qed.



(** * Properties of the channel object in full *)

(** ** [s_removeBoundChan] *)

Lemma remove_win_cons_hit w b r :
  b_win b = w →
  remove_win w (b :: r)
  = match r with [] => [] | b' :: r' => b' :: remove_win w r' end.
Proof. intros Hb. simpl. by rewrite bool_decide_eq_true_2. Qed.

Lemma remove_win_cons_miss w b r :
  b_win b ≠ w → remove_win w (b :: r) = b :: remove_win w r.
Proof. intros Hb. simpl. by rewrite bool_decide_eq_false_2. Qed.

(** A property of every list that holds of the empty list, of the
    one-element lists, and of [b :: b' :: r] when it holds of
    [b' :: r] and of [r]. *)
Lemma list_pair_ind {A} (P : list A → Prop) :
  P [] → (∀ b, P [b]) →
  (∀ b b' r, P r → P (b' :: r) → P (b :: b' :: r)) →
  ∀ l, P l.
Proof.
  intros H0 H1 H2 l. cut (P l ∧ ∀ b, P (b :: l)); [by intros []|].
  induction l as [|a l [IH1 IH2]]; [by split|].
  split; [apply IH2|]. intros b. by apply H2.
Qed.

(** The entries of another window are kept, in their order. *)
Lemma remove_win_other w w' arr :
  w' ≠ w →
  filter (λ b, b_win b = w') (remove_win w arr)
  = filter (λ b, b_win b = w') arr.
Proof.
  intros Hw. induction arr as [|b|b b' r IH1 IH2] using list_pair_ind.
  - done.
  - simpl. case_bool_decide as Hb; [|done].
    rewrite filter_cons_False by congruence. done.
  - destruct (decide (b_win b = w)) as [Hb|Hb].
    + rewrite (remove_win_cons_hit _ _ _ Hb).
      rewrite (filter_cons_False _ b) by congruence.
      by rewrite !filter_cons, IH1.
    + rewrite (remove_win_cons_miss _ _ _ Hb). by rewrite !(filter_cons _ b), IH2.
Qed.

Lemma entries_in_cons arr b w :
  entries_in (b :: arr) w
  = ((if bool_decide (b_win b = w) then 1 else 0) + entries_in arr w)%nat.
Proof.
  unfold entries_in. rewrite filter_cons.
  destruct (decide (b_win b = w)) as [Hb|Hb].
  - by rewrite bool_decide_eq_true_2.
  - by rewrite bool_decide_eq_false_2.
Qed.

Lemma entries_in_others w arr :
  entries_in (filter (λ b, b_win b ≠ w) arr) w = 0%nat.
Proof.
  unfold entries_in. rewrite list_filter_filter.
  apply length_zero_iff_nil. induction arr as [|b r IH]; [done|].
  by rewrite filter_cons_False by naive_solver.
Qed.

(** Where the window has one entry at most, that entry is removed and
    nothing else. *)
Lemma remove_win_once w arr :
  (entries_in arr w ≤ 1)%nat →
  remove_win w arr = filter (λ b, b_win b ≠ w) arr.
Proof.
  induction arr as [|b|b b' r IH1 IH2] using list_pair_ind.
  - done.
  - intros _. simpl. case_bool_decide as Hb.
    + by rewrite filter_cons_False by naive_solver.
    + by rewrite filter_cons_True.
  - rewrite entries_in_cons. intros Hle.
    destruct (decide (b_win b = w)) as [Hb|Hb].
    + rewrite bool_decide_eq_true_2 in Hle by done.
      rewrite (remove_win_cons_hit _ _ _ Hb).
      rewrite (filter_cons_False _ b) by naive_solver.
      rewrite entries_in_cons in Hle.
      case_bool_decide as Hb'; [simpl in Hle; lia|].
      rewrite filter_cons_True by done. f_equal. apply IH1. simpl in Hle. lia.
    + rewrite bool_decide_eq_false_2 in Hle by done.
      rewrite (remove_win_cons_miss _ _ _ Hb), filter_cons_True by done.
      f_equal. by apply IH2.
Qed.

(** Of the entries of the window, at most every second one is left. *)
Lemma remove_win_half w arr :
  (2 * entries_in (remove_win w arr) w ≤ entries_in arr w)%nat.
Proof.
  induction arr as [|b|b b' r IH1 IH2] using list_pair_ind.
  - done.
  - destruct (decide (b_win b = w)) as [Hb|Hb].
    + rewrite (remove_win_cons_hit _ _ _ Hb). unfold entries_in. simpl. lia.
    + rewrite (remove_win_cons_miss _ _ _ Hb), entries_in_cons.
      rewrite (bool_decide_eq_false_2 _ Hb). unfold entries_in. simpl. lia.
  - destruct (decide (b_win b = w)) as [Hb|Hb].
    + rewrite (remove_win_cons_hit _ _ _ Hb), !entries_in_cons.
      rewrite (bool_decide_eq_true_2 _ Hb).
      clear IH2. destruct (bool_decide (b_win b' = w)); lia.
    + rewrite (remove_win_cons_miss _ _ _ Hb), (entries_in_cons _ b).
      rewrite (entries_in_cons (b' :: r) b).
      rewrite (bool_decide_eq_false_2 _ Hb). lia.
Qed.

(** The bucket of [(o, s)], empty if there is none. *)
Lemma bucket_after_remove reg o scope scopes arr' o' s' :
  reg !! o = Some scopes →
  default [] (bucket (<[o := match arr' with
                             | [] => delete scope scopes
                             | _ => <[scope := arr']> scopes
                             end]> reg) o' s')
  = if bool_decide (o' = o ∧ s' = scope) then arr'
    else default [] (bucket reg o' s').
Proof.
  intros Hreg. unfold bucket.
  destruct (decide (o' = o)) as [->|Ho].
  - rewrite lookup_insert_eq, Hreg. simpl.
    destruct (decide (s' = scope)) as [->|Hs].
    + rewrite bool_decide_eq_true_2 by done.
      destruct arr'; [by rewrite lookup_delete_eq|by rewrite lookup_insert_eq].
    + rewrite bool_decide_eq_false_2 by naive_solver.
      destruct arr'; [by rewrite lookup_delete_ne|by rewrite lookup_insert_ne].
  - rewrite lookup_insert_ne by done.
    by rewrite bool_decide_eq_false_2 by naive_solver.
Qed.

Lemma s_removeBoundChan_found `{Platform} w origin scope arr st :
  bucket (s_boundChans st) (default "null" origin) scope = Some arr →
  ∃ st',
    s_removeBoundChan w origin scope st = Ok tt st'
    ∧ st' = set_boundChans (λ _, s_boundChans st') st
    ∧ ∀ o' s',
        default [] (bucket (s_boundChans st') o' s')
        = if bool_decide (o' = default "null" origin ∧ s' = scope)
          then remove_win w arr
          else default [] (bucket (s_boundChans st) o' s').
Proof.
  unfold bucket. intros Hb. unfold s_removeBoundChan, and_then, get.
  destruct (s_boundChans st !! default "null" origin) as [scopes|] eqn:Er;
    [|done].
  simpl in Hb. rewrite Hb. unfold modify. eexists. split; [done|].
  split; [by destruct st|]. intros o' s'. simpl.
  by apply bucket_after_remove.
Qed.

Lemma s_removeBoundChan_missing `{Platform} w origin scope st :
  bucket (s_boundChans st) (default "null" origin) scope = None →
  ∃ l text,
    s_removeBoundChan w origin scope st
    = Exc (VRef l)
          (set_heap (insert l (Obj (CError "TypeError" (VStr text)) [])) st).
Proof.
  unfold bucket. intros Hb. unfold s_removeBoundChan, and_then at 1. unfold get.
  destruct (s_boundChans st !! default "null" origin) as [scopes|] eqn:Er.
  - simpl in Hb. rewrite Hb. by eexists _, _.
  - by eexists _, _.
Qed.

Lemma s_removeBoundChan_inv `{Platform} w origin scope st st' :
  s_removeBoundChan w origin scope st = Ok tt st' →
  ∃ arr,
    bucket (s_boundChans st) (default "null" origin) scope = Some arr
    ∧ st' = set_boundChans (λ _, s_boundChans st') st
    ∧ ∀ o' s',
        default [] (bucket (s_boundChans st') o' s')
        = if bool_decide (o' = default "null" origin ∧ s' = scope)
          then remove_win w arr
          else default [] (bucket (s_boundChans st) o' s').
Proof.
  intros Hr.
  destruct (bucket (s_boundChans st) (default "null" origin) scope)
    as [arr|] eqn:Eb.
  - destruct (s_removeBoundChan_found w origin scope arr st Eb)
      as (st2 & Hrun & Hst & Hbk).
    rewrite Hr in Hrun. injection Hrun as <-. by exists arr.
  - destruct (s_removeBoundChan_missing w origin scope st Eb) as (l & t & Hx).
    by rewrite Hr in Hx.
Qed.

(** X12.  [s_removeBoundChan] throws a [TypeError], and changes
    nothing, when the registry has no bucket for the origin and the
    scope.  Otherwise it returns, and only that bucket has changed: the
    entries of other windows are all kept, in their order; of the
    entries of the given window at most every second one is left, and
    none if there was only one.  The origin and the scope are not names
    that the registry inherits. *)
Theorem removal_from_the_registry `{Platform} w origin scope st :
  default "null" origin ∉ inherited_names → scope ∉ inherited_names →
  match bucket (s_boundChans st) (default "null" origin) scope with
  | None =>
      ∃ l text,
        s_removeBoundChan w origin scope st
        = Exc (VRef l)
              (set_heap (insert l (Obj (CError "TypeError" (VStr text)) []))
                        st)
  | Some arr =>
      ∃ st',
        s_removeBoundChan w origin scope st = Ok tt st'
        ∧ st' = set_boundChans (λ _, s_boundChans st') st
        ∧ (∀ o' s', ¬ (o' = default "null" origin ∧ s' = scope) →
             default [] (bucket (s_boundChans st') o' s')
             = default [] (bucket (s_boundChans st) o' s'))
        ∧ (∀ w', w' ≠ w →
             filter (λ b, b_win b = w')
                    (default [] (bucket (s_boundChans st')
                                        (default "null" origin) scope))
             = filter (λ b, b_win b = w') arr)
        ∧ (2 * entries_at (s_boundChans st') (default "null" origin) scope w
           ≤ entries_in arr w)%nat
        ∧ ((entries_in arr w ≤ 1)%nat →
           entries_at (s_boundChans st') (default "null" origin) scope w
           = 0%nat)
  end.
Proof.
  intros _ _. destruct (bucket _ _ _) as [arr|] eqn:Eb;
    [|by apply s_removeBoundChan_missing].
  destruct (s_removeBoundChan_found w origin scope arr st Eb)
    as (st' & Hrun & Hst & Hbk).
  exists st'. split; [done|]. split; [done|].
  assert (Hsame : default [] (bucket (s_boundChans st')
                                (default "null" origin) scope)
                  = remove_win w arr).
  { rewrite Hbk. by rewrite bool_decide_eq_true_2. }
  repeat split.
  - intros o' s' Hne. rewrite Hbk. by rewrite bool_decide_eq_false_2.
  - intros w' Hw. rewrite Hsame. by apply remove_win_other.
  - unfold entries_at. rewrite Hsame. apply remove_win_half.
  - intros Hle. unfold entries_at. rewrite Hsame, remove_win_once by done.
    apply entries_in_others.
Qed.

Lemma removal_from_the_registry_witness :
  let st := state_after (initial_proc 0%nat 0 ∅)
              (@build sample_platform (Some unscoped_cfg)
                 (initial_proc 0%nat 0 ∅)) in
  entries_at (s_boundChans st) "https://a.example" "__default" 7%nat = 1%nat
  ∧ ∃ st',
      s_removeBoundChan 7%nat (Some "https://a.example") "__default" st
      = Ok tt st'
      ∧ entries_at (s_boundChans st') "https://a.example" "__default" 7%nat
        = 0%nat.
Proof.
  intros st. split; [by vm_compute|].
  pose proof (@removal_from_the_registry sample_platform 7%nat
                (Some "https://a.example") "__default" st) as Hr.
  destruct (bucket (s_boundChans st) (default "null" (Some "https://a.example"))
                   "__default") as [arr|] eqn:Eb; [|by vm_compute in Eb].
  destruct Hr as (st' & Hrun & _ & _ & _ & _ & Hz).
  - unfold inherited_names. cbn. set_solver.
  - unfold inherited_names. set_solver.
  - exists st'. split; [done|]. apply Hz. vm_compute in Eb.
    injection Eb as <-. by vm_compute.
Defined.

(** ** What the object code maintains *)

Lemma keepsP_ret Q {A} (a : A) : keepsP Q (retP a).
Proof. by intros pg. Qed.

Lemma keepsP_throw Q {A} e : keepsP Q (@throwP A e).
Proof. by intros pg. Qed.

Lemma keepsP_get Q : keepsP Q getP.
Proof. by intros pg. Qed.

Lemma keepsP_modify Q f : (∀ pg, Q pg → Q (f pg)) → keepsP Q (modifyP f).
Proof. intros Hf pg. apply Hf. Qed.

Lemma keepsP_bind Q {A B} (m : MP A) (k : A → MP B) :
  keepsP Q m → (∀ a, keepsP Q (k a)) → keepsP Q (bindP m k).
Proof.
  intros Hm Hk pg HQ. unfold bindP. specialize (Hm pg HQ).
  destruct (m pg) as [a pg'|e pg'|]; simpl in *; [|done|done].
  specialize (Hk a pg' Hm). by destruct (k a pg').
Qed.

Lemma keepsP_try_catch Q {A} (m : MP A) (k : value → MP A) :
  keepsP Q m → (∀ e, keepsP Q (k e)) → keepsP Q (try_catchP m k).
Proof.
  intros Hm Hk pg HQ. unfold try_catchP. specialize (Hm pg HQ).
  destruct (m pg) as [a pg'|e pg'|]; simpl in *; [done| |done].
  specialize (Hk e pg' Hm). by destruct (k e pg').
Qed.

Lemma keepsP_at Q {A} (m : MP A) pg :
  keepsP Q m → Q pg → Q (page_after pg (m pg)).
Proof. intros Hm. apply Hm. Qed.

(** Reading the page first. *)
Lemma keepsP_read Q {B} (k : Page → MP B) :
  (∀ pg, Q pg → Q (page_after pg (k pg pg))) → keepsP Q (bindP getP k).
Proof. intros Hk pg HQ. unfold bindP, getP. by apply Hk. Qed.

Lemma keepsP_lift P E {A} (m : M A) : keeps P m → keepsP (both P E) (lift m).
Proof.
  intros Hm pg [HE HP]. unfold lift. specialize (Hm (proc pg) HP).
  by destruct (m (proc pg)) as [a st|e st|].
Qed.

Lemma keeps_ret P {A} (a : A) : keeps P (ret a).
Proof. by intros st. Qed.

Lemma keeps_get P : keeps P get.
Proof. by intros st. Qed.

(** *** The two ways in which [P] is kept *)

Lemma kept_of_quiet `{Platform} P :
  quiet_closed P → (∀ c id m, keeps P (on_response c id m)) → Kept P.
Proof.
  intros Hq Hr. split; intros; [..|by apply keeps_onMessage];
    (apply keeps_quiet; [done|]).
  - apply quiet_type_error.
  - apply quiet_get_prop.
  - apply quiet_alloc.
  - apply quiet_postMessage.
  - apply quiet_notify.
  - apply quiet_modify. quiet_fields.
  - apply quiet_modify. quiet_fields.
  - apply quiet_modify. quiet_fields.
  - apply quiet_unbind.
  - apply quiet_bind_method.
  - apply quiet_synth_all.
  - apply quiet_trans_complete.
  - apply quiet_request_catch.
Qed.

Lemma keeps_respects R P {A} (m : M A) :
  (∀ st st', R st st' → P st → P st') → respects R m → keeps P m.
Proof. intros HP Hm st Hst. by eapply HP. Qed.

Lemma kept_of_stable `{Platform} R `{!Stable R} P :
  (∀ st st', R st st' → P st → P st') →
  (∀ c f st, R st (set_chan c (set_publishQueue f) st)) →
  (∀ c f st, R st (set_chan c (set_pendingQueue f) st)) →
  Kept P.
Proof.
  intros HP Hpub Hpend.
  split; intros; (eapply keeps_respects; [exact HP|]).
  - exact (respects_type_error R _).
  - exact (respects_get_prop R _ _).
  - exact (respects_alloc R _).
  - exact (respects_postMessage R _ _ _).
  - exact (respects_notify R _ _).
  - intros st. apply Hpub.
  - intros st. apply Hpend.
  - intros st. apply pas_inTbl.
  - exact (respects_unbind R _ _ _).
  - exact (respects_bind_method R _ _ _ _).
  - exact (respects_synth_all R _ _ _ _ _).
  - exact (respects_trans_complete R _ _ _).
  - exact (respects_request_catch R _ _ _).
  - exact (respects_onMessage R _ _ _ _).
Qed.

(** *** The object code *)

Section KeptCode.
Context `{Platform} `{Engine}.
Context (P : Proc → Prop) (E : (chanref → chan_ext) → Prop) `{!Kept P}.

Local Notation Q := (both P E).

Lemma keepsP_ext c f :
  (∀ e, E e → E (<[c := f (e c)]> e)) → keepsP Q (modifyP (set_ext c f)).
Proof. intros Hf. apply keepsP_modify. intros pg [HE HP]. split; [by apply Hf|done]. Qed.

Lemma keepsP_ready_due f : keepsP Q (modifyP (set_ready_due f)).
Proof. apply keepsP_modify. by intros pg. Qed.

Lemma keepsP_observed f : keepsP Q (modifyP (set_observed f)).
Proof. apply keepsP_modify. by intros pg. Qed.

Lemma keeps_toString v : keeps P (toString v).
Proof.
  unfold toString. destruct v; try apply kept_type_error;
    (apply keeps_bind; [apply keeps_get|intros; apply keeps_ret]).
Qed.

Lemma keeps_get_length v : keeps P (get_length v).
Proof.
  unfold get_length. destruct v as [| | | | |[]|]; try apply kept_get_prop;
    apply keeps_ret.
Qed.

Lemma keeps_get_item v i : keeps P (get_item v i).
Proof.
  unfold get_item. destruct v; try apply kept_get_prop; apply keeps_ret.
Qed.

Lemma keeps_alloc_all os : keeps P (alloc_all os).
Proof.
  induction os as [|o r IH]; simpl; [apply keeps_ret|].
  apply keeps_bind; [apply kept_alloc|intros v].
  apply keeps_bind; [apply IH|intros vs]. apply keeps_ret.
Qed.

Lemma keeps_publish_message type q : keeps P (publish_message type q).
Proof.
  unfold publish_message. apply keeps_bind; [apply keeps_alloc_all|intros].
  apply keeps_bind; [apply kept_alloc|intros]. apply kept_alloc.
Qed.

Lemma keeps_flush fuel c : keeps P (flush fuel c).
Proof.
  induction fuel as [|n IH]; simpl.
  - apply keeps_bind; [apply keeps_get|intros st].
    destruct (pendingQueue _); [apply keeps_ret|by intros st'].
  - apply keeps_bind; [apply keeps_get|intros st].
    destruct (pendingQueue _) as [|m r]; [apply keeps_ret|].
    apply keeps_bind; [apply kept_pendingQueue|intros _].
    apply keeps_bind; [apply kept_postMessage|intros _]. apply IH.
Qed.

Lemma keepsP_ready_post c : keepsP Q (ready_post c).
Proof.
  unfold ready_post. apply keepsP_read. intros pg HQ.
  destruct (0 <? _)%nat; [|done].
  apply keepsP_at; [|done]. apply keepsP_bind.
  - apply keepsP_lift, keeps_publish_message.
  - intros p. apply keepsP_lift, kept_postMessage.
Qed.

Lemma keepsP_createStubs c l : tolerant P E c → keepsP Q (createStubs c l).
Proof.
  intros Ht. induction l as [|v r IH]; simpl; [apply keepsP_ret|].
  apply keepsP_bind; [apply keepsP_lift, keeps_toString|intros method].
  apply keepsP_bind; [|by intros _].
  apply keepsP_ext. intros e. apply (tol_ext _ _ _ Ht).
Qed.

Lemma keepsP_delete_stub c k : tolerant P E c → keepsP Q (delete_stub c k).
Proof.
  intros Ht. unfold delete_stub. apply keepsP_read. intros pg.
  apply keepsP_ext. intros e. apply (tol_ext _ _ _ Ht).
Qed.

Lemma keepsP_publish_loop fuel c params i :
  tolerant P E c → keepsP Q (publish_loop fuel c params i).
Proof.
  intros Ht. revert i. induction fuel as [|n IH]; intros i; cbn [publish_loop].
  - apply keepsP_bind; [apply keepsP_lift, kept_get_prop|intros publish].
    apply keepsP_bind; [apply keepsP_lift, keeps_get_length|intros len].
    apply keepsP_read. intros pg HQ. by destruct (less_than _ _ _).
  - apply keepsP_bind; [apply keepsP_lift, kept_get_prop|intros publish].
    apply keepsP_bind; [apply keepsP_lift, keeps_get_length|intros len].
    apply keepsP_read. intros pg HQ. destruct (less_than _ _ _); [|done].
    apply keepsP_at; [|done].
    apply keepsP_bind; [apply keepsP_lift, keeps_get_item|intros item].
    apply keepsP_bind; [apply keepsP_lift, kept_get_prop|intros action].
    apply keepsP_bind; [apply keepsP_lift, kept_get_prop|intros method].
    apply keepsP_bind; [|intros _; apply IH].
    case_bool_decide; [by apply keepsP_createStubs|by apply keepsP_delete_stub].
Qed.

Lemma keepsP_unbind' c method d : guarded P E c → keepsP Q (unbind' c method d).
Proof.
  intros Hg. unfold unbind'. apply keepsP_read. intros pg HQ.
  destruct (natives (ext pg c) !! method) as [n|] eqn:En;
    [|by apply keepsP_at; [apply keepsP_lift, kept_unbind|]].
  destruct Hg as [Ht|Hno].
  - apply keepsP_at; [|done].
    apply keepsP_bind;
      [apply keepsP_ext; intros e; apply (tol_ext _ _ _ Ht)|intros _].
    apply keepsP_bind; [|intros _; apply keepsP_ret].
    destruct (cfg_publish _ && negb d); [|apply keepsP_ret].
    destruct (ready _).
    + apply keepsP_lift, kept_notify.
    + apply keepsP_lift, kept_publishQueue.
  - destruct HQ as [HE HP]. rewrite (Hno _ HE) in En. by rewrite lookup_empty in En.
Qed.

Lemma keepsP_bind' c method cb d : keepsP Q (bind' c method cb d).
Proof.
  unfold bind'. apply keepsP_read. intros pg HQ.
  destruct method; try (by apply keepsP_at; [apply keepsP_lift, kept_bind|]).
  destruct cb; [|by apply keepsP_at; [apply keepsP_lift, kept_bind|]].
  destruct (_ && _); [done|by apply keepsP_at; [apply keepsP_lift, kept_bind|]].
Qed.

Lemma keepsP_observe c u : keepsP Q (observe c u).
Proof.
  unfold observe. apply keepsP_bind; [apply keepsP_observed|intros _].
  destruct (uf_throws u); [apply keepsP_throw|apply keepsP_ret].
Qed.

Lemma keepsP_onReady c params : tolerant P E c → keepsP Q (onReady c params).
Proof.
  intros Ht. unfold onReady. apply keepsP_read. intros pg HQ.
  destruct (_ && _); [done|]. apply keepsP_at; [|done].
  apply keepsP_bind; [apply keepsP_lift, (tol_ready _ _ _ Ht)|intros _].
  apply keepsP_bind.
  { destruct (_ <? _)%nat; [|apply keepsP_ret].
    apply keepsP_bind; [apply keepsP_lift, kept_get_prop|intros type].
    apply keepsP_ext. intros e. apply (tol_ext _ _ _ Ht). }
  intros _.
  apply keepsP_bind; [apply keepsP_lift, kept_get_prop|intros type].
  apply keepsP_bind.
  { case_bool_decide; [|apply keepsP_ret].
    apply keepsP_bind; [apply keepsP_lift, keeps_publish_message|intros p].
    apply keepsP_lift, kept_notify. }
  intros _. apply keepsP_read. intros pg1 HQ1. apply keepsP_at; [|done].
  apply keepsP_bind; [by apply keepsP_publish_loop|intros _].
  apply keepsP_bind.
  { destruct (negb _); [|apply keepsP_ret].
    apply keepsP_bind; [apply keepsP_unbind'; by left|intros _].
    apply keepsP_ret. }
  intros _. apply keepsP_read. intros pg2 HQ2. apply keepsP_at; [|done].
  apply keepsP_bind; [apply keepsP_lift, keeps_flush|intros _].
  apply keepsP_bind; [apply keepsP_lift, kept_publishQueue|intros _].
  destruct (cfg_onReady _); [apply keepsP_observe|apply keepsP_ret].
Qed.

Lemma keepsP_run_native c n params :
  tolerant P E c → keepsP Q (run_native c n params).
Proof.
  intros Ht. destruct n; simpl.
  - by apply keepsP_onReady.
  - by apply keepsP_createStubs.
  - by apply keepsP_delete_stub.
Qed.

Lemma keepsP_onMessage' c origin method m :
  guarded P E c → keepsP Q (onMessage' c origin method m).
Proof.
  intros Hg. unfold onMessage'. apply keepsP_read. intros pg HQ.
  destruct (if truthy_str method then _ else _) as [n|] eqn:En;
    [|by apply keepsP_at; [apply keepsP_lift, kept_onMessage|]].
  destruct Hg as [Ht|Hno].
  - clear En.
    destruct (truthy_id (m_id m));
      [|by apply keepsP_at; [apply keepsP_run_native|]].
    apply keepsP_at; [|done].
    apply keepsP_bind; [apply keepsP_lift, kept_inTbl|intros _].
    apply keepsP_try_catch; [|intros e; apply keepsP_lift, kept_request_catch].
    apply keepsP_bind; [apply keepsP_lift, kept_synth_all|intros _].
    apply keepsP_bind; [by apply keepsP_run_native|intros _].
    apply keepsP_lift, kept_trans_complete.
  - destruct HQ as [HE HP]. destruct (truthy_str method); [|done].
    rewrite (Hno _ HE) in En. by rewrite lookup_empty in En.
Qed.

Lemma keepsP_deliver' w arr o meth m :
  (∀ c, guarded P E c) → keepsP Q (deliver' w arr o meth m).
Proof.
  intros Hg. induction arr as [|b r IH]; simpl; [apply keepsP_ret|].
  case_bool_decide; [|done].
  apply keepsP_bind; [by apply keepsP_onMessage'|intros _; apply keepsP_ret].
Qed.

Lemma keepsP_s_onMessage' e :
  (∀ c, guarded P E c) → keepsP Q (s_onMessage' e).
Proof.
  intros Hg. unfold s_onMessage'. destruct (e_data e) as [m|]; [|apply keepsP_ret].
  destruct (match m_method m with Some _ => _ | None => _ end) as [s [meth|]].
  - apply keepsP_read. intros pg HQ. apply keepsP_at; [|done].
    apply keepsP_bind.
    { destruct (bucket _ _ _); [by apply keepsP_deliver'|apply keepsP_ret]. }
    intros [|]; [apply keepsP_ret|].
    apply keepsP_read. intros pg' HQ'.
    destruct (bucket _ _ _); [|done]. apply keepsP_at; [|done].
    apply keepsP_bind; [by apply keepsP_deliver'|intros _; apply keepsP_ret].
  - destruct (m_id m) as [i|]; [|apply keepsP_ret].
    apply keepsP_read. intros pg HQ.
    destruct (s_transIds _ !! i); [|done].
    apply keepsP_at; [|done]. by apply keepsP_onMessage'.
Qed.

Lemma keepsP_stub c name params success error :
  (∀ c m, keeps P (call c m)) → keepsP Q (stub c name params success error).
Proof.
  intros Hc. unfold stub. apply keepsP_read. intros pg HQ.
  case_bool_decide; [|by apply keepsP_at; [apply keepsP_lift, kept_type_error|]].
  destruct (truthy success);
    (apply keepsP_at; [|done]); [by apply keepsP_lift|apply keepsP_lift, kept_notify].
Qed.

End KeptCode.

(** *** Actions and runs *)

Section KeptActions.
Context `{Platform} `{Engine}.
Context (P : Proc → Prop) (E : (chanref → chan_ext) → Prop) `{!Kept P}.

Local Notation Q := (both P E).

Lemma keepsP_make_object c cfg :
  tolerant P E c → (∀ x e, E e → E (<[c := x]> e)) →
  keepsP Q (make_object c cfg).
Proof.
  intros Ht Hx. unfold make_object.
  apply keepsP_bind; [apply keepsP_ext; intros e; apply Hx|intros _].
  apply keepsP_bind.
  { destruct (truthy _); [|apply keepsP_ret].
    apply keepsP_read. intros pg HQ. apply keepsP_at; [|done].
    by apply keepsP_createStubs. }
  intros _. apply keepsP_bind; [apply keepsP_ready_due|intros _].
  apply keepsP_ret.
Qed.

Lemma keepsP_build' cfg :
  (∀ cfg, keeps P (build cfg)) → (∀ c, tolerant P E c) →
  (∀ c x e, E e → E (<[c := x]> e)) →
  keepsP Q (build' cfg).
Proof.
  intros Hb Ht Hx. destruct cfg as [cfg|]; simpl; [|by apply keepsP_lift].
  apply keepsP_bind; [by apply keepsP_lift|intros c].
  apply keepsP_make_object; [apply Ht|apply Hx].
Qed.

Lemma keepsP_destroy c :
  (∀ w o s, keeps P (s_removeBoundChan w o s)) →
  (∀ c, keeps P (modify (set_chan c wiped))) →
  (∀ e, E e → E (<[c := ended (e c)]> e)) →
  keepsP Q (destroy c).
Proof.
  intros Hr Hw Hx. unfold destroy. apply keepsP_read. intros pg HQ.
  apply keepsP_at; [|done].
  apply keepsP_bind; [by apply keepsP_lift|intros _].
  apply keepsP_bind; [apply keepsP_lift, Hw|intros _].
  apply keepsP_ext, Hx.
Qed.

Lemma keepsP_run_action a :
  (∀ c, guarded P E c) →
  (∀ cfg, keepsP Q (build' cfg)) →
  (∀ c, keepsP Q (destroy c)) →
  (∀ c m, (c, m) ∈ action_calls a → keeps P (call c m)) →
  (∀ n, keeps P (run_event (ETimer n))) →
  (∀ l o, keeps P (run_event (EStore l o))) →
  keepsP Q (run_action a).
Proof.
  intros Hg Hb Hd Hc Ht Hs. destruct a; simpl.
  - apply keepsP_bind; [apply Hb|intros _; apply keepsP_ret].
  - apply keepsP_lift, Hc. simpl. set_solver.
  - apply keepsP_lift, kept_notify.
  - by apply keepsP_bind'.
  - apply keepsP_bind; [by apply keepsP_unbind'|intros _; apply keepsP_ret].
  - unfold stub. apply keepsP_read. intros pg HQ.
    case_bool_decide;
      [|by apply keepsP_at; [apply keepsP_lift, kept_type_error|]].
    destruct (truthy success); (apply keepsP_at; [|done]).
    + apply keepsP_lift, Hc. simpl. set_solver.
    + apply keepsP_lift, kept_notify.
  - apply Hd.
  - by apply keepsP_s_onMessage'.
  - apply keepsP_lift, Ht.
  - apply keepsP_read. intros pg HQ.
    destruct (ready_due pg !! n); [|done]. apply keepsP_at; [|done].
    apply keepsP_bind; [apply keepsP_ready_due|intros _].
    by apply keepsP_ready_post.
  - apply keepsP_lift, Hs.
Qed.

Lemma keepsP_runP acts pg :
  (∀ a, a ∈ acts → keepsP Q (run_action a)) → Q pg → Q (runP acts pg).
Proof.
  revert pg. induction acts as [|a acts IH]; intros pg Ha HQ; simpl; [done|].
  apply IH.
  - intros a' Hin. apply Ha. by apply list_elem_of_further.
  - apply (Ha a); [apply list_elem_of_here|done].
Qed.

End KeptActions.

(** *** Properties that only callbacks, calls and evictions can break *)

Lemma quiet_s_removeBoundChan `{Platform} w origin scope :
  quiet_m (s_removeBoundChan w origin scope).
Proof.
  unfold s_removeBoundChan. apply quiet_bind; [apply quiet_get|intros st].
  destruct (s_boundChans st !! _) as [scopes|]; [|apply quiet_type_error].
  destruct (scopes !! scope); [|apply quiet_type_error].
  apply quiet_modify. quiet_fields.
Qed.

Lemma quiet_wiped st c : quiet st (set_chan c wiped st).
Proof.
  split; [split|]; simpl; [done| |done].
  intros c' id e. destruct (decide (c = c')) as [->|Hc].
  - by rewrite fn_lookup_insert.
  - by rewrite fn_lookup_insert_ne.
Qed.

Lemma quiet_set_ready st c b : quiet st (set_chan c (set_ready b) st).
Proof. quiet_fields. Qed.

(** A property that holds of the process along the runs of the channel
    code holds along the runs of the page. *)
Lemma runP_quiet_closed `{Platform} `{Engine} P acts pg :
  quiet_closed P →
  (∀ c id m, keeps P (on_response c id m)) →
  (∀ t, keeps P (timeout_expired t)) →
  (∀ a c m, a ∈ acts → (c, m) ∈ action_calls a → keeps P (call c m)) →
  P (proc pg) → P (proc (runP acts pg)).
Proof.
  intros Hq Hr Ht Hc HP.
  pose proof (kept_of_quiet P Hq Hr) as HK.
  assert (Htol : ∀ c, tolerant P (λ _, True) c).
  { intros c. split; [|done]. intros b. apply keeps_quiet; [done|].
    apply quiet_modify. intros st. apply quiet_set_ready. }
  apply (keepsP_runP P (λ _, True) acts pg); [|done].
  intros a Hin. apply keepsP_run_action; try done.
  - intros c. by left.
  - intros cfg.
    apply keepsP_build';
      [exact HK|intros cfg'; apply keeps_quiet; [done|apply quiet_build]
      |exact Htol|done].
  - intros c.
    apply keepsP_destroy;
      [intros; apply keeps_quiet; [done|apply quiet_s_removeBoundChan]
      |intros c'; apply keeps_quiet; [done|];
       apply quiet_modify; intros st; apply quiet_wiped
      |done].
  - intros c m. by apply Hc.
  - intros n. apply keeps_run_event; try done.
  - intros l o. apply keeps_run_event; try done.
Qed.

(** ** Calls and their callbacks, with the whole object *)

Lemma ids_fresh_runP `{Platform} `{Engine} acts pg :
  ids_fresh (proc pg) → ids_fresh (proc (runP acts pg)).
Proof.
  apply runP_quiet_closed.
  - apply ids_fresh_quiet_closed.
  - intros c id m. apply keeps_on_response_shrinks.
    intros ???; by apply ids_fresh_shrinks.
  - intros t. apply keeps_timeout_expired_shrinks.
    intros ???; by apply ids_fresh_shrinks.
  - intros a c m _ _. apply ids_fresh_call.
Qed.

Lemma resolved_once_runP `{Platform} `{Engine} acts pg :
  Forall calm_action acts →
  resolved_once (proc pg) → resolved_once (proc (runP acts pg)).
Proof.
  intros Hcalm. apply runP_quiet_closed.
  - apply resolved_once_quiet_closed.
  - apply resolved_once_on_response.
  - apply resolved_once_timeout_expired.
  - intros a c m Hin Hcall. apply resolved_once_call.
    by apply (proj1 (Forall_forall _ _) Hcalm a Hin).
Qed.

Lemma settled_runP `{Platform} `{Engine} id n acts pg :
  settled id n (proc pg) → settled id n (proc (runP acts pg)).
Proof.
  apply runP_quiet_closed.
  - apply settled_quiet_closed.
  - intros c id' m. apply settled_on_response.
  - intros t. apply settled_timeout_expired.
  - intros a c m _ _. apply settled_call.
Qed.

(** What a [destroy] that returns has done. *)
Lemma destroy_ok `{Platform} `{Engine} c pg pg1 :
  destroy c pg = POk tt pg1 →
  ∃ st1,
    s_removeBoundChan (cfg_window (chans (proc pg) c))
      (if origin_null (ext pg c) then None
       else Some (cfg_origin (chans (proc pg) c)))
      (cfg_scope (chans (proc pg) c)) (proc pg) = Ok tt st1
    ∧ pg1 = set_ext c ended (set_proc (λ _, set_chan c wiped st1) pg).
Proof.
  unfold destroy. unfold bindP at 1. unfold getP. unfold bindP at 1.
  unfold lift at 1.
  destruct (s_removeBoundChan _ _ _ _) as [[] st1|e st1|] eqn:Er; [|done|done].
  intros [= <-]. by exists st1.
Qed.

(** X13.  With the whole channel object in play (the ready handshake,
    the stubs, [destroy]), the success and error callbacks of one
    transaction are still invoked at most once in all, along every run
    in which the callbacks handed over return. *)
Theorem callbacks_once_on_the_page `{Platform} `{Engine} w k h acts id :
  Forall calm_action acts →
  (resolutions id (log (proc (runP acts (initial_page w k h)))) ≤ 1)%nat.
Proof.
  intros Hcalm.
  apply (ro_once _ (resolved_once_runP acts (initial_page w k h) Hcalm
                      (resolved_once_initial w k h))).
Qed.

(** X14.  [destroy] ends the calls that are outstanding on the
    channel: whatever happens afterwards (a late response, the expiry
    of a timer), neither the success nor the error callback of such a
    call is invoked, and the call is outstanding nowhere. *)
Theorem destroy_ends_outstanding_calls `{Platform} `{Engine}
    w k h acts1 c id e pg1 acts2 :
  outTbl (chans (proc (runP acts1 (initial_page w k h))) c) !! id = Some e →
  destroy c (runP acts1 (initial_page w k h)) = POk tt pg1 →
  resolutions id (log (proc (runP acts2 pg1)))
  = resolutions id (log (proc (runP acts1 (initial_page w k h))))
  ∧ ∀ c', outTbl (chans (proc (runP acts2 pg1)) c') !! id = None.
Proof.
  set (pg := runP acts1 (initial_page w k h)). intros He Hd.
  assert (Hfresh : ids_fresh (proc pg))
    by apply ids_fresh_runP, ids_fresh_initial.
  destruct (destroy_ok c pg pg1 Hd) as (st1 & Hr & ->).
  destruct (s_removeBoundChan_inv _ _ _ _ _ Hr) as (arr & _ & Hst1 & _).
  assert (Hset : settled id (resolutions id (log (proc pg)))
                   (set_chan c wiped st1)).
  { rewrite Hst1. split; [|split]; simpl.
    - apply (if_below _ Hfresh c). by rewrite He.
    - intros c'. destruct (decide (c = c')) as [<-|Hc].
      + by rewrite fn_lookup_insert.
      + rewrite fn_lookup_insert_ne by done.
        destruct (outTbl (chans (proc pg) c') !! id) eqn:E'; [|done].
        destruct Hc. apply (if_unique _ Hfresh c c' id); by eexists.
    - done. }
  pose proof (settled_runP id _ acts2
                (set_ext c ended (set_proc (λ _, set_chan c wiped st1) pg))
                Hset)
    as (_ & Hnone & Hres).
  by split.
Qed.

Lemma callbacks_once_on_the_page_witness :
  (resolutions 500000
     (log (proc (@runP sample_platform sample_engine
                   [ABuild (Some plain_cfg);
                    ACall 0%nat (Some (sample_call VUndef));
                    AMessage answer_500000; AMessage answer_500000]
                   (initial_page 0%nat half_seed ∅)))) ≤ 1)%nat.
Proof.
  apply (@callbacks_once_on_the_page sample_platform sample_engine).
  repeat constructor; intros c m Hin; simpl in Hin;
    try (by apply not_elem_of_nil in Hin).
  apply list_elem_of_singleton in Hin. injection Hin as -> ->. by simpl.
Defined.

Lemma destroy_ends_outstanding_calls_witness :
  ∃ pg1,
    destroy 0%nat
      (@runP sample_platform sample_engine
         [ABuild (Some plain_cfg); ACall 0%nat (Some (sample_call VUndef))]
         (initial_page 0%nat half_seed ∅)) = POk tt pg1
    ∧ resolutions 500000
        (log (proc (@runP sample_platform sample_engine
                      [AMessage answer_500000] pg1))) = 0%nat.
Proof.
  destruct (destroy 0%nat
              (@runP sample_platform sample_engine
                 [ABuild (Some plain_cfg);
                  ACall 0%nat (Some (sample_call VUndef))]
                 (initial_page 0%nat half_seed ∅)))
    as [[] pg1|e pg1|] eqn:Ed; [|by vm_compute in Ed..].
  exists pg1. split; [done|].
  destruct (@destroy_ends_outstanding_calls sample_platform sample_engine
              0%nat half_seed ∅
              [ABuild (Some plain_cfg);
               ACall 0%nat (Some (sample_call VUndef))]
              0%nat 500000 (OutEntry ∅ err_fn ok_fn) pg1
              [AMessage answer_500000]) as [Hres _];
    [by vm_compute|done|].
  rewrite Hres. by vm_compute.
Defined.

(** ** A destroyed channel *)

Lemma same_ready_refl st : same_ready st st.
Proof. by split. Qed.

Lemma same_ready_trans st1 st2 st3 :
  same_ready st1 st2 → same_ready st2 st3 → same_ready st1 st3.
Proof. intros [N1 R1] [N2 R2]. split; [congruence|]. intros c. by rewrite R2. Qed.

Ltac ready_leaf :=
  intros; split; simpl; [done|]; intros c';
  try match goal with
      | |- context [ <[?c := _]> _ ?c' ] =>
          destruct (decide (c = c')) as [?|?]; [subst|]
      end; chan_lookup; done.

#[global] Instance same_ready_heaplog : HeapLog same_ready.
Proof.
  split; [apply same_ready_refl|apply same_ready_trans|..]; ready_leaf.
Qed.

#[global] Instance same_ready_passive : Passive same_ready.
Proof. split; [apply _|..]; ready_leaf. Qed.

#[global] Instance same_ready_stable : Stable same_ready.
Proof. split; [apply _|..]; ready_leaf. Qed.

Lemma valid_origin_not_null o : valid_origin o ≠ Some "null".
Proof.
  destruct o as [| | | |s| |]; try done. simpl.
  destruct (String.eqb s "*"); [done|].
  intros (sch & host & port & rest & Hsch & _ & Hr & _)%match_origin_shape.
  rewrite toLowerCase_app in Hr. by destruct Hsch as [-> | ->].
Qed.

(** *** The registry has no origin ["null"] *)

Lemma no_null_origin_wiring st st' :
  same_wiring st st' → no_null_origin st → no_null_origin st'.
Proof. intros [Hr _]. unfold no_null_origin. by rewrite Hr. Qed.

Lemma no_null_origin_build `{Platform} cfg : keeps no_null_origin (build cfg).
Proof.
  intros st Hst. destruct (build cfg st) as [c st'|e st'|] eqn:Eb; simpl;
    [|by rewrite (build_fails _ _ _ _ Eb)|done].
  destruct (build_inv _ _ _ _ Eb)
    as (bcfg & w & origin & scope & st1 & -> & _ & _ & Ho & _ & _ & Ha & ->).
  apply s_addBoundChan_state in Ha as ->. unfold no_null_origin. simpl.
  rewrite lookup_insert_ne; [done|]. intros ->. by apply valid_origin_not_null in Ho.
Qed.

Lemma no_null_origin_remove `{Platform} w origin scope :
  keeps no_null_origin (s_removeBoundChan w origin scope).
Proof.
  intros st Hst. unfold s_removeBoundChan, and_then at 1. unfold get.
  destruct (s_boundChans st !! default "null" origin) as [scopes|] eqn:Eo;
    [|done].
  destruct (scopes !! scope); [|done]. unfold no_null_origin. simpl.
  rewrite lookup_insert_ne; [done|]. intros Hn. rewrite Hn in Eo.
  by rewrite Hst in Eo.
Qed.

Lemma same_wiring_queue_publish c f st :
  same_wiring st (set_chan c (set_publishQueue f) st).
Proof. wiring_leaf. Qed.

Lemma same_wiring_queue_pending c f st :
  same_wiring st (set_chan c (set_pendingQueue f) st).
Proof. wiring_leaf. Qed.

Lemma same_wiring_set_ready c b st :
  same_wiring st (set_chan c (set_ready b) st).
Proof. wiring_leaf. Qed.

Lemma same_wiring_wiped c st : same_wiring st (set_chan c wiped st).
Proof. wiring_leaf. Qed.

Lemma no_null_origin_runP `{Platform} `{Engine} acts pg :
  no_null_origin (proc pg) → no_null_origin (proc (runP acts pg)).
Proof.
  intros HP.
  assert (HK : Kept no_null_origin).
  { apply (kept_of_stable same_wiring).
    - apply no_null_origin_wiring.
    - apply same_wiring_queue_publish.
    - apply same_wiring_queue_pending. }
  assert (Hw : ∀ A (m : M A), respects same_wiring m → keeps no_null_origin m).
  { intros A m. apply keeps_respects, no_null_origin_wiring. }
  assert (Htol : ∀ c, tolerant no_null_origin (λ _, True) c).
  { intros c. split; [|done]. intros b. apply Hw.
    intros st. apply same_wiring_set_ready. }
  apply (keepsP_runP no_null_origin (λ _, True) acts pg); [|done].
  intros a Hin. apply keepsP_run_action.
  - exact HK.
  - intros c. by left.
  - intros cfg.
    apply keepsP_build';
      [exact HK|apply no_null_origin_build|exact Htol|done].
  - intros c.
    apply keepsP_destroy; [apply no_null_origin_remove| |done].
    intros c'. apply Hw. intros st. apply same_wiring_wiped.
  - intros c m _. apply Hw. exact (respects_call same_wiring c m).
  - intros n. apply Hw. by apply (respects_run_event same_wiring).
  - intros l o. apply Hw. by apply (respects_run_event same_wiring).
Qed.

(** *** [destroyed] lasts *)

Section Destroyed.
Context `{Platform} `{Engine} (c : chanref).

Local Notation dproc := (down_proc c).
Local Notation dext := (down_ext c).

Lemma destroyed_both pg : destroyed c pg ↔ both dproc dext pg.
Proof.
  split.
  - intros [? ? ? ? ?]. by repeat split.
  - intros [(? & ? & ?) [? ?]]. by split.
Qed.

Lemma down_proc_ready st st' : same_ready st st' → dproc st → dproc st'.
Proof. intros [Hn Hr] [Hlt Hf]. split; [by rewrite Hn|by rewrite Hr]. Qed.

Lemma down_respects {A} (m : M A) : respects same_ready m → keeps dproc m.
Proof. apply keeps_respects, down_proc_ready. Qed.

Lemma down_kept : Kept dproc.
Proof.
  apply (kept_of_stable same_ready).
  - apply down_proc_ready.
  - ready_leaf.
  - ready_leaf.
Qed.

Lemma down_tolerant c2 : c2 ≠ c → tolerant dproc dext c2.
Proof.
  intros Hc. split.
  - intros b st [Hlt Hf]. split; simpl; [done|].
    by rewrite fn_lookup_insert_ne.
  - intros f e. unfold down_ext. by rewrite fn_lookup_insert_ne.
Qed.

Lemma down_guarded c2 : guarded dproc dext c2.
Proof.
  destruct (decide (c2 = c)) as [->|Hc].
  - right. by intros e (_ & Hn & _).
  - left. by apply down_tolerant.
Qed.

Lemma down_build cfg : keeps dproc (build cfg).
Proof.
  intros st [Hlt Hf]. destruct (build cfg st) as [c2 st'|e st'|] eqn:Eb; simpl;
    [|by rewrite (build_fails _ _ _ _ Eb)|done].
  destruct (build_ok _ _ _ _ Eb)
    as (bcfg & w & origin & scope & _ & _ & _ & _ & _ & -> & Hn & _ & Hoth & _).
  split; [lia|]. rewrite Hoth by lia. done.
Qed.

Lemma down_build' cfg : keepsP (both dproc dext) (build' cfg).
Proof.
  pose proof down_kept as HK.
  destruct cfg as [cfg|]; simpl; [|apply keepsP_lift, down_build].
  intros pg [HE HP]. unfold bindP at 1. unfold lift at 1.
  pose proof (down_build (Some (oc_base cfg)) (proc pg) HP) as HP'.
  destruct (build (Some (oc_base cfg)) (proc pg)) as [c2 st'|e st'|] eqn:Eb;
    simpl in *; [|done|done].
  destruct (build_ok _ _ _ _ Eb)
    as (_ & _ & _ & _ & _ & _ & _ & _ & _ & -> & _).
  assert (Hc : nchans (proc pg) ≠ c) by (destruct HP; lia).
  assert (Hk : keepsP (both dproc dext)
                 (make_object (nchans (proc pg)) cfg)).
  { apply keepsP_make_object; [exact HK|by apply down_tolerant|].
    intros x e0. unfold down_ext. by rewrite fn_lookup_insert_ne. }
  specialize (Hk (set_proc (λ _, st') pg) (conj HE HP')).
  by destruct (make_object _ _ _).
Qed.

Lemma down_remove w origin scope :
  keeps dproc (s_removeBoundChan w origin scope).
Proof.
  intros st HP. unfold s_removeBoundChan, and_then at 1. unfold get.
  destruct (s_boundChans st !! _) as [scopes|]; [|done].
  by destruct (scopes !! scope).
Qed.

Lemma down_wiped c2 : keeps dproc (modify (set_chan c2 wiped)).
Proof.
  intros st [Hlt Hf]. split; simpl; [done|].
  destruct (decide (c2 = c)) as [->|Hc].
  - by rewrite fn_lookup_insert.
  - by rewrite fn_lookup_insert_ne.
Qed.

Lemma down_ended c2 e : dext e → dext (<[c2 := ended (e c2)]> e).
Proof.
  unfold down_ext. destruct (decide (c2 = c)) as [->|Hc].
  - by rewrite fn_lookup_insert.
  - by rewrite fn_lookup_insert_ne.
Qed.

Lemma destroyed_step a pg : destroyed c pg → destroyed c (stepP pg a).
Proof.
  rewrite !destroyed_both. pose proof down_kept as HK.
  apply keepsP_run_action.
  - exact HK.
  - apply down_guarded.
  - apply down_build'.
  - intros c2. apply keepsP_destroy;
      [apply down_remove|apply down_wiped|apply down_ended].
  - intros c2 m _. apply down_respects. exact (respects_call same_ready c2 m).
  - intros n. apply down_respects. by apply (respects_run_event same_ready).
  - intros l o. apply down_respects. by apply (respects_run_event same_ready).
Qed.

Lemma destroyed_runP acts pg : destroyed c pg → destroyed c (runP acts pg).
Proof.
  revert pg. induction acts as [|a acts IH]; intros pg Hd; simpl; [done|].
  by apply IH, destroyed_step.
Qed.

End Destroyed.

Lemma destroy_makes_destroyed `{Platform} `{Engine} c pg pg1 :
  (c < nchans (proc pg))%nat → destroy c pg = POk tt pg1 → destroyed c pg1.
Proof.
  intros Hlt Hd. destruct (destroy_ok c pg pg1 Hd) as (st1 & Hr & ->).
  destruct (s_removeBoundChan_inv _ _ _ _ _ Hr) as (arr & _ & -> & _).
  split; simpl; rewrite ?fn_lookup_insert; done.
Qed.

Lemma destroy_again `{Platform} c pg :
  destroyed c pg → no_null_origin (proc pg) →
  ∃ l text,
    destroy c pg
    = PExc (VRef l)
           (set_proc (set_heap
              (insert l (Obj (CError "TypeError" (VStr text)) []))) pg).
Proof.
  intros [_ Ho _ _ _] Hn. unfold destroy. unfold bindP at 1. unfold getP.
  unfold bindP at 1. unfold lift at 1. rewrite Ho.
  destruct (s_removeBoundChan_missing (cfg_window (chans (proc pg) c)) None
              (cfg_scope (chans (proc pg) c)) (proc pg)) as (l & text & ->).
  { unfold bucket. simpl. by rewrite Hn. }
  by exists l, text.
Qed.

Lemma ready_post_down `{Platform} c pg :
  destroyed c pg → ready_post c pg = POk tt pg.
Proof.
  intros [_ _ _ Hid _]. unfold ready_post, bindP, getP. by rewrite Hid.
Qed.

(** On a channel that is not ready, [notify] and [call] leave the wire
    as it is. *)
Lemma notify_unready `{Platform} c m st :
  ready (chans st c) = false →
  wire (state_after st (notify c m st)) = wire st.
Proof.
  intros Hr. destruct (notify c m st) as [[] st'|e st'|] eqn:En; simpl;
    [| |done].
  - destruct (notify_ok_inv _ _ _ _ En) as (method & params & _ & _ & Hem).
    unfold emitted in Hem. rewrite Hr in Hem. by destruct Hem.
  - revert En. unfold notify. destruct m as [[method params]|]; simpl;
      [|by intros [= _ <-]].
    destruct method; try (by intros [= _ <-]).
    destruct (String.eqb _ ""); [by intros [= _ <-]|].
    unfold and_then at 1. unfold get. unfold postMessage, and_then at 1.
    unfold get. destruct (unserializable _ _).
    + unfold type_error, and_then, alloc, throw. by intros [= _ <-].
    + by rewrite Hr.
Qed.

Lemma call_unready `{Platform} c m st :
  ready (chans st c) = false →
  wire (state_after st (call c m st)) = wire st.
Proof.
  intros Hr. destruct (call c m st) as [[] st'|e st'|] eqn:Ec; simpl;
    [| |done].
  - destruct (call_ok_inv _ _ _ _ Ec)
      as (a & method & w & -> & Hm & Hne & Hs & Hw).
    destruct (call_ok c a method st w Hm Hne Hs Hw) as (st2 & Hc2 & Hem & _).
    rewrite Ec in Hc2. injection Hc2 as <-.
    unfold emitted in Hem. rewrite Hr in Hem. by destruct Hem.
  - destruct (call_fails _ _ _ _ _ Ec) as (-> & _). done.
Qed.

(** X15.  A channel that has been built and destroyed stays down
    whatever happens on the page: it is never ready again and has no
    reserved handler; what [notify] and [call] are given for it is
    queued and never reaches the wire; its deferred ready message, if
    still due, is not sent; and a second [destroy] throws a
    [TypeError], changing nothing. *)
Theorem destroyed_channel_stays_down `{Platform} `{Engine}
    w k h acts1 c pg1 acts2 :
  (c < nchans (proc (runP acts1 (initial_page w k h))))%nat →
  destroy c (runP acts1 (initial_page w k h)) = POk tt pg1 →
  destroyed c (runP acts2 pg1)
  ∧ (∀ m, wire (proc (stepP (runP acts2 pg1) (ANotify c m)))
          = wire (proc (runP acts2 pg1)))
  ∧ (∀ m, wire (proc (stepP (runP acts2 pg1) (ACall c m)))
          = wire (proc (runP acts2 pg1)))
  ∧ ready_post c (runP acts2 pg1) = POk tt (runP acts2 pg1)
  ∧ ∃ l text,
      destroy c (runP acts2 pg1)
      = PExc (VRef l)
             (set_proc (set_heap
                (insert l (Obj (CError "TypeError" (VStr text)) [])))
                (runP acts2 pg1)).
Proof.
  intros Hlt Hd.
  assert (Hdown : destroyed c (runP acts2 pg1)).
  { apply destroyed_runP. by eapply destroy_makes_destroyed. }
  assert (Hnull : no_null_origin (proc (runP acts2 pg1))).
  { assert (Hpg1 : pg1 = stepP (runP acts1 (initial_page w k h)) (ADestroy c)).
    { unfold stepP. simpl. by rewrite Hd. }
    rewrite Hpg1.
    change (no_null_origin
              (proc (runP acts2 (runP [ADestroy c]
                                   (runP acts1 (initial_page w k h)))))).
    by do 3 apply no_null_origin_runP. }
  split; [done|]. destruct Hdown as [? ? ? ? Hr] eqn:E.
  split; [|split; [|split]].
  - intros m. unfold stepP. simpl. unfold lift.
    pose proof (notify_unready c m _ Hr) as Hw.
    by destruct (notify c m _).
  - intros m. unfold stepP. simpl. unfold lift.
    pose proof (call_unready c m _ Hr) as Hw.
    by destruct (call c m _).
  - by apply ready_post_down.
  - by apply destroy_again.
Qed.

Lemma destroyed_channel_stays_down_witness :
  ∃ pg1,
    destroy 0%nat
      (@runP sample_platform sample_engine [ABuild (Some plain_cfg)]
         (initial_page 0%nat half_seed ∅)) = POk tt pg1
    ∧ ready (chans (proc (@runP sample_platform sample_engine
                            [ACall 0%nat (Some (sample_call VUndef));
                             AReadyPost 0%nat] pg1)) 0%nat) = false
    ∧ wire (proc (@runP sample_platform sample_engine
                    [ACall 0%nat (Some (sample_call VUndef));
                     AReadyPost 0%nat] pg1)) = [].
Proof.
  destruct (destroy 0%nat
              (@runP sample_platform sample_engine [ABuild (Some plain_cfg)]
                 (initial_page 0%nat half_seed ∅)))
    as [[] pg1|e pg1|] eqn:Ed; [|by vm_compute in Ed..].
  exists pg1. split; [done|].
  destruct (@destroyed_channel_stays_down sample_platform sample_engine
              0%nat half_seed ∅ [ABuild (Some plain_cfg)] 0%nat pg1
              [ACall 0%nat (Some (sample_call VUndef)); AReadyPost 0%nat])
    as ([_ _ _ _ Hr] & _);
    [vm_compute; lia|done|].
  split; [done|]. vm_compute in Ed. injection Ed as <-. by vm_compute.
Defined.

(** ** [build] in full *)

Lemma page_eta pg : MkPage (proc pg) (ext pg) (ready_due pg) (observed pg) = pg.
Proof. by destruct pg. Qed.

Lemma lift_ok {A} (m : M A) pg a st :
  m (proc pg) = Ok a st → lift m pg = POk a (set_proc (λ _, st) pg).
Proof. intros Hm. unfold lift. by rewrite Hm. Qed.

Lemma lift_exc {A} (m : M A) pg e st :
  m (proc pg) = Exc e st → lift m pg = PExc e (set_proc (λ _, st) pg).
Proof. intros Hm. unfold lift. by rewrite Hm. Qed.

Lemma lift_same {A} (m : M A) pg a :
  m (proc pg) = Ok a (proc pg) → lift m pg = POk a pg.
Proof.
  intros Hm. rewrite (lift_ok _ _ _ _ Hm). unfold set_proc. by rewrite page_eta.
Qed.

Lemma toString_ok `{Platform} v st :
  has_toString v → toString v st = Ok (to_display (the_heap st) v) st.
Proof. intros [Hu Hn]. by destruct v. Qed.

Lemma toString_throws `{Platform} v st :
  ¬ has_toString v →
  ∃ l text,
    toString v st
    = Exc (VRef l)
          (set_heap (insert l (Obj (CError "TypeError" (VStr text)) [])) st).
Proof.
  intros Hno. destruct v; try (destruct Hno; by split); by eexists _, _.
Qed.

Lemma has_toString_dec v : {has_toString v} + {¬ has_toString v}.
Proof.
  destruct v; try (left; by split); right; intros [? ?]; done.
Qed.

(** All stubs are made when every element has a [toString]. *)
Lemma createStubs_ok `{Platform} c l pg :
  Forall has_toString l →
  ∃ pg',
    createStubs c l pg = POk tt pg'
    ∧ proc pg' = proc pg
    ∧ ext pg' c
      = set_remote (λ t, stub_names (the_heap (proc pg)) l ∪ t) (ext pg c)
    ∧ (∀ c', c' ≠ c → ext pg' c' = ext pg c')
    ∧ ready_due pg' = ready_due pg ∧ observed pg' = observed pg.
Proof.
  intros Hl. revert pg. induction Hl as [|v r Hv Hr IH]; intros pg.
  - exists pg. split; [done|]. split; [done|]. split; [|done].
    unfold stub_names, set_remote. simpl.
    replace (∅ ∪ remote (ext pg c)) with (remote (ext pg c)) by set_solver.
    by destruct (ext pg c).
  - simpl. unfold bindP at 1.
    rewrite (lift_same _ _ _ (toString_ok v (proc pg) Hv)).
    unfold bindP at 1, modifyP at 1.
    destruct (IH (set_ext c (set_remote
                (λ t, {[to_display (the_heap (proc pg)) v]} ∪ t)) pg))
      as (pg' & -> & Hp & He & Ho & Hd & Hb).
    exists pg'. split; [done|]. simpl in *. split; [done|].
    rewrite fn_lookup_insert in He. split; [|split; [|done]].
    + rewrite He. unfold set_remote, stub_names. simpl. f_equal. set_solver.
    + intros c' Hc. rewrite (Ho c' Hc). by rewrite fn_lookup_insert_ne.
Qed.

(** Otherwise the first element without one stops the loop with a
    [TypeError]; the stubs before it have been made. *)
Lemma createStubs_throws `{Platform} c l1 v l2 pg :
  Forall has_toString l1 → ¬ has_toString v →
  ∃ pg' l text,
    createStubs c (l1 ++ v :: l2) pg = PExc (VRef l) pg'
    ∧ proc pg'
      = set_heap (insert l (Obj (CError "TypeError" (VStr text)) [])) (proc pg)
    ∧ ext pg' c
      = set_remote (λ t, stub_names (the_heap (proc pg)) l1 ∪ t) (ext pg c)
    ∧ (∀ c', c' ≠ c → ext pg' c' = ext pg c')
    ∧ ready_due pg' = ready_due pg ∧ observed pg' = observed pg.
Proof.
  intros Hl Hv. revert pg. induction Hl as [|u r Hu Hr IH]; intros pg.
  - simpl. unfold bindP at 1.
    destruct (toString_throws v (proc pg) Hv) as (l & text & Ht).
    rewrite (lift_exc _ _ _ _ Ht). eexists _, l, text. split; [done|].
    simpl. split; [done|]. split; [|done].
    unfold stub_names, set_remote. simpl.
    replace (∅ ∪ remote (ext pg c)) with (remote (ext pg c)) by set_solver.
    by destruct (ext pg c).
  - simpl. unfold bindP at 1.
    rewrite (lift_same _ _ _ (toString_ok u (proc pg) Hu)).
    unfold bindP at 1, modifyP at 1.
    destruct (IH (set_ext c (set_remote
                (λ t, {[to_display (the_heap (proc pg)) u]} ∪ t)) pg))
      as (pg' & l & text & -> & Hp & He & Ho & Hd & Hb).
    exists pg', l, text. split; [done|]. simpl in *. split; [done|].
    rewrite fn_lookup_insert in He. split; [|split; [|done]].
    + rewrite He. unfold set_remote, stub_names. simpl. f_equal. set_solver.
    + intros c' Hc. rewrite (Ho c' Hc). by rewrite fn_lookup_insert_ne.
Qed.

(** A list either has a [toString] for every element or has a first
    element without. *)
Lemma first_without_toString l :
  Forall has_toString l
  ∨ ∃ l1 v l2, l = l1 ++ v :: l2 ∧ Forall has_toString l1 ∧ ¬ has_toString v.
Proof.
  induction l as [|v r IH]; [by left|].
  destruct (has_toString_dec v) as [Hv|Hv].
  - destruct IH as [Hr|(l1 & u & l2 & -> & Hl1 & Hu)].
    + left. by constructor.
    + right. exists (v :: l1), u, l2. split; [done|]. split; [by constructor|done].
  - right. by exists [], v, r.
Qed.

Lemma build_heap `{Platform} cfg st c st' :
  build cfg st = Ok c st' → the_heap st' = the_heap st.
Proof.
  intros Hb. destruct (build_ok _ _ _ _ Hb)
    as (bcfg & w & origin & scope & _ & _ & _ & _ & _ & _ & _ & _ & _ & _ & _
        & _ & Hh & _).
  done.
Qed.

(** The stubs that [build] makes for [cfg.remote]. *)
Lemma make_object_ok `{Platform} c cfg pg :
  (truthy (oc_remote cfg) = true →
   Forall has_toString (concat_list (the_heap (proc pg)) (oc_remote cfg))) →
  ∃ pg',
    make_object c cfg pg = POk c pg'
    ∧ proc pg' = proc pg
    ∧ ext pg' c
      = ChanExt (make_chanId (oc_picks cfg)) false (oc_reconnect cfg)
          (oc_onReady cfg) reserved_natives
          (if truthy (oc_remote cfg)
           then stub_names (the_heap (proc pg))
                  (concat_list (the_heap (proc pg)) (oc_remote cfg))
           else ∅)
    ∧ (∀ c', c' ≠ c → ext pg' c' = ext pg c')
    ∧ ready_due pg' = ready_due pg ++ [c] ∧ observed pg' = observed pg.
Proof.
  intros Hl. unfold make_object. unfold bindP at 1, modifyP at 1.
  unfold bindP at 1. destruct (truthy (oc_remote cfg)) eqn:Et.
  - unfold bindP at 1, getP at 1.
    match goal with
    | |- context [ createStubs c ?l ?p ] =>
        destruct (createStubs_ok c l p) as (pg' & -> & Hp & He & Ho & Hd & Hb)
    end; [by apply Hl|].
    eexists. split; [done|]. simpl in *. rewrite fn_lookup_insert in He.
    split; [done|]. split; [|split; [|by rewrite Hd, Hb]].
    + rewrite He. unfold set_remote. simpl. f_equal. set_solver.
    + intros c' Hc. rewrite (Ho c' Hc). by rewrite fn_lookup_insert_ne.
  - eexists. split; [done|]. simpl. rewrite fn_lookup_insert.
    split; [done|]. split; [done|]. split; [|done].
    intros c' Hc. by rewrite fn_lookup_insert_ne.
Qed.

Lemma make_object_throws `{Platform} c cfg pg l1 v l2 :
  truthy (oc_remote cfg) = true →
  concat_list (the_heap (proc pg)) (oc_remote cfg) = l1 ++ v :: l2 →
  Forall has_toString l1 → ¬ has_toString v →
  ∃ pg' l text,
    make_object c cfg pg = PExc (VRef l) pg'
    ∧ proc pg'
      = set_heap (insert l (Obj (CError "TypeError" (VStr text)) [])) (proc pg)
    ∧ natives (ext pg' c) = reserved_natives
    ∧ ready_due pg' = ready_due pg ∧ observed pg' = observed pg.
Proof.
  intros Ht Hl Hl1 Hv. unfold make_object. unfold bindP at 1, modifyP at 1.
  unfold bindP at 1. rewrite Ht. unfold bindP at 1, getP at 1.
  cbn [proc set_ext]. rewrite Hl.
  match goal with
  | |- context [ createStubs c _ ?p ] =>
      destruct (createStubs_throws c l1 v l2 p Hl1 Hv)
        as (pg' & l & text & -> & Hp & He & Ho & Hd & Hb)
  end.
  exists pg', l, text. split; [done|]. simpl in *.
  rewrite fn_lookup_insert in He. split; [done|]. by rewrite He.
Qed.

(** What a [build] that returns has done. *)
Lemma build'_ok_inv `{Platform} cfg pg c pg' :
  build' cfg pg = POk c pg' →
  ∃ ocfg,
    cfg = Some ocfg
    ∧ build (Some (oc_base ocfg)) (proc pg) = Ok c (proc pg')
    ∧ (truthy (oc_remote ocfg) = true →
       Forall has_toString
              (concat_list (the_heap (proc pg)) (oc_remote ocfg)))
    ∧ ext pg' c
      = ChanExt (make_chanId (oc_picks ocfg)) false (oc_reconnect ocfg)
          (oc_onReady ocfg) reserved_natives
          (if truthy (oc_remote ocfg)
           then stub_names (the_heap (proc pg))
                  (concat_list (the_heap (proc pg)) (oc_remote ocfg))
           else ∅)
    ∧ (∀ c', c' ≠ c → ext pg' c' = ext pg c')
    ∧ ready_due pg' = ready_due pg ++ [c]
    ∧ observed pg' = observed pg.
Proof.
  destruct cfg as [ocfg|]; simpl.
  - unfold bindP at 1. unfold lift at 1.
    destruct (build (Some (oc_base ocfg)) (proc pg)) as [c0 st'|e st'|] eqn:Eb;
      [|done|done].
    pose proof (build_heap _ _ _ _ Eb) as Hh.
    destruct (first_without_toString
                (concat_list (the_heap st') (oc_remote ocfg)))
      as [Hall|(l1 & v & l2 & Hl & Hl1 & Hv)].
    + destruct (make_object_ok c0 ocfg (set_proc (λ _, st') pg))
        as (pg2 & -> & Hp & He & Ho & Hd & Hb); [done|].
      intros [= <- <-]. exists ocfg. simpl in *. rewrite Hh in He, Hall.
      rewrite Hp. split; [done|]. split; [done|]. by split.
    + destruct (truthy (oc_remote ocfg)) eqn:Et.
      * destruct (make_object_throws c0 ocfg (set_proc (λ _, st') pg)
                    l1 v l2 Et Hl Hl1 Hv) as (pg2 & l & text & -> & _).
        done.
      * destruct (make_object_ok c0 ocfg (set_proc (λ _, st') pg))
          as (pg2 & -> & Hp & He & Ho & Hd & Hb); [by rewrite Et|].
        intros [= <- <-]. exists ocfg. simpl in *. rewrite Hh in He.
        rewrite Hp. split; [done|]. split; [done|]. split; [|done].
        by rewrite Et.
  - unfold lift.
    destruct (build None (proc pg)) as [c0 st'|e st'|] eqn:Eb; [|done|done].
    by destruct (build_ok _ _ _ _ Eb) as (bcfg & ? & ? & ? & ? & _).
Qed.


(** [build] with [remote: [null]]: it throws, and the channel is in
    the registry. *)
Example build_with_null_stub :
  ∃ l pg',
    @build' sample_platform (Some null_remote_cfg)
      (initial_page 0%nat 0 null_remote_heap) = PExc (VRef l) pg'
    ∧ entries_at (s_boundChans (proc pg')) "https://a.example" "__default"
                 7%nat = 1%nat
    ∧ ready_due pg' = [].
Proof. eexists _, _. split; [by vm_compute|]. by vm_compute. Qed.

(** ** [build], [destroy], [build] *)

Lemma bucket_list_after_add w origin scope handler st st1 o s :
  s_addBoundChan w origin scope handler st = Ok tt st1 →
  default [] (bucket (s_boundChans st1) o s)
  = default [] (bucket (s_boundChans st) o s)
    ++ if bool_decide (o = origin ∧ s = scope) then [Bound w handler] else [].
Proof.
  intros ->%s_addBoundChan_state. simpl. unfold bucket.
  destruct (decide (o = origin)) as [->|Ho].
  - rewrite lookup_insert_eq. simpl. destruct (decide (s = scope)) as [->|Hs].
    + rewrite lookup_insert_eq, bool_decide_eq_true_2 by done. simpl.
      by destruct (s_boundChans st !! origin).
    + rewrite lookup_insert_ne, bool_decide_eq_false_2 by naive_solver.
      rewrite app_nil_r. by destruct (s_boundChans st !! origin).
  - rewrite lookup_insert_ne, bool_decide_eq_false_2 by naive_solver.
    by rewrite app_nil_r.
Qed.

Lemma filter_others_all w arr :
  entries_in arr w = 0%nat → filter (λ b, b_win b ≠ w) arr = arr.
Proof.
  induction arr as [|b r IH]; [done|]. rewrite entries_in_cons.
  case_bool_decide as Hb; [done|]. simpl. intros Hr.
  rewrite filter_cons_True by done. f_equal. by apply IH.
Qed.

Lemma entries_in_app arr1 arr2 w :
  entries_in (arr1 ++ arr2) w = (entries_in arr1 w + entries_in arr2 w)%nat.
Proof. unfold entries_in. by rewrite filter_app, length_app. Qed.

(** The entry added last is the one removed, when the window had
    none. *)
Lemma remove_win_last w arr handler :
  entries_in arr w = 0%nat → remove_win w (arr ++ [Bound w handler]) = arr.
Proof.
  intros Hz. rewrite remove_win_once.
  - rewrite filter_app, filter_others_all by done.
    rewrite filter_cons_False by (simpl; naive_solver). simpl.
    by rewrite app_nil_r.
  - rewrite entries_in_app, Hz. unfold entries_in.
    rewrite filter_cons_True by done. simpl. lia.
Qed.

Lemma check_scope_anywhere scope st s st' st2 :
  check_scope scope st = Ok s st' → check_scope scope st2 = Ok s st2.
Proof.
  unfold check_scope. destruct scope; try done.
  - by intros [= <- _].
  - destruct (_ <? _)%nat; [done|]. by intros [= <- _].
Qed.

Lemma registrable_entries reg reg' w origin scope :
  (∀ o s w', entries_at reg' o s w' = entries_at reg o s w') →
  registrable reg w origin scope → registrable reg' w origin scope.
Proof.
  intros He. unfold registrable. destruct (decide (origin = "*")).
  - intros Hr o Ho. rewrite He. by apply Hr.
  - by rewrite !He.
Qed.

(** A [build] that has succeeded succeeds again where the page's own
    window is the same and the registry has the same entries. *)
Lemma build_repeatable `{Platform} cfg st c st' st2 :
  build cfg st = Ok c st' →
  window st2 = window st →
  (∀ o s w', entries_at (s_boundChans st2) o s w'
             = entries_at (s_boundChans st) o s w') →
  ∃ st2', build cfg st2 = Ok (nchans st2) st2'
          ∧ chans st2' (nchans st2) = chans st' c
          ∧ the_heap st2' = the_heap st2.
Proof.
  intros Hb Hw He.
  destruct (build_inv _ _ _ _ Hb)
    as (bcfg & w & origin & scope & st1 & -> & Hwin & Hne & Ho & Hs & -> & Ha
        & ->).
  apply s_addBoundChan_ok_inv in Ha.
  destruct (s_addBoundChan_ok w origin scope (nchans st2) st2
              (registrable_entries _ _ _ _ _ He Ha)) as (st3 & Ha2 & _).
  revert Hb. unfold build. destruct has_postMessage; [|done].
  destruct has_JSON; [|done]. simpl. rewrite Hwin. intros _.
  unfold and_then at 1. unfold get. rewrite Hw.
  rewrite bool_decide_eq_false_2 by done. rewrite Ho.
  unfold and_then at 1. rewrite (check_scope_anywhere _ _ _ _ st2 Hs).
  unfold and_then at 1. rewrite Ha2.
  unfold and_then, modify, ret. eexists. split; [done|]. simpl.
  rewrite !fn_lookup_insert. split; [done|].
  apply s_addBoundChan_state in Ha2 as ->. done.
Qed.

(** X17.  [build], [destroy], [build]: where no wildcard channel is
    registered for the window and the scope, destroying a channel that
    has just been built leaves every bucket of the registry as it was
    before the [build], and the same configuration (given anew; the
    object handed to the first [build] has its origin set to [null])
    is accepted again, for a channel that starts as the first one did
    (with the same channel id if the random draws are the same).  The
    scope is not a name that the registry inherits. *)
Theorem build_destroy_build `{Platform} cfg pg c pg1 :
  build' (Some cfg) pg = POk c pg1 →
  cfg_scope (chans (proc pg1) c) ∉ inherited_names →
  entries_at (s_boundChans (proc pg)) "*" (cfg_scope (chans (proc pg1) c))
             (cfg_window (chans (proc pg1) c)) = 0%nat →
  ∃ pg2 pg3,
    destroy c pg1 = POk tt pg2
    ∧ (∀ o s, default [] (bucket (s_boundChans (proc pg2)) o s)
              = default [] (bucket (s_boundChans (proc pg)) o s))
    ∧ build' (Some cfg) pg2 = POk (S c) pg3
    ∧ chans (proc pg3) (S c) = chans (proc pg1) c
    ∧ ext pg3 (S c) = ext pg1 c.
Proof.
  intros Hb _ Hstar.
  destruct (build'_ok_inv _ _ _ _ Hb)
    as (ocfg & [= <-] & Hbuild & Hall & He & Ho & Hd & Hobs).
  destruct (build_inv _ _ _ _ Hbuild)
    as (bcfg & w & origin & scope & st1 & [= <-] & Hwin & Hne & Hor & Hs & ->
        & Ha & Hpg1).
  pose proof (build_heap _ _ _ _ Hbuild) as Hheap.
  assert (Hch : chans (proc pg1) (nchans (proc pg))
                = Chan w origin scope (bc_publish (oc_base cfg)) ∅ ∅ ∅ false
                       [] []).
  { rewrite Hpg1. simpl. by rewrite fn_lookup_insert. }
  rewrite Hch in Hstar. simpl in Hstar.
  set (arr0 := default [] (bucket (s_boundChans (proc pg)) origin scope)).
  assert (Hzero : entries_in arr0 w = 0%nat).
  { pose proof (s_addBoundChan_ok_inv _ _ _ _ _ _ Ha) as Hreg.
    unfold registrable in Hreg. destruct (decide (origin = "*")) as [->|Hno].
    - exact Hstar.
    - by destruct Hreg. }
  assert (Hbk : bucket (s_boundChans (proc pg1)) origin scope
                = Some (arr0 ++ [Bound w (nchans (proc pg))])).
  { rewrite Hpg1. simpl. rewrite (s_addBoundChan_state _ _ _ _ _ _ Ha).
    simpl. unfold bucket. rewrite lookup_insert_eq. simpl.
    rewrite lookup_insert_eq. unfold arr0, bucket.
    by destruct (s_boundChans (proc pg) !! origin). }
  destruct (s_removeBoundChan_found w (Some origin) scope _ (proc pg1) Hbk)
    as (st2 & Hrun & Hst2 & Hbk2).
  set (pg2 := set_ext (nchans (proc pg)) ended
                (set_proc (λ _, set_chan (nchans (proc pg)) wiped st2) pg1)).
  assert (Hd2 : destroy (nchans (proc pg)) pg1 = POk tt pg2).
  { unfold destroy. unfold bindP at 1. unfold getP. unfold bindP at 1.
    rewrite He, Hch. simpl. by rewrite (lift_ok _ _ _ _ Hrun). }
  assert (Hsame : ∀ o s,
             default [] (bucket (s_boundChans (proc pg2)) o s)
             = default [] (bucket (s_boundChans (proc pg)) o s)).
  { intros o s. simpl. rewrite Hbk2. simpl. case_bool_decide as Hos.
    - destruct Hos as [-> ->]. by apply remove_win_last.
    - rewrite Hpg1. simpl.
      rewrite (bucket_list_after_add _ _ _ _ _ _ o s Ha).
      rewrite bool_decide_eq_false_2 by done. by rewrite app_nil_r. }
  assert (Hst2f : window st2 = window (proc pg1)
                  ∧ nchans st2 = nchans (proc pg1)
                  ∧ the_heap st2 = the_heap (proc pg1)).
  { rewrite Hst2. done. }
  destruct Hst2f as (Hw2 & Hn2 & Hh2).
  destruct (build_repeatable _ _ _ _ (proc pg2) Hbuild)
    as (st3 & Hb3 & Hch3 & Hh3).
  { simpl. rewrite Hw2, Hpg1. simpl.
    by rewrite (s_addBoundChan_state _ _ _ _ _ _ Ha). }
  { intros o s w'. unfold entries_at. by rewrite Hsame. }
  assert (Hn : nchans (proc pg2) = S (nchans (proc pg))).
  { simpl. rewrite Hn2, Hpg1. simpl.
    by rewrite (s_addBoundChan_state _ _ _ _ _ _ Ha). }
  rewrite Hn in Hb3, Hch3.
  assert (Hheap2 : the_heap st3 = the_heap (proc pg)).
  { rewrite Hh3. simpl. by rewrite Hh2. }
  destruct (make_object_ok (S (nchans (proc pg))) cfg
              (set_proc (λ _, st3) pg2))
    as (pg3 & Hm & Hp3 & He3 & _).
  { intros Ht. simpl. rewrite Hheap2. by apply Hall. }
  exists pg2, pg3. split; [done|]. split; [done|]. split.
  { simpl. unfold bindP at 1. by rewrite (lift_ok _ _ _ _ Hb3). }
  split.
  - rewrite Hp3. simpl. by rewrite Hch3.
  - rewrite He3, He. simpl. by rewrite Hheap2.
Qed.

Lemma build_destroy_build_witness :
  ∃ pg1 pg2 pg3,
    @build' sample_platform (Some plain_cfg) (initial_page 0%nat half_seed ∅)
    = POk 0%nat pg1
    ∧ destroy 0%nat pg1 = POk tt pg2
    ∧ s_boundChans (proc pg2) !! "https://a.example" = Some ∅
    ∧ @build' sample_platform (Some plain_cfg) pg2 = POk 1%nat pg3.
Proof.
  destruct (@build' sample_platform (Some plain_cfg)
              (initial_page 0%nat half_seed ∅))
    as [c pg1|e pg1|] eqn:Eb; [|by vm_compute in Eb..].
  assert (Hc : c = 0%nat) by (vm_compute in Eb; by simplify_eq).
  subst c.
  destruct (@build_destroy_build sample_platform _ _ _ _ Eb)
    as (pg2 & pg3 & Hd & _ & Hb3 & _).
  { vm_compute in Eb. injection Eb as <-.
    replace (cfg_scope _) with "__default" by (by vm_compute).
    unfold inherited_names. set_solver. }
  { vm_compute in Eb. injection Eb as <-. by vm_compute. }
  exists pg1, pg2, pg3. split; [done|]. split; [done|]. split; [|done].
  vm_compute in Eb. injection Eb as <-. vm_compute in Hd.
  injection Hd as <-. by vm_compute.
Defined.
